(** * revia_native: audio ring buffer, frame classifier and segment extractor

    A shallow embedding of [native/src/revia_native.cpp] (the audio core,
    the image preprocessing, the phoneme timing and the spectral
    estimate), the properties its specification states about it, and
    further properties of the code.

    Conventions of the embedding.
    - [uint32_t] values are integers in [Z]; every C++ operation that can
      wrap is written with [wrap32].
    - [float] is IEEE-754 binary32 and [double] is binary64, both carried by
      [spec_float] and computed with the operations of [SpecFloat] at the
      respective precision, one rounding per operation (no fused
      multiply-add, no excess precision).  Conversions are explicit.
    - A C++ pair [(pointer, n)] is a list of [n] elements; an output array
      is the list of the elements written so far, the caller having made
      room for them.
    - A C++ function that may reach undefined behaviour (a modulo by zero,
      an access outside an array, a float that does not fit an integer) or
      whose loop may not terminate returns a [result]: [Ok], [Undefined] or
      [Timeout] (fuel exhausted).  [image_adaptive_threshold], the one
      function whose [int] and [int64_t] arithmetic can overflow, returns
      an [outcome]: a [result] or [SignedOverflow].
    - [std::log10] is the C library's: a parameter of the embedding. *)

From Stdlib Require Import ZArith Lia Bool SpecFloat.
From stdpp Require Import base tactics option list.

Open Scope Z_scope.

(* ===================================================================== *)
(** * Outcomes of a call *)
(* ===================================================================== *)

Inductive ub : Type :=
| ModuloByZero
| DivisionByZero
| OutOfBounds
| FloatToIntRange.

Inductive result (A : Type) : Type :=
| Ok (a : A)
| Undefined (why : ub)
| Timeout.

Arguments Ok {A} a.
Arguments Undefined {A} why.
Arguments Timeout {A}.

#[global] Instance result_ret : MRet result := fun _ a => Ok a.
#[global] Instance result_bind : MBind result := fun _ _ f m =>
  match m with
  | Ok a => f a
  | Undefined why => Undefined why
  | Timeout => Timeout
  end.

(* ===================================================================== *)
(** * 32-bit unsigned arithmetic *)
(* ===================================================================== *)

Definition UINT32_MAX : Z := 4294967295.

Definition wrap32 (z : Z) : Z := z mod 2 ^ 32.

Definition is_uint32 (z : Z) : Prop := 0 <= z <= UINT32_MAX.

(** [a % b] and [a / b] on [uint32_t]: undefined when [b] is zero. *)
Definition umod32 (a b : Z) : result Z :=
  if b =? 0 then Undefined ModuloByZero else Ok (a mod b).

Definition udiv32 (a b : Z) : result Z :=
  if b =? 0 then Undefined DivisionByZero else Ok (a / b).

(* ===================================================================== *)
(** * Samples *)
(* ===================================================================== *)

(** A sample is a binary32 value; intermediate sums are binary64.  Both
    live in [spec_float]; the format is the one of the operation applied. *)
Abbreviation float32 := spec_float.
Abbreviation float64 := spec_float.

Definition f32_add : float32 -> float32 -> float32 := SFadd 24 128.
Definition f32_sub : float32 -> float32 -> float32 := SFsub 24 128.
Definition f32_mul : float32 -> float32 -> float32 := SFmul 24 128.
Definition f32_div : float32 -> float32 -> float32 := SFdiv 24 128.

Definition f64_add : float64 -> float64 -> float64 := SFadd 53 1024.
Definition f64_sub : float64 -> float64 -> float64 := SFsub 53 1024.
Definition f64_mul : float64 -> float64 -> float64 := SFmul 53 1024.
Definition f64_div : float64 -> float64 -> float64 := SFdiv 53 1024.
Definition f64_sqrt : float64 -> float64 := SFsqrt 53 1024.

(** The comparison operators of C++ on two operands of one format; every
    comparison with a NaN operand is false. *)
Definition f_lt (x y : spec_float) : bool := SFltb x y.
Definition f_gt (x y : spec_float) : bool := SFltb y x.
Definition f_le (x y : spec_float) : bool := SFleb x y.
Definition f_ge (x y : spec_float) : bool := SFleb y x.

(** [static_cast<double>(float)]: exact. *)
Definition f64_of_f32 (x : float32) : float64 :=
  match x with
  | S754_finite s m e => binary_round 53 1024 s m e
  | _ => x
  end.

(** [static_cast<float>(double)]: round to nearest, ties to even. *)
Definition f32_of_f64 (x : float64) : float32 :=
  match x with
  | S754_finite s m e => binary_round 24 128 s m e
  | _ => x
  end.

(** [static_cast<float>(uint32_t)] and [static_cast<double>(uint32_t)]. *)
Definition f32_of_u32 (n : Z) : float32 := binary_normalize 24 128 n 0 false.
Definition f64_of_u32 (n : Z) : float64 := binary_normalize 53 1024 n 0 false.

(** [static_cast<uint32_t>(double)]: truncation toward zero; undefined when
    the truncated value is not a [uint32_t]. *)
Definition u32_of_f64 (x : float64) : result Z :=
  match x with
  | S754_zero _ => Ok 0
  | S754_finite s m e =>
      let t := if 0 <=? e then Z.pos m * 2 ^ e else Z.pos m / 2 ^ (- e) in
      if t =? 0 then Ok 0
      else if s then Undefined FloatToIntRange
      else if t <=? UINT32_MAX then Ok t
      else Undefined FloatToIntRange
  | _ => Undefined FloatToIntRange
  end.

(** [std::ceil] on a double. *)
Definition f64_ceil (x : float64) : float64 :=
  match x with
  | S754_finite s m e =>
      if 0 <=? e then x
      else
        let q := Z.pos m / 2 ^ (- e) in
        let r := Z.pos m mod 2 ^ (- e) in
        if s then binary_normalize 53 1024 (- q) 0 true
        else binary_normalize 53 1024 (if r =? 0 then q else q + 1) 0 false
  | _ => x
  end.

(** [std::min(a, b)]: [(b < a) ? b : a]. *)
Definition f64_min (a b : float64) : float64 := if f_lt b a then b else a.

Definition F32_zero : float32 := S754_zero false.
Definition F64_zero : float64 := S754_zero false.
(** [1.0f], [20.0f], [-100.0f], [1.0] *)
Definition F32_one : float32 := S754_finite false 8388608 (-23).
Definition F32_20 : float32 := S754_finite false 10485760 (-19).
Definition F32_m100 : float32 := S754_finite true 13107200 (-17).
Definition F64_one : float64 := S754_finite false 4503599627370496 (-52).
(** [-35.0f], the energy threshold the documentation suggests *)
Definition F32_m35 : float32 := S754_finite true 9175040 (-18).
(** [1e-10f]: the binary32 nearest to 10^-10 is 14411519 * 2^-57. *)
Definition F32_1em10 : float32 := S754_finite false 14411519 (-57).

Definition is_nan (x : spec_float) : bool :=
  match x with S754_nan => true | _ => false end.

Definition is_finite (x : spec_float) : bool :=
  match x with S754_zero _ | S754_finite _ _ _ => true | _ => false end.

Definition is_zero (x : spec_float) : bool :=
  match x with S754_zero _ => true | _ => false end.

(* ===================================================================== *)
(** * Audio ring buffer *)
(* ===================================================================== *)

Record AudioRingBuffer : Type := mkRing {
  buf : list float32;
  capacity : Z;
  write_pos : Z;
  read_pos : Z;
  count : Z
}.

(** [buf[i] = x]; an index outside the allocation is undefined behaviour. *)
Definition store (b : list float32) (i : Z) (x : float32) : result (list float32) :=
  if (0 <=? i) && (i <? Z.of_nat (length b))
  then Ok (<[Z.to_nat i := x]> b)
  else Undefined OutOfBounds.

(** [buf[i]] as an rvalue. *)
Definition load (b : list float32) (i : Z) : result float32 :=
  if 0 <=? i then
    match b !! Z.to_nat i with
    | Some x => Ok x
    | None => Undefined OutOfBounds
    end
  else Undefined OutOfBounds.

Definition ring_create (capacity : Z) : AudioRingBuffer :=
  {| buf := replicate (Z.to_nat capacity) F32_zero;
     capacity := capacity;
     write_pos := 0;
     read_pos := 0;
     count := 0 |}.

(** The loop of [ring_write]: one iteration per element of [data] while
    [rb->count < rb->capacity]. *)
Fixpoint ring_write_loop (rb : AudioRingBuffer) (data : list float32) (written : Z)
  : result (AudioRingBuffer * Z) :=
  match data with
  | [] => Ok (rb, written)
  | x :: data' =>
      if count rb <? capacity rb then
        buf' ← store (buf rb) (write_pos rb) x;
        wp ← umod32 (wrap32 (write_pos rb + 1)) (capacity rb);
        ring_write_loop
          {| buf := buf'; capacity := capacity rb; write_pos := wp;
             read_pos := read_pos rb; count := wrap32 (count rb + 1) |}
          data' (wrap32 (written + 1))
      else Ok (rb, written)
  end.

(** [ring_write(rb, data, n)] with [n] the length of [data]. *)
Definition ring_write (rb : AudioRingBuffer) (data : list float32)
  : result (AudioRingBuffer * Z) :=
  ring_write_loop rb data 0.

(** The loop of [ring_read]: at most [k] iterations while [rb->count > 0];
    [out] is the prefix of the output array written so far. *)
Fixpoint ring_read_loop (rb : AudioRingBuffer) (k : nat) (out : list float32) (read : Z)
  : result (AudioRingBuffer * list float32 * Z) :=
  match k with
  | O => Ok (rb, out, read)
  | S k' =>
      if 0 <? count rb then
        x ← load (buf rb) (read_pos rb);
        rp ← umod32 (wrap32 (read_pos rb + 1)) (capacity rb);
        ring_read_loop
          {| buf := buf rb; capacity := capacity rb; write_pos := write_pos rb;
             read_pos := rp; count := wrap32 (count rb - 1) |}
          k' (out ++ [x]) (wrap32 (read + 1))
      else Ok (rb, out, read)
  end.

Definition ring_read (rb : AudioRingBuffer) (n : Z)
  : result (AudioRingBuffer * list float32 * Z) :=
  ring_read_loop rb (Z.to_nat n) [] 0.

Definition ring_available (rb : AudioRingBuffer) : Z := count rb.

Definition ring_clear (rb : AudioRingBuffer) : AudioRingBuffer :=
  {| buf := buf rb; capacity := capacity rb;
     write_pos := 0; read_pos := 0; count := 0 |}.

(* ===================================================================== *)
(** * Signal conditioning *)
(* ===================================================================== *)

(** The loop of [audio_preemphasis]: the body runs at index [i], then at
    [i - 1], down to index 1.  [float] expressions are evaluated in
    binary32, one rounding per operation. *)
Fixpoint preemphasis_loop (i : nat) (samples : list float32) (coeff : float32)
  : result (list float32) :=
  match i with
  | O => Ok samples
  | S i' =>
      xi ← load samples (Z.of_nat (S i'));
      xp ← load samples (Z.of_nat i');
      samples' ← store samples (Z.of_nat (S i')) (f32_sub xi (f32_mul coeff xp));
      preemphasis_loop i' samples' coeff
  end.

Definition audio_preemphasis (samples : list float32) (coeff : float32)
  : result (list float32) :=
  let n := Z.of_nat (length samples) in
  if n <? 2 then Ok samples
  else
    samples' ← preemphasis_loop (Z.to_nat (wrap32 (n - 1))) samples coeff;
    x0 ← load samples' 0;
    store samples' 0 (f32_mul x0 (f32_sub F32_one coeff)).

(** The loop of [audio_resample_linear]: [k] iterations remain, [i] is the
    output index and [out] the outputs written so far. *)
Fixpoint resample_loop (k : nat) (input : list float32) (ratio : float64)
    (i : Z) (out : list float32) : result (list float32) :=
  match k with
  | O => Ok out
  | S k' =>
      let in_len := Z.of_nat (length input) in
      let src_idx := f64_mul (f64_of_u32 i) ratio in
      idx0 ← u32_of_f64 src_idx;
      let idx1 := Z.min (wrap32 (idx0 + 1)) (wrap32 (in_len - 1)) in
      let frac := f64_sub src_idx (f64_of_u32 idx0) in
      x0 ← load input idx0;
      x1 ← load input idx1;
      resample_loop k' input ratio (wrap32 (i + 1))
        (out ++ [f32_of_f64
                   (f64_add (f64_mul (f64_of_f32 x0) (f64_sub F64_one frac))
                            (f64_mul (f64_of_f32 x1) frac))])
  end.

Definition audio_resample_linear (input : list float32)
    (src_rate dst_rate out_capacity : Z) : result (list float32 * Z) :=
  let in_len := Z.of_nat (length input) in
  if (in_len =? 0) || (src_rate =? 0) || (dst_rate =? 0) then Ok ([], 0)
  else
    let ratio := f64_div (f64_of_u32 src_rate) (f64_of_u32 dst_rate) in
    out_len ← u32_of_f64
                (f64_min (f64_of_u32 out_capacity)
                         (f64_ceil (f64_div (f64_of_u32 in_len) ratio)));
    out ← resample_loop (Z.to_nat out_len) input ratio 0 [];
    Ok (out, out_len).

(* ===================================================================== *)
(** * Voice activity detection *)
(* ===================================================================== *)

(** A C++ pair [(samples, n)] is a list of [n] samples.  [samples + off]
    with a length is the sub-array; reading it outside the buffer is
    undefined behaviour. *)
Definition frame_at (samples : list float32) (off size : Z) : result (list float32) :=
  if (0 <=? off) && (0 <=? size) && (off + size <=? Z.of_nat (length samples))
  then Ok (take (Z.to_nat size) (drop (Z.to_nat off) samples))
  else Undefined OutOfBounds.

Definition sum_squares (samples : list float32) : float64 :=
  fold_left (fun sum x => let s := f64_of_f32 x in f64_add sum (f64_mul s s))
            samples F64_zero.

Definition audio_rms (samples : list float32) : float32 :=
  let n := Z.of_nat (length samples) in
  if n =? 0 then F32_zero
  else f32_of_f64 (f64_sqrt (f64_div (sum_squares samples) (f64_of_u32 n))).

(** The loop of [audio_zero_crossing_rate] from index 1: [prev] is
    [samples[i - 1]], the head of [rest] is [samples[i]]. *)
Fixpoint zero_crossings (prev : float32) (rest : list float32) (crossings : Z) : Z :=
  match rest with
  | [] => crossings
  | x :: rest' =>
      zero_crossings x rest'
        (if xorb (f_ge x F32_zero) (f_ge prev F32_zero)
         then wrap32 (crossings + 1) else crossings)
  end.

Definition audio_zero_crossing_rate (samples : list float32) : float32 :=
  let n := Z.of_nat (length samples) in
  if n <? 2 then F32_zero
  else
    match samples with
    | [] => F32_zero
    | x0 :: rest =>
        f32_div (f32_of_u32 (zero_crossings x0 rest 0)) (f32_of_u32 (wrap32 (n - 1)))
    end.

Section WithLog10.

(** [std::log10] on [float] comes from the C library. *)
Variable log10f : float32 -> float32.

Definition audio_energy_db (samples : list float32) : float32 :=
  let rms := audio_rms samples in
  if f_lt rms F32_1em10 then F32_m100
  else f32_mul F32_20 (log10f rms).

Definition vad_detect (samples : list float32)
    (energy_thresh zcr_low zcr_high : float32) : Z :=
  let energy := audio_energy_db samples in
  if f_lt energy energy_thresh then 0
  else
    let zcr := audio_zero_crossing_rate samples in
    if f_lt zcr zcr_low || f_gt zcr zcr_high then 0
    else 1.

(** [out[i] = v] on an output array of which the first [length out] slots
    have been written. *)
Definition poke {A} (out : list A) (i : Z) (v : A) : list A :=
  if i <? Z.of_nat (length out) then <[Z.to_nat i := v]> out else out ++ [v].

Fixpoint vad_detect_frames_loop (fuel : nat) (samples : list float32)
    (frame_size hop_size : Z) (energy_thresh zcr_low zcr_high : float32)
    (offset num_frames : Z) (out_flags : list Z) : result (list Z * Z) :=
  match fuel with
  | O => Timeout
  | S fuel' =>
      if wrap32 (offset + frame_size) <=? Z.of_nat (length samples) then
        frame ← frame_at samples offset frame_size;
        vad_detect_frames_loop fuel' samples frame_size hop_size
          energy_thresh zcr_low zcr_high
          (wrap32 (offset + hop_size)) (wrap32 (num_frames + 1))
          (poke out_flags num_frames
             (vad_detect frame energy_thresh zcr_low zcr_high))
      else Ok (out_flags, num_frames)
  end.

Definition vad_detect_frames (fuel : nat) (samples : list float32)
    (frame_size hop_size : Z) (energy_thresh zcr_low zcr_high : float32)
  : result (list Z * Z) :=
  vad_detect_frames_loop fuel samples frame_size hop_size
    energy_thresh zcr_low zcr_high 0 0 [].

(* ===================================================================== *)
(** * Wake-word energy detector *)
(* ===================================================================== *)

(** The locals of [find_voiced_segments] that the loop updates, and the two
    output arrays. *)
Record seg_state : Type := mkSeg {
  seg_count : Z;
  voiced_run : Z;
  run_start : Z;
  out_starts : list Z;
  out_ends : list Z
}.

(** The test that guards both places where a segment is written. *)
Definition run_qualifies (st : seg_state) (min_frames max_frames max_segments : Z) : bool :=
  (min_frames <=? voiced_run st) && (voiced_run st <=? max_frames)
  && (seg_count st <? max_segments).

(** [out_starts[seg_count] = run_start; out_ends[seg_count] = e; seg_count++] *)
Definition emit_segment (st : seg_state) (e : Z) : seg_state :=
  {| seg_count := wrap32 (seg_count st + 1);
     voiced_run := voiced_run st;
     run_start := run_start st;
     out_starts := poke (out_starts st) (seg_count st) (run_start st);
     out_ends := poke (out_ends st) (seg_count st) e |}.

Fixpoint find_voiced_segments_loop (fuel : nat) (samples : list float32)
    (frame_size : Z) (energy_thresh : float32)
    (min_frames max_frames max_segments : Z)
    (off : Z) (st : seg_state) : result seg_state :=
  match fuel with
  | O => Timeout
  | S fuel' =>
      if wrap32 (off + frame_size) <=? Z.of_nat (length samples) then
        frame ← frame_at samples off frame_size;
        let e := audio_energy_db frame in
        let st' :=
          if f_ge e energy_thresh then
            {| seg_count := seg_count st;
               voiced_run := wrap32 (voiced_run st + 1);
               run_start := if voiced_run st =? 0 then off else run_start st;
               out_starts := out_starts st;
               out_ends := out_ends st |}
          else
            let st1 :=
              if run_qualifies st min_frames max_frames max_segments
              then emit_segment st off else st in
            {| seg_count := seg_count st1;
               voiced_run := 0;
               run_start := run_start st1;
               out_starts := out_starts st1;
               out_ends := out_ends st1 |} in
        find_voiced_segments_loop fuel' samples frame_size energy_thresh
          min_frames max_frames max_segments (wrap32 (off + frame_size)) st'
      else Ok st
  end.

Definition find_voiced_segments (fuel : nat) (samples : list float32)
    (sample_rate frame_ms : Z) (energy_thresh : float32)
    (min_dur_ms max_dur_ms max_segments : Z) : result (list Z * list Z * Z) :=
  let n := Z.of_nat (length samples) in
  let frame_size := wrap32 (sample_rate * frame_ms) / 1000 in
  if (frame_size =? 0) || (n <? frame_size) then Ok ([], [], 0)
  else
    min_frames ← udiv32 (wrap32 (min_dur_ms + frame_ms - 1)) frame_ms;
    max_frames ← udiv32 max_dur_ms frame_ms;
    st ← find_voiced_segments_loop fuel samples frame_size energy_thresh
           min_frames max_frames max_segments 0
           {| seg_count := 0; voiced_run := 0; run_start := 0;
              out_starts := []; out_ends := [] |};
    let st' :=
      if run_qualifies st min_frames max_frames max_segments
      then emit_segment st n else st in
    Ok (out_starts st', out_ends st', seg_count st').

End WithLog10.

(* ===================================================================== *)
(** * Image preprocessing *)
(* ===================================================================== *)

(** An image is an array of [uint8_t]: a list of integers in [0, 255].
    [p[i]] as an rvalue; an index outside the array is undefined
    behaviour. *)
Definition load_u8 (p : list Z) (i : Z) : result Z :=
  if 0 <=? i then
    match p !! Z.to_nat i with
    | Some v => Ok v
    | None => Undefined OutOfBounds
    end
  else Undefined OutOfBounds.

(** [static_cast<float>(int)] and [static_cast<double>(int)]. *)
Definition f32_of_int (n : Z) : float32 := binary_normalize 24 128 n 0 false.
Definition f64_of_int (n : Z) : float64 := binary_normalize 53 1024 n 0 false.

(** [std::max(a, b)] is [(a < b) ? b : a] and [std::min(a, b)] is
    [(b < a) ? b : a]. *)
Definition f32_max (a b : float32) : float32 := if f_lt a b then b else a.
Definition f32_min (a b : float32) : float32 := if f_lt b a then b else a.

(** [static_cast<uint8_t>(float)]: truncation toward zero; undefined when
    the truncated value is not a [uint8_t]. *)
Definition u8_of_f32 (x : float32) : result Z :=
  match x with
  | S754_zero _ => Ok 0
  | S754_finite s m e =>
      let t := if 0 <=? e then Z.pos m * 2 ^ e else Z.pos m / 2 ^ (- e) in
      if t =? 0 then Ok 0
      else if s then Undefined FloatToIntRange
      else if t <=? 255 then Ok t
      else Undefined FloatToIntRange
  | _ => Undefined FloatToIntRange
  end.

(** [0.299f], [0.587f], [0.114f]: the binary32 numbers nearest to the
    decimal literals; [255.0f]. *)
Definition F32_0299 : float32 := S754_finite false 10032775 (-25).
Definition F32_0587 : float32 := S754_finite false 9848226 (-24).
Definition F32_0114 : float32 := S754_finite false 15300821 (-27).
Definition F32_255 : float32 := S754_finite false 16711680 (-16).

(** [lum]: each [uint8_t] operand is promoted to [int] and converted to
    [float]; the sum associates to the left. *)
Definition luminosity (r g b : Z) : float32 :=
  f32_add (f32_add (f32_mul F32_0299 (f32_of_int r))
                   (f32_mul F32_0587 (f32_of_int g)))
          (f32_mul F32_0114 (f32_of_int b)).

(** The value stored in [gray[i]]. *)
Definition gray_of_rgb (r g b : Z) : result Z :=
  u8_of_f32 (f32_min F32_255 (f32_max F32_zero (luminosity r g b))).

(** The loop of [image_rgb_to_gray]: [k] iterations remain, [i] is the
    pixel index, [gray] the output written so far. *)
Fixpoint rgb_to_gray_loop (k : nat) (rgb : list Z) (i : Z) (gray : list Z)
  : result (list Z) :=
  match k with
  | O => Ok gray
  | S k' =>
      let off := wrap32 (i * 3) in
      r ← load_u8 rgb off;
      g ← load_u8 rgb (wrap32 (off + 1));
      b ← load_u8 rgb (wrap32 (off + 2));
      v ← gray_of_rgb r g b;
      rgb_to_gray_loop k' rgb (wrap32 (i + 1)) (poke gray i v)
  end.

Definition image_rgb_to_gray (rgb : list Z) (width height : Z) : result (list Z) :=
  let total := wrap32 (width * height) in
  rgb_to_gray_loop (Z.to_nat total) rgb 0 [].

(** The Laplacian at [(x, y)]: the five reads of [image_sharpness]; the
    [uint8_t] values are promoted to [int], whose arithmetic cannot
    overflow on five bytes. *)
Definition laplacian (gray : list Z) (width x y : Z) : result Z :=
  c ← load_u8 gray (wrap32 (wrap32 (y * width) + x));
  u ← load_u8 gray (wrap32 (wrap32 (wrap32 (y - 1) * width) + x));
  d ← load_u8 gray (wrap32 (wrap32 (wrap32 (y + 1) * width) + x));
  l ← load_u8 gray (wrap32 (wrap32 (y * width) + wrap32 (x - 1)));
  r ← load_u8 gray (wrap32 (wrap32 (y * width) + wrap32 (x + 1)));
  Ok (-4 * c + u + d + l + r).

(** The inner loop of [image_sharpness] on row [y]: [k] iterations remain,
    the accumulator is [(sum, sum_sq, count)]. *)
Fixpoint sharpness_row (k : nat) (gray : list Z) (width y x : Z)
    (acc : float64 * float64 * Z) : result (float64 * float64 * Z) :=
  match k with
  | O => Ok acc
  | S k' =>
      let '(sum, sum_sq, count) := acc in
      lap ← laplacian gray width x y;
      let d := f64_of_int lap in
      sharpness_row k' gray width y (wrap32 (x + 1))
        (f64_add sum d, f64_add sum_sq (f64_mul d d), wrap32 (count + 1))
  end.

(** The outer loop: [k] rows remain; each row runs [x] from 1 while
    [x < width - 1]. *)
Fixpoint sharpness_rows (k : nat) (gray : list Z) (width y : Z)
    (acc : float64 * float64 * Z) : result (float64 * float64 * Z) :=
  match k with
  | O => Ok acc
  | S k' =>
      acc' ← sharpness_row (Z.to_nat (wrap32 (width - 1) - 1)) gray width y 1 acc;
      sharpness_rows k' gray width (wrap32 (y + 1)) acc'
  end.

Definition image_sharpness (gray : list Z) (width height : Z) : result float32 :=
  if (width <? 3) || (height <? 3) then Ok F32_zero
  else
    '(sum, sum_sq, count) ←
      sharpness_rows (Z.to_nat (wrap32 (height - 1) - 1)) gray width 1
        (F64_zero, F64_zero, 0);
    if count =? 0 then Ok F32_zero
    else
      let mean := f64_div sum (f64_of_u32 count) in
      let variance := f64_sub (f64_div sum_sq (f64_of_u32 count)) (f64_mul mean mean) in
      Ok (f32_of_f64 variance).

(** [static_cast<uint32_t>(float)]: truncation toward zero, as for a
    [double]. *)
Definition u32_of_f32 (x : float32) : result Z := u32_of_f64 x.

(** [val]: the weighted sum of the four neighbours; each [uint8_t] operand
    and the [int] 1 are converted to [float], products and sums associate
    to the left. *)
Definition bilinear (v00 v01 v10 v11 : Z) (fx fy : float32) : float32 :=
  let one_fx := f32_sub (f32_of_int 1) fx in
  let one_fy := f32_sub (f32_of_int 1) fy in
  f32_add
    (f32_add
       (f32_add (f32_mul (f32_mul (f32_of_int v00) one_fx) one_fy)
                (f32_mul (f32_mul (f32_of_int v01) fx) one_fy))
       (f32_mul (f32_mul (f32_of_int v10) one_fx) fy))
    (f32_mul (f32_mul (f32_of_int v11) fx) fy).

(** The inner loop of [image_resize_bilinear] on destination row [dy]:
    [k] iterations remain, [dx] is the destination column. *)
Fixpoint resize_row (k : nat) (src : list Z) (sw : Z) (x_ratio : float32)
    (y0 y1 : Z) (fy : float32) (dw dy dx : Z) (dst : list Z) : result (list Z) :=
  match k with
  | O => Ok dst
  | S k' =>
      let sx := f32_mul (f32_of_u32 dx) x_ratio in
      x0 ← u32_of_f32 sx;
      let x1 := Z.min (wrap32 (x0 + 1)) (wrap32 (sw - 1)) in
      let fx := f32_sub sx (f32_of_u32 x0) in
      v00 ← load_u8 src (wrap32 (wrap32 (y0 * sw) + x0));
      v01 ← load_u8 src (wrap32 (wrap32 (y0 * sw) + x1));
      v10 ← load_u8 src (wrap32 (wrap32 (y1 * sw) + x0));
      v11 ← load_u8 src (wrap32 (wrap32 (y1 * sw) + x1));
      v ← u8_of_f32 (f32_min F32_255
                       (f32_max F32_zero (bilinear v00 v01 v10 v11 fx fy)));
      resize_row k' src sw x_ratio y0 y1 fy dw dy (wrap32 (dx + 1))
        (poke dst (wrap32 (wrap32 (dy * dw) + dx)) v)
  end.

(** The outer loop: [k] destination rows remain. *)
Fixpoint resize_rows (k : nat) (src : list Z) (sw sh : Z)
    (x_ratio y_ratio : float32) (dw dy : Z) (dst : list Z) : result (list Z) :=
  match k with
  | O => Ok dst
  | S k' =>
      let sy := f32_mul (f32_of_u32 dy) y_ratio in
      y0 ← u32_of_f32 sy;
      let y1 := Z.min (wrap32 (y0 + 1)) (wrap32 (sh - 1)) in
      let fy := f32_sub sy (f32_of_u32 y0) in
      dst' ← resize_row (Z.to_nat dw) src sw x_ratio y0 y1 fy dw dy 0 dst;
      resize_rows k' src sw sh x_ratio y_ratio dw (wrap32 (dy + 1)) dst'
  end.

Definition image_resize_bilinear (src : list Z) (sw sh dw dh : Z)
  : result (list Z) :=
  let x_ratio := f32_div (f32_of_u32 (wrap32 (sw - 1))) (f32_of_u32 dw) in
  let y_ratio := f32_div (f32_of_u32 (wrap32 (sh - 1))) (f32_of_u32 dh) in
  resize_rows (Z.to_nat dh) src sw sh x_ratio y_ratio dw 0 [].

(* ===================================================================== *)
(** * Adaptive threshold *)
(* ===================================================================== *)

(** [image_adaptive_threshold] computes on [int] and [int64_t], whose
    overflow is undefined behaviour of a kind the other functions do not
    have: its outcomes are theirs and one more. *)
Inductive outcome (A : Type) : Type :=
| Plain (r : result A)
| SignedOverflow.

Arguments Plain {A} r.
Arguments SignedOverflow {A}.

#[global] Instance outcome_ret : MRet outcome := fun _ a => Plain (Ok a).
#[global] Instance outcome_bind : MBind outcome := fun _ _ f m =>
  match m with
  | Plain (Ok a) => f a
  | Plain (Undefined why) => Plain (Undefined why)
  | Plain Timeout => Plain Timeout
  | SignedOverflow => SignedOverflow
  end.

Definition INT_MIN : Z := -2147483648.
Definition INT_MAX : Z := 2147483647.
Definition INT64_MIN : Z := -9223372036854775808.
Definition INT64_MAX : Z := 9223372036854775807.

(** The result [r] of an [int] addition, subtraction or multiplication,
    and of an [int64_t] one. *)
Definition int_op (r : Z) : outcome Z :=
  if (INT_MIN <=? r) && (r <=? INT_MAX) then Plain (Ok r) else SignedOverflow.
Definition int64_op (r : Z) : outcome Z :=
  if (INT64_MIN <=? r) && (r <=? INT64_MAX) then Plain (Ok r) else SignedOverflow.

(** [static_cast<int>(uint32_t)] keeps the value modulo [2^32]. *)
Definition int_of_u32 (n : Z) : Z := if n <=? INT_MAX then n else n - 2 ^ 32.

(** [v[i]] on a [std::vector], as an rvalue and as the target of an
    assignment; [operator[]] does not check the index. *)
Definition vector_get (v : list Z) (i : Z) : result Z :=
  if 0 <=? i then
    match v !! Z.to_nat i with
    | Some a => Ok a
    | None => Undefined OutOfBounds
    end
  else Undefined OutOfBounds.

Definition vector_set (v : list Z) (i : Z) (a : Z) : result (list Z) :=
  if (0 <=? i) && (i <? Z.of_nat (length v)) then Ok (<[Z.to_nat i := a]> v)
  else Undefined OutOfBounds.

(** The index of [IDX(y, x)], computed on [uint32_t]. *)
Definition IDX (width y x : Z) : Z :=
  wrap32 (wrap32 (wrap32 (y + 1) * wrap32 (width + 1)) + wrap32 (x + 1)).

(** The inner loop that fills row [y] of the integral image: [k]
    iterations remain.  The right operand of the assignment is evaluated
    before [IDX(y, x)]. *)
Fixpoint integral_row (k : nat) (gray : list Z) (width y x row_sum : Z)
    (integral : list Z) : outcome (list Z) :=
  match k with
  | O => Plain (Ok integral)
  | S k' =>
      g ← Plain (load_u8 gray (wrap32 (wrap32 (y * width) + x)));
      row_sum' ← int64_op (row_sum + g);
      above ← (if 0 <? y
               then Plain (vector_get integral (IDX width (wrap32 (y - 1)) x))
               else Plain (Ok 0));
      v ← int64_op (row_sum' + above);
      integral' ← Plain (vector_set integral (IDX width y x) v);
      integral_row k' gray width y (wrap32 (x + 1)) row_sum' integral'
  end.

Fixpoint integral_rows (k : nat) (gray : list Z) (width y : Z)
    (integral : list Z) : outcome (list Z) :=
  match k with
  | O => Plain (Ok integral)
  | S k' =>
      integral' ← integral_row (Z.to_nat width) gray width y 0 0 integral;
      integral_rows k' gray width (wrap32 (y + 1)) integral'
  end.

(** An [int] operand meeting a [uint32_t] one is converted to
    [uint32_t]. *)
Definition integral_index (width row col : Z) : Z :=
  wrap32 (wrap32 (wrap32 row * wrap32 (width + 1)) + wrap32 col).

(** [rect_sum]: the clamps, then the four reads from left to right. *)
Definition rect_sum (integral : list Z) (width height y0 x0 y1 x1 : Z)
  : outcome Z :=
  let x0 := Z.max 0 x0 in
  let y0 := Z.max 0 y0 in
  wm1 ← int_op (int_of_u32 width - 1);
  let x1 := Z.min wm1 x1 in
  hm1 ← int_op (int_of_u32 height - 1);
  let y1 := Z.min hm1 y1 in
  y1p ← int_op (y1 + 1);
  x1p ← int_op (x1 + 1);
  a ← Plain (vector_get integral (integral_index width y1p x1p));
  b ← Plain (vector_get integral (integral_index width y0 x1p));
  ab ← int64_op (a - b);
  c ← Plain (vector_get integral (integral_index width y1p x0));
  abc ← int64_op (ab - c);
  d ← Plain (vector_get integral (integral_index width y0 x0));
  int64_op (abc + d).

(** The inner loop of the thresholding pass on row [y]: [k] iterations
    remain.  In [mean - c] the [int] is converted to [float]; in the
    comparison the [uint8_t] is promoted to [int] and converted to
    [float]. *)
Fixpoint threshold_row (k : nat) (gray integral : list Z)
    (width height half c y x : Z) (out : list Z) : outcome (list Z) :=
  match k with
  | O => Plain (Ok out)
  | S k' =>
      x0 ← int_op (int_of_u32 x - half);
      y0 ← int_op (int_of_u32 y - half);
      x1 ← int_op (int_of_u32 x + half);
      y1 ← int_op (int_of_u32 y + half);
      let cx0 := Z.max 0 x0 in
      let cy0 := Z.max 0 y0 in
      wm1 ← int_op (int_of_u32 width - 1);
      let cx1 := Z.min wm1 x1 in
      hm1 ← int_op (int_of_u32 height - 1);
      let cy1 := Z.min hm1 y1 in
      dx ← int_op (cx1 - cx0);
      nx ← int_op (dx + 1);
      dy ← int_op (cy1 - cy0);
      ny ← int_op (dy + 1);
      count ← int_op (nx * ny);
      s ← rect_sum integral width height y0 x0 y1 x1;
      let mean := f32_div (f32_of_int s) (f32_of_int count) in
      g ← Plain (load_u8 gray (wrap32 (wrap32 (y * width) + x)));
      let v := if f_gt (f32_of_int g) (f32_sub mean (f32_of_int c))
               then 255 else 0 in
      threshold_row k' gray integral width height half c y (wrap32 (x + 1))
        (poke out (wrap32 (wrap32 (y * width) + x)) v)
  end.

Fixpoint threshold_rows (k : nat) (gray integral : list Z)
    (width height half c y : Z) (out : list Z) : outcome (list Z) :=
  match k with
  | O => Plain (Ok out)
  | S k' =>
      out' ← threshold_row (Z.to_nat width) gray integral width height half c
               y 0 out;
      threshold_rows k' gray integral width height half c (wrap32 (y + 1)) out'
  end.

(** The integral image is a [std::vector] of
    [(width + 1) * (height + 1)] zeros, the product taken on
    [uint32_t]. *)
Definition image_adaptive_threshold (gray : list Z)
    (width height block_size c : Z) : outcome (list Z) :=
  let half := int_of_u32 (block_size / 2) in
  let integral :=
    replicate (Z.to_nat (wrap32 (wrap32 (width + 1) * wrap32 (height + 1)))) 0 in
  integral' ← integral_rows (Z.to_nat height) gray width 0 integral;
  threshold_rows (Z.to_nat height) gray integral' width height half c 0 [].

(* ===================================================================== *)
(** * Phoneme timing estimation *)
(* ===================================================================== *)

(** The loop of [estimate_phoneme_timing]: [k] iterations remain, [i] is
    the index; in [per_char * i] and [per_char * (i + 1)] the [uint32_t]
    operand is converted to [float]. *)
Fixpoint phoneme_loop (k : nat) (per_char : float32) (i : Z)
    (out_start_ms out_end_ms : list float32) : list float32 * list float32 :=
  match k with
  | O => (out_start_ms, out_end_ms)
  | S k' =>
      phoneme_loop k' per_char (wrap32 (i + 1))
        (poke out_start_ms i (f32_mul per_char (f32_of_u32 i)))
        (poke out_end_ms i (f32_mul per_char (f32_of_u32 (wrap32 (i + 1)))))
  end.

(** The result is [(out_start_ms, out_end_ms, *out_count)]. *)
Definition estimate_phoneme_timing (char_count : Z) (duration_ms : float32)
  : list float32 * list float32 * Z :=
  if (char_count =? 0) || f_le duration_ms F32_zero then ([], [], 0)
  else
    let per_char := f32_div duration_ms (f32_of_u32 char_count) in
    let '(out_start_ms, out_end_ms) :=
      phoneme_loop (Z.to_nat char_count) per_char 0 [] [] in
    (out_start_ms, out_end_ms, char_count).

(* ===================================================================== *)
(** * Spectral feature extraction *)
(* ===================================================================== *)

(** [2.0f] *)
Definition F32_two : float32 := S754_finite false 8388608 (-22).

(** [audio_spectral_centroid]: the loop is the one of
    [audio_zero_crossing_rate]; [crossings / 2.0f] converts the counter to
    [float] first. *)
Definition audio_spectral_centroid (samples : list float32) (sample_rate : Z)
  : float32 :=
  let n := Z.of_nat (length samples) in
  if (n <? 4) || (sample_rate =? 0) then F32_zero
  else
    match samples with
    | [] => F32_zero
    | x0 :: rest =>
        let crossings := zero_crossings x0 rest 0 in
        if crossings <? 2 then F32_zero
        else
          let half_periods := f32_div (f32_of_u32 crossings) F32_two in
          let duration_sec := f32_div (f32_of_u32 n) (f32_of_u32 sample_rate) in
          f32_div half_periods duration_sec
    end.

(* ===================================================================== *)
(** * Specification-side definitions *)
(* ===================================================================== *)

(** ** Streaming buffer *)

(** The three mutating operations of the buffer, as a caller issues them. *)
Inductive ring_op : Type :=
| OpWrite (data : list float32)
| OpRead (n : Z)
| OpClear.

(** Lengths and counts are [uint32_t] arguments. *)
Definition op_wf (op : ring_op) : Prop :=
  match op with
  | OpWrite data => is_uint32 (Z.of_nat (length data))
  | OpRead n => is_uint32 n
  | OpClear => True
  end.

Definition ring_step (rb : AudioRingBuffer) (op : ring_op) : result AudioRingBuffer :=
  match op with
  | OpWrite data => '(rb', _) ← ring_write rb data; Ok rb'
  | OpRead n => '(rb', _, _) ← ring_read rb n; Ok rb'
  | OpClear => Ok (ring_clear rb)
  end.

Fixpoint ring_run (rb : AudioRingBuffer) (ops : list ring_op) : result AudioRingBuffer :=
  match ops with
  | [] => Ok rb
  | op :: ops' => rb' ← ring_step rb op; ring_run rb' ops'
  end.

(** A sequence of writes; the counts returned are collected. *)
Fixpoint ring_write_seq (rb : AudioRingBuffer) (ws : list (list float32))
  : result (AudioRingBuffer * list Z) :=
  match ws with
  | [] => Ok (rb, [])
  | w :: ws' =>
      '(rb', k) ← ring_write rb w;
      '(rb'', ks) ← ring_write_seq rb' ws';
      Ok (rb'', k :: ks)
  end.

(** The data-model invariant, as the specification words it. *)
Definition ring_invariant (C : Z) (rb : AudioRingBuffer) : Prop :=
  capacity rb = C /\
  0 <= count rb <= C /\
  0 <= write_pos rb < C /\
  0 <= read_pos rb < C.

(** The buffer [rb] holds the queue [q], oldest sample first. *)
Definition ring_repr (rb : AudioRingBuffer) (q : list float32) : Prop :=
  Z.of_nat (length (buf rb)) = capacity rb /\
  1 <= capacity rb <= UINT32_MAX /\
  count rb = Z.of_nat (length q) /\
  count rb <= capacity rb /\
  0 <= read_pos rb < capacity rb /\
  write_pos rb = (read_pos rb + count rb) mod capacity rb /\
  forall (i : nat) x, q !! i = Some x ->
    buf rb !! Z.to_nat ((read_pos rb + Z.of_nat i) mod capacity rb) = Some x.

(** ** Zero crossings *)

(** The sign of a sample, as the code reads it: [x >= 0.0f]. *)
Definition sign_nonneg (x : float32) : bool := f_ge x F32_zero.

(** The pairs [(samples[i - 1], samples[i])]. *)
Definition adjacent_pairs (samples : list float32) : list (float32 * float32) :=
  zip samples (tail samples).

Definition signs_differ (p : float32 * float32) : bool :=
  xorb (sign_nonneg (snd p)) (sign_nonneg (fst p)).

(** The number of adjacent pairs whose signs differ. *)
Definition sign_changes (samples : list float32) : Z :=
  Z.of_nat (length (filter (fun p => signs_differ p = true) (adjacent_pairs samples))).

Definition constant_sign (samples : list float32) : bool :=
  forallb (fun p => negb (signs_differ p)) (adjacent_pairs samples).

Definition alternating_sign (samples : list float32) : bool :=
  forallb signs_differ (adjacent_pairs samples).

(** ** Pre-emphasis *)

(** A sample that is a number: finite, and a well-formed binary32. *)
Definition sample_ok (x : float32) : bool :=
  is_finite x && valid_binary 24 128 x.

(** [y] is [x], up to the sign of a zero: a [-0] input may come out [+0]. *)
Definition same_value (y x : float32) : Prop :=
  y = x \/ (x = S754_zero true /\ y = S754_zero false).

(** ** Frame scanner *)

(** The number of flags the specification promises. *)
Definition frame_count (total frame_size hop : Z) : Z :=
  if frame_size <=? total then (total - frame_size) / hop + 1 else 0.

(** The frame that starts at sample [off]. *)
Definition frame_of (samples : list float32) (off size : Z) : list float32 :=
  take (Z.to_nat size) (drop (Z.to_nat off) samples).

(** ** Segment extractor, as the specification words it *)

(** Ceiling of a quotient of integers. *)
Definition ceil_div (a b : Z) : Z := - ((- a) / b).

(** A stand-in for [log10f] that is exact where it is defined: at 1. *)
Definition log10f_unit (x : float32) : float32 :=
  if SFeqb x F32_one then F32_zero else S754_nan.

Section SegmentSpec.

Variables (frameSize n minFrames maxFrames maxSegments : Z).

(** Evaluation of a just-ended run [(runStart, runFrames)], if there is one,
    with end [e]: emitted iff its length is within the bounds and the output
    list has not reached [maxSegments]. *)
Definition spec_emit (run : option (Z * Z)) (e : Z) (segs : list (Z * Z))
  : list (Z * Z) :=
  match run with
  | Some (runStart, runFrames) =>
      if (minFrames <=? runFrames) && (runFrames <=? maxFrames)
         && (Z.of_nat (length segs) <? maxSegments)
      then segs ++ [(runStart, e)] else segs
  | None => segs
  end.

(** The single pass over the voiced flags of the successive frames: [off] is
    the offset of the current frame, [run] the active run. *)
Fixpoint spec_scan (flags : list bool) (off : Z) (run : option (Z * Z))
    (segs : list (Z * Z)) : option (Z * Z) * list (Z * Z) :=
  match flags with
  | [] => (run, segs)
  | true :: rest =>
      spec_scan rest (off + frameSize)
        (match run with
         | None => Some (off, 1)
         | Some (runStart, runFrames) => Some (runStart, runFrames + 1)
         end) segs
  | false :: rest =>
      spec_scan rest (off + frameSize) None (spec_emit run off segs)
  end.

Definition spec_segments (flags : list bool) : list (Z * Z) :=
  let '(run, segs) := spec_scan flags 0 None [] in
  spec_emit run n segs.

End SegmentSpec.

(** The energy-only gate on each of the [n / frameSize] whole frames. *)
Definition frame_flags (log10f : float32 -> float32) (samples : list float32)
    (frameSize : Z) (energyThreshDb : float32) : list bool :=
  map (fun k : nat =>
         f_ge (audio_energy_db log10f
                 (frame_of samples (Z.of_nat k * frameSize) frameSize))
              energyThreshDb)
      (seq 0 (Z.to_nat (Z.of_nat (length samples) / frameSize))).

Definition spec_find_voiced_segments (log10f : float32 -> float32)
    (samples : list float32) (sampleRate frameMs : Z) (energyThreshDb : float32)
    (minDurMs maxDurMs maxSegments : Z) : list (Z * Z) :=
  let n := Z.of_nat (length samples) in
  let frameSize := sampleRate * frameMs / 1000 in
  let minFrames := ceil_div minDurMs frameMs in
  let maxFrames := maxDurMs / frameMs in
  spec_segments frameSize n minFrames maxFrames maxSegments
    (frame_flags log10f samples frameSize energyThreshDb).

(** The state of the code's loop stands for the state of the
    specification's pass. *)
Definition seg_rel (st : seg_state) (run : option (Z * Z)) (segs : list (Z * Z)) : Prop :=
  seg_count st = Z.of_nat (length segs) /\
  out_starts st = map fst segs /\
  out_ends st = map snd segs /\
  match run with
  | None => voiced_run st = 0
  | Some (runStart, runFrames) =>
      run_start st = runStart /\ voiced_run st = runFrames /\ 1 <= runFrames
  end.

(** ** Root mean square, as the specification words it *)

(** The square of a sample, and the sum of the squares of the first [k]
    samples of a frame, taken in index order. *)
Definition squared (x : float32) : float64 :=
  f64_mul (f64_of_f32 x) (f64_of_f32 x).

Fixpoint sum_of_squares_below (k : nat) (samples : list float32) : float64 :=
  match k with
  | O => F64_zero
  | S k' =>
      f64_add (sum_of_squares_below k' samples) (squared (nth k' samples F32_zero))
  end.

(** [sqrt(mean of squared samples)]; 0 for an empty frame. *)
Definition spec_rms (samples : list float32) : float32 :=
  match samples with
  | [] => F32_zero
  | _ =>
      f32_of_f64
        (f64_sqrt
           (f64_div (sum_of_squares_below (length samples) samples)
                    (f64_of_u32 (Z.of_nat (length samples)))))
  end.

(** The binary32 number [2^i], and a sample of that magnitude. *)
Definition f32_pow2 (i : Z) : float32 := S754_finite false 8388608 (i - 23).

Definition magnitude_pow2 (i : Z) (x : float32) : bool :=
  match x with
  | S754_finite _ 8388608 e => e =? i - 23
  | _ => false
  end.

(** ** The buffer as a bounded queue *)

(** What the caller observes of one operation: the count a write returns,
    the samples and the count a read returns. *)
Inductive ring_obs : Type :=
| ObsWrite (written : Z)
| ObsRead (out : list float32) (nread : Z)
| ObsClear.

Definition ring_step_obs (rb : AudioRingBuffer) (op : ring_op)
  : result (AudioRingBuffer * ring_obs) :=
  match op with
  | OpWrite data => '(rb', written) ← ring_write rb data; Ok (rb', ObsWrite written)
  | OpRead n => '(rb', out, nread) ← ring_read rb n; Ok (rb', ObsRead out nread)
  | OpClear => Ok (ring_clear rb, ObsClear)
  end.

Fixpoint ring_trace (rb : AudioRingBuffer) (ops : list ring_op)
  : result (AudioRingBuffer * list ring_obs) :=
  match ops with
  | [] => Ok (rb, [])
  | op :: ops' =>
      '(rb', o) ← ring_step_obs rb op;
      '(rb'', os) ← ring_trace rb' ops';
      Ok (rb'', o :: os)
  end.

(** A first-in first-out queue of at most [C] samples: a write appends the
    longest prefix of its input that fits, a read removes and returns the
    oldest samples. *)
Definition queue_step (C : Z) (q : list float32) (op : ring_op)
  : list float32 * ring_obs :=
  match op with
  | OpWrite data =>
      let k := Z.to_nat (Z.min (Z.of_nat (length data)) (C - Z.of_nat (length q))) in
      (q ++ take k data, ObsWrite (Z.of_nat k))
  | OpRead n =>
      let r := Nat.min (Z.to_nat n) (length q) in
      (drop r q, ObsRead (take r q) (Z.of_nat r))
  | OpClear => ([], ObsClear)
  end.

Fixpoint queue_trace (C : Z) (q : list float32) (ops : list ring_op)
  : list float32 * list ring_obs :=
  match ops with
  | [] => (q, [])
  | op :: ops' =>
      let '(q', o) := queue_step C q op in
      let '(q'', os) := queue_trace C q' ops' in
      (q'', o :: os)
  end.

(** ** Well-formed segment lists *)

(** The segments [segs], in output order: each starts at a frame boundary,
    is not empty, ends at or before [hi], spans at least [minFrames] frames
    and less than [maxFrames + 1] frames; each starts at least one frame
    after the end of the one before. *)
Definition segs_wf (frameSize minFrames maxFrames : Z) (segs : list (Z * Z)) (hi : Z)
  : Prop :=
  (forall (i : nat) s e, segs !! i = Some (s, e) ->
     0 <= s /\ (frameSize | s) /\ s < e /\ e <= hi /\
     minFrames * frameSize <= e - s < (maxFrames + 1) * frameSize) /\
  (forall (i : nat) s1 e1 s2 e2,
     segs !! i = Some (s1, e1) -> segs !! S i = Some (s2, e2) ->
     e1 + frameSize <= s2).

(** The invariant of the single pass at offset [off]. *)
Definition scan_inv (frameSize minFrames maxFrames : Z)
    (off : Z) (run : option (Z * Z)) (segs : list (Z * Z)) : Prop :=
  0 <= off /\ (frameSize | off) /\
  match run with
  | None => segs_wf frameSize minFrames maxFrames segs (off - frameSize)
  | Some (runStart, runFrames) =>
      segs_wf frameSize minFrames maxFrames segs (runStart - frameSize) /\
      0 <= runStart /\ (frameSize | runStart) /\ 1 <= runFrames /\
      runStart + runFrames * frameSize = off
  end.

(** The output arrays hold [seg_count] entries, no more than the caller
    made room for. *)
Definition seg_within (max_segments : Z) (st : seg_state) : Prop :=
  0 <= seg_count st <= max_segments /\
  Z.of_nat (length (out_starts st)) = seg_count st /\
  Z.of_nat (length (out_ends st)) = seg_count st.

(** ** Images *)

Definition is_byte (v : Z) : Prop := 0 <= v <= 255.

(** The pixel at column [x] of row [y] of a [width]-wide image. *)
Definition pixel (gray : list Z) (width x y : Z) : option Z :=
  gray !! Z.to_nat (y * width + x).

(** An image without edges: the gray level is an affine function of the
    coordinates (a flat image, or a linear gradient). *)
Definition affine_image (gray : list Z) (width height : Z) : Prop :=
  exists a b c : Z, forall x y,
    0 <= x < width -> 0 <= y < height ->
    pixel gray width x y = Some (a + b * x + c * y).

(** ** Adaptive threshold: the window mean computed directly *)

(** [sum_below n f] is [f 0 + ... + f (n - 1)]; [sum_between a b f] is the
    sum of [f] over [a <= i <= b]. *)
Fixpoint sum_below (n : nat) (f : Z -> Z) : Z :=
  match n with
  | O => 0
  | S n' => sum_below n' f + f (Z.of_nat n')
  end.

Definition sum_between (a b : Z) (f : Z -> Z) : Z :=
  sum_below (Z.to_nat (b + 1 - a)) (fun i => f (a + i)).

Definition gray_level (gray : list Z) (width x y : Z) : Z :=
  default 0 (pixel gray width x y).

(** The sum of the gray levels of columns [x0..x1] of rows [y0..y1]. *)
Definition window_sum (gray : list Z) (width x0 x1 y0 y1 : Z) : Z :=
  sum_between y0 y1 (fun y =>
    sum_between x0 x1 (fun x => gray_level gray width x y)).

(** The output at [(x, y)]: the window of half-width [half] around the
    pixel is clipped to the image, its sum is divided by its area, and the
    pixel is white when it exceeds that mean less [c]. *)
Definition threshold_pixel (gray : list Z) (width height half c x y : Z) : Z :=
  let x0 := Z.max 0 (x - half) in
  let x1 := Z.min (width - 1) (x + half) in
  let y0 := Z.max 0 (y - half) in
  let y1 := Z.min (height - 1) (y + half) in
  let count := (x1 - x0 + 1) * (y1 - y0 + 1) in
  let mean :=
    f32_div (f32_of_int (window_sum gray width x0 x1 y0 y1)) (f32_of_int count) in
  if f_gt (f32_of_int (gray_level gray width x y)) (f32_sub mean (f32_of_int c))
  then 255 else 0.

Definition spec_adaptive_threshold (gray : list Z)
    (width height block_size c : Z) : list Z :=
  map (fun i : nat =>
         threshold_pixel gray width height (block_size / 2) c
           (Z.of_nat i mod width) (Z.of_nat i / width))
      (seq 0 (Z.to_nat (width * height))).

(** ** Auxiliary notions of the proofs *)

(** The effect of [k] right shifts on a non-negative mantissa [z]: the
    quotient by [2^k], and the position of the remainder with respect to
    one half of [2^k]. *)
Definition shr_inv (z k : Z) (mrs : shr_record) : Prop :=
  0 <= shr_m mrs /\
  exists rem,
    z = shr_m mrs * 2 ^ k + rem /\ 0 <= rem < 2 ^ k /\
    (shr_r mrs = false -> shr_s mrs = false -> rem = 0) /\
    (shr_r mrs = false -> shr_s mrs = true -> 0 < rem /\ 2 * rem < 2 ^ k) /\
    (shr_r mrs = true -> shr_s mrs = false -> 2 * rem = 2 ^ k) /\
    (shr_r mrs = true -> shr_s mrs = true -> 2 ^ k < 2 * rem).

(** Renormalisation after rounding: a rounded mantissa in [2^23, 2^24]. *)
Definition normal32 (s : bool) (M e : Z) : float32 :=
  if M <? 2 ^ 24 then S754_finite s (Z.to_pos M) e
  else S754_finite s 8388608 (e + 1).

(** The length of the active run never exceeds the number of frames seen. *)
Definition run_bounded (run : option (Z * Z)) (k : nat) : Prop :=
  match run with
  | Some (_, runFrames) => runFrames <= Z.of_nat k
  | None => True
  end.

(** The outcome of a rounding to precision [prec] with sign [s]: a zero or
    an infinity of that sign, or a finite number of that sign whose
    mantissa has at most [prec] bits; never a NaN. *)
Definition rounded (prec : Z) (s : bool) (x : spec_float) : Prop :=
  match x with
  | S754_zero s' | S754_infinity s' => s' = s
  | S754_finite s' m e => s' = s /\ Z.pos m < 2 ^ prec
  | S754_nan => False
  end.

(** A number that is not negative: a zero, a positive finite number or
    [+inf]; not a NaN. *)
Definition nonneg (x : spec_float) : bool :=
  match x with
  | S754_zero _ => true
  | S754_infinity s | S754_finite s _ _ => negb s
  | S754_nan => false
  end.

(** A number that is not negative and, when finite, has a mantissa of at
    most [prec] bits. *)
Definition nonneg_rounded (prec : Z) (x : spec_float) : Prop :=
  match x with
  | S754_zero _ => True
  | S754_infinity s => s = false
  | S754_finite s m _ => s = false /\ Z.pos m < 2 ^ prec
  | S754_nan => False
  end.

(** A finite number whose mantissa has at most [prec] bits. *)
Definition mantissa_bounded (prec : Z) (x : spec_float) : Prop :=
  match x with
  | S754_finite _ m _ => Z.pos m < 2 ^ prec
  | _ => True
  end.

(** The integral image: the sum of the gray levels of the first [X]
    columns of row [y], and of the first [X] columns of the first [Y]
    rows. *)
Definition row_prefix (gray : list Z) (width y X : Z) : Z :=
  sum_below (Z.to_nat X) (fun x => gray_level gray width x y).

Definition prefix_sum (gray : list Z) (width Y X : Z) : Z :=
  sum_below (Z.to_nat Y) (fun y => row_prefix gray width y X).

(** The integral image when the rows before [y] and the first [x] columns
    of row [y] have been written. *)
Definition integral_at (gray : list Z) (width y x Y X : Z) : Z :=
  if (Y <=? y) || ((Y =? y + 1) && (X <=? x)) then prefix_sum gray width Y X
  else 0.

Definition integral_inv (gray : list Z) (width height y x : Z)
    (integral : list Z) : Prop :=
  Z.of_nat (length integral) = (width + 1) * (height + 1) /\
  forall Y X, 0 <= Y <= height -> 0 <= X <= width ->
    integral !! Z.to_nat (Y * (width + 1) + X)
    = Some (integral_at gray width y x Y X).

(** A binary64 number times [2^j], when the product is normal. *)
Definition f64_scale (j : Z) (x : float64) : float64 :=
  match x with
  | S754_finite s m e => S754_finite s m (e + j)
  | _ => x
  end.

(* ===================================================================== *)
(** * Arithmetic helpers *)
(* ===================================================================== *)

Lemma wrap32_small z : is_uint32 z -> wrap32 z = z.
Proof. unfold is_uint32, UINT32_MAX, wrap32. intros. apply Z.mod_small. lia. Qed.

(** Side conditions on [uint32_t] ranges. *)
Ltac u32 := unfold is_uint32, UINT32_MAX in *; lia.

Lemma mod_once C x :
  0 < C -> 0 <= x < 2 * C -> x mod C = if x <? C then x else x - C.
Proof.
  intros HC Hx. destruct (Z.ltb_spec x C).
  - apply Z.mod_small. lia.
  - replace x with ((x - C) + 1 * C) at 1 by lia.
    rewrite Z.mod_add by lia. apply Z.mod_small. lia.
Qed.

Lemma mod_succ C x :
  0 < C -> 0 <= x -> (x mod C + 1) mod C = (x + 1) mod C.
Proof.
  intros. rewrite <- (Z.add_mod_idemp_l x 1 C) by lia. reflexivity.
Qed.

(* ===================================================================== *)
(** * Facts about the floating-point operations *)
(* ===================================================================== *)

(** ** Comparisons *)

Lemma SFcompare_antisym x y :
  SFcompare y x = option_map CompOpp (SFcompare x y).
Proof.
  destruct x as [sx|sx| |sx mx ex], y as [sy|sy| |sy my ey]; simpl;
    try destruct sx; try destruct sy; try reflexivity.
  all: rewrite (Z.compare_antisym ex ey);
    destruct (ex ?= ey); simpl; try reflexivity;
    change (PosDef.Pos.compare_cont Eq my mx)
      with (Pos.compare_cont (CompOpp Eq) my mx);
    rewrite <- (Pos.compare_cont_antisym mx my Eq);
    destruct (Pos.compare_cont Eq mx my); reflexivity.
Qed.

Lemma SFcompare_not_nan x y :
  is_nan x = false -> is_nan y = false -> exists c, SFcompare x y = Some c.
Proof.
  destruct x, y; simpl; intros; try discriminate; eauto.
Qed.

Lemma f_ge_not_lt x y : f_ge x y = true -> f_lt x y = false.
Proof.
  unfold f_ge, f_lt, SFleb, SFltb. rewrite (SFcompare_antisym y x).
  destruct (SFcompare y x) as [[| |]|]; simpl; congruence.
Qed.

Lemma f_lt_negb_ge x y :
  is_nan x = false -> is_nan y = false -> f_lt x y = negb (f_ge x y).
Proof.
  intros Hx Hy. unfold f_ge, f_lt, SFleb, SFltb.
  rewrite (SFcompare_antisym x y).
  destruct (SFcompare_not_nan x y Hx Hy) as [c ->].
  destruct c; reflexivity.
Qed.

Lemma f_gt_negb_le x y :
  is_nan x = false -> is_nan y = false -> f_gt x y = negb (f_le x y).
Proof.
  intros Hx Hy. unfold f_gt, f_le, SFleb, SFltb.
  rewrite (SFcompare_antisym x y).
  destruct (SFcompare_not_nan x y Hx Hy) as [c ->].
  destruct c; reflexivity.
Qed.

(** ** Digits and shifts *)

Lemma digits2_pos_bounds (m : positive) :
  2 ^ (Z.pos (digits2_pos m) - 1) <= Z.pos m < 2 ^ Z.pos (digits2_pos m).
Proof.
  induction m as [m IH|m IH|]; simpl digits2_pos.
  - rewrite Pos2Z.inj_succ.
    replace (Z.succ (Z.pos (digits2_pos m)) - 1) with (Z.succ (Z.pos (digits2_pos m) - 1)) by lia.
    rewrite !Z.pow_succ_r by lia. lia.
  - rewrite Pos2Z.inj_succ.
    replace (Z.succ (Z.pos (digits2_pos m)) - 1) with (Z.succ (Z.pos (digits2_pos m) - 1)) by lia.
    rewrite !Z.pow_succ_r by lia. lia.
  - simpl. lia.
Qed.

Lemma digits2_pos_unique (m : positive) (d : Z) :
  2 ^ (d - 1) <= Z.pos m < 2 ^ d -> Z.pos (digits2_pos m) = d.
Proof.
  intros [Hlo Hhi].
  pose proof (digits2_pos_bounds m) as [Hlo' Hhi'].
  set (d' := Z.pos (digits2_pos m)) in *.
  assert (Hd' : 1 <= d') by (subst d'; lia).
  assert (Hd : 1 <= d).
  { destruct (Z.lt_ge_cases d 1) as [H|H]; [|exact H].
    exfalso.
    assert (2 ^ d <= 2 ^ 0).
    { destruct (Z.lt_ge_cases d 0).
      - rewrite Z.pow_neg_r by lia. simpl. lia.
      - apply Z.pow_le_mono_r; lia. }
    simpl in *. lia. }
  destruct (Z.lt_trichotomy d d') as [H|[H|H]]; [|exact (eq_sym H)|].
  - exfalso. assert (2 ^ d <= 2 ^ (d' - 1)) by (apply Z.pow_le_mono_r; lia). lia.
  - exfalso. assert (2 ^ d' <= 2 ^ (d - 1)) by (apply Z.pow_le_mono_r; lia). lia.
Qed.

Lemma digits2_pos_mono (a b : positive) :
  (a <= b)%positive -> Z.pos (digits2_pos a) <= Z.pos (digits2_pos b).
Proof.
  intros Hab.
  pose proof (digits2_pos_bounds a) as [Ha _].
  pose proof (digits2_pos_bounds b) as [_ Hb].
  destruct (Z.le_gt_cases (Z.pos (digits2_pos a)) (Z.pos (digits2_pos b))) as [H|H]; [exact H|].
  exfalso.
  assert (2 ^ Z.pos (digits2_pos b) <= 2 ^ (Z.pos (digits2_pos a) - 1))
    by (apply Z.pow_le_mono_r; lia).
  lia.
Qed.

Lemma pos_iter_xO (m d : positive) :
  Z.pos (Pos.iter xO m d) = Z.pos m * 2 ^ Z.pos d.
Proof.
  revert m. induction d as [|d IH] using Pos.peano_ind; intros m.
  - simpl. lia.
  - rewrite Pos.iter_succ, Pos2Z.inj_succ, Z.pow_succ_r by lia.
    rewrite Pos2Z.inj_xO, IH. lia.
Qed.


Lemma shr_inv_init z : 0 <= z -> shr_inv z 0 (Build_shr_record z false false).
Proof.
  intros Hz. split; [exact Hz|]. exists 0. simpl.
  split_and!; intros; first [lia | discriminate].
Qed.

Lemma shr_inv_step z k mrs :
  0 <= k -> shr_inv z k mrs -> shr_inv z (k + 1) (shr_1 mrs).
Proof.
  intros Hk (Hm & rem & Hz & Hrem & Hff & Hft & Htf & Htt).
  destruct mrs as [m r s]. simpl in *.
  assert (Hpow : 2 ^ (k + 1) = 2 * 2 ^ k) by (rewrite Z.pow_add_r by lia; lia).
  assert (Hp : 0 < 2 ^ k) by (apply Z.pow_pos_nonneg; lia).
  assert (Hcases : forall rem' m',
            0 <= m' -> z = m' * (2 * 2 ^ k) + rem' ->
            (rem' = rem \/ rem' = 2 ^ k + rem) ->
            shr_inv z (k + 1)
              {| shr_m := m'; shr_r := (2 ^ k <=? rem'); shr_s := r || s |}).
  { intros rem' m' Hm' Hz' Hrem'. unfold shr_inv. simpl.
    split; [lia|]. exists rem'. rewrite Hpow.
    destruct (Z.leb_spec (2 ^ k) rem'), r, s; simpl;
      try specialize (Hff eq_refl eq_refl);
      try specialize (Hft eq_refl eq_refl);
      try specialize (Htf eq_refl eq_refl);
      try specialize (Htt eq_refl eq_refl);
      split_and!; intros; try discriminate; lia. }
  destruct m as [|[p|p|]|p]; simpl; try lia.
  - replace false with (2 ^ k <=? rem) by (apply Z.leb_gt; lia).
    apply Hcases; lia.
  - replace true with (2 ^ k <=? 2 ^ k + rem) by (apply Z.leb_le; lia).
    apply Hcases; lia.
  - replace false with (2 ^ k <=? rem) by (apply Z.leb_gt; lia).
    apply Hcases; lia.
  - replace true with (2 ^ k <=? 2 ^ k + rem) by (apply Z.leb_le; lia).
    apply Hcases; lia.
Qed.

Lemma shr_inv_iter z (p : positive) : forall k mrs,
  0 <= k -> shr_inv z k mrs ->
  shr_inv z (k + Z.pos p) (SpecFloat.iter_pos shr_1 p mrs).
Proof.
  induction p as [p IH|p IH|]; intros k mrs Hk Hinv; simpl SpecFloat.iter_pos.
  - replace (k + Z.pos p~1) with (k + 1 + Z.pos p + Z.pos p) by lia.
    apply IH; [lia|]. apply IH; [lia|]. by apply shr_inv_step.
  - replace (k + Z.pos p~0) with (k + Z.pos p + Z.pos p) by lia.
    apply IH; [lia|]. by apply IH.
  - by apply shr_inv_step.
Qed.

Lemma round_nearest_even_range m l :
  m <= round_nearest_even m l <= m + 1.
Proof.
  destruct l as [|[| |]]; simpl; try lia. destruct (Z.even m); lia.
Qed.

(** Rounding a shifted mantissa to nearest stays within half a unit. *)
Lemma round_nearest_even_shr z k mrs :
  1 <= k -> shr_inv z k mrs ->
  let M := round_nearest_even (shr_m mrs) (loc_of_shr_record mrs) in
  shr_m mrs <= M <= shr_m mrs + 1 /\
  2 * M * 2 ^ k - 2 ^ k <= 2 * z <= 2 * M * 2 ^ k + 2 ^ k.
Proof.
  intros Hk (Hm & rem & Hz & Hrem & Hff & Hft & Htf & Htt) M.
  split; [apply round_nearest_even_range|].
  subst M. destruct mrs as [m [|] [|]]; simpl in *;
    try specialize (Hff eq_refl eq_refl);
    try specialize (Hft eq_refl eq_refl);
    try specialize (Htf eq_refl eq_refl);
    try specialize (Htt eq_refl eq_refl); try (destruct (Z.even m)); nia.
Qed.

(** ** binary32 *)

Lemma fexp32 x : fexp 24 128 x = Z.max (x - 24) (-149).
Proof. reflexivity. Qed.


Lemma normalize32 s M e :
  2 ^ 23 <= M <= 2 ^ 24 -> -149 <= e <= 103 ->
  (let '(mrs, e') := shr_fexp 24 128 M e loc_Exact in
   match shr_m mrs with
   | Z0 => S754_zero s
   | Z.pos m => if e' <=? 128 - 24 then S754_finite s m e' else S754_infinity s
   | Z.neg _ => S754_nan
   end) = normal32 s M e.
Proof.
  intros HM He. unfold normal32.
  destruct M as [|p|p]; try (simpl in HM; lia).
  unfold shr_fexp, Zdigits2. rewrite fexp32.
  destruct (Z.ltb_spec (Z.pos p) (2 ^ 24)) as [Hlt|Hge].
  - rewrite (digits2_pos_unique p 24) by (simpl in *; lia).
    replace (Z.max (24 + e - 24) (-149) - e) with 0 by lia.
    simpl. change (128 - 24) with 104.
    destruct (Z.leb_spec e 104); [reflexivity | lia].
  - assert (p = 16777216%positive) by (simpl in *; lia). subst p.
    change (Z.pos (digits2_pos 16777216)) with 25.
    replace (Z.max (25 + e - 24) (-149) - e) with 1 by lia.
    simpl. change (128 - 24) with 104.
    destruct (Z.leb_spec (e + 1) 104); [reflexivity | lia].
Qed.

(** [static_cast<float>] of a positive [uint32_t]: a mantissa [M] in
    [2^23, 2^24] at exponent [sh], exact when the value has at most 24 bits
    and otherwise within half a unit of [2^sh], then renormalised. *)
Lemma f32_of_u32_pos (z : positive) :
  Z.pos z <= UINT32_MAX ->
  let sh := Z.pos (digits2_pos z) - 24 in
  exists M,
    2 ^ 23 <= M <= 2 ^ 24 /\
    (sh <= 0 -> M = Z.pos z * 2 ^ (- sh)) /\
    (0 < sh ->
       2 * M * 2 ^ sh - 2 ^ sh <= 2 * Z.pos z <= 2 * M * 2 ^ sh + 2 ^ sh) /\
    f32_of_u32 (Z.pos z) = normal32 false M sh.
Proof.
  intros Hz sh.
  pose proof (digits2_pos_bounds z) as [Hlo Hhi].
  set (d := Z.pos (digits2_pos z)) in *.
  assert (Hd : 1 <= d <= 32).
  { split; [subst d; lia|].
    destruct (Z.le_gt_cases d 32) as [H|H]; [exact H|]. exfalso.
    assert (2 ^ 32 <= 2 ^ (d - 1)) by (apply Z.pow_le_mono_r; lia).
    unfold UINT32_MAX in Hz. simpl in *. lia. }
  unfold f32_of_u32, binary_normalize, binary_round.
  rewrite fexp32. fold d.
  replace (Z.max (d + 0 - 24) (-149)) with sh by (subst sh; lia).
  unfold shl_align. rewrite Z.sub_0_r.
  destruct sh as [|k|k] eqn:Esh.
  - (* exactly 24 bits *)
    exists (Z.pos z). replace d with 24 in * by lia.
    assert (HM : 2 ^ 23 <= Z.pos z < 2 ^ 24) by (simpl in *; lia).
    split; [lia|]. split; [intros _; simpl; lia|]. split; [lia|].
    unfold binary_round_aux.
    unfold shr_fexp at 1, Zdigits2. rewrite fexp32. fold d.
    replace d with 24 by lia. simpl shr. cbv iota beta.
    simpl round_nearest_even.
    apply normalize32; [simpl in *; lia | lia].
  - (* more than 24 bits: the mantissa is shifted right and rounded *)
    unfold binary_round_aux.
    unfold shr_fexp at 1, Zdigits2. rewrite fexp32. fold d.
    replace (Z.max (d + 0 - 24) (-149) - 0) with (Z.pos k) by lia.
    simpl shr. cbv iota beta.
    pose proof (shr_inv_iter (Z.pos z) k 0 _ ltac:(lia)
                  (shr_inv_init (Z.pos z) ltac:(lia))) as Hinv.
    rewrite Z.add_0_l in Hinv.
    set (mrs := SpecFloat.iter_pos shr_1 k _) in *.
    destruct (round_nearest_even_shr (Z.pos z) (Z.pos k) mrs ltac:(lia) Hinv)
      as [HM Herr].
    set (M := round_nearest_even (shr_m mrs) (loc_of_shr_record mrs)) in *.
    destruct Hinv as (Hm & rem & Hzr & Hrem & _).
    assert (Hpk : 2 ^ (d - 1) = 2 ^ 23 * 2 ^ Z.pos k).
    { rewrite <- Z.pow_add_r by lia. f_equal. lia. }
    assert (Hpd : 2 ^ d = 2 ^ 24 * 2 ^ Z.pos k).
    { rewrite <- Z.pow_add_r by lia. f_equal. lia. }
    assert (Hp : 0 < 2 ^ Z.pos k) by (apply Z.pow_pos_nonneg; lia).
    assert (Hq : 2 ^ 23 <= shr_m mrs < 2 ^ 24) by nia.
    exists M. split; [lia|]. split; [lia|]. split; [intros _; exact Herr|].
    apply normalize32; lia.
  - (* fewer than 24 bits: the mantissa is shifted left, exactly *)
    exists (Z.pos z * 2 ^ Z.pos k).
    assert (Hpk : 2 ^ 23 = 2 ^ (d - 1) * 2 ^ Z.pos k).
    { rewrite <- Z.pow_add_r by lia. f_equal. lia. }
    assert (Hpd : 2 ^ 24 = 2 ^ d * 2 ^ Z.pos k).
    { rewrite <- Z.pow_add_r by lia. f_equal. lia. }
    assert (Hp : 0 < 2 ^ Z.pos k) by (apply Z.pow_pos_nonneg; lia).
    assert (HM : 2 ^ 23 <= Z.pos z * 2 ^ Z.pos k < 2 ^ 24) by nia.
    split; [lia|]. split; [reflexivity|]. split; [lia|].
    unfold binary_round_aux.
    unfold shr_fexp at 1, Zdigits2. rewrite fexp32.
    rewrite (digits2_pos_unique (Pos.iter xO z k) 24)
      by (rewrite pos_iter_xO; lia).
    replace (Z.max (24 + Z.neg k - 24) (-149) - Z.neg k) with 0 by lia.
    simpl shr. cbv iota beta. simpl round_nearest_even.
    rewrite pos_iter_xO.
    apply normalize32; lia.
Qed.

Lemma normal32_cases s M e :
  2 ^ 23 <= M <= 2 ^ 24 ->
  exists m e',
    normal32 s M e = S754_finite s m e' /\
    2 ^ 23 <= Z.pos m < 2 ^ 24 /\
    ((M < 2 ^ 24 /\ Z.pos m = M /\ e' = e) \/
     (M = 2 ^ 24 /\ Z.pos m = 2 ^ 23 /\ e' = e + 1)).
Proof.
  intros HM. unfold normal32.
  destruct (Z.ltb_spec M (2 ^ 24)) as [Hlt|Hge].
  - exists (Z.to_pos M), e. rewrite Z2Pos.id by lia.
    split; [reflexivity|]. split; [lia|]. left. lia.
  - exists 8388608%positive, (e + 1).
    split; [reflexivity|]. split; [simpl; lia|]. right. simpl in *. lia.
Qed.

(** The conversion of a positive [uint32_t] is a normal positive binary32
    number, and the conversion is monotone. *)
Lemma f32_of_u32_finite z :
  1 <= z <= UINT32_MAX ->
  exists m e,
    f32_of_u32 z = S754_finite false m e /\
    2 ^ 23 <= Z.pos m < 2 ^ 24 /\ -23 <= e <= 9.
Proof.
  intros Hz. destruct z as [|p|p]; try lia.
  destruct (f32_of_u32_pos p ltac:(lia)) as (M & HM & _ & _ & Heq).
  pose proof (digits2_pos_bounds p) as [Hlo Hhi].
  assert (Hd : 1 <= Z.pos (digits2_pos p) <= 32).
  { split; [lia|].
    destruct (Z.le_gt_cases (Z.pos (digits2_pos p)) 32) as [H|H]; [exact H|]. exfalso.
    assert (2 ^ 32 <= 2 ^ (Z.pos (digits2_pos p) - 1)) by (apply Z.pow_le_mono_r; lia).
    unfold UINT32_MAX in Hz. simpl in *. lia. }
  destruct (normal32_cases false M (Z.pos (digits2_pos p) - 24) HM)
    as (m & e & Hn & Hm & Hcase).
  exists m, e. rewrite Heq, Hn. split; [reflexivity|]. split; [exact Hm|].
  destruct Hcase as [(_ & _ & ->)|(_ & _ & ->)]; lia.
Qed.

Lemma f32_of_u32_mono a b m1 e1 m2 e2 :
  1 <= a -> a <= b -> b <= UINT32_MAX ->
  f32_of_u32 a = S754_finite false m1 e1 ->
  f32_of_u32 b = S754_finite false m2 e2 ->
  e1 < e2 \/ (e1 = e2 /\ (m1 <= m2)%positive).
Proof.
  intros Ha Hab Hb H1 H2.
  destruct (Z.eq_dec a b) as [->|Hne].
  { rewrite H1 in H2. injection H2 as -> ->. right. split; [reflexivity|lia]. }
  destruct a as [|p|p]; try lia. destruct b as [|q|q]; try lia.
  destruct (f32_of_u32_pos p ltac:(lia)) as (M1 & HM1 & Hex1 & Herr1 & Heq1).
  destruct (f32_of_u32_pos q ltac:(lia)) as (M2 & HM2 & Hex2 & Herr2 & Heq2).
  pose proof (digits2_pos_mono p q ltac:(lia)) as Hdig.
  set (sh1 := Z.pos (digits2_pos p) - 24) in *.
  set (sh2 := Z.pos (digits2_pos q) - 24) in *.
  destruct (normal32_cases false M1 sh1 HM1) as (m1' & e1' & Hn1 & Hm1 & Hc1).
  destruct (normal32_cases false M2 sh2 HM2) as (m2' & e2' & Hn2 & Hm2 & Hc2).
  rewrite Heq1, Hn1 in H1. injection H1 as <- <-.
  rewrite Heq2, Hn2 in H2. injection H2 as <- <-.
  destruct (Z.eq_dec sh1 sh2) as [Hsh|Hsh].
  - (* same number of bits: compare the rounded mantissas *)
    assert (HM : M1 <= M2).
    { destruct (Z.le_gt_cases sh1 0) as [Hle|Hgt].
      - rewrite Hex1, Hex2 by lia. rewrite Hsh.
        apply Z.mul_le_mono_nonneg_r; [apply Z.pow_nonneg|]; lia.
      - specialize (Herr1 Hgt). specialize (Herr2 ltac:(lia)).
        rewrite <- Hsh in Herr2.
        assert (Hp : 0 < 2 ^ sh1) by (apply Z.pow_pos_nonneg; lia).
        nia. }
    destruct Hc1 as [(? & ? & ?)|(? & ? & ?)], Hc2 as [(? & ? & ?)|(? & ? & ?)]; lia.
  - (* fewer bits: a smaller exponent, or the mantissa 2^23 *)
    destruct Hc1 as [(? & ? & ?)|(? & ? & ?)], Hc2 as [(? & ? & ?)|(? & ? & ?)];
      subst sh1 sh2; lia.
Qed.

Lemma shr_1_m mrs : 0 <= shr_m mrs -> shr_m (shr_1 mrs) = shr_m mrs / 2.
Proof.
  intros Hm. rewrite <- Z.div2_div.
  destruct mrs as [[|[p|p|]|p] r s]; simpl in *; try reflexivity; lia.
Qed.

Lemma shr_record_of_loc_m m l : shr_m (shr_record_of_loc m l) = m.
Proof. destruct l as [|[| |]]; reflexivity. Qed.

(** Rounding a quotient mantissa of 24 or 25 bits to binary32. *)
Lemma binary_round_aux32 s q e l :
  2 ^ 23 <= q < 2 ^ 25 -> -149 <= e <= 102 ->
  exists M E,
    binary_round_aux 24 128 s q e l = normal32 s M E /\
    2 ^ 23 <= M <= 2 ^ 24 /\
    ((q < 2 ^ 24 /\ E = e) \/ (2 ^ 24 <= q /\ E = e + 1)).
Proof.
  intros Hq He. destruct q as [|p|p]; try (simpl in Hq; lia).
  unfold binary_round_aux. unfold shr_fexp at 1, Zdigits2. rewrite fexp32.
  destruct (Z.lt_ge_cases (Z.pos p) (2 ^ 24)) as [Hlt|Hge].
  - rewrite (digits2_pos_unique p 24) by (simpl in *; lia).
    replace (Z.max (24 + e - 24) (-149) - e) with 0 by lia.
    simpl shr. cbv iota beta.
    set (M := round_nearest_even _ _).
    assert (HM : Z.pos p <= M <= Z.pos p + 1).
    { subst M. rewrite shr_record_of_loc_m. apply round_nearest_even_range. }
    exists M, e. split; [apply normalize32; simpl in *; lia|].
    split; [simpl in *; lia|]. left. split; [exact Hlt | reflexivity].
  - rewrite (digits2_pos_unique p 25) by (simpl in *; lia).
    replace (Z.max (25 + e - 24) (-149) - e) with 1 by lia.
    simpl shr. cbv iota beta.
    set (mrs := shr_1 _).
    set (M := round_nearest_even _ _).
    assert (Hm : shr_m mrs = Z.pos p / 2).
    { subst mrs. rewrite shr_1_m; rewrite shr_record_of_loc_m; [reflexivity | lia]. }
    assert (HM : Z.pos p / 2 <= M <= Z.pos p / 2 + 1).
    { subst M. rewrite <- Hm. apply round_nearest_even_range. }
    assert (Hhalf : 2 ^ 23 <= Z.pos p / 2 < 2 ^ 24).
    { split.
      - apply Z.div_le_lower_bound; simpl in *; lia.
      - apply Z.div_lt_upper_bound; simpl in *; lia. }
    exists M, (e + 1). split; [apply normalize32; simpl in *; lia|].
    split; [simpl in *; lia|]. right. split; [exact Hge | reflexivity].
Qed.

Lemma normal32_le_one M E :
  2 ^ 23 <= M <= 2 ^ 24 -> E <= -24 ->
  f_le F32_zero (normal32 false M E) = true /\
  f_le (normal32 false M E) F32_one = true.
Proof.
  intros HM HE.
  destruct (normal32_cases false M E HM) as (m & e & -> & Hm & Hc).
  split; [reflexivity|].
  unfold f_le, SFleb, F32_one.
  change (SFcompare (S754_finite false m e) (S754_finite false 8388608 (-23)))
    with (Some match e ?= -23 with
               | Lt => Lt
               | Gt => Gt
               | Eq => Pos.compare_cont Eq m 8388608
               end).
  destruct (Z.compare_spec e (-23)) as [Heq|Hlt|Hgt]; try reflexivity.
  - destruct Hc as [(? & ? & ?)|(? & Hm23 & ?)]; [lia|].
    assert (m = 8388608%positive) by (change (2 ^ 23) with 8388608 in Hm23; lia).
    subst m. reflexivity.
  - destruct Hc as [(? & ? & ?)|(? & ? & ?)]; lia.
Qed.

(** The quotient of two normal positive binary32 numbers, the first not
    above the second, lies in [0, 1]; a number divided by itself is 1. *)
Lemma f32_div_unit_interval m1 e1 m2 e2 :
  2 ^ 23 <= Z.pos m1 < 2 ^ 24 -> 2 ^ 23 <= Z.pos m2 < 2 ^ 24 ->
  -23 <= e1 <= 9 -> -23 <= e2 <= 9 ->
  e1 < e2 \/ (e1 = e2 /\ (m1 <= m2)%positive) ->
  let q := f32_div (S754_finite false m1 e1) (S754_finite false m2 e2) in
  f_le F32_zero q = true /\ f_le q F32_one = true /\
  (m1 = m2 -> e1 = e2 -> q = F32_one).
Proof.
  intros Hm1 Hm2 He1 He2 Hord q. subst q.
  unfold f32_div, SFdiv, SFdiv_core_binary, Zdigits2.
  rewrite (digits2_pos_unique m1 24), (digits2_pos_unique m2 24) by lia.
  rewrite fexp32.
  replace (Z.min (Z.max (24 + e1 - (24 + e2) - 24) (-149)) (e1 - e2))
    with (e1 - e2 - 24) by lia.
  replace (e1 - e2 - (e1 - e2 - 24)) with 24 by lia.
  cbv iota. rewrite Z.shiftl_mul_pow2 by lia.
  destruct (Z.div_eucl (Z.pos m1 * 2 ^ 24) (Z.pos m2)) as [q r] eqn:Ediv.
  assert (Hq : q = Z.pos m1 * 2 ^ 24 / Z.pos m2)
    by (unfold Z.div; rewrite Ediv; reflexivity).
  assert (Hr : r = (Z.pos m1 * 2 ^ 24) mod Z.pos m2)
    by (unfold Z.modulo; rewrite Ediv; reflexivity).
  assert (Hqlo : 2 ^ 23 <= q).
  { rewrite Hq. apply Z.div_le_lower_bound; simpl in *; lia. }
  assert (Hqhi : q < 2 ^ 25).
  { rewrite Hq. apply Z.div_lt_upper_bound; simpl in *; lia. }
  simpl xorb.
  destruct (Z.eq_dec e1 e2) as [Heq|Hne].
  - (* equal exponents, so m1 <= m2 *)
    destruct Hord as [Hlt|[_ Hle]]; [lia|].
    destruct (Pos.eq_dec m1 m2) as [->|Hm].
    + (* a number divided by itself *)
      assert (Hq24 : q = 2 ^ 24) by (rewrite Hq, Z.mul_comm; apply Z.div_mul; lia).
      assert (Hr0 : r = 0) by (rewrite Hr, Z.mul_comm; apply Z.mod_mul; lia).
      rewrite Hq24, Hr0.
      replace (e1 - e2 - 24) with (-24) by lia.
      assert (Hone : binary_round_aux 24 128 false (2 ^ 24) (-24)
                       (new_location (Z.pos m2) 0) = F32_one).
      { unfold new_location, new_location_even, new_location_odd.
        destruct (Z.even (Z.pos m2)); reflexivity. }
      rewrite Hone. split_and!; reflexivity.
    + assert (Hqlt : q < 2 ^ 24).
      { rewrite Hq. apply Z.div_lt_upper_bound; [lia|].
        assert (Z.pos m1 < Z.pos m2) by lia.
        assert (0 < 2 ^ 24) by (apply Z.pow_pos_nonneg; lia).
        nia. }
      destruct (binary_round_aux32 false q (e1 - e2 - 24)
                  (new_location (Z.pos m2) r) ltac:(lia) ltac:(lia))
        as (M & E & -> & HM & [[_ HE]|[? _]]); [|lia].
      destruct (normal32_le_one M E HM ltac:(lia)) as [H0 H1].
      split_and!; [exact H0 | exact H1 | congruence].
  - destruct Hord as [Hlt|[? _]]; [|lia].
    destruct (binary_round_aux32 false q (e1 - e2 - 24)
                (new_location (Z.pos m2) r) ltac:(lia) ltac:(lia))
      as (M & E & -> & HM & HE).
    destruct (normal32_le_one M E HM ltac:(lia)) as [H0 H1].
    split_and!; [exact H0 | exact H1 | congruence].
Qed.

(* ===================================================================== *)
(** * StreamingBuffer *)
(* ===================================================================== *)

(** ** The ring buffer refines a FIFO queue *)

Lemma ring_repr_create C :
  1 <= C <= UINT32_MAX -> ring_repr (ring_create C) [].
Proof.
  intros HC. unfold ring_repr, ring_create; simpl.
  rewrite length_replicate.
  split_and!; try lia.
  - symmetry. apply Z.mod_0_l. lia.
  - intros i x Hi. rewrite lookup_nil in Hi. discriminate.
Qed.

Lemma ring_write_step rb q x :
  ring_repr rb q -> count rb < capacity rb ->
  exists buf',
    store (buf rb) (write_pos rb) x = Ok buf' /\
    umod32 (wrap32 (write_pos rb + 1)) (capacity rb)
      = Ok ((write_pos rb + 1) mod capacity rb) /\
    ring_repr {| buf := buf'; capacity := capacity rb;
                 write_pos := (write_pos rb + 1) mod capacity rb;
                 read_pos := read_pos rb;
                 count := wrap32 (count rb + 1) |} (q ++ [x]) /\
    wrap32 (count rb + 1) = count rb + 1.
Proof.
  intros (Hlen & HC & Hcnt & Hle & Hrp & Hwp & Hq) Hroom.
  assert (Hw : 0 <= write_pos rb < capacity rb).
  { rewrite Hwp. apply Z.mod_pos_bound. lia. }
  assert (Hc1 : wrap32 (count rb + 1) = count rb + 1).
  { apply wrap32_small. u32. }
  exists (<[Z.to_nat (write_pos rb) := x]> (buf rb)).
  split; [|split; [|split]]; trivial.
  - unfold store.
    destruct (Z.leb_spec 0 (write_pos rb)); [|lia].
    destruct (Z.ltb_spec (write_pos rb) (Z.of_nat (length (buf rb)))); [|lia].
    reflexivity.
  - unfold umod32. destruct (Z.eqb_spec (capacity rb) 0); [lia|].
    rewrite wrap32_small; [reflexivity|].
    u32.
  - unfold ring_repr; simpl. rewrite Hc1, length_insert, length_app. simpl.
    split_and!; try lia.
    + rewrite Hwp. rewrite mod_succ by lia. f_equal. lia.
    + intros i y Hi.
      destruct (decide (i < length q)%nat) as [Hlt|Hge].
      * rewrite lookup_app_l in Hi by assumption.
        rewrite list_lookup_insert_ne; [by apply Hq|].
        rewrite Hwp.
        rewrite (mod_once (capacity rb) (read_pos rb + count rb)) by lia.
        rewrite (mod_once (capacity rb) (read_pos rb + Z.of_nat i)) by lia.
        destruct (Z.ltb_spec (read_pos rb + count rb) (capacity rb));
          destruct (Z.ltb_spec (read_pos rb + Z.of_nat i) (capacity rb)); lia.
      * rewrite lookup_app_r in Hi by lia.
        destruct (i - length q)%nat eqn:E; simpl in Hi; [|by rewrite lookup_nil in Hi].
        injection Hi as <-.
        assert (i = length q) by lia. subst i.
        rewrite <- Hcnt, <- Hwp.
        apply list_lookup_insert_eq. lia.
Qed.

Lemma ring_write_loop_spec data : forall rb q written,
  ring_repr rb q ->
  0 <= written -> written + Z.of_nat (length data) <= UINT32_MAX ->
  let k := Z.min (Z.of_nat (length data)) (capacity rb - count rb) in
  exists rb',
    ring_write_loop rb data written = Ok (rb', written + k) /\
    ring_repr rb' (q ++ take (Z.to_nat k) data) /\
    capacity rb' = capacity rb /\
    read_pos rb' = read_pos rb /\
    count rb' = count rb + k /\
    write_pos rb' = (write_pos rb + k) mod capacity rb.
Proof.
  induction data as [|x data IH]; intros rb q written Hrepr Hw Hbound k.
  - exists rb. subst k; simpl.
    pose proof Hrepr as (Hlen & HC & Hcnt & Hle & Hrp & Hwp & Hq).
    rewrite Z.min_l by lia.
    rewrite Z.add_0_r, app_nil_r, Z.add_0_r. split_and!; try done.
    change (Z.of_nat 0) with 0. rewrite Z.add_0_r, Hwp.
    rewrite Z.mod_mod by lia. reflexivity.
  - pose proof Hrepr as (Hlen & HC & Hcnt & Hle & Hrp & Hwp & Hq).
    simpl ring_write_loop.
    destruct (Z.ltb_spec (count rb) (capacity rb)) as [Hroom|Hfull].
    + destruct (ring_write_step rb q x Hrepr Hroom) as (buf' & Hst & Hmod & Hrepr' & Hc1).
      rewrite Hst, Hmod. simpl.
      rewrite length_cons, Nat2Z.inj_succ in Hbound.
      assert (Hw1 : wrap32 (written + 1) = written + 1).
      { apply wrap32_small. unfold is_uint32. lia. }
      rewrite Hw1.
      edestruct (IH _ (q ++ [x]) (written + 1) Hrepr') as (rb' & Hrun & Hr & Hcap & Hrd & Hcount & Hwpos);
        [lia | lia |].
      simpl in Hrun, Hcap, Hrd, Hcount, Hwpos. rewrite Hc1 in *.
      exists rb'. subst k. rewrite length_cons, Nat2Z.inj_succ.
      set (k' := Z.min (Z.of_nat (length data)) (capacity rb - (count rb + 1))) in *.
      assert (Hk : Z.min (Z.succ (Z.of_nat (length data))) (capacity rb - count rb) = k' + 1)
        by (subst k'; lia).
      rewrite Hk.
      replace (Z.to_nat (k' + 1)) with (S (Z.to_nat k')) by (subst k'; lia).
      simpl take. rewrite <- app_assoc in Hr. simpl in Hr.
      split_and!; try done.
      * rewrite Hrun. f_equal. f_equal. lia.
      * lia.
      * rewrite Hwpos. rewrite Z.add_mod_idemp_l by lia. f_equal. lia.
    + exists rb. subst k. rewrite Z.min_r by lia.
      replace (capacity rb - count rb) with 0 by lia.
      simpl. rewrite app_nil_r, !Z.add_0_r.
      split_and!; try done.
      rewrite Hwp. rewrite Z.mod_mod by lia. reflexivity.
Qed.

Lemma ring_read_step rb x q :
  ring_repr rb (x :: q) ->
  load (buf rb) (read_pos rb) = Ok x /\
  umod32 (wrap32 (read_pos rb + 1)) (capacity rb)
    = Ok ((read_pos rb + 1) mod capacity rb) /\
  wrap32 (count rb - 1) = count rb - 1 /\
  ring_repr {| buf := buf rb; capacity := capacity rb;
               write_pos := write_pos rb;
               read_pos := (read_pos rb + 1) mod capacity rb;
               count := count rb - 1 |} q.
Proof.
  intros (Hlen & HC & Hcnt & Hle & Hrp & Hwp & Hq).
  rewrite length_cons, Nat2Z.inj_succ in Hcnt.
  split_and!.
  - unfold load. destruct (Z.leb_spec 0 (read_pos rb)); [|lia].
    specialize (Hq 0%nat x eq_refl).
    change (Z.of_nat 0) with 0 in Hq.
    rewrite Z.add_0_r, Z.mod_small in Hq by lia.
    by rewrite Hq.
  - unfold umod32. destruct (Z.eqb_spec (capacity rb) 0); [lia|].
    rewrite wrap32_small; [reflexivity|].
    u32.
  - apply wrap32_small. u32.
  - unfold ring_repr; simpl.
    assert (Hm : 0 <= (read_pos rb + 1) mod capacity rb < capacity rb)
      by (apply Z.mod_pos_bound; lia).
    split_and!; try lia.
    + rewrite Hwp, Z.add_mod_idemp_l by lia. f_equal. lia.
    + intros i y Hi.
      rewrite Z.add_mod_idemp_l by lia.
      replace (read_pos rb + 1 + Z.of_nat i) with (read_pos rb + Z.of_nat (S i)) by lia.
      by apply Hq.
Qed.

Lemma ring_read_loop_spec k : forall rb q out read,
  ring_repr rb q ->
  0 <= read -> read + Z.of_nat k <= UINT32_MAX ->
  let r := Nat.min k (length q) in
  exists rb',
    ring_read_loop rb k out read = Ok (rb', out ++ take r q, read + Z.of_nat r) /\
    ring_repr rb' (drop r q) /\
    capacity rb' = capacity rb /\
    write_pos rb' = write_pos rb /\
    count rb' = count rb - Z.of_nat r /\
    read_pos rb' = (read_pos rb + Z.of_nat r) mod capacity rb.
Proof.
  induction k as [|k IH]; intros rb q out read Hrepr Hr Hbound r.
  - exists rb. subst r. simpl.
    pose proof Hrepr as (Hlen & HC & Hcnt & Hle & Hrp & Hwp & Hq).
    rewrite app_nil_r, !Z.add_0_r, Z.sub_0_r.
    split_and!; try done.
    rewrite Z.mod_small by lia. reflexivity.
  - pose proof Hrepr as (Hlen & HC & Hcnt & Hle & Hrp & Hwp & Hq).
    simpl ring_read_loop.
    destruct q as [|x q].
    + simpl in Hcnt.
      destruct (Z.ltb_spec 0 (count rb)); [lia|].
      exists rb. subst r. simpl.
      rewrite app_nil_r, !Z.add_0_r, Z.sub_0_r.
      split_and!; try done.
      rewrite Z.mod_small by lia. reflexivity.
    + rewrite length_cons, Nat2Z.inj_succ in Hcnt.
      destruct (Z.ltb_spec 0 (count rb)); [|lia].
      destruct (ring_read_step rb x q Hrepr) as (Hld & Hmod & Hc1 & Hrepr').
      rewrite Hld, Hmod. simpl. rewrite Hc1.
      assert (Hr1 : wrap32 (read + 1) = read + 1).
      { apply wrap32_small. unfold is_uint32. lia. }
      rewrite Hr1.
      edestruct (IH _ q (out ++ [x]) (read + 1) Hrepr')
        as (rb' & Hrun & Hrep & Hcap & Hwpos & Hcount & Hrpos); [lia | lia |].
      simpl in Hrun, Hcap, Hwpos, Hcount, Hrpos.
      exists rb'. subst r. simpl Nat.min. simpl take. simpl drop.
      split_and!; try done.
      * rewrite Hrun, <- app_assoc. simpl. do 2 f_equal. lia.
      * lia.
      * rewrite Hrpos, Z.add_mod_idemp_l by lia. f_equal. lia.
Qed.

(** A zero-capacity buffer never runs a loop body. *)
Lemma ring_write_zero_capacity data :
  ring_write (ring_create 0) data = Ok (ring_create 0, 0).
Proof. destruct data; reflexivity. Qed.

Lemma ring_read_zero_capacity n :
  ring_read (ring_create 0) n = Ok (ring_create 0, [], 0).
Proof. unfold ring_read. destruct (Z.to_nat n); reflexivity. Qed.

Lemma ring_run_repr ops : forall rb q,
  ring_repr rb q -> Forall op_wf ops ->
  exists rb' q',
    ring_run rb ops = Ok rb' /\ ring_repr rb' q' /\ capacity rb' = capacity rb.
Proof.
  induction ops as [|op ops IH]; intros rb q Hrepr Hwf.
  - exists rb, q. by split_and!.
  - inversion Hwf as [|? ? Hop Hops]; subst.
    assert (Hstep : exists rb1 q1,
              ring_step rb op = Ok rb1 /\ ring_repr rb1 q1 /\ capacity rb1 = capacity rb).
    { destruct op as [data|n|]; simpl in Hop |- *.
      - destruct (ring_write_loop_spec data rb q 0 Hrepr)
          as (rb1 & Hrun & Hr1 & Hcap & _); [lia | unfold is_uint32 in Hop; lia |].
        unfold ring_write. rewrite Hrun. simpl. eauto.
      - destruct (ring_read_loop_spec (Z.to_nat n) rb q [] 0 Hrepr)
          as (rb1 & Hrun & Hr1 & Hcap & _); [lia | unfold is_uint32 in Hop; lia |].
        unfold ring_read. rewrite Hrun. simpl. eauto.
      - exists (ring_clear rb), [].
        destruct Hrepr as (Hlen & HC & Hcnt & Hle & Hrp & Hwp & Hq).
        unfold ring_repr, ring_clear; simpl. split_and!; try done; lia.
    }
    destruct Hstep as (rb1 & q1 & Hs & Hr1 & Hcap1).
    destruct (IH rb1 q1 Hr1 Hops) as (rb' & q' & Hrun & Hr' & Hcap').
    exists rb', q'. simpl. rewrite Hs. simpl. split_and!; try done. congruence.
Qed.

Lemma ring_repr_invariant rb q :
  ring_repr rb q -> ring_invariant (capacity rb) rb.
Proof.
  intros (Hlen & HC & Hcnt & Hle & Hrp & Hwp & Hq).
  unfold ring_invariant. split_and!; try lia.
  - rewrite Hwp. apply Z.mod_pos_bound. lia.
  - rewrite Hwp. apply Z.mod_pos_bound. lia.
Qed.

Lemma ring_write_seq_spec ws : forall rb q,
  ring_repr rb q ->
  Z.of_nat (length q) + Z.of_nat (length (concat ws)) <= capacity rb ->
  exists rb',
    ring_write_seq rb ws = Ok (rb', map (fun w => Z.of_nat (length w)) ws) /\
    ring_repr rb' (q ++ concat ws) /\
    capacity rb' = capacity rb.
Proof.
  induction ws as [|w ws IH]; intros rb q Hrepr Hfit.
  - exists rb. simpl. rewrite app_nil_r. by split_and!.
  - simpl in Hfit. rewrite length_app in Hfit.
    pose proof Hrepr as (Hlen & HC & Hcnt & Hle & Hrp & Hwp & Hq).
    destruct (ring_write_loop_spec w rb q 0 Hrepr)
      as (rb1 & Hrun & Hr1 & Hcap & _ & _ & _); [lia | lia |].
    rewrite Z.min_l in Hrun, Hr1 by lia.
    rewrite Nat2Z.id, firstn_all in Hr1.
    destruct (IH rb1 (q ++ w) Hr1) as (rb' & Hseq & Hr' & Hcap').
    { rewrite length_app. lia. }
    exists rb'. simpl. unfold ring_write. rewrite Hrun. simpl.
    rewrite Hseq. simpl. rewrite <- app_assoc in Hr'.
    split_and!; try done. congruence.
Qed.

(** ** Claim C3 *)

(** C3. For every capacity [C >= 1] (a [uint32_t]) and every sequence of
    writes into a freshly created buffer whose total sample count is at
    most [C], every write stores its whole input, and a subsequent read of
    all available samples (a request of [available()] samples or more)
    returns exactly the concatenation of the written samples in write
    order and leaves the buffer empty. *)
Theorem ring_write_read_roundtrip (C : Z) (ws : list (list float32)) :
  1 <= C <= UINT32_MAX ->
  Z.of_nat (length (concat ws)) <= C ->
  exists rb1,
    ring_write_seq (ring_create C) ws
      = Ok (rb1, map (fun w => Z.of_nat (length w)) ws) /\
    ring_available rb1 = Z.of_nat (length (concat ws)) /\
    forall n, ring_available rb1 <= n <= UINT32_MAX ->
      exists rb2,
        ring_read rb1 n = Ok (rb2, concat ws, Z.of_nat (length (concat ws))) /\
        ring_available rb2 = 0.
Proof.
  intros HC Hfit.
  destruct (ring_write_seq_spec ws (ring_create C) [] (ring_repr_create C HC))
    as (rb1 & Hseq & Hr1 & Hcap); [simpl; lia|].
  simpl in Hr1.
  pose proof Hr1 as (Hlen & HC1 & Hcnt & Hle & Hrp & Hwp & Hq).
  exists rb1. split_and!; try done.
  intros n Hn. unfold ring_available in *.
  destruct (ring_read_loop_spec (Z.to_nat n) rb1 (concat ws) [] 0 Hr1)
    as (rb2 & Hrun & Hr2 & _ & _ & Hcount & _); [lia | lia |].
  rewrite Nat.min_r in Hrun, Hcount by lia.
  rewrite firstn_all in Hrun.
  exists rb2. unfold ring_read. rewrite Hrun. simpl. split; [done | lia].
Qed.

Lemma ring_write_read_roundtrip_witness :
  exists rb1,
    ring_write_seq (ring_create 4) [[F32_one; F32_20]; [F32_m100]]
      = Ok (rb1, [2; 1]) /\
    ring_available rb1 = 3 /\
    forall n, ring_available rb1 <= n <= UINT32_MAX ->
      exists rb2,
        ring_read rb1 n = Ok (rb2, [F32_one; F32_20; F32_m100], 3) /\
        ring_available rb2 = 0.
Proof.
  apply (ring_write_read_roundtrip 4 [[F32_one; F32_20]; [F32_m100]]).
  - unfold UINT32_MAX. lia.
  - simpl. lia.
Defined.

(** ** Claim C4 *)

(** The invariant of the data model fails on a zero-capacity buffer: its
    cursors are 0, which is not inside the empty range [0, 0). *)
Lemma ring_invariant_zero_capacity :
  ring_run (ring_create 0) [] = Ok (ring_create 0) /\
  ~ ring_invariant 0 (ring_create 0).
Proof.
  split; [reflexivity|].
  unfold ring_invariant, ring_create; simpl. lia.
Qed.

(** C4 (amended). For every capacity [1 <= C] (a [uint32_t]) and every
    sequence of write, read and clear operations on a buffer created with
    capacity [C], the run reaches no undefined behaviour and ends in a
    state with [0 <= count <= C] and both cursors in [0, C);
    [available()] is [count], hence at most [C].  In that state a write of
    [n] samples returns [min n (C - count)]: all of [n] when it fits and
    the short count [C - count] when the input would exceed the capacity;
    it advances the write cursor by that amount modulo [C].  A read of [n]
    returns [min n count] and advances the read cursor by that amount
    modulo [C]. *)
Theorem ring_invariant_preserved (C : Z) (ops : list ring_op) :
  1 <= C <= UINT32_MAX ->
  Forall op_wf ops ->
  exists rb,
    ring_run (ring_create C) ops = Ok rb /\
    ring_invariant C rb /\
    ring_available rb = count rb /\
    ring_available rb <= C /\
    (forall data, is_uint32 (Z.of_nat (length data)) ->
       exists rb' written,
         ring_write rb data = Ok (rb', written) /\
         written = Z.min (Z.of_nat (length data)) (C - count rb) /\
         (count rb + Z.of_nat (length data) > C -> written = C - count rb) /\
         (count rb + Z.of_nat (length data) <= C -> written = Z.of_nat (length data)) /\
         count rb' = count rb + written /\
         write_pos rb' = (write_pos rb + written) mod C /\
         read_pos rb' = read_pos rb /\
         ring_invariant C rb') /\
    (forall n, is_uint32 n ->
       exists rb' out nread,
         ring_read rb n = Ok (rb', out, nread) /\
         nread = Z.min n (count rb) /\
         Z.of_nat (length out) = nread /\
         count rb' = count rb - nread /\
         read_pos rb' = (read_pos rb + nread) mod C /\
         write_pos rb' = write_pos rb /\
         ring_invariant C rb').
Proof.
  intros HC Hwf.
  destruct (ring_run_repr ops (ring_create C) [] (ring_repr_create C HC) Hwf)
    as (rb & q & Hrun & Hrepr & Hcap).
  simpl in Hcap.
  pose proof (ring_repr_invariant rb q Hrepr) as Hinv. rewrite Hcap in Hinv.
  pose proof Hrepr as (Hlen & HC1 & Hcnt & Hle & Hrp & Hwp & Hq).
  exists rb. split_and!; try done; try (unfold ring_available; lia).
  - intros data Hdata.
    destruct (ring_write_loop_spec data rb q 0 Hrepr)
      as (rb' & Hw & Hr' & Hcap' & Hrd & Hcount & Hwpos);
      [lia | unfold is_uint32 in Hdata; lia |].
    rewrite Z.add_0_l in Hw.
    exists rb', (Z.min (Z.of_nat (length data)) (capacity rb - count rb)).
    rewrite Hcap in *.
    split_and!; try done; try lia.
    rewrite <- Hcap'. eapply ring_repr_invariant; eauto.
  - intros n Hn.
    destruct (ring_read_loop_spec (Z.to_nat n) rb q [] 0 Hrepr)
      as (rb' & Hr & Hr' & Hcap' & Hwpos & Hcount & Hrpos);
      [lia | unfold is_uint32 in Hn; lia |].
    unfold is_uint32 in Hn.
    assert (Hmin : Z.of_nat (Nat.min (Z.to_nat n) (length q)) = Z.min n (count rb)) by lia.
    rewrite Z.add_0_l, Hmin in Hr. rewrite Hmin in Hcount, Hrpos.
    exists rb', (take (Nat.min (Z.to_nat n) (length q)) q), (Z.min n (count rb)).
    rewrite Hcap in *.
    split_and!; try done; try lia.
    + rewrite length_take. lia.
    + rewrite <- Hcap'. eapply ring_repr_invariant; eauto.
Qed.

Lemma ring_invariant_preserved_witness :
  exists rb,
    ring_run (ring_create 2)
      [OpWrite [F32_one; F32_20; F32_m100]; OpRead 1; OpWrite [F32_one]; OpClear]
      = Ok rb /\ ring_invariant 2 rb.
Proof.
  destruct (ring_invariant_preserved 2
              [OpWrite [F32_one; F32_20; F32_m100]; OpRead 1; OpWrite [F32_one]; OpClear])
    as (rb & Hrun & Hinv & _).
  - unfold UINT32_MAX. lia.
  - repeat constructor; simpl; unfold is_uint32, UINT32_MAX; lia.
  - exists rb. split; assumption.
Defined.

(* ===================================================================== *)
(** * SignalConditioner *)
(* ===================================================================== *)

(** ** Claim C9 *)

(** Multiplication by [1.0f] is exact on every binary32 number. *)
Lemma f32_mul_one s m e :
  bounded 24 128 m e = true ->
  f32_mul (S754_finite s m e) F32_one = S754_finite s m e.
Proof.
  intros Hb. unfold bounded, canonical_mantissa in Hb.
  apply andb_true_iff in Hb as [Hcan He].
  apply Z.eqb_eq in Hcan. apply Z.leb_le in He.
  rewrite fexp32 in Hcan. change (128 - 24) with 104 in He.
  pose proof (digits2_pos_bounds m) as [Hlo Hhi].
  set (d := Z.pos (digits2_pos m)) in *.
  assert (Hd : 1 <= d) by (subst d; lia).
  unfold f32_mul, SFmul, F32_one.
  assert (Hz : Z.pos (m * 8388608) = Z.pos m * 2 ^ 23) by (rewrite Pos2Z.inj_mul; reflexivity).
  assert (Hp1 : 2 ^ (d + 23 - 1) = 2 ^ (d - 1) * 2 ^ 23).
  { rewrite <- Z.pow_add_r by lia. f_equal. lia. }
  assert (Hp2 : 2 ^ (d + 23) = 2 ^ d * 2 ^ 23).
  { rewrite <- Z.pow_add_r by lia. reflexivity. }
  assert (Hdig : Z.pos (digits2_pos (m * 8388608)) = d + 23).
  { apply digits2_pos_unique. rewrite Hz, Hp1, Hp2.
    change (2 ^ 23) with 8388608. lia. }
  unfold binary_round_aux. unfold shr_fexp at 1, Zdigits2.
  rewrite Hdig, fexp32.
  replace (Z.max (d + 23 + (e + -23) - 24) (-149) - (e + -23)) with 23 by lia.
  unfold shr. cbv iota beta.
  pose proof (shr_inv_iter (Z.pos (m * 8388608)) 23 0
                (Build_shr_record (Z.pos (m * 8388608)) false false)
                ltac:(lia) (shr_inv_init (Z.pos (m * 8388608)) ltac:(lia)))
    as Hinv.
  change (shr_record_of_loc (Z.pos (m * 8388608)) loc_Exact)
    with (Build_shr_record (Z.pos (m * 8388608)) false false).
  set (mrs := SpecFloat.iter_pos shr_1 23 _) in *.
  destruct Hinv as (Hm & rem & Hzr & Hrem & Hff & Hft & Htf & Htt).
  rewrite Hz in Hzr. change (0 + 23) with 23 in *.
  change (2 ^ 23) with 8388608 in *.
  assert (Hsm : shr_m mrs = Z.pos m) by lia.
  assert (Hr0 : rem = 0) by lia.
  assert (Hmrs : mrs = Build_shr_record (Z.pos m) false false).
  { clearbody mrs. destruct mrs as [mm [|] [|]]; simpl in *; subst mm;
      try specialize (Hft eq_refl eq_refl);
      try specialize (Htf eq_refl eq_refl);
      try specialize (Htt eq_refl eq_refl); try lia. reflexivity. }
  rewrite Hmrs. simpl shr_m. simpl loc_of_shr_record. simpl round_nearest_even.
  unfold shr_fexp, Zdigits2. fold d. rewrite fexp32.
  replace (Z.max (d + (e + -23 + 23) - 24) (-149) - (e + -23 + 23)) with 0 by lia.
  unfold shr. cbv iota beta. simpl shr_m.
  replace (e + -23 + 23) with e by lia.
  change (128 - 24) with 104.
  destruct (Z.leb_spec e 104); [|lia].
  destruct s; reflexivity.
Qed.

Lemma bind_Ok {A B} (f : A -> result B) (a : A) : (Ok a ≫= f) = f a.
Proof. reflexivity. Qed.

Lemma load_ok (cur : list float32) (i : nat) x :
  cur !! i = Some x -> load cur (Z.of_nat i) = Ok x.
Proof.
  intros H. unfold load.
  destruct (Z.leb_spec 0 (Z.of_nat i)); [|lia].
  rewrite Nat2Z.id, H. reflexivity.
Qed.

Lemma store_ok (cur : list float32) (i : nat) v :
  (i < length cur)%nat -> store cur (Z.of_nat i) v = Ok (<[i := v]> cur).
Proof.
  intros H. unfold store.
  destruct (Z.leb_spec 0 (Z.of_nat i)); [|lia].
  destruct (Z.ltb_spec (Z.of_nat i) (Z.of_nat (length cur))); [|lia].
  rewrite Nat2Z.id. reflexivity.
Qed.

(** The backward loop: every index from [i] down to 1 receives
    [x[j] - coeff * x[j - 1]] computed from the values the array held when
    the loop started; index 0 and the indices above [i] are untouched. *)
Lemma preemphasis_loop_spec coeff (i : nat) : forall cur : list float32,
  (i < length cur)%nat ->
  exists out,
    preemphasis_loop i cur coeff = Ok out /\
    length out = length cur /\
    out !! 0%nat = cur !! 0%nat /\
    (forall j, (i < j)%nat -> out !! j = cur !! j) /\
    (forall j x xp, (1 <= j <= i)%nat ->
       cur !! j = Some x -> cur !! (j - 1)%nat = Some xp ->
       out !! j = Some (f32_sub x (f32_mul coeff xp))).
Proof.
  induction i as [|i IH]; intros cur Hi.
  - exists cur. simpl. split_and!; auto. intros; lia.
  - destruct (lookup_lt_is_Some_2 cur (S i) Hi) as [xi Hxi].
    destruct (lookup_lt_is_Some_2 cur i ltac:(lia)) as [xp Hxp].
    simpl preemphasis_loop.
    rewrite (load_ok cur (S i) xi Hxi), (load_ok cur i xp Hxp).
    simpl mbind. unfold result_bind.
    rewrite (store_ok cur (S i)) by exact Hi.
    set (v := f32_sub xi (f32_mul coeff xp)).
    destruct (IH (<[S i := v]> cur)) as (out & Hrun & Hlen & H0 & Habove & Hbelow).
    { rewrite length_insert. lia. }
    exists out. rewrite length_insert in Hlen.
    split_and!; try done.
    + rewrite H0. by rewrite list_lookup_insert_ne.
    + intros j Hj. rewrite Habove by lia.
      apply list_lookup_insert_ne. lia.
    + intros j x xp' Hj Hx Hxp'.
      destruct (decide (j = S i)) as [->|Hne].
      * rewrite Habove by lia.
        rewrite list_lookup_insert_eq by exact Hi.
        replace (S i - 1)%nat with i in Hxp' by lia.
        subst v. congruence.
      * apply Hbelow; [lia | |]; rewrite list_lookup_insert_ne by lia; assumption.
Qed.

(** With a zero coefficient the subtracted product is a zero. *)
Lemma f32_sub_zero_product s x xp :
  is_finite x = true -> is_finite xp = true ->
  same_value (f32_sub x (f32_mul (S754_zero s) xp)) x.
Proof.
  unfold same_value.
  destruct x as [[|]| | |sx mx ex], xp as [[|]| | |sp mp ep], s;
    simpl; try discriminate; intros _ _; try (left; reflexivity);
    try (right; split; reflexivity);
    destruct sp; simpl; try (left; reflexivity); right; split; reflexivity.
Qed.

Lemma f32_mul_one_sample x coeff :
  sample_ok x = true -> is_zero coeff = true ->
  f32_mul x (f32_sub F32_one coeff) = x.
Proof.
  intros Hx Hc. destruct coeff as [sc| | |]; try discriminate.
  change (f32_sub F32_one (S754_zero sc)) with F32_one.
  unfold sample_ok in Hx. apply andb_true_iff in Hx as [Hfin Hval].
  destruct x as [[|]| | |s m e]; try discriminate; try reflexivity.
  by apply f32_mul_one.
Qed.

(** The input [+inf, 1.0] with [coeff = 0]: the second output is
    [1.0 - 0 * inf], a NaN, not the input sample. *)
Lemma audio_preemphasis_zero_coeff_not_identity :
  audio_preemphasis [S754_infinity false; F32_one] F32_zero
  = Ok [S754_infinity false; S754_nan].
Proof. reflexivity. Qed.

(** C9 (amended). For every sequence of length [n >= 2] ([n] a
    [uint32_t]) and every coefficient, [audio_preemphasis] replaces the
    contents in place with [y[0] = x[0] * (1 - coeff)] and
    [y[i] = x[i] - coeff * x[i - 1]] for every [i >= 1], where [x] denotes
    the original contents and the operations are those of binary32; it is a
    no-op for sequences shorter than 2; and with [coeff = 0], on samples
    that are all finite, every output equals its input, except that a [-0]
    sample may become [+0]. *)
Theorem audio_preemphasis_spec (samples : list float32) (coeff : float32) :
  let n := Z.of_nat (length samples) in
  n <= UINT32_MAX ->
  (n < 2 -> audio_preemphasis samples coeff = Ok samples) /\
  (2 <= n ->
   exists out,
     audio_preemphasis samples coeff = Ok out /\
     length out = length samples /\
     (forall x0, samples !! 0%nat = Some x0 ->
        out !! 0%nat = Some (f32_mul x0 (f32_sub F32_one coeff))) /\
     (forall (i : nat) x xp, (1 <= i)%nat ->
        samples !! i = Some x -> samples !! (i - 1)%nat = Some xp ->
        out !! i = Some (f32_sub x (f32_mul coeff xp))) /\
     (is_zero coeff = true -> forallb sample_ok samples = true ->
      forall (i : nat) x, samples !! i = Some x ->
        exists y, out !! i = Some y /\ same_value y x)).
Proof.
  intros n Hn. unfold audio_preemphasis. fold n.
  destruct (Z.ltb_spec n 2) as [Hshort|Hlong].
  - split; [reflexivity | lia].
  - split; [lia|]. intros _.
    rewrite wrap32_small by u32.
    destruct (preemphasis_loop_spec coeff (Z.to_nat (n - 1)) samples ltac:(lia))
      as (out1 & Hrun & Hlen & H0 & _ & Hbelow).
    rewrite Hrun, bind_Ok.
    destruct (lookup_lt_is_Some_2 samples 0 ltac:(lia)) as [x0 Hx0].
    change 0 with (Z.of_nat 0).
    rewrite (load_ok out1 0 x0), bind_Ok by congruence.
    rewrite (store_ok out1 0) by lia.
    set (y0 := f32_mul x0 (f32_sub F32_one coeff)).
    assert (Hy0 : forall x, samples !! 0%nat = Some x ->
              <[0%nat := y0]> out1 !! 0%nat = Some (f32_mul x (f32_sub F32_one coeff))).
    { intros x Hx. rewrite list_lookup_insert_eq by lia. subst y0. congruence. }
    assert (Hyi : forall (i : nat) x xp, (1 <= i)%nat ->
              samples !! i = Some x -> samples !! (i - 1)%nat = Some xp ->
              <[0%nat := y0]> out1 !! i = Some (f32_sub x (f32_mul coeff xp))).
    { intros i x xp Hi Hx Hxp.
      rewrite list_lookup_insert_ne by lia.
      apply Hbelow; try assumption.
      apply lookup_lt_Some in Hx. lia. }
    eexists. split; [reflexivity|].
    split; [rewrite length_insert; exact Hlen|].
    split; [exact Hy0|]. split; [exact Hyi|].
    intros Hc Hok i x Hx.
    assert (Hall : forall j xj, samples !! j = Some xj -> sample_ok xj = true).
    { intros j xj Hj. rewrite forallb_forall in Hok. apply Hok.
      apply list_elem_of_In. eapply list_elem_of_lookup_2; eassumption. }
    destruct i as [|i].
    + eexists. split; [by apply Hy0|]. left.
      apply f32_mul_one_sample; [by eapply Hall | exact Hc].
    + destruct (lookup_lt_is_Some_2 samples i) as [xp Hxp].
      { apply lookup_lt_Some in Hx. lia. }
      eexists. split.
      * apply (Hyi (S i) x xp); [lia | exact Hx |].
        by replace (S i - 1)%nat with i by lia.
      * destruct coeff as [sc| | |]; try discriminate.
        apply f32_sub_zero_product.
        -- pose proof (Hall _ _ Hx) as H. unfold sample_ok in H.
           by apply andb_true_iff in H as [? _].
        -- pose proof (Hall _ _ Hxp) as H. unfold sample_ok in H.
           by apply andb_true_iff in H as [? _].
Qed.

Lemma audio_preemphasis_spec_witness :
  exists out,
    audio_preemphasis [F32_one; F32_20; F32_m100] F32_zero = Ok out /\
    length out = 3%nat.
Proof.
  destruct (audio_preemphasis_spec [F32_one; F32_20; F32_m100] F32_zero)
    as [_ H].
  - unfold UINT32_MAX. simpl. lia.
  - destruct H as (out & Hrun & Hlen & _); [simpl; lia|].
    exists out. split; assumption.
Defined.

(** ** Claim C8 *)

(** C8 (the code at the failing input). The claim gives the number of
    outputs as [min(outCapacity, ceil(inLen / ratio))] with the real ratio,
    each output interpolated between valid input indices.  160 samples
    resampled from 8000 Hz to 6100 Hz: [8000 / 6100] rounds
    down in binary64, [160 / ratio] comes out just above 122, so the code
    computes 123 outputs where [ceil(160 * 6100 / 8000)] is 122; at output
    index 122 the source position [122 * ratio] rounds to 160.0 and
    [in[160]] is read, one element past the input ([idx1] is clamped to the
    last valid index, [idx0] is not).  With one input sample, 1 Hz to 49 Hz,
    the code writes 50 samples where [ceil(1 * 49 / 1)] is 49. *)
Lemma audio_resample_linear_reads_past_input :
  audio_resample_linear (replicate 160 F32_one) 8000 6100 200
    = Undefined OutOfBounds /\
  u32_of_f64
    (f64_min (f64_of_u32 200)
       (f64_ceil (f64_div (f64_of_u32 160)
                    (f64_div (f64_of_u32 8000) (f64_of_u32 6100)))))
    = Ok 123 /\
  ceil_div (160 * 6100) 8000 = 122 /\
  u32_of_f64 (f64_mul (f64_of_u32 122) (f64_div (f64_of_u32 8000) (f64_of_u32 6100)))
    = Ok 160 /\
  audio_resample_linear [F32_one] 1 49 100 = Ok (replicate 50 F32_one, 50) /\
  ceil_div (1 * 49) 1 = 49.
Proof. vm_compute. repeat split. Qed.

(* ===================================================================== *)
(** * FrameClassifier *)
(* ===================================================================== *)

(** ** Claim C5 *)

(** [static_cast<double>] of a positive [uint32_t] is exact: a positive
    finite binary64 number. *)
Lemma f64_of_u32_finite z :
  1 <= z <= UINT32_MAX ->
  exists m e, f64_of_u32 z = S754_finite false m e.
Proof.
  intros Hz. destruct z as [|p|p]; try lia.
  pose proof (digits2_pos_bounds p) as [Hlo Hhi].
  set (d := Z.pos (digits2_pos p)) in *.
  assert (Hd : 1 <= d <= 32).
  { split; [subst d; lia|].
    destruct (Z.le_gt_cases d 32) as [H|H]; [exact H|]. exfalso.
    assert (2 ^ 32 <= 2 ^ (d - 1)) by (apply Z.pow_le_mono_r; lia).
    unfold UINT32_MAX in Hz. simpl in *. lia. }
  unfold f64_of_u32, binary_normalize, binary_round.
  change (fexp 53 1024 (Z.pos (digits2_pos p) + 0))
    with (Z.max (d + 0 - 53) (-1074)).
  replace (Z.max (d + 0 - 53) (-1074)) with (d - 53) by lia.
  unfold shl_align. rewrite Z.sub_0_r.
  destruct (d - 53) as [|k|k] eqn:Ek; try lia.
  assert (Hpd : 2 ^ 53 = 2 ^ d * 2 ^ Z.pos k).
  { rewrite <- Z.pow_add_r by lia. f_equal. lia. }
  assert (Hpk : 2 ^ 52 = 2 ^ (d - 1) * 2 ^ Z.pos k).
  { rewrite <- Z.pow_add_r by lia. f_equal. lia. }
  assert (Hp : 0 < 2 ^ Z.pos k) by (apply Z.pow_pos_nonneg; lia).
  assert (Hdig : Z.pos (digits2_pos (Pos.iter xO p k)) = 53).
  { apply digits2_pos_unique. rewrite pos_iter_xO.
    change (53 - 1) with 52. nia. }
  unfold binary_round_aux, shr_fexp, Zdigits2.
  rewrite Hdig.
  change (fexp 53 1024 (53 + Z.neg k)) with (Z.max (53 + Z.neg k - 53) (-1074)).
  replace (Z.max (53 + Z.neg k - 53) (-1074) - Z.neg k) with 0 by lia.
  simpl shr. cbv iota beta. simpl round_nearest_even.
  unfold Zdigits2. rewrite Hdig.
  change (fexp 53 1024 (53 + Z.neg k)) with (Z.max (53 + Z.neg k - 53) (-1074)).
  replace (Z.max (53 + Z.neg k - 53) (-1074) - Z.neg k) with 0 by lia.
  simpl shr. cbv iota beta. simpl shr_m.
  change (1024 - 53) with 971.
  destruct (Z.leb_spec (Z.neg k) 971); [eauto | lia].
Qed.

Lemma sum_squares_zero samples :
  forallb is_zero samples = true -> sum_squares samples = F64_zero.
Proof.
  unfold sum_squares. induction samples as [|x samples IH]; intros H; [reflexivity|].
  simpl in H. apply andb_true_iff in H as [Hx Hrest].
  destruct x as [[|]| | |]; try discriminate; simpl; by apply IH.
Qed.

Lemma audio_rms_zero samples :
  Z.of_nat (length samples) <= UINT32_MAX ->
  forallb is_zero samples = true -> audio_rms samples = F32_zero.
Proof.
  intros Hn Hz. unfold audio_rms.
  destruct (Z.eqb_spec (Z.of_nat (length samples)) 0); [reflexivity|].
  rewrite sum_squares_zero by exact Hz.
  destruct (f64_of_u32_finite (Z.of_nat (length samples)) ltac:(lia)) as (m & e & ->).
  reflexivity.
Qed.

(** The constants of the code are the binary32 numbers their literals
    denote: 1.0, 20, -100 and -35 exactly; [1e-10f] is the binary32 number
    nearest to 10^-10, and it is the least binary32 number that is not
    below 10^-10, so that a [float] is below [1e-10f] exactly when it is
    below 10^-10. *)
Lemma constants_exact :
  8388608 = 1 * 2 ^ 23 /\ 10485760 = 20 * 2 ^ 19 /\
  13107200 = 100 * 2 ^ 17 /\ 9175040 = 35 * 2 ^ 18 /\
  F32_1em10 = S754_finite false 14411519 (-57) /\
  (2 * 14411519 - 1) * 10 ^ 10 < 2 ^ 58 < (2 * 14411519 + 1) * 10 ^ 10 /\
  (14411519 - 1) * 10 ^ 10 < 2 ^ 57 <= 14411519 * 10 ^ 10 /\
  valid_binary 24 128 F32_1em10 = true.
Proof. vm_compute. repeat split; congruence. Qed.

(** ** Claim C6 *)

Lemma sign_changes_cons prev x rest :
  sign_changes (prev :: x :: rest)
  = (if signs_differ (prev, x) then 1 else 0) + sign_changes (x :: rest).
Proof.
  unfold sign_changes, adjacent_pairs. simpl tail. simpl zip.
  rewrite filter_cons. destruct (decide (signs_differ (prev, x) = true)) as [->|Hn].
  - simpl length. lia.
  - destruct (signs_differ (prev, x)); [congruence|]. simpl. lia.
Qed.

Lemma sign_changes_bounds samples :
  0 <= sign_changes samples <= Z.of_nat (length samples) - 1 \/ samples = [].
Proof.
  destruct samples as [|x0 rest]; [right; reflexivity|left].
  revert x0. induction rest as [|x rest IH]; intros x0.
  - unfold sign_changes. simpl. lia.
  - rewrite sign_changes_cons. specialize (IH x).
    rewrite !length_cons in *. destruct (signs_differ (x0, x)); lia.
Qed.

(** The loop counts the sign changes; the counter cannot wrap. *)
Lemma zero_crossings_spec rest : forall prev crossings,
  0 <= crossings ->
  crossings + Z.of_nat (length rest) <= UINT32_MAX ->
  zero_crossings prev rest crossings = crossings + sign_changes (prev :: rest).
Proof.
  induction rest as [|x rest IH]; intros prev crossings Hc Hfit.
  - unfold sign_changes. simpl. lia.
  - simpl zero_crossings. rewrite sign_changes_cons.
    rewrite length_cons in Hfit.
    change (xorb (f_ge x F32_zero) (f_ge prev F32_zero)) with (signs_differ (prev, x)).
    destruct (signs_differ (prev, x)).
    + rewrite wrap32_small by u32.
      rewrite IH by lia. lia.
    + rewrite IH by lia. lia.
Qed.

Lemma sign_changes_constant samples :
  constant_sign samples = true -> sign_changes samples = 0.
Proof.
  destruct samples as [|x0 rest]; [reflexivity|].
  revert x0. induction rest as [|x rest IH]; intros x0 H; [reflexivity|].
  rewrite sign_changes_cons.
  unfold constant_sign, adjacent_pairs in H. simpl in H.
  apply andb_true_iff in H as [H1 H2].
  destruct (signs_differ (x0, x)); [discriminate|].
  rewrite IH; [reflexivity | exact H2].
Qed.

Lemma sign_changes_alternating samples :
  samples <> [] ->
  alternating_sign samples = true ->
  sign_changes samples = Z.of_nat (length samples) - 1.
Proof.
  destruct samples as [|x0 rest]; [congruence|]. intros _.
  revert x0. induction rest as [|x rest IH]; intros x0 H; [reflexivity|].
  rewrite sign_changes_cons.
  unfold alternating_sign, adjacent_pairs in H. simpl in H.
  apply andb_true_iff in H as [H1 H2].
  rewrite H1, IH by exact H2. rewrite !length_cons. lia.
Qed.

Lemma f32_div_zero_l m e :
  f32_div (f32_of_u32 0) (S754_finite false m e) = F32_zero.
Proof. reflexivity. Qed.

(** The binary32 quotient of two counts [0 <= c <= k], [k >= 1]. *)
Lemma f32_div_counts c k :
  0 <= c <= k -> 1 <= k <= UINT32_MAX ->
  let q := f32_div (f32_of_u32 c) (f32_of_u32 k) in
  f_le F32_zero q = true /\ f_le q F32_one = true /\
  (c = 0 -> q = F32_zero) /\ (c = k -> q = F32_one).
Proof.
  intros Hc Hk q. subst q.
  destruct (f32_of_u32_finite k Hk) as (m2 & e2 & Hk2 & Hm2 & He2).
  destruct (Z.eq_dec c 0) as [->|Hc0].
  - rewrite Hk2, f32_div_zero_l. split_and!; try reflexivity. lia.
  - destruct (f32_of_u32_finite c ltac:(lia)) as (m1 & e1 & Hc1 & Hm1 & He1).
    pose proof (f32_of_u32_mono c k m1 e1 m2 e2 ltac:(lia) ltac:(lia) ltac:(lia) Hc1 Hk2)
      as Hord.
    destruct (f32_div_unit_interval m1 e1 m2 e2 Hm1 Hm2 He1 He2 Hord)
      as (H0 & H1 & Hone).
    rewrite Hc1, Hk2. split_and!; [exact H0 | exact H1 | lia |].
    intros ->. rewrite Hc1 in Hk2. injection Hk2 as -> ->. by apply Hone.
Qed.

(** What the function computes on a frame of at least two samples. *)
Lemma audio_zero_crossing_rate_counts (samples : list float32) :
  let n := Z.of_nat (length samples) in
  2 <= n <= UINT32_MAX ->
  0 <= sign_changes samples <= n - 1 /\
  audio_zero_crossing_rate samples
  = f32_div (f32_of_u32 (sign_changes samples)) (f32_of_u32 (n - 1)).
Proof.
  intros n Hn. unfold audio_zero_crossing_rate. fold n.
  destruct (Z.ltb_spec n 2) as [Hshort|Hlong]; [lia|].
  destruct samples as [|x0 rest]; [simpl in n; lia|].
  rewrite zero_crossings_spec by (subst n; rewrite length_cons in *; lia).
  rewrite Z.add_0_l.
  rewrite wrap32_small by u32.
  destruct (sign_changes_bounds (x0 :: rest)) as [Hb|?]; [|discriminate].
  fold n in Hb. split; [exact Hb | reflexivity].
Qed.

(** The rate is a number in [0, 1]; in particular it is not a NaN. *)
Lemma audio_zero_crossing_rate_range (samples : list float32) :
  Z.of_nat (length samples) <= UINT32_MAX ->
  f_le F32_zero (audio_zero_crossing_rate samples) = true /\
  f_le (audio_zero_crossing_rate samples) F32_one = true.
Proof.
  intros Hn.
  destruct (Z.lt_ge_cases (Z.of_nat (length samples)) 2) as [Hshort|Hlong].
  - unfold audio_zero_crossing_rate.
    destruct (Z.ltb_spec (Z.of_nat (length samples)) 2); [|lia].
    split; reflexivity.
  - destruct (audio_zero_crossing_rate_counts samples ltac:(lia)) as [Hb ->].
    destruct (f32_div_counts (sign_changes samples) (Z.of_nat (length samples) - 1)
                Hb ltac:(lia)) as (H0 & H1 & _).
    split; assumption.
Qed.

(** C6. For every frame of [n] samples ([n] a [uint32_t]):
    [audio_zero_crossing_rate] returns 0 when [n < 2]; when [n >= 2] it
    returns the fraction of the [n - 1] adjacent sample pairs whose signs
    differ (sign meaning [x >= 0] or not), computed as the binary32 quotient
    of the two counts; the value returned always lies in [0, 1]; it is 0 for
    every constant-sign frame and exactly 1.0 for every frame of length at
    least 2 whose signs strictly alternate. *)
Theorem audio_zero_crossing_rate_spec (samples : list float32) :
  let n := Z.of_nat (length samples) in
  let zcr := audio_zero_crossing_rate samples in
  n <= UINT32_MAX ->
  (n < 2 -> zcr = F32_zero) /\
  (2 <= n ->
     0 <= sign_changes samples <= n - 1 /\
     zcr = f32_div (f32_of_u32 (sign_changes samples)) (f32_of_u32 (n - 1))) /\
  f_le F32_zero zcr = true /\ f_le zcr F32_one = true /\
  (constant_sign samples = true -> zcr = F32_zero) /\
  (2 <= n -> alternating_sign samples = true -> zcr = F32_one).
Proof.
  intros n zcr Hn.
  destruct (audio_zero_crossing_rate_range samples Hn) as [H0 H1].
  assert (Hshort : n < 2 -> zcr = F32_zero).
  { intros H. subst zcr. unfold audio_zero_crossing_rate. fold n.
    destruct (Z.ltb_spec n 2); [reflexivity | lia]. }
  split; [exact Hshort|].
  split; [intros H; by apply audio_zero_crossing_rate_counts|].
  split; [exact H0|]. split; [exact H1|].
  split.
  - intros Hconst.
    destruct (Z.lt_ge_cases n 2) as [H|H]; [by apply Hshort|].
    destruct (audio_zero_crossing_rate_counts samples ltac:(fold n; lia)) as [Hb Heq].
    subst zcr. rewrite Heq, (sign_changes_constant samples Hconst).
    fold n. fold n in Hb.
    by apply (f32_div_counts 0 (n - 1)); lia.
  - intros H Halt.
    destruct (audio_zero_crossing_rate_counts samples ltac:(fold n; lia)) as [Hb Heq].
    subst zcr. rewrite Heq.
    rewrite sign_changes_alternating in * by (try done; intros ->; simpl in n; lia).
    fold n. fold n in Hb.
    by apply (f32_div_counts (n - 1) (n - 1)); lia.
Qed.

Lemma audio_zero_crossing_rate_spec_witness :
  audio_zero_crossing_rate [F32_one; F32_m100; F32_one; F32_m100] = F32_one /\
  audio_zero_crossing_rate [F32_one; F32_20; F32_zero] = F32_zero.
Proof.
  split.
  - apply (audio_zero_crossing_rate_spec [F32_one; F32_m100; F32_one; F32_m100]);
      [unfold UINT32_MAX; simpl; lia | simpl; lia | reflexivity].
  - apply (audio_zero_crossing_rate_spec [F32_one; F32_20; F32_zero]);
      [unfold UINT32_MAX; simpl; lia | reflexivity].
Defined.

(** ** Claim C2 *)

Lemma f_le_not_nan x y : f_le x y = true -> is_nan y = false.
Proof. destruct x, y; simpl; try reflexivity; discriminate. Qed.

(** With a NaN energy threshold the energy gate [energy < thresh] is false
    and the frame is classified as voiced, although [energy >= thresh] does
    not hold. *)
Lemma vad_detect_nan_threshold :
  (forall log10f, vad_detect log10f [] S754_nan F32_zero F32_one = 1) /\
  (forall log10f, f_ge (audio_energy_db log10f []) S754_nan = false).
Proof. split; intros log10f; reflexivity. Qed.

(** C2 (amended). For every frame (of a [uint32_t] number of samples) and
    every threshold triple, [vad_detect] returns 1 or 0, and returns 1 if
    and only if none of [energy < energy_thresh], [zcr < zcr_low] and
    [zcr > zcr_high] holds.  When the energy of the frame and the three
    thresholds are not NaN, that is: 1 if and only if
    [energyDb(frame) >= energyThreshDb] and
    [zcrLow <= zeroCrossingRate(frame) <= zcrHigh], otherwise 0. *)
Theorem vad_detect_spec (log10f : float32 -> float32) (samples : list float32)
    (energy_thresh zcr_low zcr_high : float32) :
  let energy := audio_energy_db log10f samples in
  let zcr := audio_zero_crossing_rate samples in
  let voiced := vad_detect log10f samples energy_thresh zcr_low zcr_high in
  Z.of_nat (length samples) <= UINT32_MAX ->
  (voiced = 1 \/ voiced = 0) /\
  (voiced = 1 <->
     f_lt energy energy_thresh = false /\
     f_lt zcr zcr_low = false /\ f_gt zcr zcr_high = false) /\
  (is_nan energy = false -> is_nan energy_thresh = false ->
   is_nan zcr_low = false -> is_nan zcr_high = false ->
   (voiced = 1 <->
      f_ge energy energy_thresh = true /\
      f_le zcr_low zcr = true /\ f_le zcr zcr_high = true)).
Proof.
  intros energy zcr voiced Hn.
  assert (Hzcr : is_nan zcr = false).
  { destruct (audio_zero_crossing_rate_range samples Hn) as [H0 _].
    exact (f_le_not_nan _ _ H0). }
  assert (Hiff : voiced = 1 <->
            f_lt energy energy_thresh = false /\
            f_lt zcr zcr_low = false /\ f_gt zcr zcr_high = false).
  { subst voiced. unfold vad_detect. fold energy zcr.
    destruct (f_lt energy energy_thresh), (f_lt zcr zcr_low), (f_gt zcr zcr_high);
      simpl; split; try (intros (? & ? & ?)); try intro; try done. }
  split_and!.
  - subst voiced. unfold vad_detect.
    destruct (f_lt _ energy_thresh); [by right|].
    destruct (f_lt _ zcr_low || f_gt _ zcr_high); [by right | by left].
  - exact Hiff.
  - intros He Ht Hl Hh. rewrite Hiff.
    rewrite (f_lt_negb_ge energy energy_thresh He Ht).
    rewrite (f_lt_negb_ge zcr zcr_low Hzcr Hl).
    rewrite (f_gt_negb_le zcr zcr_high Hzcr Hh).
    change (f_ge zcr zcr_low) with (f_le zcr_low zcr).
    destruct (f_ge energy energy_thresh), (f_le zcr_low zcr), (f_le zcr zcr_high);
      simpl; split; try (intros (? & ? & ?)); try done.
Qed.

Lemma vad_detect_spec_witness :
  vad_detect log10f_unit [F32_one; S754_finite true 8388608 (-23); F32_one; F32_one]
    F32_m35 F32_zero F32_one = 1.
Proof.
  destruct (vad_detect_spec log10f_unit
              [F32_one; S754_finite true 8388608 (-23); F32_one; F32_one]
              F32_m35 F32_zero F32_one) as (_ & _ & H).
  - unfold UINT32_MAX. simpl. lia.
  - apply H; try reflexivity. vm_compute. repeat split.
Defined.

(* ===================================================================== *)
(** * FrameScanner *)
(* ===================================================================== *)

(** ** Claim C7 *)

Lemma poke_end {A} (out : list A) (v : A) :
  poke out (Z.of_nat (length out)) v = out ++ [v].
Proof.
  unfold poke. destruct (Z.ltb_spec (Z.of_nat (length out)) (Z.of_nat (length out))); [lia | reflexivity].
Qed.

Lemma frame_at_ok samples off size :
  0 <= off -> 0 <= size -> off + size <= Z.of_nat (length samples) ->
  frame_at samples off size = Ok (frame_of samples off size).
Proof.
  intros H1 H2 H3. unfold frame_at, frame_of.
  destruct (Z.leb_spec 0 off); [|lia].
  destruct (Z.leb_spec 0 size); [|lia].
  destruct (Z.leb_spec (off + size) (Z.of_nat (length samples))); [|lia].
  reflexivity.
Qed.

Section FrameScanner.

Variable log10f : float32 -> float32.
Variables (samples : list float32) (frame_size hop_size : Z).
Variables (energy_thresh zcr_low zcr_high : float32).

Let total := Z.of_nat (length samples).
Let flag (k : nat) : Z :=
  vad_detect log10f (frame_of samples (Z.of_nat k * hop_size) frame_size)
    energy_thresh zcr_low zcr_high.

Hypothesis Hfs : is_uint32 frame_size.
Hypothesis Hhop : 1 <= hop_size <= UINT32_MAX.

(** The scan from frame [k] on, [j] frames before the guard fails. *)
Lemma vad_detect_frames_loop_spec (j : nat) : forall (k : nat) out fuel,
  length out = k ->
  (j < fuel)%nat ->
  (forall i : nat, (i < k + j)%nat -> Z.of_nat i * hop_size + frame_size <= total) ->
  total < Z.of_nat (k + j) * hop_size + frame_size <= UINT32_MAX ->
  Z.of_nat (k + j) <= UINT32_MAX ->
  vad_detect_frames_loop log10f fuel samples frame_size hop_size
    energy_thresh zcr_low zcr_high (Z.of_nat k * hop_size) (Z.of_nat k) out
  = Ok (out ++ map flag (seq k j), Z.of_nat (k + j)).
Proof.
  unfold is_uint32, UINT32_MAX in *.
  induction j as [|j IH]; intros k out fuel Hlen Hfuel Hin Hout Hcnt.
  - destruct fuel as [|fuel]; [lia|]. simpl.
    rewrite Nat.add_0_r in *.
    rewrite wrap32_small by u32.
    fold total.
    destruct (Z.leb_spec (Z.of_nat k * hop_size + frame_size) total); [lia|].
    by rewrite app_nil_r.
  - destruct fuel as [|fuel]; [lia|]. simpl vad_detect_frames_loop.
    assert (Hk : Z.of_nat k * hop_size + frame_size <= total) by (apply Hin; lia).
    rewrite wrap32_small by u32.
    fold total.
    destruct (Z.leb_spec (Z.of_nat k * hop_size + frame_size) total); [|lia].
    rewrite frame_at_ok by (fold total; lia). simpl.
    assert (Hnext : Z.of_nat (S k) * hop_size + frame_size
                    <= Z.of_nat (k + S j) * hop_size + frame_size) by nia.
    rewrite (wrap32_small (Z.of_nat k * hop_size + hop_size))
      by u32.
    rewrite (wrap32_small (Z.of_nat k + 1)) by u32.
    replace (Z.of_nat k * hop_size + hop_size) with (Z.of_nat (S k) * hop_size) by lia.
    replace (Z.of_nat k + 1) with (Z.of_nat (S k)) by lia.
    assert (Hp : forall v, poke out (Z.of_nat k) v = out ++ [v])
      by (intros; rewrite <- Hlen; apply poke_end).
    rewrite Hp.
    rewrite (IH (S k)); try lia.
    + rewrite <- app_assoc. simpl. do 2 f_equal. lia.
    + rewrite length_app. simpl. lia.
    + intros i Hi. apply Hin. lia.
Qed.

End FrameScanner.

Lemma frame_count_bounds total frame_size hop :
  0 <= frame_size -> 0 <= total -> 1 <= hop ->
  let c := frame_count total frame_size hop in
  0 <= c /\
  (forall i, 0 <= i < c -> i * hop + frame_size <= total) /\
  total < c * hop + frame_size.
Proof.
  intros Hfs Htot Hhop c. subst c. unfold frame_count.
  destruct (Z.leb_spec frame_size total) as [Hle|Hlt].
  - pose proof (Z.div_mod (total - frame_size) hop ltac:(lia)) as Hdm.
    pose proof (Z.mod_pos_bound (total - frame_size) hop ltac:(lia)) as Hmb.
    assert (0 <= (total - frame_size) / hop) by (apply Z.div_pos; lia).
    split_and!; [lia | | nia].
    intros i Hi. nia.
  - split_and!; [lia | intros; lia | lia].
Qed.

(** With a zero hop the scan never leaves offset 0: after [k] turns it has
    classified the first frame [k] times and written [k] flags. *)
Lemma vad_detect_frames_loop_zero_hop_turns log10f samples frame_size thr lo hi
    (k : nat) : forall (j fuel : nat) out,
  is_uint32 frame_size -> frame_size <= Z.of_nat (length samples) ->
  Z.of_nat (j + k) <= UINT32_MAX -> length out = j ->
  vad_detect_frames_loop log10f (k + fuel) samples frame_size 0 thr lo hi
    0 (Z.of_nat j) out
  = vad_detect_frames_loop log10f fuel samples frame_size 0 thr lo hi
      0 (Z.of_nat (j + k))
      (out ++ replicate k
                (vad_detect log10f (frame_of samples 0 frame_size) thr lo hi)).
Proof.
  induction k as [|k IH]; intros j fuel out Hfs Hfit Hj Hout.
  - simpl. by rewrite Nat.add_0_r, app_nil_r.
  - cbn [Nat.add vad_detect_frames_loop].
    rewrite Z.add_0_l, (wrap32_small frame_size) by exact Hfs.
    destruct (Z.leb_spec frame_size (Z.of_nat (length samples))); [|lia].
    rewrite frame_at_ok by (unfold is_uint32 in Hfs; lia).
    rewrite bind_Ok. change (wrap32 0) with 0.
    rewrite (wrap32_small (Z.of_nat j + 1)) by u32.
    replace (Z.of_nat j + 1) with (Z.of_nat (S j)) by lia.
    assert (Hp : forall v, poke out (Z.of_nat j) v = out ++ [v])
      by (intros; rewrite <- Hout; apply poke_end).
    rewrite Hp.
    rewrite (IH (S j)); try assumption; try lia.
    + rewrite <- app_assoc. do 2 f_equal. lia.
    + rewrite length_app. simpl. lia.
Qed.

Lemma vad_detect_frames_loop_zero_hop log10f samples frame_size thr lo hi fuel :
  is_uint32 frame_size -> frame_size <= Z.of_nat (length samples) ->
  forall num_frames out,
    vad_detect_frames_loop log10f fuel samples frame_size 0 thr lo hi
      0 num_frames out = Timeout.
Proof.
  intros Hfs Hfit.
  induction fuel as [|fuel IH]; intros num_frames out; [reflexivity|].
  cbn [vad_detect_frames_loop].
  rewrite Z.add_0_l, (wrap32_small frame_size) by exact Hfs.
  destruct (Z.leb_spec frame_size (Z.of_nat (length samples))); [|lia].
  rewrite frame_at_ok by (unfold is_uint32 in Hfs; lia).
  rewrite bind_Ok. change (wrap32 0) with 0. apply IH.
Qed.

(** C7. The loop of [vad_detect_frames] has no guard on the hop.  For every
    buffer, every frame size that fits it (the case in which the
    specification promises [(total - frame_size) / hop + 1] flags) and a
    hop of 0, the call never returns, whatever the fuel; and for every
    [k] up to [UINT32_MAX] it reaches the state in which [k] flags have
    been written, all of them the class of the frame at offset 0, and the
    scan is still at offset 0: no output array is large enough. *)
Theorem vad_detect_frames_zero_hop_diverges
    (log10f : float32 -> float32) (samples : list float32) (frame_size : Z)
    (energy_thresh zcr_low zcr_high : float32) :
  is_uint32 frame_size -> frame_size <= Z.of_nat (length samples) ->
  (forall fuel,
     vad_detect_frames log10f fuel samples frame_size 0
       energy_thresh zcr_low zcr_high = Timeout) /\
  (forall k fuel : nat, Z.of_nat k <= UINT32_MAX ->
     vad_detect_frames log10f (k + fuel) samples frame_size 0
       energy_thresh zcr_low zcr_high
     = vad_detect_frames_loop log10f fuel samples frame_size 0
         energy_thresh zcr_low zcr_high 0 (Z.of_nat k)
         (replicate k
            (vad_detect log10f (frame_of samples 0 frame_size)
               energy_thresh zcr_low zcr_high))).
Proof.
  intros Hfs Hfit. split.
  - intros fuel. unfold vad_detect_frames.
    by apply vad_detect_frames_loop_zero_hop.
  - intros k fuel Hk. unfold vad_detect_frames.
    pose proof (vad_detect_frames_loop_zero_hop_turns log10f samples frame_size
                  energy_thresh zcr_low zcr_high k 0 fuel [] Hfs Hfit
                  ltac:(lia) eq_refl) as Hturns.
    exact Hturns.
Qed.

(** For a buffer of one sample, frame size 1 and hop 0 the specification
    promises a finite flag sequence; the call never returns one. *)
Lemma vad_detect_frames_zero_hop_diverges_witness :
  ~ exists log10f fuel flags,
      vad_detect_frames log10f fuel [F32_one] 1 0 F32_m100 F32_zero F32_one
        = Ok flags.
Proof.
  intros (log10f & fuel & flags & H).
  destruct (vad_detect_frames_zero_hop_diverges log10f [F32_one] 1
              F32_m100 F32_zero F32_one) as [Hnever _].
  - unfold is_uint32, UINT32_MAX. lia.
  - simpl. lia.
  - rewrite Hnever in H. discriminate.
Defined.

(* ===================================================================== *)
(** * SegmentExtractor *)
(* ===================================================================== *)

(** ** Claim C1 *)

Lemma ceil_div_code a b :
  0 <= a -> 1 <= b -> (a + b - 1) / b = ceil_div a b.
Proof.
  intros Ha Hb. unfold ceil_div.
  pose proof (Z.div_mod (a + b - 1) b ltac:(lia)) as H1.
  pose proof (Z.mod_pos_bound (a + b - 1) b ltac:(lia)) as H2.
  pose proof (Z.div_mod (- a) b ltac:(lia)) as H3.
  pose proof (Z.mod_pos_bound (- a) b ltac:(lia)) as H4.
  nia.
Qed.

Section SegmentExtractor.

Variable log10f : float32 -> float32.
Variables (samples : list float32) (frame_size : Z) (energy_thresh : float32).
Variables (min_frames max_frames max_segments : Z).

Let n := Z.of_nat (length samples).
Let frames : nat := Z.to_nat (n / frame_size).
Let flag (k : nat) : bool :=
  f_ge (audio_energy_db log10f
          (frame_of samples (Z.of_nat k * frame_size) frame_size))
       energy_thresh.

Hypothesis Hfs : 1 <= frame_size.
Hypothesis Hmin : 1 <= min_frames.
Hypothesis Hmax : is_uint32 max_segments.
Hypothesis Hfit : n / frame_size * frame_size + frame_size <= UINT32_MAX.


Lemma emit_refines st run segs e :
  seg_rel st run segs ->
  let st1 := if run_qualifies st min_frames max_frames max_segments
             then emit_segment st e else st in
  let segs1 := spec_emit min_frames max_frames max_segments run e segs in
  seg_count st1 = Z.of_nat (length segs1) /\
  out_starts st1 = map fst segs1 /\
  out_ends st1 = map snd segs1 /\
  run_start st1 = run_start st /\
  voiced_run st1 = voiced_run st.
Proof using Hmin Hmax.
  clear Hfit flag frames n.
  intros (Hc & Hs & He & Hrun) st1 segs1. subst st1 segs1.
  unfold run_qualifies, spec_emit.
  destruct run as [[runStart runFrames]|].
  - destruct Hrun as (Hrs & Hvr & Hpos). rewrite Hvr, Hc.
    destruct ((min_frames <=? runFrames) && (runFrames <=? max_frames)
              && (Z.of_nat (length segs) <? max_segments)) eqn:E.
    + apply andb_true_iff in E as [_ E]. apply Z.ltb_lt in E.
      unfold emit_segment; simpl.
      rewrite Hc, Hs, He, Hrs.
      rewrite <- (length_map fst segs) at 2. rewrite poke_end.
      rewrite <- (length_map snd segs) at 2. rewrite poke_end.
      rewrite length_app, !map_app. simpl.
      split_and!; try done.
      rewrite wrap32_small; [lia|].
      unfold is_uint32 in *. lia.
    + by split_and!.
  - rewrite Hrun.
    destruct (Z.leb_spec min_frames 0); [lia|]. simpl.
    by split_and!.
Qed.

Lemma find_voiced_segments_loop_spec (j : nat) : forall (k : nat) st run segs fuel,
  (k + j = frames)%nat ->
  (j < fuel)%nat ->
  seg_rel st run segs ->
  run_bounded run k ->
  exists st',
    find_voiced_segments_loop log10f fuel samples frame_size energy_thresh
      min_frames max_frames max_segments (Z.of_nat k * frame_size) st = Ok st' /\
    let '(run', segs') :=
      spec_scan frame_size min_frames max_frames max_segments
        (map flag (seq k j)) (Z.of_nat k * frame_size) run segs in
    seg_rel st' run' segs'.
Proof.
  assert (Hn : 0 <= n) by (subst n; lia).
  assert (Hq : 0 <= n / frame_size) by (apply Z.div_pos; lia).
  pose proof (Z.div_mod n frame_size ltac:(lia)) as Hdm.
  pose proof (Z.mod_pos_bound n frame_size ltac:(lia)) as Hmb.
  assert (Hframes : Z.of_nat frames = n / frame_size) by (subst frames; lia).
  unfold is_uint32, UINT32_MAX in *.
  assert (Hfr : Z.of_nat frames <= 4294967294) by nia.
  induction j as [|j IH]; intros k st run segs fuel Hk Hfuel Hrel Hbound.
  - destruct fuel as [|fuel]; [lia|]. simpl.
    rewrite wrap32_small by (unfold is_uint32, UINT32_MAX; nia).
    fold n.
    destruct (Z.leb_spec (Z.of_nat k * frame_size + frame_size) n); [nia|].
    exists st. split; [reflexivity | exact Hrel].
  - destruct fuel as [|fuel]; [lia|]. simpl find_voiced_segments_loop.
    assert (Hin : Z.of_nat k * frame_size + frame_size <= n) by nia.
    rewrite wrap32_small by (unfold is_uint32, UINT32_MAX; nia).
    fold n.
    destruct (Z.leb_spec (Z.of_nat k * frame_size + frame_size) n); [|lia].
    rewrite frame_at_ok by (fold n; lia). simpl mbind. unfold result_bind.
    replace (Z.of_nat k * frame_size + frame_size)
      with (Z.of_nat (S k) * frame_size) by lia.
    simpl seq. simpl map. fold (flag k).
    destruct (flag k) eqn:Efl; simpl spec_scan.
    + (* voiced frame *)
      replace (Z.of_nat k * frame_size + frame_size)
        with (Z.of_nat (S k) * frame_size) by lia.
      apply IH; [lia | lia | |].
      * destruct Hrel as (Hc & Hs & He & Hrun).
        unfold seg_rel; simpl. split_and!; try done.
        destruct run as [[runStart runFrames]|].
        -- destruct Hrun as (Hrs & Hvr & Hpos). simpl in Hbound.
           rewrite Hvr.
           destruct (Z.eqb_spec runFrames 0); [lia|].
           split_and!; [done | | lia].
           apply wrap32_small. unfold is_uint32, UINT32_MAX. lia.
        -- rewrite Hrun. simpl. by split_and!.
      * destruct run as [[runStart runFrames]|]; simpl in *; lia.
    + (* unvoiced frame *)
      replace (Z.of_nat k * frame_size + frame_size)
        with (Z.of_nat (S k) * frame_size) by lia.
      destruct (emit_refines st run segs (Z.of_nat k * frame_size) Hrel)
        as (Hc1 & Hs1 & He1 & _ & _).
      apply IH; [lia | lia | | exact I].
      unfold seg_rel; simpl. by split_and!.
Qed.

End SegmentExtractor.

Section SegmentRuns.

Variables (frameSize n minFrames maxFrames maxSegments : Z).

Lemma spec_scan_app flags1 : forall flags2 off run segs,
  spec_scan frameSize minFrames maxFrames maxSegments (flags1 ++ flags2) off run segs
  = let '(run1, segs1) :=
      spec_scan frameSize minFrames maxFrames maxSegments flags1 off run segs in
    spec_scan frameSize minFrames maxFrames maxSegments flags2
      (off + Z.of_nat (length flags1) * frameSize) run1 segs1.
Proof.
  induction flags1 as [|[|] flags1 IH]; intros flags2 off run segs.
  - simpl. f_equal. lia.
  - simpl app. simpl spec_scan. rewrite IH.
    destruct (spec_scan _ _ _ _ flags1 _ _ _) as [run1 segs1].
    f_equal. lia.
  - simpl app. simpl spec_scan. rewrite IH.
    destruct (spec_scan _ _ _ _ flags1 _ _ _) as [run1 segs1].
    f_equal. lia.
Qed.

Lemma spec_scan_silence (b : nat) : forall off segs,
  spec_scan frameSize minFrames maxFrames maxSegments (replicate b false) off None segs
  = (None, segs).
Proof.
  induction b as [|b IH]; intros off segs; [reflexivity|].
  simpl. apply IH.
Qed.

Lemma spec_scan_voiced (r : nat) : forall off runStart runFrames segs,
  spec_scan frameSize minFrames maxFrames maxSegments (replicate r true) off
    (Some (runStart, runFrames)) segs
  = (Some (runStart, runFrames + Z.of_nat r), segs).
Proof.
  induction r as [|r IH]; intros off runStart runFrames segs.
  - simpl. by rewrite Z.add_0_r.
  - simpl replicate. simpl spec_scan. rewrite IH.
    replace (runFrames + 1 + Z.of_nat r) with (runFrames + Z.of_nat (S r)) by lia.
    reflexivity.
Qed.

(** One run of [r] voiced frames after [a] silent frames, closed by at
    least one silent frame. *)
Lemma spec_segments_single_run (a r b : nat) :
  spec_segments frameSize n minFrames maxFrames maxSegments
    (replicate a false ++ replicate r true ++ replicate (S b) false)
  = match r with
    | O => []
    | S _ =>
        if (minFrames <=? Z.of_nat r) && (Z.of_nat r <=? maxFrames) && (0 <? maxSegments)
        then [(Z.of_nat a * frameSize, (Z.of_nat a + Z.of_nat r) * frameSize)]
        else []
    end.
Proof.
  unfold spec_segments.
  rewrite spec_scan_app, spec_scan_silence, length_replicate.
  destruct r as [|r].
  - change (replicate 0 true ++ replicate (S b) false) with (replicate (S b) false).
    rewrite spec_scan_silence. reflexivity.
  - change (replicate (S r) true ++ replicate (S b) false)
      with (true :: (replicate r true ++ replicate (S b) false)).
    cbn [spec_scan].
    rewrite spec_scan_app, spec_scan_voiced, length_replicate.
    change (replicate (S b) false) with (false :: replicate b false).
    cbn [spec_scan]. rewrite spec_scan_silence.
    unfold spec_emit. cbn [length].
    replace (1 + Z.of_nat r) with (Z.of_nat (S r)) by lia.
    change (Z.of_nat 0) with 0.
    destruct ((minFrames <=? Z.of_nat (S r)) && (Z.of_nat (S r) <=? maxFrames)
              && (0 <? maxSegments)); [|reflexivity].
    cbn [app]. do 2 f_equal; lia.
Qed.

End SegmentRuns.

(** The code against the specification when no 32-bit operation wraps and
    the minimum duration is positive. *)
Lemma find_voiced_segments_refines (log10f : float32 -> float32)
    (samples : list float32) (sample_rate frame_ms : Z) (energy_thresh : float32)
    (min_dur_ms max_dur_ms max_segments : Z) (fuel : nat) :
  let n := Z.of_nat (length samples) in
  let frame_size := sample_rate * frame_ms / 1000 in
  is_uint32 sample_rate -> is_uint32 frame_ms ->
  is_uint32 max_dur_ms -> is_uint32 max_segments ->
  sample_rate * frame_ms <= UINT32_MAX ->
  1 <= min_dur_ms -> min_dur_ms + frame_ms - 1 <= UINT32_MAX ->
  n / frame_size * frame_size + frame_size <= UINT32_MAX ->
  (Z.to_nat (n / frame_size) < fuel)%nat ->
  let segs := spec_find_voiced_segments log10f samples sample_rate frame_ms
                energy_thresh min_dur_ms max_dur_ms max_segments in
  find_voiced_segments log10f fuel samples sample_rate frame_ms energy_thresh
    min_dur_ms max_dur_ms max_segments
  = Ok (map fst segs, map snd segs, Z.of_nat (length segs)).
Proof.
  intros n frame_size Hsr Hfm Hmaxd Hmaxs Hmul Hmind Hminsum Hfit Hfuel segs.
  assert (Hn0 : 0 <= n) by (unfold n; lia).
  subst segs. unfold spec_find_voiced_segments, find_voiced_segments.
  fold n. rewrite (wrap32_small (sample_rate * frame_ms))
    by (unfold is_uint32 in *; nia).
  fold frame_size.
  destruct (Z.eqb_spec frame_size 0) as [Hz|Hnz].
  { simpl. unfold frame_flags. fold n. rewrite Hz, Z.div_0_r. reflexivity. }
  assert (Hfs : 1 <= frame_size).
  { assert (0 <= frame_size); [|lia].
    apply Z.div_pos; [unfold is_uint32 in *; nia | lia]. }
  destruct (Z.ltb_spec n frame_size) as [Hshort|Hlong].
  { simpl. unfold frame_flags. fold n.
    rewrite (Z.div_small n frame_size) by lia. reflexivity. }
  simpl orb. cbv iota.
  assert (Hfms : 1 <= frame_ms).
  { destruct (Z.eq_dec frame_ms 0) as [E|E].
    - subst frame_size. rewrite E, Z.mul_0_r in Hnz.
      exfalso. apply Hnz. reflexivity.
    - unfold is_uint32 in Hfm. lia. }
  unfold udiv32. destruct (Z.eqb_spec frame_ms 0); [lia|].
  simpl mbind. unfold result_bind.
  rewrite (wrap32_small (min_dur_ms + frame_ms - 1)) by u32.
  rewrite ceil_div_code by lia.
  set (min_frames := ceil_div min_dur_ms frame_ms).
  set (max_frames := max_dur_ms / frame_ms).
  assert (Hmin : 1 <= min_frames).
  { subst min_frames. rewrite <- ceil_div_code by lia.
    apply Z.div_le_lower_bound; lia. }
  destruct (find_voiced_segments_loop_spec log10f samples frame_size energy_thresh
              min_frames max_frames max_segments Hfs Hmin Hmaxs Hfit
              (Z.to_nat (n / frame_size)) 0%nat
              {| seg_count := 0; voiced_run := 0; run_start := 0;
                 out_starts := []; out_ends := [] |} None [] fuel)
    as (st' & Hrun & Hrel); [reflexivity | exact Hfuel | by split_and! | exact I |].
  change (Z.of_nat 0 * frame_size) with 0 in Hrun, Hrel.
  rewrite Hrun.
  unfold spec_segments, frame_flags. fold n.
  destruct (spec_scan _ _ _ _ _ 0 None []) as [run segs] eqn:Escan.
  destruct (emit_refines min_frames max_frames max_segments Hmin Hmaxs st' run segs n Hrel)
    as (Hc & Hs & He & _ & _).
  simpl mbind. unfold result_bind.
  rewrite Hc, Hs, He. reflexivity.
Qed.

(** The claimed frame size is the mathematical [sampleRate * frameMs / 1000];
    the code computes the product in 32 bits.  For 65536 Hz and 65537 ms the
    product wraps to 65536, the code scans frames of 65 samples and reports
    the segment [0, 65) on a buffer of 65 samples, where the claimed frame
    size 4295032 exceeds the buffer and no segment can exist. *)
Lemma find_voiced_segments_frame_size_wraps :
  (forall log10f,
     find_voiced_segments log10f 2 (replicate 65 F32_zero) 65536 65537 F32_m100
       1 65537 1 = Ok ([0], [65], 1)) /\
  (forall log10f,
     spec_find_voiced_segments log10f (replicate 65 F32_zero) 65536 65537 F32_m100
       1 65537 1 = []).
Proof.
  split; intros log10f; vm_compute; reflexivity.
Qed.

(** With a zero minimum duration the test on the run length also passes
    when no run is active: every unvoiced frame, and the end of input,
    reports an interval that starts at a stale [run_start]. *)
Lemma find_voiced_segments_zero_min_duration :
  (forall log10f,
     find_voiced_segments log10f 3 [F32_zero; F32_zero] 1000 1 F32_zero 0 10 4
     = Ok ([0; 0; 0], [0; 1; 2], 3)) /\
  (forall log10f,
     spec_find_voiced_segments log10f [F32_zero; F32_zero] 1000 1 F32_zero 0 10 4
     = []).
Proof.
  split; intros log10f; vm_compute; reflexivity.
Qed.

(** C1 (amended). Provided that no 32-bit operation wraps
    ([sample_rate * frame_ms], [min_dur_ms + frame_ms - 1] and the scan's
    last offset plus the frame size are all below 2^32) and that
    [min_dur_ms >= 1], [find_voiced_segments] terminates and returns exactly
    the segments of the specification's single pass: non-overlapping frames
    of [sample_rate * frame_ms / 1000] samples, gated on
    [energyDb >= energy_thresh] only; a run of consecutive voiced frames
    that an unvoiced frame ends is emitted as [runStart, currentOffset) iff
    [ceil(minDurMs / frameMs) <= runFrames <= floor(maxDurMs / frameMs)] and
    fewer than [max_segments] segments have been emitted, and is discarded
    otherwise; a run still active at the end of input is evaluated the same
    way with end [n].  In particular, when the frames are [a] unvoiced
    frames, one run of [r] voiced frames and at least one unvoiced frame:
    a run of exactly [minFrames] frames yields exactly the segment spanning
    it (given [minFrames <= maxFrames] and [max_segments >= 1]), a run one
    frame shorter yields no segment, and a run longer than [maxFrames]
    yields no segment. *)
Theorem find_voiced_segments_spec (log10f : float32 -> float32)
    (samples : list float32) (sample_rate frame_ms : Z) (energy_thresh : float32)
    (min_dur_ms max_dur_ms max_segments : Z) :
  let n := Z.of_nat (length samples) in
  let frame_size := sample_rate * frame_ms / 1000 in
  let min_frames := ceil_div min_dur_ms frame_ms in
  let max_frames := max_dur_ms / frame_ms in
  is_uint32 sample_rate -> is_uint32 frame_ms ->
  is_uint32 max_dur_ms -> is_uint32 max_segments ->
  sample_rate * frame_ms <= UINT32_MAX ->
  1 <= min_dur_ms -> min_dur_ms + frame_ms - 1 <= UINT32_MAX ->
  n / frame_size * frame_size + frame_size <= UINT32_MAX ->
  forall fuel, (Z.to_nat (n / frame_size) < fuel)%nat ->
  let segs := spec_find_voiced_segments log10f samples sample_rate frame_ms
                energy_thresh min_dur_ms max_dur_ms max_segments in
  let found := find_voiced_segments log10f fuel samples sample_rate frame_ms
                 energy_thresh min_dur_ms max_dur_ms max_segments in
  found = Ok (map fst segs, map snd segs, Z.of_nat (length segs)) /\
  forall a r b : nat,
    frame_flags log10f samples frame_size energy_thresh
      = replicate a false ++ replicate r true ++ replicate (S b) false ->
    (Z.of_nat r = min_frames -> min_frames <= max_frames -> 1 <= max_segments ->
     found = Ok ([Z.of_nat a * frame_size],
                 [(Z.of_nat a + Z.of_nat r) * frame_size], 1)) /\
    (Z.of_nat r = min_frames - 1 -> found = Ok ([], [], 0)) /\
    (max_frames < Z.of_nat r -> found = Ok ([], [], 0)).
Proof.
  intros n frame_size min_frames max_frames Hsr Hfm Hmaxd Hmaxs Hmul Hmind
    Hminsum Hfit fuel Hfuel segs found.
  assert (Hfound : found = Ok (map fst segs, map snd segs, Z.of_nat (length segs))).
  { subst found segs. by apply find_voiced_segments_refines. }
  split; [exact Hfound|].
  intros a r b Hflags.
  assert (Hsegs : segs =
    match r with
    | O => []
    | S _ =>
        if (min_frames <=? Z.of_nat r) && (Z.of_nat r <=? max_frames)
           && (0 <? max_segments)
        then [(Z.of_nat a * frame_size, (Z.of_nat a + Z.of_nat r) * frame_size)]
        else []
    end).
  { subst segs. unfold spec_find_voiced_segments.
    fold n frame_size min_frames max_frames.
    rewrite Hflags. apply spec_segments_single_run. }
  rewrite Hfound, Hsegs.
  assert (Hmin1 : 1 <= min_frames).
  { subst min_frames.
    destruct (Z.eq_dec frame_ms 0) as [->|Hne].
    - (* a zero frame length leaves no frame to be voiced *)
      exfalso. subst frame_size. rewrite Z.mul_0_r in Hflags.
      unfold frame_flags in Hflags. simpl in Hflags.
      rewrite Z.div_0_r in Hflags. simpl in Hflags.
      destruct a; simpl in Hflags; [destruct r; simpl in Hflags|]; discriminate.
    - unfold is_uint32 in Hfm.
      rewrite <- (ceil_div_code min_dur_ms frame_ms) by lia.
      apply Z.div_le_lower_bound; lia. }
  split_and!.
  - intros Hr Hle Hpos.
    destruct r as [|r]; [lia|].
    destruct (Z.leb_spec min_frames (Z.of_nat (S r))); [|lia].
    destruct (Z.leb_spec (Z.of_nat (S r)) max_frames); [|lia].
    destruct (Z.ltb_spec 0 max_segments); [|lia].
    reflexivity.
  - intros Hr.
    destruct r as [|r]; [reflexivity|].
    destruct (Z.leb_spec min_frames (Z.of_nat (S r))); [lia|]. reflexivity.
  - intros Hr.
    destruct r as [|r]; [reflexivity|].
    destruct (Z.leb_spec (Z.of_nat (S r)) max_frames); [lia|].
    rewrite andb_false_r. reflexivity.
Qed.

Lemma find_voiced_segments_spec_witness :
  find_voiced_segments log10f_unit 5
    [F32_zero; F32_zero; F32_one; F32_one; F32_one; F32_one; F32_zero; F32_zero]
    1000 2 F32_m35 3 10 4
  = Ok ([2], [6], 1).
Proof.
  destruct (find_voiced_segments_spec log10f_unit
    [F32_zero; F32_zero; F32_one; F32_one; F32_one; F32_one; F32_zero; F32_zero]
    1000 2 F32_m35 3 10 4) with (fuel := 5%nat) as [_ Hrun];
  try (unfold is_uint32, UINT32_MAX; lia);
  try (vm_compute; first [discriminate | lia]).
  destruct (Hrun 1%nat 2%nat 0%nat) as (H & _ & _); [vm_compute; reflexivity|].
  apply H; vm_compute; first [reflexivity | discriminate].
Defined.

(* ===================================================================== *)
(** * Degenerate inputs *)
(* ===================================================================== *)

(** ** Claim C10 *)

Lemma ring_run_zero_capacity ops :
  ring_run (ring_create 0) ops = Ok (ring_create 0).
Proof.
  induction ops as [|op ops IH]; [reflexivity|]. simpl.
  destruct op as [data|n|]; simpl.
  - rewrite ring_write_zero_capacity. simpl. auto.
  - rewrite ring_read_zero_capacity. simpl. auto.
  - change (ring_clear (ring_create 0)) with (ring_create 0). auto.
Qed.

Lemma audio_rms_empty : audio_rms [] = F32_zero.
Proof. reflexivity. Qed.

Lemma audio_energy_db_empty log10f : audio_energy_db log10f [] = F32_m100.
Proof. reflexivity. Qed.

(** C10. Degenerate inputs yield degenerate outputs and reach no undefined
    behaviour: on a zero-capacity buffer every run of operations leaves the
    buffer as created and write and read return 0, the modulo by the
    capacity never being evaluated; [audio_resample_linear] returns 0 for an
    empty input or a zero input or output rate; [find_voiced_segments]
    returns 0 segments, without entering its loop and without dividing by
    [frame_ms], when the frame size it computes is 0 or exceeds [n]; an
    empty frame has rms 0 and energy -100 dB. *)
Theorem degenerate_inputs :
  (forall ops data n,
     exists rb,
       ring_run (ring_create 0) ops = Ok rb /\
       ring_write rb data = Ok (rb, 0) /\
       ring_read rb n = Ok (rb, [], 0)) /\
  (forall input src_rate dst_rate out_capacity,
     input = [] \/ src_rate = 0 \/ dst_rate = 0 ->
     audio_resample_linear input src_rate dst_rate out_capacity = Ok ([], 0)) /\
  (forall log10f fuel samples sample_rate frame_ms energy_thresh
          min_dur_ms max_dur_ms max_segments,
     let frame_size := wrap32 (sample_rate * frame_ms) / 1000 in
     frame_size = 0 \/ Z.of_nat (length samples) < frame_size ->
     find_voiced_segments log10f fuel samples sample_rate frame_ms energy_thresh
       min_dur_ms max_dur_ms max_segments = Ok ([], [], 0)) /\
  audio_rms [] = F32_zero /\
  (forall log10f, audio_energy_db log10f [] = F32_m100).
Proof.
  split_and!.
  - intros ops data n. exists (ring_create 0).
    split_and!.
    + apply ring_run_zero_capacity.
    + apply ring_write_zero_capacity.
    + apply ring_read_zero_capacity.
  - intros input src_rate dst_rate out_capacity H.
    unfold audio_resample_linear.
    destruct H as [-> | [-> | ->]]; simpl; [reflexivity | |].
    + destruct (Z.of_nat (length input) =? 0); reflexivity.
    + destruct (Z.of_nat (length input) =? 0), (src_rate =? 0); reflexivity.
  - intros log10f fuel samples sample_rate frame_ms energy_thresh
      min_dur_ms max_dur_ms max_segments frame_size H.
    unfold find_voiced_segments. fold frame_size.
    destruct H as [H | H].
    + rewrite H. reflexivity.
    + destruct (Z.eqb_spec frame_size 0); [reflexivity|].
      destruct (Z.ltb_spec (Z.of_nat (length samples)) frame_size); [reflexivity | lia].
  - exact audio_rms_empty.
  - exact audio_energy_db_empty.
Qed.

Lemma degenerate_inputs_witness :
  audio_resample_linear [F32_one] 0 16000 8 = Ok ([], 0) /\
  find_voiced_segments (fun x => x) 0 [F32_one; F32_one] 16000 0 F32_m100 100 500 4
    = Ok ([], [], 0) /\
  find_voiced_segments (fun x => x) 0 [F32_one; F32_one] 16000 30 F32_m100 100 500 4
    = Ok ([], [], 0).
Proof.
  destruct degenerate_inputs as (_ & Hres & Hseg & _).
  split_and!.
  - apply Hres. right. left. reflexivity.
  - apply Hseg. left. reflexivity.
  - apply Hseg. right. vm_compute. reflexivity.
Defined.

(* ===================================================================== *)
(** * Further facts about the floating-point operations *)
(* ===================================================================== *)

(** ** Rounding in any format *)

Lemma shr_m_iter (p : positive) : forall mrs,
  0 <= shr_m mrs ->
  shr_m (SpecFloat.iter_pos shr_1 p mrs) = shr_m mrs / 2 ^ Z.pos p.
Proof.
  assert (Hnn : forall q mrs, 0 <= shr_m mrs ->
            shr_m (SpecFloat.iter_pos shr_1 q mrs) = shr_m mrs / 2 ^ Z.pos q ->
            0 <= shr_m (SpecFloat.iter_pos shr_1 q mrs)).
  { intros q mrs H ->. apply Z.div_pos; [exact H|]. apply Z.pow_pos_nonneg; lia. }
  induction p as [p IH|p IH|]; intros mrs Hm; simpl SpecFloat.iter_pos.
  - assert (H1 : 0 <= shr_m (shr_1 mrs)).
    { rewrite shr_1_m by exact Hm. apply Z.div_pos; lia. }
    rewrite IH by (apply Hnn; [exact H1 | by apply IH]).
    rewrite IH by exact H1. rewrite shr_1_m by exact Hm.
    assert (Hp : 0 < 2 ^ Z.pos p) by (apply Z.pow_pos_nonneg; lia).
    rewrite !Z.div_div by lia. f_equal.
    rewrite Pos2Z.inj_xI, Z.pow_add_r, Z.pow_mul_r by lia.
    change (2 ^ 2) with 4. change (2 ^ 1) with 2.
    replace (4 ^ Z.pos p) with (2 ^ Z.pos p * 2 ^ Z.pos p); [lia|].
    rewrite <- Z.pow_add_r by lia. change 4 with (2 ^ 2).
    rewrite <- Z.pow_mul_r by lia. f_equal. lia.
  - rewrite IH by (apply Hnn; [exact Hm | by apply IH]).
    rewrite IH by exact Hm.
    assert (Hp : 0 < 2 ^ Z.pos p) by (apply Z.pow_pos_nonneg; lia).
    rewrite !Z.div_div by lia. f_equal.
    rewrite Pos2Z.inj_xO. rewrite <- Z.pow_add_r by lia. f_equal. lia.
  - rewrite shr_1_m by exact Hm. reflexivity.
Qed.

Lemma Zdigits2_bounds m :
  0 < m -> 2 ^ (Zdigits2 m - 1) <= m < 2 ^ Zdigits2 m /\ 1 <= Zdigits2 m.
Proof.
  intros Hm. destruct m as [|p|p]; try lia. simpl Zdigits2.
  split; [apply digits2_pos_bounds | lia].
Qed.

(** The first shift of a rounding leaves a mantissa of at most [prec]
    bits at an exponent not below [emin]. *)
Lemma shr_fexp_bounds prec emax m e l :
  1 <= prec -> 0 <= m ->
  let '(mrs, e') := shr_fexp prec emax m e l in
  0 <= shr_m mrs < 2 ^ prec /\ emin prec emax <= e'.
Proof.
  intros Hprec Hm. unfold shr_fexp, shr, fexp.
  set (d := Zdigits2 m).
  assert (Hp0 : 0 < 2 ^ prec) by (apply Z.pow_pos_nonneg; lia).
  assert (Hd : m = 0 \/ (2 ^ (d - 1) <= m < 2 ^ d /\ 1 <= d)).
  { destruct (Z.eq_dec m 0); [by left | right]. apply Zdigits2_bounds. lia. }
  destruct (Z.max (d + e - prec) (emin prec emax) - e) as [|k|k] eqn:Ek;
    rewrite ?shr_record_of_loc_m.
  - split; [|lia]. destruct Hd as [->|[Hd Hd1]]; [lia|].
    split; [lia|]. eapply Z.lt_le_trans; [apply Hd|].
    apply Z.pow_le_mono_r; lia.
  - rewrite shr_m_iter by (rewrite shr_record_of_loc_m; exact Hm).
    rewrite shr_record_of_loc_m.
    assert (Hpk : 0 < 2 ^ Z.pos k) by (apply Z.pow_pos_nonneg; lia).
    split; [|lia]. split; [apply Z.div_pos; lia|].
    apply Z.div_lt_upper_bound; [lia|].
    destruct Hd as [->|[Hd Hd1]]; [lia|].
    eapply Z.lt_le_trans; [apply Hd|].
    rewrite <- Z.pow_add_r by lia.
    apply Z.pow_le_mono_r; lia.
  - split; [|lia]. destruct Hd as [->|[Hd Hd1]]; [lia|].
    split; [lia|]. eapply Z.lt_le_trans; [apply Hd|].
    apply Z.pow_le_mono_r; lia.
Qed.

(** Rounding a non-negative mantissa never gives a NaN; the result has the
    sign asked for and, when finite, a mantissa of at most [prec] bits. *)
Lemma binary_round_aux_rounded prec emax s m e l :
  1 <= prec -> 0 <= m ->
  rounded prec s (binary_round_aux prec emax s m e l).
Proof.
  intros Hprec Hm. unfold binary_round_aux.
  pose proof (shr_fexp_bounds prec emax m e l Hprec Hm) as H1.
  destruct (shr_fexp prec emax m e l) as [mrs' e'].
  destruct H1 as [Hm' He'].
  pose proof (round_nearest_even_range (shr_m mrs') (loc_of_shr_record mrs')) as HM.
  set (M := round_nearest_even (shr_m mrs') (loc_of_shr_record mrs')) in *.
  assert (Hp0 : 0 < 2 ^ prec) by (apply Z.pow_pos_nonneg; lia).
  unfold shr_fexp, shr, fexp.
  change (shr_record_of_loc M loc_Exact) with (Build_shr_record M false false).
  destruct (Z.eq_dec M (2 ^ prec)) as [HMp|HMp].
  - (* the rounding carried into bit [prec]: one more shift *)
    assert (Hdig : Zdigits2 M = prec + 1).
    { destruct M as [|p|p]; try lia. simpl Zdigits2.
      apply digits2_pos_unique. rewrite HMp.
      replace (prec + 1 - 1) with prec by lia.
      split; [lia|]. apply Z.pow_lt_mono_r; lia. }
    rewrite Hdig.
    replace (Z.max (prec + 1 + e' - prec) (emin prec emax) - e') with 1 by lia.
    cbn [SpecFloat.iter_pos fst snd]. rewrite shr_1_m by (simpl; lia). simpl shr_m.
    rewrite HMp.
    replace (2 ^ prec) with (2 ^ (prec - 1) * 2)
      by (rewrite Z.mul_comm, <- Z.pow_succ_r by lia; f_equal; lia).
    rewrite Z.div_mul by lia.
    assert (Hp1 : 0 < 2 ^ (prec - 1)) by (apply Z.pow_pos_nonneg; lia).
    destruct (2 ^ (prec - 1)) as [|p|p] eqn:Ep; try lia.
    destruct (e' + 1 <=? emax - prec); simpl; [|reflexivity].
    split; [reflexivity|]. rewrite <- Ep. apply Z.pow_lt_mono_r; lia.
  - assert (HMlt : 0 <= M < 2 ^ prec) by lia.
    assert (Hk : Z.max (Zdigits2 M + e' - prec) (emin prec emax) - e' <= 0).
    { destruct (Z.eq_dec M 0) as [->|HM0]; [simpl; lia|].
      destruct (Zdigits2_bounds M ltac:(lia)) as [[Hlo _] Hd1].
      assert (Zdigits2 M - 1 < prec); [|lia].
      apply (Z.pow_lt_mono_r_iff 2); lia. }
    destruct (Z.max (Zdigits2 M + e' - prec) (emin prec emax) - e') as [|k|k];
      try lia; simpl shr_m.
    + destruct M as [|p|p]; try lia; simpl; [reflexivity|].
      destruct (e' <=? emax - prec); simpl; [|reflexivity]. split; [reflexivity | lia].
    + destruct M as [|p|p]; try lia; simpl; [reflexivity|].
      destruct (e' <=? emax - prec); simpl; [|reflexivity]. split; [reflexivity | lia].
Qed.

Lemma binary_round_rounded prec emax s m e :
  1 <= prec -> rounded prec s (binary_round prec emax s m e).
Proof.
  intros Hprec. unfold binary_round.
  destruct (shl_align m e _) as [mz ez].
  apply binary_round_aux_rounded; lia.
Qed.

Lemma binary_normalize_rounded prec emax m e :
  1 <= prec ->
  rounded prec (m <? 0) (binary_normalize prec emax m e false).
Proof.
  intros Hprec. destruct m as [|p|p]; simpl binary_normalize.
  - reflexivity.
  - by apply binary_round_rounded.
  - by apply binary_round_rounded.
Qed.

(* ===================================================================== *)
(** * The ring buffer is a bounded first-in first-out queue *)
(* ===================================================================== *)

Lemma ring_step_obs_queue rb q op :
  ring_repr rb q -> op_wf op ->
  exists rb',
    ring_step_obs rb op = Ok (rb', snd (queue_step (capacity rb) q op)) /\
    ring_repr rb' (fst (queue_step (capacity rb) q op)) /\
    capacity rb' = capacity rb.
Proof.
  intros Hrepr Hop.
  pose proof Hrepr as (Hlen & HC & Hcnt & Hle & Hrp & Hwp & Hq).
  destruct op as [data|n|]; simpl in Hop |- *.
  - destruct (ring_write_loop_spec data rb q 0 Hrepr)
      as (rb' & Hrun & Hr' & Hcap & _); [lia | unfold is_uint32 in Hop; lia |].
    exists rb'. unfold ring_write. rewrite Hrun, bind_Ok. cbv beta iota zeta.
    rewrite <- Hcnt. split_and!; [|exact Hr'|exact Hcap].
    do 3 f_equal. lia.
  - destruct (ring_read_loop_spec (Z.to_nat n) rb q [] 0 Hrepr)
      as (rb' & Hrun & Hr' & Hcap & _); [lia | unfold is_uint32 in Hop; lia |].
    exists rb'. unfold ring_read. rewrite Hrun, bind_Ok. cbv beta iota zeta.
    split_and!; [|exact Hr'|exact Hcap]. simpl. reflexivity.
  - exists (ring_clear rb). split_and!; try reflexivity.
    unfold ring_repr, ring_clear; simpl. split_and!; try done; lia.
Qed.

Lemma ring_trace_queue ops : forall rb q,
  ring_repr rb q -> Forall op_wf ops ->
  exists rb',
    ring_trace rb ops = Ok (rb', snd (queue_trace (capacity rb) q ops)) /\
    ring_repr rb' (fst (queue_trace (capacity rb) q ops)).
Proof.
  induction ops as [|op ops IH]; intros rb q Hrepr Hwf.
  - exists rb. split; [reflexivity | exact Hrepr].
  - inversion Hwf as [|? ? Hop Hops]; subst.
    destruct (ring_step_obs_queue rb q op Hrepr Hop) as (rb1 & Hstep & Hr1 & Hcap).
    destruct (IH rb1 _ Hr1 Hops) as (rb' & Hrun & Hr').
    exists rb'. simpl ring_trace. rewrite Hstep, bind_Ok. cbv beta iota.
    rewrite Hrun, bind_Ok. cbv beta iota.
    simpl queue_trace. rewrite Hcap in *.
    destruct (queue_step (capacity rb) q op) as [q1 o1]. simpl in *.
    destruct (queue_trace (capacity rb) q1 ops) as [q2 os]. simpl in *.
    split; [reflexivity | exact Hr'].
Qed.

(** X1. For every capacity [1 <= C] (a [uint32_t]) and every sequence of
    writes, reads and clears issued on a freshly created buffer, in any
    interleaving, what the caller observes (the count each write returns,
    the samples and the count each read returns) is exactly what a
    first-in first-out queue bounded by [C] gives, and [ring_available] is
    the length of that queue: samples come out in the order they went in,
    none is lost, duplicated or invented, whatever the wrap-around of the
    two cursors. *)
Theorem ring_buffer_is_fifo_queue (C : Z) (ops : list ring_op) :
  1 <= C <= UINT32_MAX ->
  Forall op_wf ops ->
  exists rb,
    ring_trace (ring_create C) ops = Ok (rb, snd (queue_trace C [] ops)) /\
    ring_available rb = Z.of_nat (length (fst (queue_trace C [] ops))).
Proof.
  intros HC Hwf.
  destruct (ring_trace_queue ops (ring_create C) [] (ring_repr_create C HC) Hwf)
    as (rb & Hrun & Hrepr).
  exists rb. split; [exact Hrun|].
  destruct Hrepr as (_ & _ & Hcnt & _). exact Hcnt.
Qed.

Lemma ring_buffer_is_fifo_queue_witness :
  exists rb,
    ring_trace (ring_create 2)
      [OpWrite [F32_one; F32_20; F32_m100]; OpRead 1; OpWrite [F32_m35]; OpRead 5]
    = Ok (rb, [ObsWrite 2; ObsRead [F32_one] 1; ObsWrite 1;
               ObsRead [F32_20; F32_m35] 2]) /\
    ring_available rb = 0.
Proof.
  apply (ring_buffer_is_fifo_queue 2
           [OpWrite [F32_one; F32_20; F32_m100]; OpRead 1; OpWrite [F32_m35]; OpRead 5]).
  - unfold UINT32_MAX. lia.
  - repeat constructor; simpl; unfold is_uint32, UINT32_MAX; lia.
Defined.

(* ===================================================================== *)
(** * Further properties of the segment extractor *)
(* ===================================================================== *)

(** ** The output arrays are never overrun *)

Lemma emit_within st min_frames max_frames max_segments e :
  is_uint32 max_segments ->
  seg_within max_segments st ->
  seg_within max_segments
    (if run_qualifies st min_frames max_frames max_segments
     then emit_segment st e else st).
Proof.
  intros Hmax (Hc & Hs & He).
  unfold run_qualifies.
  destruct ((min_frames <=? voiced_run st) && (voiced_run st <=? max_frames)); simpl;
    [|by unfold seg_within].
  destruct (Z.ltb_spec (seg_count st) max_segments) as [Hlt|Hge];
    [|by unfold seg_within].
  unfold seg_within, emit_segment; simpl.
  assert (Hps : forall v, poke (out_starts st) (seg_count st) v = out_starts st ++ [v])
    by (intros; rewrite <- Hs; apply poke_end).
  assert (Hpe : forall v, poke (out_ends st) (seg_count st) v = out_ends st ++ [v])
    by (intros; rewrite <- He; apply poke_end).
  rewrite Hps, Hpe, !length_app. simpl.
  rewrite wrap32_small by u32.
  split_and!; lia.
Qed.

Lemma find_voiced_segments_loop_within log10f samples frame_size energy_thresh
    min_frames max_frames max_segments (fuel : nat) : forall off st st',
  is_uint32 max_segments ->
  seg_within max_segments st ->
  find_voiced_segments_loop log10f fuel samples frame_size energy_thresh
    min_frames max_frames max_segments off st = Ok st' ->
  seg_within max_segments st'.
Proof.
  induction fuel as [|fuel IH]; intros off st st' Hmax Hin Hrun; [discriminate|].
  simpl in Hrun.
  destruct (wrap32 (off + frame_size) <=? Z.of_nat (length samples)).
  - destruct (frame_at samples off frame_size) as [frame| |]; try discriminate.
    rewrite bind_Ok in Hrun.
    apply IH in Hrun; [exact Hrun | exact Hmax |].
    destruct (f_ge (audio_energy_db log10f frame) energy_thresh).
    + exact Hin.
    + pose proof (emit_within st min_frames max_frames max_segments off Hmax Hin) as H.
      destruct (run_qualifies st min_frames max_frames max_segments); exact H.
  - injection Hrun as <-. exact Hin.
Qed.

(** X2. Whatever the samples, rates, durations and threshold, and however
    the 32-bit computations of the frame size and of the frame counts come
    out, a call of [find_voiced_segments] that returns has written exactly
    as many starts and ends as the count it returns, and that count is at
    most [max_segments]: the two output arrays are never written past the
    room the caller made. *)
Theorem find_voiced_segments_within_capacity (log10f : float32 -> float32)
    (fuel : nat) (samples : list float32) (sample_rate frame_ms : Z)
    (energy_thresh : float32) (min_dur_ms max_dur_ms max_segments : Z)
    (starts ends : list Z) (c : Z) :
  is_uint32 max_segments ->
  find_voiced_segments log10f fuel samples sample_rate frame_ms energy_thresh
    min_dur_ms max_dur_ms max_segments = Ok (starts, ends, c) ->
  0 <= c <= max_segments /\
  Z.of_nat (length starts) = c /\ Z.of_nat (length ends) = c.
Proof.
  intros Hmax Hrun. unfold find_voiced_segments in Hrun.
  destruct ((wrap32 (sample_rate * frame_ms) / 1000 =? 0)
            || (Z.of_nat (length samples) <? wrap32 (sample_rate * frame_ms) / 1000)).
  { injection Hrun as <- <- <-. simpl. unfold is_uint32 in Hmax. lia. }
  destruct (udiv32 (wrap32 (min_dur_ms + frame_ms - 1)) frame_ms) as [min_frames| |];
    try discriminate.
  rewrite bind_Ok in Hrun.
  destruct (udiv32 max_dur_ms frame_ms) as [max_frames| |]; try discriminate.
  rewrite bind_Ok in Hrun.
  destruct (find_voiced_segments_loop _ _ _ _ _ _ _ _ _ _) as [st| |] eqn:Eloop;
    try discriminate.
  rewrite bind_Ok in Hrun.
  apply find_voiced_segments_loop_within in Eloop;
    [|exact Hmax | unfold seg_within; simpl; unfold is_uint32 in Hmax; lia].
  pose proof (emit_within st min_frames max_frames max_segments
                (Z.of_nat (length samples)) Hmax Eloop) as H.
  injection Hrun as <- <- <-. exact H.
Qed.

Lemma find_voiced_segments_within_capacity_witness :
  find_voiced_segments log10f_unit 5
    [F32_one; F32_one; F32_zero; F32_zero; F32_one; F32_one; F32_zero; F32_zero]
    1000 2 F32_m35 1 10 1 = Ok ([0], [2], 1) /\
  0 <= 1 <= 1 /\
  Z.of_nat (length [0]) = 1 /\ Z.of_nat (length [2]) = 1.
Proof.
  split; [vm_compute; reflexivity|].
  apply (find_voiced_segments_within_capacity log10f_unit 5
           [F32_one; F32_one; F32_zero; F32_zero; F32_one; F32_one; F32_zero; F32_zero]
           1000 2 F32_m35 1 10 1 [0] [2] 1).
  - unfold is_uint32, UINT32_MAX. lia.
  - vm_compute. reflexivity.
Defined.

(** ** The segments are ordered, disjoint and frame-aligned *)

Section SegmentOrder.

Variables (frameSize minFrames maxFrames maxSegments : Z).
Hypothesis Hfs : 1 <= frameSize.

Lemma segs_wf_nil hi : segs_wf frameSize minFrames maxFrames [] hi.
Proof. split; intros; by rewrite lookup_nil in *. Qed.

Lemma segs_wf_weaken segs hi hi' :
  hi <= hi' ->
  segs_wf frameSize minFrames maxFrames segs hi ->
  segs_wf frameSize minFrames maxFrames segs hi'.
Proof.
  intros Hle [Hall Hgap]. split; [|exact Hgap].
  intros i s e Hi. destruct (Hall i s e Hi) as (? & ? & ? & ? & ?).
  split_and!; try done; lia.
Qed.

Lemma segs_wf_snoc segs hi s e hi' :
  segs_wf frameSize minFrames maxFrames segs hi ->
  hi + frameSize <= s -> 0 <= s -> (frameSize | s) -> s < e -> e <= hi' ->
  minFrames * frameSize <= e - s < (maxFrames + 1) * frameSize ->
  segs_wf frameSize minFrames maxFrames (segs ++ [(s, e)]) hi'.
Proof using Hfs.
  intros [Hall Hgap] Hs H0 Hdiv Hse He Hdur. split.
  - intros i s0 e0 Hi.
    destruct (decide (i < length segs)%nat) as [Hlt|Hge].
    + rewrite lookup_app_l in Hi by assumption.
      destruct (Hall i s0 e0 Hi) as (? & ? & ? & ? & ?).
      split_and!; try done; lia.
    + rewrite lookup_app_r in Hi by lia.
      destruct (i - length segs)%nat; simpl in Hi; [|by rewrite lookup_nil in Hi].
      injection Hi as <- <-. split_and!; try done; lia.
  - intros i s1 e1 s2 e2 H1 H2.
    destruct (decide (S i < length segs)%nat) as [Hlt|Hge].
    + rewrite lookup_app_l in H1 by lia. rewrite lookup_app_l in H2 by lia.
      by eapply Hgap.
    + assert (Hi : (i < length segs)%nat).
      { apply lookup_lt_Some in H1. rewrite length_app in H1. simpl in H1.
        apply lookup_lt_Some in H2. rewrite length_app in H2. simpl in H2. lia. }
      rewrite lookup_app_l in H1 by lia. rewrite lookup_app_r in H2 by lia.
      replace (S i - length segs)%nat with 0%nat in H2 by lia.
      injection H2 as <- <-.
      destruct (Hall i s1 e1 H1) as (? & ? & ? & ? & ?). lia.
Qed.

Lemma spec_scan_inv flags : forall off run segs,
  scan_inv frameSize minFrames maxFrames off run segs ->
  let '(run', segs') :=
    spec_scan frameSize minFrames maxFrames maxSegments flags off run segs in
  scan_inv frameSize minFrames maxFrames
    (off + Z.of_nat (length flags) * frameSize) run' segs'.
Proof using Hfs.
  induction flags as [|[|] flags IH]; intros off run segs (Hoff & Hdiv & Hrun).
  - simpl. rewrite Z.add_0_r. by split_and!.
  - (* a voiced frame *)
    simpl spec_scan.
    replace (off + Z.of_nat (length (true :: flags)) * frameSize)
      with (off + frameSize + Z.of_nat (length flags) * frameSize)
      by (rewrite length_cons; lia).
    apply IH. split; [lia|]. split; [by apply Z.divide_add_r, Z.divide_refl|].
    destruct run as [[runStart runFrames]|].
    + destruct Hrun as (Hwf & H0 & Hd & H1 & Heq). split_and!; try done; lia.
    + split_and!; try done; lia.
  - (* an unvoiced frame *)
    simpl spec_scan.
    replace (off + Z.of_nat (length (false :: flags)) * frameSize)
      with (off + frameSize + Z.of_nat (length flags) * frameSize)
      by (rewrite length_cons; lia).
    apply IH. split; [lia|]. split; [by apply Z.divide_add_r, Z.divide_refl|].
    replace (off + frameSize - frameSize) with off by lia.
    destruct run as [[runStart runFrames]|]; simpl spec_emit.
    + destruct Hrun as (Hwf & H0 & Hd & H1 & Heq).
      destruct ((minFrames <=? runFrames) && (runFrames <=? maxFrames)
                && (Z.of_nat (length segs) <? maxSegments)) eqn:E.
      * apply andb_true_iff in E as [E _]. apply andb_true_iff in E as [E1 E2].
        apply Z.leb_le in E1, E2.
        eapply segs_wf_snoc; try eassumption; try nia.
      * eapply segs_wf_weaken; [|exact Hwf]. nia.
    + eapply segs_wf_weaken; [|exact Hrun]. lia.
Qed.

Lemma spec_segments_wf n flags :
  Z.of_nat (length flags) * frameSize <= n
    < Z.of_nat (length flags) * frameSize + frameSize ->
  segs_wf frameSize minFrames maxFrames
    (spec_segments frameSize n minFrames maxFrames maxSegments flags) n.
Proof using Hfs.
  intros Hn. unfold spec_segments.
  pose proof (spec_scan_inv flags 0 None []) as H.
  destruct (spec_scan _ _ _ _ flags 0 None []) as [run segs].
  destruct H as (Hoff & Hdiv & Hrun).
  { split; [lia|]. split; [apply Z.divide_0_r|]. apply segs_wf_nil. }
  rewrite Z.add_0_l in *.
  destruct run as [[runStart runFrames]|]; simpl spec_emit.
  - destruct Hrun as (Hwf & H0 & Hd & H1 & Heq).
    destruct ((minFrames <=? runFrames) && (runFrames <=? maxFrames)
              && (Z.of_nat (length segs) <? maxSegments)) eqn:E.
    + apply andb_true_iff in E as [E _]. apply andb_true_iff in E as [E1 E2].
      apply Z.leb_le in E1, E2.
      eapply segs_wf_snoc; try eassumption; try nia.
    + eapply segs_wf_weaken; [|exact Hwf]. nia.
  - eapply segs_wf_weaken; [|exact Hrun]. lia.
Qed.

End SegmentOrder.

Lemma frame_flags_length log10f samples frameSize thr :
  length (frame_flags log10f samples frameSize thr)
  = Z.to_nat (Z.of_nat (length samples) / frameSize).
Proof. unfold frame_flags. by rewrite length_map, length_seq. Qed.

(** X3. When no 32-bit operation wraps and [min_dur_ms >= 1], the segments
    [find_voiced_segments] reports are well formed: every segment starts at
    a multiple of the frame size, is not empty, lies inside the buffer and
    lasts at least [ceil(min_dur_ms / frame_ms)] frames and less than
    [max_dur_ms / frame_ms + 1] frames; and the segments come in increasing
    order, each starting at least one frame after the end of the previous
    one, so that no two of them overlap or touch. *)
Theorem find_voiced_segments_ordered (log10f : float32 -> float32)
    (samples : list float32) (sample_rate frame_ms : Z) (energy_thresh : float32)
    (min_dur_ms max_dur_ms max_segments : Z) (fuel : nat) :
  let n := Z.of_nat (length samples) in
  let frame_size := sample_rate * frame_ms / 1000 in
  let min_frames := ceil_div min_dur_ms frame_ms in
  let max_frames := max_dur_ms / frame_ms in
  is_uint32 sample_rate -> is_uint32 frame_ms ->
  is_uint32 max_dur_ms -> is_uint32 max_segments ->
  sample_rate * frame_ms <= UINT32_MAX ->
  1 <= min_dur_ms -> min_dur_ms + frame_ms - 1 <= UINT32_MAX ->
  n / frame_size * frame_size + frame_size <= UINT32_MAX ->
  (Z.to_nat (n / frame_size) < fuel)%nat ->
  exists starts ends c,
    find_voiced_segments log10f fuel samples sample_rate frame_ms energy_thresh
      min_dur_ms max_dur_ms max_segments = Ok (starts, ends, c) /\
    (forall (i : nat) s e, starts !! i = Some s -> ends !! i = Some e ->
       0 <= s /\ s mod frame_size = 0 /\ s < e /\ e <= n /\
       min_frames * frame_size <= e - s < (max_frames + 1) * frame_size) /\
    (forall (i : nat) e s', ends !! i = Some e -> starts !! S i = Some s' ->
       e + frame_size <= s').
Proof.
  intros n frame_size min_frames max_frames Hsr Hfm Hmaxd Hmaxs Hmul Hmind
    Hminsum Hfit Hfuel.
  pose proof (find_voiced_segments_refines log10f samples sample_rate frame_ms
                energy_thresh min_dur_ms max_dur_ms max_segments fuel
                Hsr Hfm Hmaxd Hmaxs Hmul Hmind Hminsum Hfit Hfuel) as Href.
  cbv zeta in Href.
  set (segs := spec_find_voiced_segments log10f samples sample_rate frame_ms
                 energy_thresh min_dur_ms max_dur_ms max_segments) in *.
  exists (map fst segs), (map snd segs), (Z.of_nat (length segs)).
  split; [exact Href|].
  assert (Hwf : frame_size = 0 /\ segs = [] \/
                1 <= frame_size /\ segs_wf frame_size min_frames max_frames segs n).
  { destruct (Z.eq_dec frame_size 0) as [Hz|Hnz].
    - left. split; [exact Hz|]. subst segs.
      unfold spec_find_voiced_segments, frame_flags. fold frame_size.
      rewrite Hz, Z.div_0_r. reflexivity.
    - right.
      assert (Hfs : 1 <= frame_size).
      { assert (0 <= frame_size); [|lia].
        apply Z.div_pos; [unfold is_uint32 in *; nia | lia]. }
      split; [exact Hfs|]. subst segs. unfold spec_find_voiced_segments.
      fold n frame_size min_frames max_frames.
      apply spec_segments_wf; [exact Hfs|].
      rewrite frame_flags_length. fold n.
      assert (0 <= n) by (unfold n; lia).
      assert (0 <= n / frame_size) by (apply Z.div_pos; lia).
      rewrite Z2Nat.id by assumption.
      pose proof (Z.div_mod n frame_size ltac:(lia)).
      pose proof (Z.mod_pos_bound n frame_size ltac:(lia)). lia. }
  destruct Hwf as [[_ ->]|[Hfs [Hall Hgap]]].
  { split; intros ? ? ? H; simpl in H; by rewrite lookup_nil in H. }
  split.
  - intros i s e Hs He.
    rewrite list_lookup_fmap in Hs, He.
    destruct (segs !! i) as [[s0 e0]|] eqn:Ei; [|discriminate].
    simpl in Hs, He. injection Hs as <-. injection He as <-.
    destruct (Hall i s0 e0 Ei) as (H0 & Hd & Hlt & Hle & Hdur).
    split_and!; try done; try lia.
    apply Z.mod_divide; [lia | exact Hd].
  - intros i e s' He Hs.
    rewrite list_lookup_fmap in Hs, He.
    destruct (segs !! i) as [[s1 e1]|] eqn:E1; [|discriminate].
    destruct (segs !! S i) as [[s2 e2]|] eqn:E2; [|discriminate].
    simpl in Hs, He. injection Hs as <-. injection He as <-.
    by eapply Hgap.
Qed.

Lemma find_voiced_segments_ordered_witness :
  exists starts ends c,
    find_voiced_segments log10f_unit 5
      [F32_one; F32_one; F32_zero; F32_zero; F32_one; F32_one; F32_zero; F32_zero]
      1000 2 F32_m35 1 10 4 = Ok (starts, ends, c) /\
    (forall (i : nat) s e, starts !! i = Some s -> ends !! i = Some e ->
       0 <= s /\ s mod 2 = 0 /\ s < e /\ e <= 8 /\
       1 * 2 <= e - s < (5 + 1) * 2) /\
    (forall (i : nat) e s', ends !! i = Some e -> starts !! S i = Some s' ->
       e + 2 <= s').
Proof.
  apply (find_voiced_segments_ordered log10f_unit
    [F32_one; F32_one; F32_zero; F32_zero; F32_one; F32_one; F32_zero; F32_zero]
    1000 2 F32_m35 1 10 4 5);
  try (unfold is_uint32, UINT32_MAX; lia);
  try (vm_compute; first [discriminate | lia]).
Defined.

(* ===================================================================== *)
(** * Silence *)
(* ===================================================================== *)

Lemma forallb_frame_of (p : float32 -> bool) samples off size :
  forallb p samples = true -> forallb p (frame_of samples off size) = true.
Proof.
  intros H. unfold frame_of.
  rewrite forallb_forall in *. intros x Hx. apply H.
  apply list_elem_of_In in Hx. apply list_elem_of_In.
  apply (subseteq_take (Z.to_nat size)) in Hx.
  by apply (subseteq_drop (Z.to_nat off)) in Hx.
Qed.

Lemma map_seq_const {A} (f : nat -> A) (v : A) (c : nat) : forall a,
  (forall k, f k = v) -> map f (seq a c) = replicate c v.
Proof.
  induction c as [|c IH]; intros a H; [reflexivity|].
  simpl. rewrite H. f_equal. by apply IH.
Qed.

Lemma frame_of_length samples off size :
  Z.of_nat (length (frame_of samples off size)) <= Z.of_nat (length samples).
Proof. unfold frame_of. rewrite length_take, length_drop. lia. Qed.

(** An all-zero frame has the sentinel energy, which is below every
    threshold above -100 dB. *)
Lemma audio_energy_db_silence log10f samples :
  Z.of_nat (length samples) <= UINT32_MAX ->
  forallb is_zero samples = true ->
  audio_energy_db log10f samples = F32_m100.
Proof.
  intros Hn Hz. unfold audio_energy_db.
  rewrite (audio_rms_zero samples Hn Hz). reflexivity.
Qed.

Lemma vad_detect_silence log10f samples energy_thresh zcr_low zcr_high :
  Z.of_nat (length samples) <= UINT32_MAX ->
  forallb is_zero samples = true ->
  f_lt F32_m100 energy_thresh = true ->
  vad_detect log10f samples energy_thresh zcr_low zcr_high = 0.
Proof.
  intros Hn Hz Hthr. unfold vad_detect.
  rewrite (audio_energy_db_silence log10f samples Hn Hz), Hthr. reflexivity.
Qed.

(** X4. Silence is never classified as voice.  For every buffer whose
    samples are all zero (of either sign) and every energy threshold above
    the sentinel -100 dB, whatever the two zero-crossing bounds:
    [vad_detect] returns 0 on the buffer, and [vad_detect_frames] (frame
    size and hop as for a scan that does not wrap, hop at least 1) returns
    its [(total - frame_size) / hop + 1] flags all equal to 0. *)
Theorem vad_silence_unvoiced (log10f : float32 -> float32) (samples : list float32)
    (frame_size hop_size : Z) (energy_thresh zcr_low zcr_high : float32) :
  let total := Z.of_nat (length samples) in
  let count := frame_count total frame_size hop_size in
  forallb is_zero samples = true ->
  f_lt F32_m100 energy_thresh = true ->
  is_uint32 frame_size ->
  1 <= hop_size <= UINT32_MAX ->
  count * hop_size + frame_size <= UINT32_MAX ->
  (total <= UINT32_MAX ->
   vad_detect log10f samples energy_thresh zcr_low zcr_high = 0) /\
  forall fuel, (Z.to_nat count < fuel)%nat ->
    vad_detect_frames log10f fuel samples frame_size hop_size
      energy_thresh zcr_low zcr_high
    = Ok (replicate (Z.to_nat count) 0, count).
Proof.
  intros total count Hz Hthr Hfs Hhop Hfit.
  split; [intros Hn; by apply vad_detect_silence|].
  destruct (frame_count_bounds total frame_size hop_size) as (Hc0 & Hin & Hout);
    [unfold is_uint32 in Hfs; lia | subst total; lia | lia |].
  fold count in Hc0, Hin, Hout. clearbody count. subst total.
  intros fuel Hfuel. unfold vad_detect_frames.
  pose proof (vad_detect_frames_loop_spec log10f samples frame_size hop_size
                energy_thresh zcr_low zcr_high Hfs Hhop
                (Z.to_nat count) 0%nat [] fuel) as Hloop.
  simpl in Hloop. rewrite Z2Nat.id in Hloop by lia.
  etransitivity; [apply Hloop; try done|].
  - intros i Hi. apply Hin. lia.
  - unfold is_uint32, UINT32_MAX in *. nia.
  - do 2 f_equal. apply map_seq_const.
    intros k. apply vad_detect_silence; [| by apply forallb_frame_of | exact Hthr].
    unfold frame_of. rewrite length_take. unfold is_uint32 in Hfs. lia.
Qed.

Lemma vad_silence_unvoiced_witness :
  (Z.of_nat (length [F32_zero; S754_zero true; F32_zero; F32_zero; F32_zero])
     <= UINT32_MAX ->
   vad_detect log10f_unit [F32_zero; S754_zero true; F32_zero; F32_zero; F32_zero]
     F32_m35 F32_zero F32_one = 0) /\
  forall fuel, (2 < fuel)%nat ->
    vad_detect_frames log10f_unit fuel
      [F32_zero; S754_zero true; F32_zero; F32_zero; F32_zero] 2 2
      F32_m35 F32_zero F32_one
    = Ok ([0; 0], 2).
Proof.
  apply (vad_silence_unvoiced log10f_unit
           [F32_zero; S754_zero true; F32_zero; F32_zero; F32_zero] 2 2
           F32_m35 F32_zero F32_one).
  - reflexivity.
  - reflexivity.
  - unfold is_uint32, UINT32_MAX. lia.
  - unfold UINT32_MAX. lia.
  - vm_compute. discriminate.
Defined.

Lemma frame_flags_silence log10f samples frameSize energy_thresh :
  0 <= frameSize <= UINT32_MAX ->
  forallb is_zero samples = true ->
  f_lt F32_m100 energy_thresh = true ->
  frame_flags log10f samples frameSize energy_thresh
  = replicate (Z.to_nat (Z.of_nat (length samples) / frameSize)) false.
Proof.
  intros Hfs Hz Hthr. unfold frame_flags. apply map_seq_const.
  intros k. rewrite audio_energy_db_silence; [| | by apply forallb_frame_of].
  - destruct (f_ge F32_m100 energy_thresh) eqn:E; [|reflexivity].
    apply f_ge_not_lt in E. congruence.
  - unfold frame_of. rewrite length_take. lia.
Qed.

(** X5. A silent buffer contains no voiced segment.  When no 32-bit
    operation wraps and [min_dur_ms >= 1], for every buffer whose samples
    are all zero and every energy threshold above -100 dB,
    [find_voiced_segments] terminates and reports no segment. *)
Theorem find_voiced_segments_silence (log10f : float32 -> float32)
    (samples : list float32) (sample_rate frame_ms : Z) (energy_thresh : float32)
    (min_dur_ms max_dur_ms max_segments : Z) (fuel : nat) :
  let n := Z.of_nat (length samples) in
  let frame_size := sample_rate * frame_ms / 1000 in
  forallb is_zero samples = true ->
  f_lt F32_m100 energy_thresh = true ->
  is_uint32 sample_rate -> is_uint32 frame_ms ->
  is_uint32 max_dur_ms -> is_uint32 max_segments ->
  sample_rate * frame_ms <= UINT32_MAX ->
  1 <= min_dur_ms -> min_dur_ms + frame_ms - 1 <= UINT32_MAX ->
  n / frame_size * frame_size + frame_size <= UINT32_MAX ->
  (Z.to_nat (n / frame_size) < fuel)%nat ->
  find_voiced_segments log10f fuel samples sample_rate frame_ms energy_thresh
    min_dur_ms max_dur_ms max_segments = Ok ([], [], 0).
Proof.
  intros n frame_size Hz Hthr Hsr Hfm Hmaxd Hmaxs Hmul Hmind Hminsum Hfit Hfuel.
  rewrite (find_voiced_segments_refines log10f samples sample_rate frame_ms
             energy_thresh min_dur_ms max_dur_ms max_segments fuel) by assumption.
  unfold spec_find_voiced_segments. fold frame_size.
  rewrite frame_flags_silence; try assumption.
  - unfold spec_segments. rewrite spec_scan_silence. reflexivity.
  - subst frame_size. split.
    + apply Z.div_pos; [unfold is_uint32 in *; nia | lia].
    + apply Z.div_le_upper_bound; [lia|]. unfold is_uint32, UINT32_MAX in *. nia.
Qed.

Lemma find_voiced_segments_silence_witness :
  find_voiced_segments log10f_unit 5
    [F32_zero; F32_zero; S754_zero true; F32_zero; F32_zero; F32_zero; F32_zero]
    1000 2 F32_m35 1 10 4 = Ok ([], [], 0).
Proof.
  apply (find_voiced_segments_silence log10f_unit
    [F32_zero; F32_zero; S754_zero true; F32_zero; F32_zero; F32_zero; F32_zero]
    1000 2 F32_m35 1 10 4 5);
  try reflexivity;
  try (unfold is_uint32, UINT32_MAX; lia);
  try (vm_compute; first [discriminate | lia]).
Defined.

(* ===================================================================== *)
(** * Root mean square *)
(* ===================================================================== *)

(** ** Non-negative numbers *)

Lemma rounded_nonneg prec x : rounded prec false x -> nonneg x = true.
Proof. destruct x as [s|s| |s m e]; simpl; try tauto; try (by intros ->); by intros [-> _]. Qed.

Lemma rounded_not_nan prec s x : rounded prec s x -> is_nan x = false.
Proof. destruct x; simpl; tauto. Qed.

Lemma nonneg_ge_zero x : nonneg x = true -> f_le F32_zero x = true.
Proof. destruct x as [s|[|]| |[|] m e]; simpl; try discriminate; reflexivity. Qed.

Lemma nonneg_not_nan x : nonneg x = true -> is_nan x = false.
Proof. destruct x; simpl; try discriminate; reflexivity. Qed.

Lemma f64_of_f32_not_nan x : is_nan x = false -> is_nan (f64_of_f32 x) = false.
Proof.
  destruct x as [s|s| |s m e]; simpl; try done. intros _.
  eapply rounded_not_nan, (binary_round_rounded 53 1024 s m e). lia.
Qed.

Lemma SFmul_self_nonneg prec emax x :
  1 <= prec -> is_nan x = false -> nonneg (SFmul prec emax x x) = true.
Proof.
  intros Hprec Hx. destruct x as [[|]|[|]| |s m e]; simpl; try done.
  apply (rounded_nonneg prec).
  replace (xorb s s) with false by (by destruct s).
  apply binary_round_aux_rounded; lia.
Qed.

Lemma SFadd_nonneg prec emax x y :
  1 <= prec -> nonneg x = true -> nonneg y = true ->
  nonneg (SFadd prec emax x y) = true.
Proof.
  intros Hprec Hx Hy.
  destruct x as [[|]|[|]| |[|] mx ex], y as [[|]|[|]| |[|] my ey];
    simpl in *; try done.
  apply (rounded_nonneg prec).
  apply (binary_normalize_rounded prec emax
           (Z.pos (fst (shl_align mx ex (Z.min ex ey)))
            + Z.pos (fst (shl_align my ey (Z.min ex ey))))). lia.
Qed.

Lemma SFdiv_nonneg prec emax x m e :
  1 <= prec -> nonneg x = true ->
  nonneg (SFdiv prec emax x (S754_finite false m e)) = true.
Proof.
  intros Hprec Hx.
  destruct x as [[|]|[|]| |[|] mx ex]; simpl in *; try done.
  unfold SFdiv_core_binary.
  set (m' := match _ - _ - _ with Z.pos _ => _ | Z0 => _ | Z.neg _ => _ end).
  assert (Hm' : 0 <= m').
  { subst m'. destruct (_ - _ - _) as [|k|k]; try lia.
    rewrite Z.shiftl_mul_pow2 by lia.
    apply Z.mul_nonneg_nonneg; [lia|]. apply Z.pow_nonneg. lia. }
  pose proof (Z.div_pos m' (Z.pos m) Hm' ltac:(lia)) as Hq.
  unfold Z.div in Hq. destruct (Z.div_eucl m' (Z.pos m)) as [q r].
  apply (rounded_nonneg prec), binary_round_aux_rounded; lia.
Qed.

Lemma SFsqrt_nonneg prec emax x :
  1 <= prec -> nonneg x = true -> nonneg (SFsqrt prec emax x) = true.
Proof.
  intros Hprec Hx.
  destruct x as [[|]|[|]| |[|] mx ex]; simpl in *; try done.
  unfold SFsqrt_core_binary.
  set (m' := match _ - _ with Z.pos _ => _ | Z0 => _ | Z.neg _ => _ end).
  assert (Hm' : 0 <= m').
  { subst m'. destruct (_ - _) as [|k|k]; try lia.
    rewrite Z.shiftl_mul_pow2 by lia.
    apply Z.mul_nonneg_nonneg; [lia|]. apply Z.pow_nonneg. lia. }
  pose proof (Z.sqrtrem_spec m' Hm') as Hs.
  destruct (Z.sqrtrem m') as [q r].
  apply (rounded_nonneg prec), binary_round_aux_rounded; lia.
Qed.

Lemma f32_of_f64_nonneg x : nonneg x = true -> nonneg (f32_of_f64 x) = true.
Proof.
  destruct x as [s|s| |[|] m e]; simpl; try done. intros _.
  apply (rounded_nonneg 24), binary_round_rounded. lia.
Qed.

Lemma sum_squares_acc_nonneg samples : forall acc,
  nonneg acc = true ->
  forallb (fun x => negb (is_nan x)) samples = true ->
  nonneg (fold_left (fun sum x => let s := f64_of_f32 x in f64_add sum (f64_mul s s))
            samples acc) = true.
Proof.
  induction samples as [|x samples IH]; intros acc Hacc Hall; [exact Hacc|].
  simpl in Hall. apply andb_true_iff in Hall as [Hx Hrest].
  apply negb_true_iff in Hx.
  simpl fold_left. apply IH; [|exact Hrest].
  apply SFadd_nonneg; [lia | exact Hacc |].
  apply SFmul_self_nonneg; [lia|]. by apply f64_of_f32_not_nan.
Qed.

(** A NaN in the running sum stays. *)
Lemma sum_squares_acc_nan samples : forall acc,
  is_nan acc = true ->
  is_nan (fold_left (fun sum x => let s := f64_of_f32 x in f64_add sum (f64_mul s s))
            samples acc) = true.
Proof.
  induction samples as [|x samples IH]; intros acc Hacc; [exact Hacc|].
  simpl fold_left. apply IH. destruct acc; try discriminate. reflexivity.
Qed.

Lemma f64_add_nan_r x y : is_nan y = true -> is_nan (f64_add x y) = true.
Proof. destruct y; try discriminate. destruct x as [?|?| |? ? ?]; reflexivity. Qed.

Lemma f64_mul_self_nan x : is_nan x = true -> is_nan (f64_mul x x) = true.
Proof. destruct x; try discriminate. reflexivity. Qed.

Lemma sum_squares_nan samples : forall acc,
  existsb is_nan samples = true ->
  is_nan (fold_left (fun sum x => let s := f64_of_f32 x in f64_add sum (f64_mul s s))
            samples acc) = true.
Proof.
  induction samples as [|x samples IH]; intros acc Hex; [discriminate|].
  simpl in Hex. simpl fold_left.
  destruct (is_nan x) eqn:Ex.
  - apply sum_squares_acc_nan, f64_add_nan_r, f64_mul_self_nan.
    destruct x; try discriminate. reflexivity.
  - by apply IH.
Qed.

(** X6. The root mean square of a frame is a NaN exactly when one of its
    samples is a NaN.  For every frame (of a [uint32_t] number of samples)
    without a NaN sample, infinite samples included, [audio_rms] returns a
    number that is not negative: the comparison [rms < 1e-10f] of
    [audio_energy_db] is then a comparison of numbers. *)
Theorem audio_rms_nan_iff (samples : list float32) :
  Z.of_nat (length samples) <= UINT32_MAX ->
  is_nan (audio_rms samples) = existsb is_nan samples /\
  (existsb is_nan samples = false -> f_le F32_zero (audio_rms samples) = true).
Proof.
  intros Hn.
  assert (Hnonneg : existsb is_nan samples = false -> nonneg (audio_rms samples) = true).
  { intros Hex. unfold audio_rms.
    destruct (Z.eqb_spec (Z.of_nat (length samples)) 0) as [|Hn0]; [reflexivity|].
    destruct (f64_of_u32_finite (Z.of_nat (length samples)) ltac:(lia)) as (m & e & ->).
    apply f32_of_f64_nonneg, SFsqrt_nonneg; [lia|].
    apply SFdiv_nonneg; [lia|].
    apply sum_squares_acc_nonneg; [reflexivity|].
    clear -Hex. induction samples as [|x samples IH]; [reflexivity|].
    simpl in *. apply orb_false_iff in Hex as [-> Hex]. simpl. by apply IH. }
  split; [|intros Hex; by apply nonneg_ge_zero, Hnonneg].
  destruct (existsb is_nan samples) eqn:Hex.
  - unfold audio_rms.
    destruct (Z.eqb_spec (Z.of_nat (length samples)) 0) as [H0|Hn0].
    { destruct samples; [discriminate | simpl in H0; lia]. }
    pose proof (sum_squares_nan samples F64_zero Hex) as Hs.
    change (is_nan (sum_squares samples) = true) in Hs.
    destruct (sum_squares samples); try discriminate. reflexivity.
  - by apply nonneg_not_nan, Hnonneg.
Qed.

Lemma audio_rms_nan_iff_witness :
  is_nan (audio_rms [F32_one; S754_infinity true; F32_m100])
    = existsb is_nan [F32_one; S754_infinity true; F32_m100] /\
  (existsb is_nan [F32_one; S754_infinity true; F32_m100] = false ->
   f_le F32_zero (audio_rms [F32_one; S754_infinity true; F32_m100]) = true).
Proof.
  apply (audio_rms_nan_iff [F32_one; S754_infinity true; F32_m100]).
  unfold UINT32_MAX. simpl. lia.
Defined.

(* ===================================================================== *)
(** * Resampling *)
(* ===================================================================== *)

(** ** The output never exceeds its capacity *)

Lemma rounded_mantissa_bounded prec s x : rounded prec s x -> mantissa_bounded prec x.
Proof. destruct x; simpl; tauto. Qed.

Lemma SFdiv_mantissa_bounded prec emax x y :
  1 <= prec -> mantissa_bounded prec (SFdiv prec emax x y).
Proof.
  intros Hprec.
  destruct x as [sx|sx| |sx mx ex], y as [sy|sy| |sy my ey]; simpl; try exact I.
  unfold SFdiv_core_binary.
  set (m' := match _ - _ - _ with Z.pos _ => _ | Z0 => _ | Z.neg _ => _ end).
  assert (Hm' : 0 <= m').
  { subst m'. destruct (_ - _ - _) as [|k|k]; try lia.
    rewrite Z.shiftl_mul_pow2 by lia.
    apply Z.mul_nonneg_nonneg; [lia|]. apply Z.pow_nonneg. lia. }
  pose proof (Z.div_pos m' (Z.pos my) Hm' ltac:(lia)) as Hq.
  unfold Z.div in Hq. destruct (Z.div_eucl m' (Z.pos my)) as [q r].
  eapply rounded_mantissa_bounded, binary_round_aux_rounded; lia.
Qed.

Lemma binary_normalize_mantissa_bounded prec emax m e sz :
  1 <= prec -> mantissa_bounded prec (binary_normalize prec emax m e sz).
Proof.
  intros Hprec. destruct m as [|p|p]; simpl binary_normalize; [exact I| |];
    eapply rounded_mantissa_bounded, binary_round_rounded; lia.
Qed.

Lemma f64_ceil_mantissa_bounded x :
  mantissa_bounded 53 x -> mantissa_bounded 53 (f64_ceil x).
Proof.
  intros Hx. destruct x as [s|s| |s m e]; try exact I.
  unfold f64_ceil. destruct (0 <=? e); [exact Hx|].
  destruct s; apply binary_normalize_mantissa_bounded; lia.
Qed.

(** [static_cast<double>] of a positive [uint32_t] is exact: the mantissa
    is the integer shifted left to 53 bits. *)
Lemma f64_of_u32_exact z :
  1 <= z <= UINT32_MAX ->
  exists m e,
    f64_of_u32 z = S754_finite false m e /\
    -52 <= e <= -21 /\ Z.pos m = z * 2 ^ (- e) /\ 2 ^ 52 <= Z.pos m < 2 ^ 53.
Proof.
  intros Hz. destruct z as [|p|p]; try lia.
  pose proof (digits2_pos_bounds p) as [Hlo Hhi].
  set (d := Z.pos (digits2_pos p)) in *.
  assert (Hd : 1 <= d <= 32).
  { split; [subst d; lia|].
    destruct (Z.le_gt_cases d 32) as [H|H]; [exact H|]. exfalso.
    assert (2 ^ 32 <= 2 ^ (d - 1)) by (apply Z.pow_le_mono_r; lia).
    unfold UINT32_MAX in Hz. simpl in *. lia. }
  unfold f64_of_u32, binary_normalize, binary_round.
  change (fexp 53 1024 (Z.pos (digits2_pos p) + 0))
    with (Z.max (d + 0 - 53) (-1074)).
  replace (Z.max (d + 0 - 53) (-1074)) with (d - 53) by lia.
  unfold shl_align. rewrite Z.sub_0_r.
  destruct (d - 53) as [|k|k] eqn:Ek; try lia.
  assert (Hpd : 2 ^ 53 = 2 ^ d * 2 ^ Z.pos k).
  { rewrite <- Z.pow_add_r by lia. f_equal. lia. }
  assert (Hpk : 2 ^ 52 = 2 ^ (d - 1) * 2 ^ Z.pos k).
  { rewrite <- Z.pow_add_r by lia. f_equal. lia. }
  assert (Hp : 0 < 2 ^ Z.pos k) by (apply Z.pow_pos_nonneg; lia).
  assert (Hdig : Z.pos (digits2_pos (Pos.iter xO p k)) = 53).
  { apply digits2_pos_unique. rewrite pos_iter_xO.
    change (53 - 1) with 52. nia. }
  unfold binary_round_aux, shr_fexp, Zdigits2.
  rewrite Hdig.
  change (fexp 53 1024 (53 + Z.neg k)) with (Z.max (53 + Z.neg k - 53) (-1074)).
  replace (Z.max (53 + Z.neg k - 53) (-1074) - Z.neg k) with 0 by lia.
  simpl shr. cbv iota beta. simpl round_nearest_even.
  unfold Zdigits2. rewrite Hdig.
  change (fexp 53 1024 (53 + Z.neg k)) with (Z.max (53 + Z.neg k - 53) (-1074)).
  replace (Z.max (53 + Z.neg k - 53) (-1074) - Z.neg k) with 0 by lia.
  simpl shr. cbv iota beta. simpl shr_m.
  change (1024 - 53) with 971.
  destruct (Z.leb_spec (Z.neg k) 971); [|lia].
  exists (Pos.iter xO p k), (Z.neg k).
  rewrite pos_iter_xO. change (- Z.neg k) with (Z.pos k).
  split; [reflexivity|]. split; [lia|]. split; [reflexivity|]. nia.
Qed.

Lemma u32_of_f64_of_u32 z : is_uint32 z -> u32_of_f64 (f64_of_u32 z) = Ok z.
Proof.
  intros Hz. destruct (Z.eq_dec z 0) as [->|Hnz]; [reflexivity|].
  unfold is_uint32 in Hz.
  destruct (f64_of_u32_exact z ltac:(lia)) as (m & e & -> & He & Hm & _).
  unfold u32_of_f64. destruct (Z.leb_spec 0 e); [lia|].
  rewrite Hm, Z.div_mul by (apply Z.pow_nonzero; lia).
  destruct (Z.eqb_spec z 0); [lia|].
  destruct (Z.leb_spec z UINT32_MAX); [reflexivity | lia].
Qed.

(** The minimum of the capacity and of any rounded number converts to at
    most the capacity. *)
Lemma u32_of_f64_min_capacity cap b v :
  is_uint32 cap -> mantissa_bounded 53 b ->
  u32_of_f64 (f64_min (f64_of_u32 cap) b) = Ok v ->
  0 <= v <= cap.
Proof.
  intros Hcap Hb Hv. unfold f64_min in Hv.
  destruct (f_lt b (f64_of_u32 cap)) eqn:Hlt.
  - (* the other operand is below the capacity *)
    destruct b as [s|s| |s m e]; simpl in Hv; try discriminate.
    { injection Hv as <-. unfold is_uint32 in Hcap. lia. }
    simpl in Hb.
    set (t := if 0 <=? e then Z.pos m * 2 ^ e else Z.pos m / 2 ^ (- e)) in *.
    destruct (Z.eqb_spec t 0) as [|Hne].
    { injection Hv as <-. unfold is_uint32 in Hcap. lia. }
    destruct s; [discriminate|].
    destruct (Z.leb_spec t UINT32_MAX); [|discriminate].
    injection Hv as <-.
    destruct (Z.eq_dec cap 0) as [->|Hnz]; [discriminate|].
    unfold is_uint32 in Hcap.
    destruct (f64_of_u32_exact cap ltac:(lia)) as (ma & ea & Ha & Hea & Hma & Hrange).
    rewrite Ha in Hlt. unfold f_lt, SFltb, SFcompare in Hlt.
    change (PosDef.Pos.compare_cont Eq m ma) with (Pos.compare m ma) in Hlt.
    assert (Hpa : 0 < 2 ^ (- ea)) by (apply Z.pow_pos_nonneg; lia).
    destruct (Z.compare_spec e ea) as [He|He|He]; try discriminate.
    + destruct (Pos.compare_spec m ma) as [Hc|Hc|Hc]; try discriminate.
      subst t e. destruct (Z.leb_spec 0 ea); [lia|].
      split; [apply Z.div_pos; lia|].
      apply Z.div_le_upper_bound; [lia|]. lia.
    + subst t. destruct (Z.leb_spec 0 e); [lia|].
      assert (Hpe : 2 * 2 ^ (- ea) <= 2 ^ (- e)).
      { rewrite <- Z.pow_succ_r by lia. apply Z.pow_le_mono_r; lia. }
      split; [apply Z.div_pos; lia|].
      apply Z.div_le_upper_bound; [lia|]. nia.
  - rewrite u32_of_f64_of_u32 in Hv by exact Hcap.
    injection Hv as <-. unfold is_uint32 in Hcap. lia.
Qed.

Lemma resample_loop_length input ratio (k : nat) : forall i out out',
  resample_loop k input ratio i out = Ok out' ->
  length out' = (length out + k)%nat.
Proof.
  induction k as [|k IH]; intros i out out' Hrun.
  - injection Hrun as <-. lia.
  - simpl in Hrun.
    destruct (u32_of_f64 _) as [idx0| |]; try discriminate.
    rewrite bind_Ok in Hrun.
    destruct (load input idx0) as [x0| |]; try discriminate.
    rewrite bind_Ok in Hrun.
    destruct (load input _) as [x1| |]; try discriminate.
    rewrite bind_Ok in Hrun.
    apply IH in Hrun. rewrite length_app in Hrun. simpl in Hrun. lia.
Qed.

(** X7. Whatever the input, the two rates and the roundings of the
    binary64 ratio, a call of [audio_resample_linear] that returns has
    written exactly the number of samples it returns, and that number is at
    most [out_capacity]: the output array is never written past the room
    the caller made. *)
Theorem audio_resample_linear_within_capacity (input : list float32)
    (src_rate dst_rate out_capacity : Z) (out : list float32) (out_len : Z) :
  is_uint32 out_capacity ->
  audio_resample_linear input src_rate dst_rate out_capacity = Ok (out, out_len) ->
  0 <= out_len <= out_capacity /\ Z.of_nat (length out) = out_len.
Proof.
  intros Hcap Hrun. unfold audio_resample_linear in Hrun.
  destruct ((Z.of_nat (length input) =? 0) || (src_rate =? 0) || (dst_rate =? 0)).
  { injection Hrun as <- <-. unfold is_uint32 in Hcap. simpl. lia. }
  destruct (u32_of_f64 _) as [n| |] eqn:En; try discriminate.
  rewrite bind_Ok in Hrun.
  apply u32_of_f64_min_capacity in En;
    [|exact Hcap | apply f64_ceil_mantissa_bounded, SFdiv_mantissa_bounded; lia].
  destruct (resample_loop _ _ _ _ _) as [o| |] eqn:Eloop; try discriminate.
  rewrite bind_Ok in Hrun. injection Hrun as <- <-.
  apply resample_loop_length in Eloop. simpl in Eloop.
  split; [exact En | lia].
Qed.

Lemma audio_resample_linear_within_capacity_witness :
  audio_resample_linear [F32_one; F32_20; F32_m100; F32_m35] 8000 16000 5
    = Ok ([F32_one; S754_finite false 11010048 (-20); F32_20;
           S754_finite true 10485760 (-18); F32_m100], 5) /\
  0 <= 5 <= 5 /\
  Z.of_nat (length [F32_one; S754_finite false 11010048 (-20); F32_20;
                    S754_finite true 10485760 (-18); F32_m100]) = 5.
Proof.
  split; [vm_compute; reflexivity|].
  apply (audio_resample_linear_within_capacity
           [F32_one; F32_20; F32_m100; F32_m35] 8000 16000 5).
  - unfold is_uint32, UINT32_MAX. lia.
  - vm_compute. reflexivity.
Defined.

(** ** Equal rates *)

Lemma fexp64 x : fexp 53 1024 x = Z.max (x - 53) (-1074).
Proof. reflexivity. Qed.

(** Shifting out [k] zero bits is exact. *)
Lemma iter_shr_exact (p k : positive) :
  SpecFloat.iter_pos shr_1 k (Build_shr_record (Z.pos p * 2 ^ Z.pos k) false false)
  = Build_shr_record (Z.pos p) false false.
Proof.
  assert (Hp : 0 < 2 ^ Z.pos k) by (apply Z.pow_pos_nonneg; lia).
  pose proof (shr_inv_iter (Z.pos p * 2 ^ Z.pos k) k 0
                (Build_shr_record (Z.pos p * 2 ^ Z.pos k) false false)
                ltac:(lia) (shr_inv_init (Z.pos p * 2 ^ Z.pos k) ltac:(lia)))
    as Hinv.
  rewrite Z.add_0_l in Hinv.
  set (mrs := SpecFloat.iter_pos shr_1 k _) in *.
  destruct Hinv as (Hm & rem & Hzr & Hrem & Hff & Hft & Htf & Htt).
  assert (Hsm : shr_m mrs = Z.pos p) by nia.
  assert (Hr0 : rem = 0) by nia.
  clearbody mrs. destruct mrs as [mm [|] [|]]; simpl in *; subst mm;
    try specialize (Hft eq_refl eq_refl);
    try specialize (Htf eq_refl eq_refl);
    try specialize (Htt eq_refl eq_refl); try lia. reflexivity.
Qed.

(** A normal binary64 mantissa at an exponent in range is a fixed point of
    the final normalisation. *)
Lemma normalize64 s (m : positive) e :
  2 ^ 52 <= Z.pos m < 2 ^ 53 -> -1074 <= e <= 971 ->
  (let '(mrs, e') := shr_fexp 53 1024 (Z.pos m) e loc_Exact in
   match shr_m mrs with
   | Z0 => S754_zero s
   | Z.pos m' => if e' <=? 1024 - 53 then S754_finite s m' e' else S754_infinity s
   | Z.neg _ => S754_nan
   end) = S754_finite s m e.
Proof.
  intros Hm He. unfold shr_fexp, Zdigits2. rewrite fexp64.
  rewrite (digits2_pos_unique m 53) by (change (53 - 1) with 52; lia).
  replace (Z.max (53 + e - 53) (-1074) - e) with 0 by lia.
  simpl. change (1024 - 53) with 971.
  destruct (Z.leb_spec e 971); [reflexivity | lia].
Qed.

(** Rounding to binary64 a mantissa that is a normal mantissa followed by
    [k] zero bits. *)
Lemma binary_round_aux64_exact s (m k : positive) e :
  2 ^ 52 <= Z.pos m < 2 ^ 53 -> -1074 <= e + Z.pos k <= 971 ->
  binary_round_aux 53 1024 s (Z.pos m * 2 ^ Z.pos k) e loc_Exact
  = S754_finite s m (e + Z.pos k).
Proof.
  intros Hm He.
  assert (Hp : 0 < 2 ^ Z.pos k) by (apply Z.pow_pos_nonneg; lia).
  assert (Hdig : Zdigits2 (Z.pos m * 2 ^ Z.pos k) = 53 + Z.pos k).
  { destruct (Z.pos m * 2 ^ Z.pos k) as [|q|q] eqn:Eq; try lia.
    simpl Zdigits2. apply digits2_pos_unique. rewrite <- Eq.
    replace (53 + Z.pos k - 1) with (52 + Z.pos k) by lia.
    rewrite !Z.pow_add_r by lia. nia. }
  unfold binary_round_aux. unfold shr_fexp at 1. rewrite Hdig, fexp64.
  replace (Z.max (53 + Z.pos k + e - 53) (-1074) - e) with (Z.pos k) by lia.
  unfold shr. cbv iota beta.
  change (shr_record_of_loc (Z.pos m * 2 ^ Z.pos k) loc_Exact)
    with (Build_shr_record (Z.pos m * 2 ^ Z.pos k) false false).
  rewrite iter_shr_exact. simpl shr_m. simpl loc_of_shr_record.
  simpl round_nearest_even.
  apply normalize64; lia.
Qed.

Lemma binary_round_aux64_normal s (m : positive) e :
  2 ^ 52 <= Z.pos m < 2 ^ 53 -> -1074 <= e <= 971 ->
  binary_round_aux 53 1024 s (Z.pos m) e loc_Exact = S754_finite s m e.
Proof.
  intros Hm He. unfold binary_round_aux. unfold shr_fexp at 1, Zdigits2.
  rewrite fexp64.
  rewrite (digits2_pos_unique m 53) by (change (53 - 1) with 52; lia).
  replace (Z.max (53 + e - 53) (-1074) - e) with 0 by lia.
  simpl shr. cbv iota beta. simpl round_nearest_even.
  apply normalize64; lia.
Qed.

(** Multiplication by [1.0] is exact on every normal binary64 number. *)
Lemma f64_mul_one s m e :
  2 ^ 52 <= Z.pos m < 2 ^ 53 -> -1074 <= e <= 971 ->
  f64_mul (S754_finite s m e) F64_one = S754_finite s m e.
Proof.
  intros Hm He. unfold f64_mul, SFmul, F64_one.
  replace (Z.pos (m * 4503599627370496)) with (Z.pos m * 2 ^ 52)
    by (rewrite Pos2Z.inj_mul; reflexivity).
  rewrite xorb_false_r.
  rewrite (binary_round_aux64_exact s m 52 (e + -52)) by lia.
  f_equal. lia.
Qed.

(** Division by [1.0] is exact on every normal binary64 number. *)
Lemma f64_div_one m e :
  2 ^ 52 <= Z.pos m < 2 ^ 53 -> -1000 <= e <= 900 ->
  f64_div (S754_finite false m e) F64_one = S754_finite false m e.
Proof.
  intros Hm He. unfold f64_div, SFdiv, SFdiv_core_binary, F64_one, Zdigits2.
  rewrite (digits2_pos_unique m 53) by (change (53 - 1) with 52; lia).
  change (Z.pos (digits2_pos 4503599627370496)) with 53.
  rewrite fexp64.
  replace (Z.min (Z.max (53 + e - (53 + -52) - 53) (-1074)) (e - -52))
    with (e - 1) by lia.
  replace (e - -52 - (e - 1)) with 53 by lia.
  cbv iota. rewrite Z.shiftl_mul_pow2 by lia.
  replace (Z.pos m * 2 ^ 53) with (Z.pos m * 2 * 4503599627370496)
    by (change (2 ^ 53) with (2 * 4503599627370496); lia).
  pose proof (Z.div_mul (Z.pos m * 2) 4503599627370496 ltac:(lia)) as Hq.
  pose proof (Z.mod_mul (Z.pos m * 2) 4503599627370496 ltac:(lia)) as Hr.
  unfold Z.div in Hq. unfold Z.modulo in Hr.
  destruct (Z.div_eucl (Z.pos m * 2 * 4503599627370496) 4503599627370496) as [q r].
  subst q r. simpl xorb.
  change (new_location 4503599627370496 0) with loc_Exact.
  change (Z.pos m * 2) with (Z.pos m * 2 ^ 1).
  rewrite (binary_round_aux64_exact false m 1 (e - 1)) by lia.
  f_equal. lia.
Qed.

(** A normal binary64 number divided by itself is [1.0]. *)
Lemma f64_div_self m e :
  2 ^ 52 <= Z.pos m < 2 ^ 53 ->
  f64_div (S754_finite false m e) (S754_finite false m e) = F64_one.
Proof.
  intros Hm. unfold f64_div, SFdiv, SFdiv_core_binary, Zdigits2.
  rewrite (digits2_pos_unique m 53) by (change (53 - 1) with 52; lia).
  rewrite fexp64.
  replace (Z.min (Z.max (53 + e - (53 + e) - 53) (-1074)) (e - e)) with (-53) by lia.
  replace (e - e - -53) with 53 by lia.
  cbv iota. rewrite Z.shiftl_mul_pow2 by lia.
  rewrite (Z.mul_comm (Z.pos m)).
  pose proof (Z.div_mul (2 ^ 53) (Z.pos m) ltac:(lia)) as Hq.
  pose proof (Z.mod_mul (2 ^ 53) (Z.pos m) ltac:(lia)) as Hr.
  unfold Z.div in Hq. unfold Z.modulo in Hr.
  destruct (Z.div_eucl (2 ^ 53 * Z.pos m) (Z.pos m)) as [q r].
  subst q r. simpl xorb.
  assert (Hloc : new_location (Z.pos m) 0 = loc_Exact).
  { unfold new_location, new_location_even, new_location_odd.
    destruct (Z.even (Z.pos m)); reflexivity. }
  rewrite Hloc. reflexivity.
Qed.


(** [static_cast<double>] of a binary32 number is exact: the mantissa
    shifted left to 53 bits; and [static_cast<float>] takes it back. *)
Lemma f64_of_f32_exact s m e :
  bounded 24 128 m e = true ->
  exists (k : positive),
    f64_of_f32 (S754_finite s m e)
      = S754_finite s (Pos.iter xO m k) (e - Z.pos k) /\
    2 ^ 52 <= Z.pos (Pos.iter xO m k) < 2 ^ 53 /\ -1074 <= e - Z.pos k <= 971 /\
    f32_of_f64 (S754_finite s (Pos.iter xO m k) (e - Z.pos k)) = S754_finite s m e.
Proof.
  intros Hb. unfold bounded, canonical_mantissa in Hb.
  apply andb_true_iff in Hb as [Hcan He].
  apply Z.eqb_eq in Hcan. apply Z.leb_le in He.
  rewrite fexp32 in Hcan. change (128 - 24) with 104 in He.
  pose proof (digits2_pos_bounds m) as [Hlo Hhi].
  set (d := Z.pos (digits2_pos m)) in *.
  assert (Hd : 1 <= d <= 24) by (subst d; lia).
  destruct (53 - d) as [|k|k] eqn:Ek; try lia.
  exists k.
  assert (Hp : 0 < 2 ^ Z.pos k) by (apply Z.pow_pos_nonneg; lia).
  assert (Hpd : 2 ^ 53 = 2 ^ d * 2 ^ Z.pos k).
  { rewrite <- Z.pow_add_r by lia. f_equal. lia. }
  assert (Hpk : 2 ^ 52 = 2 ^ (d - 1) * 2 ^ Z.pos k).
  { rewrite <- Z.pow_add_r by lia. f_equal. lia. }
  assert (Hmz : 2 ^ 52 <= Z.pos (Pos.iter xO m k) < 2 ^ 53).
  { rewrite pos_iter_xO. nia. }
  assert (Hdz : Z.pos (digits2_pos (Pos.iter xO m k)) = 53).
  { apply digits2_pos_unique. change (53 - 1) with 52. exact Hmz. }
  split_and!; try lia.
  - unfold f64_of_f32, binary_round. rewrite fexp64. fold d.
    replace (Z.max (d + e - 53) (-1074)) with (e - Z.pos k) by lia.
    unfold shl_align.
    replace (e - Z.pos k - e) with (Z.neg k) by lia.
    apply binary_round_aux64_normal; [exact Hmz | lia].
  - unfold f32_of_f64, binary_round. rewrite fexp32, Hdz.
    replace (Z.max (53 + (e - Z.pos k) - 24) (-149)) with e by lia.
    unfold shl_align.
    replace (e - (e - Z.pos k)) with (Z.pos k) by lia.
    unfold binary_round_aux. unfold shr_fexp at 1, Zdigits2.
    rewrite Hdz, fexp32.
    replace (Z.max (53 + (e - Z.pos k) - 24) (-149) - (e - Z.pos k))
      with (Z.pos k) by lia.
    unfold shr. cbv iota beta.
    change (shr_record_of_loc (Z.pos (Pos.iter xO m k)) loc_Exact)
      with (Build_shr_record (Z.pos (Pos.iter xO m k)) false false).
    rewrite pos_iter_xO, iter_shr_exact.
    simpl shr_m. simpl loc_of_shr_record. simpl round_nearest_even.
    unfold shr_fexp, Zdigits2. fold d. rewrite fexp32.
    replace (Z.max (d + (e - Z.pos k + Z.pos k) - 24) (-149)
             - (e - Z.pos k + Z.pos k)) with 0 by lia.
    unfold shr. cbv iota beta. simpl shr_m.
    replace (e - Z.pos k + Z.pos k) with e by lia.
    change (128 - 24) with 104.
    destruct (Z.leb_spec e 104); [reflexivity | lia].
Qed.

(** The interpolation at a whole source index: weight 1 on the sample at
    the index, weight 0 on the next one. *)
Lemma interpolate_whole x0 x1 :
  sample_ok x0 = true -> sample_ok x1 = true ->
  same_value
    (f32_of_f64 (f64_add (f64_mul (f64_of_f32 x0) F64_one)
                         (f64_mul (f64_of_f32 x1) F64_zero)))
    x0.
Proof.
  intros H0 H1. unfold sample_ok in H0, H1.
  apply andb_true_iff in H0 as [Hfin0 Hval0].
  apply andb_true_iff in H1 as [Hfin1 Hval1].
  assert (Hz1 : exists s1, f64_mul (f64_of_f32 x1) F64_zero = S754_zero s1).
  { destruct x1 as [s1|s1| |s1 m1 e1]; try discriminate.
    - exists s1. destruct s1; reflexivity.
    - destruct (f64_of_f32_exact s1 m1 e1 Hval1) as (k & -> & _).
      exists s1. destruct s1; reflexivity. }
  destruct Hz1 as [s1 ->].
  destruct x0 as [s0|s0| |s0 m0 e0]; try discriminate.
  - destruct s0, s1; simpl; unfold same_value; auto.
  - destruct (f64_of_f32_exact s0 m0 e0 Hval0) as (k & -> & Hm & He & Hback).
    rewrite f64_mul_one by assumption.
    change (f64_add (S754_finite s0 (Pos.iter xO m0 k) (e0 - Z.pos k)) (S754_zero s1))
      with (S754_finite s0 (Pos.iter xO m0 k) (e0 - Z.pos k)).
    rewrite Hback. by left.
Qed.

(** The conversion of [uint32_t] to [double] preserves the order. *)
Lemma f64_of_u32_lt a b :
  is_uint32 a -> is_uint32 b ->
  f_lt (f64_of_u32 a) (f64_of_u32 b) = (a <? b).
Proof.
  intros Ha Hb. unfold is_uint32 in Ha, Hb.
  destruct (Z.eq_dec a 0) as [->|Ha0], (Z.eq_dec b 0) as [->|Hb0].
  - reflexivity.
  - destruct (f64_of_u32_exact b ltac:(lia)) as (mb & eb & -> & _).
    simpl. symmetry. apply Z.ltb_lt. lia.
  - destruct (f64_of_u32_exact a ltac:(lia)) as (ma & ea & -> & _).
    simpl. symmetry. apply Z.ltb_ge. lia.
  - destruct (f64_of_u32_exact a ltac:(lia)) as (ma & ea & -> & Hea & Hma & Hra).
    destruct (f64_of_u32_exact b ltac:(lia)) as (mb & eb & -> & Heb & Hmb & Hrb).
    unfold f_lt, SFltb, SFcompare.
    assert (Hpa : 0 < 2 ^ (- ea)) by (apply Z.pow_pos_nonneg; lia).
    assert (Hpb : 0 < 2 ^ (- eb)) by (apply Z.pow_pos_nonneg; lia).
    change (2 ^ 52) with 4503599627370496 in Hra, Hrb.
    change (2 ^ 53) with 9007199254740992 in Hra, Hrb.
    destruct (Z.compare_spec ea eb) as [He|He|He].
    + subst eb. set (P := 2 ^ (- ea)) in *.
      destruct (PosDef.Pos.compare_cont Eq ma mb) eqn:Hc; symmetry.
      * apply (Pos.compare_eq_iff ma mb) in Hc. apply Z.ltb_ge.
        assert (Hab : a * P = b * P) by (rewrite <- Hma, <- Hmb, Hc; reflexivity).
        apply Z.mul_reg_r in Hab; lia.
      * assert (Hlt : (ma < mb)%positive) by exact Hc. apply Z.ltb_lt.
        apply (Z.mul_lt_mono_pos_r P); lia.
      * assert (Hgt : (ma > mb)%positive) by exact Hc. apply Z.ltb_ge.
        apply (Z.mul_le_mono_pos_r _ _ P); lia.
    + symmetry. apply Z.ltb_lt.
      assert (Hpe : 2 * 2 ^ (- eb) <= 2 ^ (- ea)).
      { rewrite <- Z.pow_succ_r by lia. apply Z.pow_le_mono_r; lia. }
      set (PA := 2 ^ (- ea)) in *. set (PB := 2 ^ (- eb)) in *.
      destruct (Z.lt_ge_cases a b) as [Hlt|Hge]; [exact Hlt | exfalso].
      assert (b * (2 * PB) <= a * PA) by (apply Z.mul_le_mono_nonneg; lia).
      lia.
    + symmetry. apply Z.ltb_ge.
      assert (Hpe : 2 * 2 ^ (- ea) <= 2 ^ (- eb)).
      { rewrite <- Z.pow_succ_r by lia. apply Z.pow_le_mono_r; lia. }
      set (PA := 2 ^ (- ea)) in *. set (PB := 2 ^ (- eb)) in *.
      destruct (Z.le_gt_cases b a) as [Hle|Hgt]; [exact Hle | exfalso].
      assert (a * (2 * PA) <= b * PB) by (apply Z.mul_le_mono_nonneg; lia).
      lia.
Qed.

Lemma f64_min_of_u32 a b :
  is_uint32 a -> is_uint32 b ->
  f64_min (f64_of_u32 a) (f64_of_u32 b) = f64_of_u32 (Z.min a b).
Proof.
  intros Ha Hb. unfold f64_min. rewrite f64_of_u32_lt by assumption.
  destruct (Z.ltb_spec b a).
  - by rewrite Z.min_r by lia.
  - by rewrite Z.min_l by lia.
Qed.

(** A [uint32_t] converted to [double] is a whole number. *)
Lemma f64_ceil_of_u32 z : is_uint32 z -> f64_ceil (f64_of_u32 z) = f64_of_u32 z.
Proof.
  intros Hz. unfold is_uint32 in Hz.
  destruct (Z.eq_dec z 0) as [->|Hz0]; [reflexivity|].
  destruct (f64_of_u32_exact z ltac:(lia)) as (m & e & Heq & He & Hm & _).
  rewrite Heq. unfold f64_ceil.
  destruct (Z.leb_spec 0 e); [lia|].
  rewrite Hm, Z.div_mul, Z.mod_mul by (apply Z.pow_nonzero; lia).
  simpl Z.eqb. cbv iota. exact Heq.
Qed.

Lemma f64_of_u32_mul_one z :
  is_uint32 z -> f64_mul (f64_of_u32 z) F64_one = f64_of_u32 z.
Proof.
  intros Hz. unfold is_uint32 in Hz.
  destruct (Z.eq_dec z 0) as [->|Hz0]; [reflexivity|].
  destruct (f64_of_u32_exact z ltac:(lia)) as (m & e & -> & He & _ & Hm).
  apply f64_mul_one; lia.
Qed.

Lemma f64_of_u32_div_one z :
  is_uint32 z -> f64_div (f64_of_u32 z) F64_one = f64_of_u32 z.
Proof.
  intros Hz. unfold is_uint32 in Hz.
  destruct (Z.eq_dec z 0) as [->|Hz0]; [reflexivity|].
  destruct (f64_of_u32_exact z ltac:(lia)) as (m & e & -> & He & _ & Hm).
  apply f64_div_one; lia.
Qed.

Lemma f64_of_u32_div_self z :
  1 <= z <= UINT32_MAX -> f64_div (f64_of_u32 z) (f64_of_u32 z) = F64_one.
Proof.
  intros Hz.
  destruct (f64_of_u32_exact z Hz) as (m & e & -> & He & _ & Hm).
  by apply f64_div_self.
Qed.

Lemma f64_of_u32_sub_self z :
  is_uint32 z -> f64_sub (f64_of_u32 z) (f64_of_u32 z) = F64_zero.
Proof.
  intros Hz. unfold is_uint32 in Hz.
  destruct (Z.eq_dec z 0) as [->|Hz0]; [reflexivity|].
  destruct (f64_of_u32_exact z ltac:(lia)) as (m & e & -> & _).
  unfold f64_sub, SFsub, shl_align. rewrite Z.min_id, Z.sub_diag. simpl fst.
  simpl cond_Zopp. reflexivity.
Qed.

(** With a ratio of exactly 1 every iteration copies one sample. *)
Lemma resample_loop_identity input (k : nat) : forall (i : nat) out,
  forallb sample_ok input = true ->
  Z.of_nat (length input) <= UINT32_MAX ->
  (i + k <= length input)%nat ->
  exists ys,
    resample_loop k input F64_one (Z.of_nat i) out = Ok (out ++ ys) /\
    length ys = k /\
    forall (j : nat) x, (j < k)%nat -> input !! (i + j)%nat = Some x ->
      exists y, ys !! j = Some y /\ same_value y x.
Proof.
  induction k as [|k IH]; intros i out Hok Hmax Hfit.
  - exists []. simpl. rewrite app_nil_r. split_and!; try done. intros; lia.
  - assert (Hall : forall (j : nat) xj, input !! j = Some xj -> sample_ok xj = true).
    { intros j xj Hj. rewrite forallb_forall in Hok. apply Hok.
      apply list_elem_of_In. eapply list_elem_of_lookup_2; eassumption. }
    assert (Hi : is_uint32 (Z.of_nat i)) by (unfold is_uint32; lia).
    simpl resample_loop.
    rewrite f64_of_u32_mul_one, u32_of_f64_of_u32, bind_Ok by exact Hi.
    rewrite f64_of_u32_sub_self by exact Hi.
    change (f64_sub F64_one F64_zero) with F64_one.
    destruct (lookup_lt_is_Some_2 input i ltac:(lia)) as [x0 Hx0].
    rewrite (load_ok input i x0 Hx0), bind_Ok.
    rewrite (wrap32_small (Z.of_nat i + 1)), (wrap32_small (Z.of_nat (length input) - 1))
      by u32.
    set (idx1 := Z.min (Z.of_nat i + 1) (Z.of_nat (length input) - 1)).
    destruct (lookup_lt_is_Some_2 input (Z.to_nat idx1) ltac:(lia)) as [x1 Hx1].
    replace idx1 with (Z.of_nat (Z.to_nat idx1)) by lia.
    rewrite (load_ok input (Z.to_nat idx1) x1 Hx1), bind_Ok.
    pose proof (interpolate_whole x0 x1 (Hall _ _ Hx0) (Hall _ _ Hx1)) as Hsame.
    set (y0 := f32_of_f64 _) in *.
    replace (Z.of_nat i + 1) with (Z.of_nat (S i)) by lia.
    destruct (IH (S i) (out ++ [y0]) Hok Hmax ltac:(lia)) as (ys & Hrun & Hlen & Hys).
    exists (y0 :: ys). rewrite Hrun, <- app_assoc. simpl.
    split_and!; [reflexivity | lia |].
    intros [|j] x Hj Hx.
    + rewrite Nat.add_0_r in Hx. exists y0. split; [reflexivity|]. congruence.
    + apply (Hys j x); [lia|]. by replace (S i + j)%nat with (i + S j)%nat by lia.
Qed.

(** X8. Resampling at equal rates is the identity.  For every rate of at
    least 1, every output capacity and every input of finite binary32
    samples (the three numbers [uint32_t]), [audio_resample_linear] with
    [src_rate = dst_rate] reads only inside the input, returns
    [min(in_len, out_capacity)] and writes that many samples, each equal to
    the input sample at the same index, except that a [-0] sample may come
    out as [+0]. *)
Theorem audio_resample_linear_identity (input : list float32)
    (rate out_capacity : Z) :
  let n := Z.of_nat (length input) in
  1 <= rate <= UINT32_MAX -> is_uint32 out_capacity -> n <= UINT32_MAX ->
  forallb sample_ok input = true ->
  exists out,
    audio_resample_linear input rate rate out_capacity
      = Ok (out, Z.min out_capacity n) /\
    Z.of_nat (length out) = Z.min out_capacity n /\
    forall (i : nat) x, Z.of_nat i < Z.min out_capacity n ->
      input !! i = Some x ->
      exists y, out !! i = Some y /\ same_value y x.
Proof.
  intros n Hrate Hcap Hn Hok. unfold audio_resample_linear. fold n.
  destruct (Z.eqb_spec n 0) as [Hn0|Hn0].
  { simpl. exists []. rewrite Hn0. unfold is_uint32 in Hcap.
    rewrite Z.min_r by lia. split_and!; try done. intros; lia. }
  destruct (Z.eqb_spec rate 0); [lia|]. simpl orb. cbv iota.
  assert (Hnu : is_uint32 n) by (unfold is_uint32, n; lia).
  rewrite f64_of_u32_div_self by exact Hrate.
  rewrite f64_of_u32_div_one, f64_ceil_of_u32, f64_min_of_u32 by assumption.
  rewrite u32_of_f64_of_u32, bind_Ok by (unfold is_uint32 in *; lia).
  unfold is_uint32 in Hcap.
  destruct (resample_loop_identity input (Z.to_nat (Z.min out_capacity n)) 0 []
              Hok Hn ltac:(lia)) as (ys & Hrun & Hlen & Hys).
  change (Z.of_nat 0) with 0 in Hrun. rewrite Hrun, bind_Ok. simpl app.
  exists ys. split_and!; [reflexivity | lia |].
  intros i x Hi Hx. apply (Hys i x); [lia | exact Hx].
Qed.

Lemma audio_resample_linear_identity_witness :
  exists out,
    audio_resample_linear [F32_one; S754_zero true; F32_m100; F32_20] 16000 16000 3
      = Ok (out, 3) /\
    Z.of_nat (length out) = 3 /\
    forall (i : nat) x, Z.of_nat i < 3 ->
      [F32_one; S754_zero true; F32_m100; F32_20] !! i = Some x ->
      exists y, out !! i = Some y /\ same_value y x.
Proof.
  apply (audio_resample_linear_identity
           [F32_one; S754_zero true; F32_m100; F32_20] 16000 3).
  - unfold UINT32_MAX. lia.
  - unfold is_uint32, UINT32_MAX. lia.
  - unfold UINT32_MAX. simpl. lia.
  - reflexivity.
Defined.

(* ===================================================================== *)
(** * Spectral centroid *)
(* ===================================================================== *)

(** The binary32 quotient of two normal positive numbers whose exponents
    are not too far apart is a normal positive number. *)
Lemma f32_div_normal m1 e1 m2 e2 :
  2 ^ 23 <= Z.pos m1 < 2 ^ 24 -> 2 ^ 23 <= Z.pos m2 < 2 ^ 24 ->
  -125 <= e1 - e2 <= 126 ->
  exists m e,
    f32_div (S754_finite false m1 e1) (S754_finite false m2 e2)
      = S754_finite false m e /\
    2 ^ 23 <= Z.pos m < 2 ^ 24 /\ e1 - e2 - 24 <= e <= e1 - e2 - 22.
Proof.
  intros Hm1 Hm2 He.
  unfold f32_div, SFdiv, SFdiv_core_binary, Zdigits2.
  rewrite (digits2_pos_unique m1 24), (digits2_pos_unique m2 24) by lia.
  rewrite fexp32.
  replace (Z.min (Z.max (24 + e1 - (24 + e2) - 24) (-149)) (e1 - e2))
    with (e1 - e2 - 24) by lia.
  replace (e1 - e2 - (e1 - e2 - 24)) with 24 by lia.
  cbv iota. rewrite Z.shiftl_mul_pow2 by lia.
  destruct (Z.div_eucl (Z.pos m1 * 2 ^ 24) (Z.pos m2)) as [q r] eqn:Ediv.
  assert (Hq : q = Z.pos m1 * 2 ^ 24 / Z.pos m2)
    by (unfold Z.div; rewrite Ediv; reflexivity).
  assert (Hqlo : 2 ^ 23 <= q).
  { rewrite Hq. apply Z.div_le_lower_bound; simpl in *; lia. }
  assert (Hqhi : q < 2 ^ 25).
  { rewrite Hq. apply Z.div_lt_upper_bound; simpl in *; lia. }
  simpl xorb.
  destruct (binary_round_aux32 false q (e1 - e2 - 24)
              (new_location (Z.pos m2) r) ltac:(lia) ltac:(lia))
    as (M & E & -> & HM & HE).
  destruct (normal32_cases false M E HM) as (m & e & -> & Hm & Hc).
  exists m, e. split; [reflexivity|]. split; [exact Hm|].
  destruct HE as [[_ ->]|[_ ->]], Hc as [(_ & _ & ->)|(_ & _ & ->)]; lia.
Qed.

(** X9. For every frame of [n] samples ([n] and the sample rate
    [uint32_t]): [audio_spectral_centroid] returns exactly 0 when [n < 4],
    when the sample rate is 0 and when the frame has fewer than two sign
    changes; otherwise it returns the binary32 quotient of half the number
    of sign changes by [n / sample_rate], and that value is a normal
    positive number: never a NaN, an infinity or a zero, so that no
    division by zero and no overflow occurs. *)
Theorem audio_spectral_centroid_spec (samples : list float32) (sample_rate : Z) :
  let n := Z.of_nat (length samples) in
  let f := audio_spectral_centroid samples sample_rate in
  n <= UINT32_MAX -> is_uint32 sample_rate ->
  (n < 4 \/ sample_rate = 0 \/ sign_changes samples < 2 -> f = F32_zero) /\
  (4 <= n -> 1 <= sample_rate -> 2 <= sign_changes samples ->
   f = f32_div (f32_div (f32_of_u32 (sign_changes samples)) F32_two)
               (f32_div (f32_of_u32 n) (f32_of_u32 sample_rate)) /\
   exists m e, f = S754_finite false m e /\ 2 ^ 23 <= Z.pos m < 2 ^ 24).
Proof.
  intros n f Hn Hsr. subst f. unfold audio_spectral_centroid. fold n.
  assert (Hcross : forall x0 rest, samples = x0 :: rest ->
            zero_crossings x0 rest 0 = sign_changes samples /\
            0 <= sign_changes samples <= n - 1).
  { intros x0 rest ->.
    rewrite zero_crossings_spec by (subst n; rewrite length_cons in *; lia).
    split; [lia|].
    destruct (sign_changes_bounds (x0 :: rest)) as [Hb|?]; [exact Hb | discriminate]. }
  split.
  - intros Hdeg.
    destruct (Z.ltb_spec n 4); [reflexivity|].
    destruct (Z.eqb_spec sample_rate 0); [reflexivity|]. simpl orb. cbv iota.
    destruct samples as [|x0 rest]; [reflexivity|].
    destruct (Hcross x0 rest eq_refl) as [-> _].
    destruct (Z.ltb_spec (sign_changes (x0 :: rest)) 2); [reflexivity | lia].
  - intros Hn4 Hsr1 Hsc.
    destruct (Z.ltb_spec n 4); [lia|].
    destruct (Z.eqb_spec sample_rate 0); [lia|]. simpl orb. cbv iota.
    destruct samples as [|x0 rest]; [simpl in n; lia|].
    destruct (Hcross x0 rest eq_refl) as [-> Hb].
    destruct (Z.ltb_spec (sign_changes (x0 :: rest)) 2); [lia|].
    split; [reflexivity|].
    unfold is_uint32 in Hsr.
    destruct (f32_of_u32_finite (sign_changes (x0 :: rest)) ltac:(lia))
      as (mc & ec & -> & Hmc & Hec).
    destruct (f32_of_u32_finite n ltac:(lia)) as (mn & en & -> & Hmn & Hen).
    destruct (f32_of_u32_finite sample_rate ltac:(lia)) as (ms & es & -> & Hms & Hes).
    unfold F32_two.
    destruct (f32_div_normal mc ec 8388608 (-22) Hmc ltac:(simpl; lia) ltac:(lia))
      as (mh & eh & -> & Hmh & Heh).
    destruct (f32_div_normal mn en ms es Hmn Hms ltac:(lia))
      as (md & ed & -> & Hmd & Hed).
    destruct (f32_div_normal mh eh md ed Hmh Hmd ltac:(lia))
      as (m & e & -> & Hm & He).
    eauto.
Qed.

Lemma audio_spectral_centroid_spec_witness :
  exists m e,
    audio_spectral_centroid [F32_one; F32_m100; F32_one; F32_m100] 8000
      = S754_finite false m e /\ 2 ^ 23 <= Z.pos m < 2 ^ 24.
Proof.
  destruct (audio_spectral_centroid_spec [F32_one; F32_m100; F32_one; F32_m100] 8000)
    as [_ H].
  - unfold UINT32_MAX. simpl. lia.
  - unfold is_uint32, UINT32_MAX. lia.
  - destruct H as [_ H]; [simpl; lia | lia | vm_compute; discriminate | exact H].
Defined.

(* ===================================================================== *)
(** * Phoneme timing *)
(* ===================================================================== *)

Lemma phoneme_loop_spec per_char (k : nat) : forall (i : nat) starts ends,
  length starts = i -> length ends = i ->
  Z.of_nat (i + k) <= UINT32_MAX ->
  phoneme_loop k per_char (Z.of_nat i) starts ends
  = (starts ++ map (fun j : nat => f32_mul per_char (f32_of_u32 (Z.of_nat j))) (seq i k),
     ends ++ map (fun j : nat => f32_mul per_char (f32_of_u32 (Z.of_nat (S j)))) (seq i k)).
Proof.
  induction k as [|k IH]; intros i starts ends Hs He Hfit.
  - simpl. by rewrite !app_nil_r.
  - simpl phoneme_loop.
    rewrite wrap32_small by u32.
    replace (Z.of_nat i + 1) with (Z.of_nat (S i)) by lia.
    assert (Hps : forall v, poke starts (Z.of_nat i) v = starts ++ [v])
      by (intros; rewrite <- Hs; apply poke_end).
    assert (Hpe : forall v, poke ends (Z.of_nat i) v = ends ++ [v])
      by (intros; rewrite <- He; apply poke_end).
    rewrite Hps, Hpe.
    rewrite IH; [| rewrite length_app; simpl; lia | rewrite length_app; simpl; lia | lia].
    simpl seq. simpl map. by rewrite <- !app_assoc.
Qed.

(** X10. [estimate_phoneme_timing] writes no entry when [char_count] is 0
    or [duration_ms <= 0].  Otherwise ([char_count] a [uint32_t]) it writes
    exactly [char_count] start times and [char_count] end times, entry [i]
    being [per_char * i] and [per_char * (i + 1)] with
    [per_char = duration_ms / char_count] in binary32; the intervals are
    contiguous: the end of each entry is, bit for bit, the start of the
    next. *)
Theorem estimate_phoneme_timing_spec (char_count : Z) (duration_ms : float32) :
  let per_char := f32_div duration_ms (f32_of_u32 char_count) in
  is_uint32 char_count ->
  (char_count = 0 \/ f_le duration_ms F32_zero = true ->
   estimate_phoneme_timing char_count duration_ms = ([], [], 0)) /\
  (1 <= char_count -> f_le duration_ms F32_zero = false ->
   exists starts ends,
     estimate_phoneme_timing char_count duration_ms = (starts, ends, char_count) /\
     Z.of_nat (length starts) = char_count /\
     Z.of_nat (length ends) = char_count /\
     (forall i : nat, Z.of_nat i < char_count ->
        starts !! i = Some (f32_mul per_char (f32_of_u32 (Z.of_nat i))) /\
        ends !! i = Some (f32_mul per_char (f32_of_u32 (Z.of_nat i + 1)))) /\
     (forall i : nat, Z.of_nat i + 1 < char_count -> ends !! i = starts !! S i)).
Proof.
  intros per_char Hc. unfold estimate_phoneme_timing.
  split.
  - intros [-> | ->]; [reflexivity|]. by rewrite orb_true_r.
  - intros Hc1 Hle. rewrite Hle.
    destruct (Z.eqb_spec char_count 0) as [|_]; [lia|]. simpl orb. cbv iota.
    unfold is_uint32 in Hc. fold per_char.
    pose proof (phoneme_loop_spec per_char (Z.to_nat char_count) 0 [] []
                  eq_refl eq_refl ltac:(lia)) as Hloop.
    change (Z.of_nat 0) with 0 in Hloop. rewrite Hloop. simpl app.
    set (starts := map _ _). set (ends := map _ _).
    assert (Hlook : forall i : nat, Z.of_nat i < char_count ->
              starts !! i = Some (f32_mul per_char (f32_of_u32 (Z.of_nat i))) /\
              ends !! i = Some (f32_mul per_char (f32_of_u32 (Z.of_nat i + 1)))).
    { intros i Hi. subst starts ends.
      rewrite !list_lookup_fmap, lookup_seq_lt by lia.
      cbn [fmap option_fmap option_map Nat.add].
      replace (Z.of_nat i + 1) with (Z.of_nat (S i)) by lia.
      split; reflexivity. }
    exists starts, ends. split; [reflexivity|].
    split_and!.
    + subst starts. rewrite length_map, length_seq. lia.
    + subst ends. rewrite length_map, length_seq. lia.
    + exact Hlook.
    + intros i Hi.
      destruct (Hlook i ltac:(lia)) as [_ ->].
      destruct (Hlook (S i) ltac:(lia)) as [-> _].
      replace (Z.of_nat i + 1) with (Z.of_nat (S i)) by lia. reflexivity.
Qed.

Lemma estimate_phoneme_timing_spec_witness :
  exists starts ends,
    estimate_phoneme_timing 3 F32_20 = (starts, ends, 3) /\
    Z.of_nat (length starts) = 3 /\
    ends !! 0%nat = starts !! 1%nat /\ ends !! 1%nat = starts !! 2%nat.
Proof.
  destruct (estimate_phoneme_timing_spec 3 F32_20) as [_ H].
  - unfold is_uint32, UINT32_MAX. lia.
  - destruct H as (starts & ends & Hrun & Hls & _ & _ & Hcont); [lia | reflexivity |].
    exists starts, ends. split_and!; [exact Hrun | exact Hls | |]; apply Hcont; lia.
Defined.

(* ===================================================================== *)
(** * Image sharpness *)
(* ===================================================================== *)

Lemma load_u8_ok (p : list Z) (i : Z) v :
  0 <= i -> p !! Z.to_nat i = Some v -> load_u8 p i = Ok v.
Proof.
  intros Hi H. unfold load_u8.
  destruct (Z.leb_spec 0 i); [|lia]. by rewrite H.
Qed.

Section Sharpness.

Variables (gray : list Z) (width height : Z).
Hypothesis Hlen : Z.of_nat (length gray) = width * height.
Hypothesis Hfit : width * height <= UINT32_MAX.

Lemma pixel_defined x y :
  0 <= x < width -> 0 <= y < height ->
  exists v, pixel gray width x y = Some v /\
            load_u8 gray (y * width + x) = Ok v.
Proof using Hlen.
  intros Hx Hy.
  assert (Hidx : 0 <= y * width + x < width * height) by nia.
  destruct (lookup_lt_is_Some_2 gray (Z.to_nat (y * width + x)) ltac:(lia)) as [v Hv].
  exists v. split; [exact Hv|]. apply load_u8_ok; [lia | exact Hv].
Qed.

(** The five reads of an interior pixel are inside the image. *)
Lemma laplacian_ok x y :
  1 <= x < width - 1 -> 1 <= y < height - 1 ->
  exists c u d l r,
    pixel gray width x y = Some c /\
    pixel gray width x (y - 1) = Some u /\
    pixel gray width x (y + 1) = Some d /\
    pixel gray width (x - 1) y = Some l /\
    pixel gray width (x + 1) y = Some r /\
    laplacian gray width x y = Ok (-4 * c + u + d + l + r).
Proof using Hlen Hfit.
  intros Hx Hy.
  destruct (pixel_defined x y) as (c & Hc & Lc); [lia | lia |].
  destruct (pixel_defined x (y - 1)) as (u & Hu & Lu); [lia | lia |].
  destruct (pixel_defined x (y + 1)) as (d & Hd & Ld); [lia | lia |].
  destruct (pixel_defined (x - 1) y) as (l & Hl & Ll); [lia | lia |].
  destruct (pixel_defined (x + 1) y) as (r & Hr & Lr); [lia | lia |].
  exists c, u, d, l, r. split_and!; try assumption.
  unfold laplacian.
  assert (Hw : forall x' y', 0 <= x' < width -> 0 <= y' < height ->
            wrap32 (wrap32 (y' * width) + x') = y' * width + x').
  { intros x' y' Hx' Hy'.
    assert (0 <= y' * width /\ y' * width + x' < width * height) by nia.
    rewrite (wrap32_small (y' * width)) by u32.
    apply wrap32_small. u32. }
  rewrite (wrap32_small (y - 1)), (wrap32_small (y + 1)),
    (wrap32_small (x - 1)), (wrap32_small (x + 1)) by (unfold is_uint32, UINT32_MAX in *; nia).
  rewrite !Hw by lia.
  rewrite Lc, bind_Ok, Lu, bind_Ok, Ld, bind_Ok, Ll, bind_Ok, Lr, bind_Ok.
  reflexivity.
Qed.

Lemma laplacian_affine x y :
  affine_image gray width height ->
  1 <= x < width - 1 -> 1 <= y < height - 1 ->
  laplacian gray width x y = Ok 0.
Proof using Hlen Hfit.
  intros (a & b & c & Haff) Hx Hy.
  destruct (laplacian_ok x y Hx Hy) as (pc & pu & pd & pl & pr & Hc & Hu & Hd & Hl & Hr & ->).
  rewrite Haff in Hc, Hu, Hd, Hl, Hr by lia.
  injection Hc as <-. injection Hu as <-. injection Hd as <-.
  injection Hl as <-. injection Hr as <-.
  f_equal. lia.
Qed.

Lemma sharpness_row_spec y (k : nat) : forall x sum sum_sq count,
  1 <= y < height - 1 ->
  1 <= x -> x + Z.of_nat k <= width - 1 ->
  0 <= count -> count + Z.of_nat k <= UINT32_MAX ->
  exists sum' sum_sq',
    sharpness_row k gray width y x (sum, sum_sq, count)
      = Ok (sum', sum_sq', count + Z.of_nat k) /\
    (affine_image gray width height -> sum = F64_zero -> sum_sq = F64_zero ->
     sum' = F64_zero /\ sum_sq' = F64_zero).
Proof using Hlen Hfit.
  induction k as [|k IH]; intros x sum sum_sq count Hy Hx Hxk Hc Hck.
  - exists sum, sum_sq. simpl. rewrite Z.add_0_r. by split.
  - simpl sharpness_row.
    destruct (laplacian_ok x y ltac:(lia) Hy)
      as (pc & pu & pd & pl & pr & _ & _ & _ & _ & _ & Hlap).
    rewrite Hlap, bind_Ok.
    assert (Hwx : wrap32 (x + 1) = x + 1).
    { apply wrap32_small. unfold is_uint32, UINT32_MAX in *. nia. }
    rewrite Hwx, (wrap32_small (count + 1)) by u32.
    edestruct (IH (x + 1)) as (sum' & sum_sq' & Hrun & Hzero);
      [exact Hy | lia | lia | | | ]; [| |rewrite Hrun]; try lia.
    exists sum', sum_sq'. split; [do 2 f_equal; lia|].
    intros Haff -> ->. apply Hzero; [exact Haff | |].
    + rewrite (laplacian_affine x y Haff ltac:(lia) Hy) in Hlap.
      injection Hlap as <-. reflexivity.
    + rewrite (laplacian_affine x y Haff ltac:(lia) Hy) in Hlap.
      injection Hlap as <-. reflexivity.
Qed.

Lemma sharpness_rows_spec (k : nat) : forall y sum sum_sq count,
  3 <= width ->
  1 <= y -> y + Z.of_nat k <= height - 1 ->
  0 <= count -> count + Z.of_nat k * (width - 2) <= UINT32_MAX ->
  exists sum' sum_sq',
    sharpness_rows k gray width y (sum, sum_sq, count)
      = Ok (sum', sum_sq', count + Z.of_nat k * (width - 2)) /\
    (affine_image gray width height -> sum = F64_zero -> sum_sq = F64_zero ->
     sum' = F64_zero /\ sum_sq' = F64_zero).
Proof using Hlen Hfit.
  induction k as [|k IH]; intros y sum sum_sq count Hw Hy Hyk Hc Hck.
  - exists sum, sum_sq. simpl. rewrite Z.add_0_r. by split.
  - simpl sharpness_rows.
    assert (Hh : 0 <= height) by lia.
    assert (Hww : wrap32 (width - 1) = width - 1).
    { apply wrap32_small. unfold is_uint32, UINT32_MAX in *. nia. }
    rewrite Hww.
    assert (Hstep : count + (width - 2) <= count + Z.of_nat (S k) * (width - 2)) by nia.
    destruct (sharpness_row_spec y (Z.to_nat (width - 1 - 1)) 1 sum sum_sq count)
      as (sum1 & sum_sq1 & Hrow & Hzero1); try lia.
    rewrite Hrow, bind_Ok. rewrite Z2Nat.id by lia.
    assert (Hwy : wrap32 (y + 1) = y + 1).
    { apply wrap32_small. unfold is_uint32, UINT32_MAX in *. nia. }
    rewrite Hwy.
    destruct (IH (y + 1) sum1 sum_sq1 (count + (width - 1 - 1)))
      as (sum' & sum_sq' & Hrun & Hzero); try lia.
    exists sum', sum_sq'. rewrite Hrun. split; [do 2 f_equal; lia|].
    intros Haff Hs Hq. destruct (Hzero1 Haff Hs Hq) as [Hs1 Hq1]. by apply Hzero.
Qed.

End Sharpness.

(** X11. For every image whose buffer holds [width * height] pixels (the
    product a [uint32_t]), [image_sharpness] reads only inside the buffer
    and returns a value; the value is exactly 0 for an image smaller than
    3 x 3, which has no interior pixel, and for every image without edges,
    that is, whose gray level is an affine function of the coordinates (a
    flat image, a linear gradient). *)
Theorem image_sharpness_no_edges (gray : list Z) (width height : Z) :
  is_uint32 width -> is_uint32 height ->
  width * height <= UINT32_MAX ->
  Z.of_nat (length gray) = width * height ->
  Forall is_byte gray ->
  exists v,
    image_sharpness gray width height = Ok v /\
    (width < 3 \/ height < 3 -> v = F32_zero) /\
    (affine_image gray width height -> v = F32_zero).
Proof.
  intros Hw Hh Hfit Hlen _. unfold image_sharpness.
  destruct (Z.ltb_spec width 3) as [Hw3|Hw3].
  { exists F32_zero. by split_and!. }
  destruct (Z.ltb_spec height 3) as [Hh3|Hh3].
  { exists F32_zero. by split_and!. }
  simpl orb. cbv iota.
  unfold is_uint32 in Hw, Hh.
  rewrite (wrap32_small (height - 1)) by u32.
  destruct (sharpness_rows_spec gray width height Hlen Hfit
              (Z.to_nat (height - 1 - 1)) 1 F64_zero F64_zero 0)
    as (sum & sum_sq & Hrun & Hzero); try (rewrite ?Z2Nat.id by lia; nia).
  rewrite Hrun, bind_Ok. cbv beta iota.
  rewrite Z2Nat.id by lia.
  set (count := 0 + (height - 1 - 1) * (width - 2)).
  assert (Hcount : 1 <= count <= UINT32_MAX) by (subst count; nia).
  destruct (Z.eqb_spec count 0); [lia|].
  eexists. split; [reflexivity|]. split; [lia|].
  intros Haff. destruct (Hzero Haff eq_refl eq_refl) as [-> ->].
  destruct (f64_of_u32_finite count Hcount) as (m & e & ->).
  reflexivity.
Qed.

Lemma image_sharpness_no_edges_witness :
  image_sharpness [10; 12; 14; 16; 13; 15; 17; 19; 16; 18; 20; 22] 4 3 = Ok F32_zero.
Proof.
  destruct (image_sharpness_no_edges
              [10; 12; 14; 16; 13; 15; 17; 19; 16; 18; 20; 22] 4 3)
    as (v & Hrun & _ & Haff).
  - unfold is_uint32, UINT32_MAX. lia.
  - unfold is_uint32, UINT32_MAX. lia.
  - unfold UINT32_MAX. lia.
  - reflexivity.
  - repeat constructor; unfold is_byte; lia.
  - rewrite Hrun. f_equal. apply Haff.
    exists 10, 2, 3. intros x y Hx Hy.
    assert (Hxs : x = 0 \/ x = 1 \/ x = 2 \/ x = 3) by lia.
    assert (Hys : y = 0 \/ y = 1 \/ y = 2) by lia.
    destruct Hxs as [-> | [-> | [-> | ->]]], Hys as [-> | [-> | ->]]; reflexivity.
Defined.

(* ===================================================================== *)
(** * Grayscale conversion *)
(* ===================================================================== *)

Lemma rounded_nonneg_rounded prec x : rounded prec false x -> nonneg_rounded prec x.
Proof. destruct x; simpl; tauto. Qed.

Lemma f32_of_int_nonneg n : 0 <= n -> nonneg_rounded 24 (f32_of_int n).
Proof.
  intros Hn. apply rounded_nonneg_rounded.
  replace false with (n <? 0) by (apply Z.ltb_ge; lia).
  apply binary_normalize_rounded. lia.
Qed.

Lemma SFmul_const_nonneg prec emax m e y :
  1 <= prec -> nonneg_rounded prec y ->
  nonneg_rounded prec (SFmul prec emax (S754_finite false m e) y).
Proof.
  intros Hprec Hy. destruct y as [s|s| |s my ey]; simpl in *; try done.
  destruct Hy as [-> _]. apply rounded_nonneg_rounded.
  apply binary_round_aux_rounded; lia.
Qed.

Lemma SFadd_nonneg_rounded prec emax x y :
  1 <= prec -> nonneg_rounded prec x -> nonneg_rounded prec y ->
  nonneg_rounded prec (SFadd prec emax x y).
Proof.
  intros Hprec Hx Hy.
  destruct x as [[|]|sx| |sx mx ex], y as [[|]|sy| |sy my ey];
    simpl in *; try done; try (by subst).
  destruct Hx as [-> _], Hy as [-> _]. apply rounded_nonneg_rounded.
  apply (binary_normalize_rounded prec emax
           (Z.pos (fst (shl_align mx ex (Z.min ex ey)))
            + Z.pos (fst (shl_align my ey (Z.min ex ey))))). lia.
Qed.

Lemma luminosity_nonneg r g b :
  0 <= r -> 0 <= g -> 0 <= b -> nonneg_rounded 24 (luminosity r g b).
Proof.
  intros Hr Hg Hb. unfold luminosity, f32_add, f32_mul, F32_0299, F32_0587, F32_0114.
  repeat first [ apply SFadd_nonneg_rounded | apply SFmul_const_nonneg
               | apply f32_of_int_nonneg | lia ].
Qed.

(** The clamp to [0, 255] makes the conversion to [uint8_t] defined. *)
Lemma u8_of_clamped x :
  nonneg_rounded 24 x ->
  exists v, u8_of_f32 (f32_min F32_255 (f32_max F32_zero x)) = Ok v /\ 0 <= v <= 255.
Proof.
  intros Hx. destruct x as [s|s| |s m e]; simpl in Hx; try done.
  - exists 0. split; [reflexivity | lia].
  - subst s. exists 255. split; [reflexivity | lia].
  - destruct Hx as [-> Hm].
    change (f32_max F32_zero (S754_finite false m e)) with (S754_finite false m e).
    unfold f32_min, f_lt, SFltb, SFcompare, F32_255.
    assert (H255 : exists v, u8_of_f32 (S754_finite false 16711680 (-16)) = Ok v
                             /\ 0 <= v <= 255)
      by (exists 255; split; [reflexivity | lia]).
    assert (Hsmall : e < -16 \/ (e = -16 /\ Z.pos m < 16711680) ->
              exists v, u8_of_f32 (S754_finite false m e) = Ok v /\ 0 <= v <= 255).
    { intros Hlt. unfold u8_of_f32.
      destruct (Z.leb_spec 0 e); [lia|].
      set (t := Z.pos m / 2 ^ (- e)).
      assert (Ht : 0 <= t <= 254).
      { subst t. split; [apply Z.div_pos; [lia | apply Z.pow_pos_nonneg; lia]|].
        assert (Hp : 2 ^ 16 <= 2 ^ (- e)) by (apply Z.pow_le_mono_r; lia).
        apply Z.lt_succ_r. apply Z.div_lt_upper_bound; [lia|].
        destruct Hlt as [Hlt|[-> Hlt]].
        - assert (Hp2 : 2 ^ 17 <= 2 ^ (- e)) by (apply Z.pow_le_mono_r; lia).
          change (2 ^ 24) with 16777216 in Hm. change (2 ^ 17) with 131072 in Hp2. lia.
        - change (2 ^ (- -16)) with 65536. lia. }
      destruct (Z.eqb_spec t 0) as [|Hne]; [exists 0; split; [reflexivity | lia]|].
      destruct (Z.leb_spec t 255); [|lia].
      exists t. split; [reflexivity | lia]. }
    destruct (Z.compare_spec e (-16)) as [He|He|He].
    + destruct (PosDef.Pos.compare_cont Eq m 16711680) eqn:Hc; try exact H255.
      apply Hsmall. right. split; [exact He|].
      apply (Pos.compare_lt_iff m 16711680). exact Hc.
    + apply Hsmall. by left.
    + exact H255.
Qed.

Lemma gray_of_rgb_defined r g b :
  0 <= r -> 0 <= g -> 0 <= b ->
  exists v, gray_of_rgb r g b = Ok v /\ 0 <= v <= 255.
Proof.
  intros Hr Hg Hb. apply u8_of_clamped. by apply luminosity_nonneg.
Qed.

(** The 256 gray levels, one by one. *)
Lemma gray_levels_checked :
  forallb (fun v => match gray_of_rgb v v v with
                    | Ok o => (v - 1 <=? o) && (o <=? v)
                    | _ => false
                    end)
          (map Z.of_nat (seq 0 256)) = true.
Proof. vm_compute. reflexivity. Qed.

Lemma gray_of_gray v o :
  0 <= v <= 255 -> gray_of_rgb v v v = Ok o -> v - 1 <= o <= v.
Proof.
  intros Hv Ho.
  pose proof gray_levels_checked as H. rewrite forallb_forall in H.
  specialize (H v). rewrite Ho in H.
  assert (Hin : In v (map Z.of_nat (seq 0 256))).
  { apply in_map_iff. exists (Z.to_nat v). split; [lia|].
    apply in_seq. lia. }
  apply H in Hin. apply andb_true_iff in Hin as [H1 H2].
  apply Z.leb_le in H1, H2. lia.
Qed.

Lemma rgb_to_gray_loop_spec rgb (k : nat) : forall (i : nat) gray,
  length gray = i ->
  Z.of_nat (length rgb) <= UINT32_MAX ->
  3 * Z.of_nat (i + k) <= Z.of_nat (length rgb) ->
  Forall is_byte rgb ->
  exists out,
    rgb_to_gray_loop k rgb (Z.of_nat i) gray = Ok (gray ++ out) /\
    length out = k /\
    forall j : nat, (j < k)%nat ->
      exists r g b v,
        rgb !! (3 * (i + j))%nat = Some r /\
        rgb !! (3 * (i + j) + 1)%nat = Some g /\
        rgb !! (3 * (i + j) + 2)%nat = Some b /\
        out !! j = Some v /\ gray_of_rgb r g b = Ok v.
Proof.
  induction k as [|k IH]; intros i gray Hlen Hmax Hfit Hbytes.
  - exists []. simpl. rewrite app_nil_r. split_and!; try done. intros; lia.
  - simpl rgb_to_gray_loop.
    rewrite (wrap32_small (Z.of_nat i * 3)) by u32.
    rewrite (wrap32_small (Z.of_nat i * 3 + 1)), (wrap32_small (Z.of_nat i * 3 + 2))
      by u32.
    rewrite (wrap32_small (Z.of_nat i + 1)) by u32.
    destruct (lookup_lt_is_Some_2 rgb (3 * i) ltac:(lia)) as [r Hr].
    destruct (lookup_lt_is_Some_2 rgb (3 * i + 1) ltac:(lia)) as [g Hg].
    destruct (lookup_lt_is_Some_2 rgb (3 * i + 2) ltac:(lia)) as [b Hb].
    rewrite (load_u8_ok rgb (Z.of_nat i * 3) r), bind_Ok
      by (try lia; by replace (Z.to_nat (Z.of_nat i * 3)) with (3 * i)%nat by lia).
    rewrite (load_u8_ok rgb (Z.of_nat i * 3 + 1) g), bind_Ok
      by (try lia; by replace (Z.to_nat (Z.of_nat i * 3 + 1)) with (3 * i + 1)%nat by lia).
    rewrite (load_u8_ok rgb (Z.of_nat i * 3 + 2) b), bind_Ok
      by (try lia; by replace (Z.to_nat (Z.of_nat i * 3 + 2)) with (3 * i + 2)%nat by lia).
    assert (Hbyte : forall (j : nat) x, rgb !! j = Some x -> 0 <= x).
    { intros j x Hj. rewrite Forall_lookup in Hbytes.
      specialize (Hbytes j x Hj). unfold is_byte in Hbytes. lia. }
    destruct (gray_of_rgb_defined r g b) as (v & Hv & _); eauto.
    rewrite Hv, bind_Ok.
    assert (Hp : poke gray (Z.of_nat i) v = gray ++ [v])
      by (rewrite <- Hlen; apply poke_end).
    rewrite Hp.
    replace (Z.of_nat i + 1) with (Z.of_nat (S i)) by lia.
    destruct (IH (S i) (gray ++ [v])) as (out & Hrun & Hout & Hall);
      [rewrite length_app; simpl; lia | exact Hmax | lia | exact Hbytes |].
    exists (v :: out). rewrite Hrun, <- app_assoc. simpl.
    split_and!; [reflexivity | lia |].
    intros [|j] Hj.
    + rewrite Nat.add_0_r. exists r, g, b, v. by split_and!.
    + destruct (Hall j ltac:(lia)) as (r' & g' & b' & v' & H1 & H2 & H3 & H4 & H5).
      replace (S i + j)%nat with (i + S j)%nat in * by lia.
      exists r', g', b', v'. by split_and!.
Qed.

(** X12. For every RGB image whose buffer holds [3 * width * height]
    bytes (that number a [uint32_t]), [image_rgb_to_gray] reads only inside
    the buffer, never converts a [float] outside the range of [uint8_t],
    and writes exactly [width * height] gray levels; pixel [i] is the
    truncated, clamped binary32 sum
    [0.299f * R + 0.587f * G + 0.114f * B] of the three bytes of pixel [i],
    and a pixel that is already gray ([R = G = B = v]) comes out as [v] or
    as [v - 1], never brighter. *)
Theorem image_rgb_to_gray_spec (rgb : list Z) (width height : Z) :
  0 <= width -> 0 <= height ->
  3 * (width * height) <= UINT32_MAX ->
  Z.of_nat (length rgb) = 3 * (width * height) ->
  Forall is_byte rgb ->
  exists gray,
    image_rgb_to_gray rgb width height = Ok gray /\
    Z.of_nat (length gray) = width * height /\
    forall i : nat, Z.of_nat i < width * height ->
      exists r g b v,
        rgb !! (3 * i)%nat = Some r /\
        rgb !! (3 * i + 1)%nat = Some g /\
        rgb !! (3 * i + 2)%nat = Some b /\
        gray !! i = Some v /\ gray_of_rgb r g b = Ok v /\
        0 <= v <= 255 /\
        (r = g -> g = b -> r - 1 <= v <= r).
Proof.
  intros Hw Hh Hfit Hlen Hbytes. unfold image_rgb_to_gray.
  assert (Htot : 0 <= width * height) by nia.
  rewrite (wrap32_small (width * height)) by u32.
  destruct (rgb_to_gray_loop_spec rgb (Z.to_nat (width * height)) 0 [])
    as (gray & Hrun & Hout & Hall); [reflexivity | lia | lia | exact Hbytes |].
  exists gray. change (Z.of_nat 0) with 0 in Hrun. rewrite Hrun.
  split; [reflexivity|]. split; [lia|].
  intros i Hi.
  destruct (Hall i ltac:(lia)) as (r & g & b & v & Hr & Hg & Hb & Hv & Hgray).
  rewrite Nat.add_0_l in *.
  assert (Hbyte : forall (j : nat) x, rgb !! j = Some x -> 0 <= x <= 255).
  { intros j x Hj. rewrite Forall_lookup in Hbytes. exact (Hbytes j x Hj). }
  pose proof (Hbyte _ _ Hr) as Br. pose proof (Hbyte _ _ Hg) as Bg.
  pose proof (Hbyte _ _ Hb) as Bb.
  destruct (gray_of_rgb_defined r g b) as (v' & Hv' & Hrange); [lia | lia | lia |].
  assert (v' = v) by congruence. subst v'.
  exists r, g, b, v.
  split; [exact Hr|]. split; [exact Hg|]. split; [exact Hb|]. split; [exact Hv|].
  split; [exact Hgray|]. split; [exact Hrange|].
  intros <- <-. by apply (gray_of_gray r v).
Qed.

Lemma image_rgb_to_gray_spec_witness :
  exists gray,
    image_rgb_to_gray [37; 37; 37; 255; 255; 255; 0; 0; 0; 255; 0; 0] 2 2 = Ok gray /\
    Z.of_nat (length gray) = 2 * 2 /\
    gray !! 0%nat = Some 36 /\ gray !! 1%nat = Some 255 /\
    gray !! 2%nat = Some 0 /\ gray !! 3%nat = Some 76.
Proof.
  destruct (image_rgb_to_gray_spec
              [37; 37; 37; 255; 255; 255; 0; 0; 0; 255; 0; 0] 2 2)
    as (gray & Hrun & Hlen & Hall).
  - lia.
  - lia.
  - unfold UINT32_MAX. lia.
  - reflexivity.
  - repeat constructor; unfold is_byte; lia.
  - exists gray. split; [exact Hrun|]. split; [exact Hlen|].
    assert (Hpix : forall (i : nat) r g b v, Z.of_nat i < 2 * 2 ->
              [37; 37; 37; 255; 255; 255; 0; 0; 0; 255; 0; 0] !! (3 * i)%nat = Some r ->
              [37; 37; 37; 255; 255; 255; 0; 0; 0; 255; 0; 0] !! (3 * i + 1)%nat = Some g ->
              [37; 37; 37; 255; 255; 255; 0; 0; 0; 255; 0; 0] !! (3 * i + 2)%nat = Some b ->
              gray_of_rgb r g b = Ok v -> gray !! i = Some v).
    { intros i r g b v Hi Hr Hg Hb Hv.
      destruct (Hall i Hi) as (r' & g' & b' & v' & Hr' & Hg' & Hb' & Hv' & Hgray & _).
      congruence. }
    split_and!.
    + apply (Hpix 0%nat 37 37 37); reflexivity.
    + apply (Hpix 1%nat 255 255 255); reflexivity.
    + apply (Hpix 2%nat 0 0 0); reflexivity.
    + apply (Hpix 3%nat 255 0 0); reflexivity.
Defined.

(* ===================================================================== *)
(** * Bilinear resize *)
(* ===================================================================== *)

(** ** The relative error of a binary32 rounding, upward *)

(** Rounding a mantissa [q] of at least 24 bits to binary32 gives a normal
    number that exceeds [q * 2^e] by at most one part in [2^23 - 1]. *)
Lemma binary_round_aux32_rel q e l :
  2 ^ 23 <= q ->
  -149 <= e + (Zdigits2 q - 24) <= 102 ->
  exists m' e',
    binary_round_aux 24 128 false q e l = S754_finite false m' e' /\
    2 ^ 23 <= Z.pos m' < 2 ^ 24 /\
    e + (Zdigits2 q - 24) <= e' <= e + (Zdigits2 q - 24) + 1 /\
    Z.pos m' * 2 ^ (e' - e) * (2 ^ 23 - 1) <= q * 2 ^ 23.
Proof.
  intros Hq He.
  destruct (Zdigits2_bounds q ltac:(lia)) as [[Hlo Hhi] Hd1].
  set (d := Zdigits2 q) in *.
  assert (Hd : 24 <= d).
  { destruct (Z.le_gt_cases 24 d) as [H|H]; [exact H|]. exfalso.
    assert (2 ^ d <= 2 ^ 23) by (apply Z.pow_le_mono_r; lia). lia. }
  set (k := d - 24) in *.
  assert (Hpk : 0 < 2 ^ k) by (apply Z.pow_pos_nonneg; lia).
  assert (Hp1 : 2 ^ (d - 1) = 2 ^ 23 * 2 ^ k).
  { rewrite <- Z.pow_add_r by lia. f_equal. lia. }
  assert (Hp2 : 2 ^ d = 2 ^ 24 * 2 ^ k).
  { rewrite <- Z.pow_add_r by lia. f_equal. lia. }
  assert (Hq' : 2 ^ 23 <= q / 2 ^ k < 2 ^ 24).
  { split; [apply Z.div_le_lower_bound; lia | apply Z.div_lt_upper_bound; lia]. }
  pose proof (Z.mul_div_le q (2 ^ k) Hpk) as Hfloor.
  (* the first shift and the rounding *)
  assert (Hfirst : exists mrs,
            shr_fexp 24 128 q e l = (mrs, e + k) /\ shr_m mrs = q / 2 ^ k).
  { unfold shr_fexp. fold d. rewrite fexp32.
    replace (Z.max (d + e - 24) (-149) - e) with k by lia.
    unfold shr. destruct k as [|kp|kp] eqn:Ek; try lia.
    - eexists. split; [f_equal; lia|].
      rewrite shr_record_of_loc_m, Z.pow_0_r, Z.div_1_r. reflexivity.
    - eexists. split; [reflexivity|].
      rewrite shr_m_iter by (rewrite shr_record_of_loc_m; lia).
      by rewrite shr_record_of_loc_m. }
  destruct Hfirst as (mrs & Hshr & Hm).
  unfold binary_round_aux. rewrite Hshr.
  pose proof (round_nearest_even_range (shr_m mrs) (loc_of_shr_record mrs)) as HM.
  set (M := round_nearest_even (shr_m mrs) (loc_of_shr_record mrs)) in *.
  rewrite Hm in HM.
  rewrite normalize32 by lia.
  destruct (normal32_cases false M (e + k)) as (m' & e' & -> & Hm' & Hc); [lia|].
  exists m', e'. split; [reflexivity|]. split; [exact Hm'|].
  destruct Hc as [(HMlt & HmM & ->)|(HMeq & HmM & ->)].
  - split; [lia|]. replace (e + k - e) with k by lia. rewrite HmM. nia.
  - split; [lia|]. replace (e + k + 1 - e) with (k + 1) by lia.
    rewrite HmM, Z.pow_add_r by lia. change (2 ^ 1) with 2.
    change (2 ^ 24) with (2 ^ 23 * 2) in HMeq. nia.
Qed.

(** The binary32 quotient of two normal positive numbers exceeds the
    quotient of their values by at most one part in [2^23 - 1]. *)
Lemma f32_div_rel m1 e1 m2 e2 :
  2 ^ 23 <= Z.pos m1 < 2 ^ 24 -> 2 ^ 23 <= Z.pos m2 < 2 ^ 24 ->
  -125 <= e1 - e2 <= 125 ->
  exists m e,
    f32_div (S754_finite false m1 e1) (S754_finite false m2 e2)
      = S754_finite false m e /\
    2 ^ 23 <= Z.pos m < 2 ^ 24 /\
    0 <= e - (e1 - e2 - 24) <= 2 /\
    Z.pos m * 2 ^ (e - (e1 - e2 - 24)) * Z.pos m2 * (2 ^ 23 - 1)
      <= Z.pos m1 * 2 ^ 47.
Proof.
  intros Hm1 Hm2 He.
  unfold f32_div, SFdiv, SFdiv_core_binary, Zdigits2.
  rewrite (digits2_pos_unique m1 24), (digits2_pos_unique m2 24) by lia.
  rewrite fexp32.
  replace (Z.min (Z.max (24 + e1 - (24 + e2) - 24) (-149)) (e1 - e2))
    with (e1 - e2 - 24) by lia.
  replace (e1 - e2 - (e1 - e2 - 24)) with 24 by lia.
  cbv iota. rewrite Z.shiftl_mul_pow2 by lia.
  destruct (Z.div_eucl (Z.pos m1 * 2 ^ 24) (Z.pos m2)) as [q r] eqn:Ediv.
  assert (Hq : q = Z.pos m1 * 2 ^ 24 / Z.pos m2)
    by (unfold Z.div; rewrite Ediv; reflexivity).
  assert (Hqlo : 2 ^ 23 <= q).
  { rewrite Hq. apply Z.div_le_lower_bound; simpl in *; lia. }
  assert (Hqhi : q < 2 ^ 25).
  { rewrite Hq. apply Z.div_lt_upper_bound; simpl in *; lia. }
  assert (Hqm : q * Z.pos m2 <= Z.pos m1 * 2 ^ 24).
  { rewrite Hq, Z.mul_comm. apply Z.mul_div_le. lia. }
  assert (Hdq : 24 <= Zdigits2 q <= 25).
  { destruct (Zdigits2_bounds q ltac:(lia)) as [[Hlo Hhi] _].
    split.
    - destruct (Z.le_gt_cases 24 (Zdigits2 q)) as [H|H]; [exact H|]. exfalso.
      assert (2 ^ Zdigits2 q <= 2 ^ 23) by (apply Z.pow_le_mono_r; lia). lia.
    - destruct (Z.le_gt_cases (Zdigits2 q) 25) as [H|H]; [exact H|]. exfalso.
      assert (2 ^ 25 <= 2 ^ (Zdigits2 q - 1)) by (apply Z.pow_le_mono_r; lia). lia. }
  simpl xorb.
  destruct (binary_round_aux32_rel q (e1 - e2 - 24) (new_location (Z.pos m2) r)
              Hqlo ltac:(lia)) as (m & e & -> & Hm & Hee & Hrel).
  exists m, e. split; [reflexivity|]. split; [exact Hm|]. split; [lia|].
  set (c := Z.pos m * 2 ^ (e - (e1 - e2 - 24))) in *.
  assert (Hc : 0 <= c).
  { subst c. apply Z.mul_nonneg_nonneg; [lia|]. apply Z.pow_nonneg. lia. }
  change (2 ^ 47) with (2 ^ 24 * 2 ^ 23).
  transitivity (q * 2 ^ 23 * Z.pos m2); [nia|]. nia.
Qed.

(** The binary32 product of two normal positive numbers exceeds the
    product of their values by at most one part in [2^23 - 1]. *)
Lemma f32_mul_rel m1 e1 m2 e2 :
  2 ^ 23 <= Z.pos m1 < 2 ^ 24 -> 2 ^ 23 <= Z.pos m2 < 2 ^ 24 ->
  -172 <= e1 + e2 <= 78 ->
  exists m e,
    f32_mul (S754_finite false m1 e1) (S754_finite false m2 e2)
      = S754_finite false m e /\
    2 ^ 23 <= Z.pos m < 2 ^ 24 /\
    23 <= e - (e1 + e2) <= 25 /\
    Z.pos m * 2 ^ (e - (e1 + e2)) * (2 ^ 23 - 1)
      <= Z.pos m1 * Z.pos m2 * 2 ^ 23.
Proof.
  intros Hm1 Hm2 He. unfold f32_mul, SFmul. simpl xorb.
  rewrite Pos2Z.inj_mul.
  set (q := Z.pos m1 * Z.pos m2).
  assert (Hq : 2 ^ 46 <= q < 2 ^ 48).
  { subst q. change (2 ^ 46) with (2 ^ 23 * 2 ^ 23).
    change (2 ^ 48) with (2 ^ 24 * 2 ^ 24). nia. }
  assert (Hdq : 47 <= Zdigits2 q <= 48).
  { destruct (Zdigits2_bounds q ltac:(lia)) as [[Hlo Hhi] _].
    split.
    - destruct (Z.le_gt_cases 47 (Zdigits2 q)) as [H|H]; [exact H|]. exfalso.
      assert (2 ^ Zdigits2 q <= 2 ^ 46) by (apply Z.pow_le_mono_r; lia). lia.
    - destruct (Z.le_gt_cases (Zdigits2 q) 48) as [H|H]; [exact H|]. exfalso.
      assert (2 ^ 48 <= 2 ^ (Zdigits2 q - 1)) by (apply Z.pow_le_mono_r; lia). lia. }
  destruct (binary_round_aux32_rel q (e1 + e2) loc_Exact ltac:(lia) ltac:(lia))
    as (m & e & -> & Hm & Hee & Hrel).
  exists m, e. split; [reflexivity|]. split; [exact Hm|]. split; [lia|]. exact Hrel.
Qed.

(** [static_cast<float>] of a positive integer below [2^24] is exact. *)
Lemma f32_of_u32_exact z :
  1 <= z < 2 ^ 24 ->
  exists m e,
    f32_of_u32 z = S754_finite false m e /\
    2 ^ 23 <= Z.pos m < 2 ^ 24 /\ -23 <= e <= 0 /\ Z.pos m = z * 2 ^ (- e).
Proof.
  intros Hz. destruct z as [|p|p]; try lia.
  destruct (f32_of_u32_pos p) as (M & HM & Hex & _ & Heq).
  { unfold UINT32_MAX. simpl in Hz. lia. }
  pose proof (digits2_pos_bounds p) as [Hlo Hhi].
  set (d := Z.pos (digits2_pos p)) in *.
  assert (Hd : 1 <= d <= 24).
  { split; [subst d; lia|].
    destruct (Z.le_gt_cases d 24) as [H|H]; [exact H|]. exfalso.
    assert (2 ^ 24 <= 2 ^ (d - 1)) by (apply Z.pow_le_mono_r; lia). lia. }
  specialize (Hex ltac:(lia)).
  assert (Hp : 0 < 2 ^ (- (d - 24))) by (apply Z.pow_pos_nonneg; lia).
  assert (Hpd : 2 ^ 24 = 2 ^ d * 2 ^ (- (d - 24))).
  { rewrite <- Z.pow_add_r by lia. f_equal. lia. }
  assert (HMlt : M < 2 ^ 24) by nia.
  destruct (normal32_cases false M (d - 24) HM) as (m & e & Hn & Hm & Hc).
  destruct Hc as [(_ & HmM & ->)|(? & _ & _)]; [|lia].
  exists m, (d - 24). rewrite Heq, Hn.
  split; [reflexivity|]. split; [exact Hm|]. split; [lia|]. lia.
Qed.


(** ** The source index stays inside the image *)

(** The arithmetic behind the index bound: two roundings upward by one
    part in [2^23 - 1] do not carry [D * A / B], with [D < B], to [A + 1]
    as long as [A] is below [2^20]. *)
Lemma two_roundings_below A B D X Y :
  0 <= A < 2 ^ 20 -> 1 <= B -> 0 <= D < B -> 0 < Y -> 0 <= X ->
  X * B * ((2 ^ 23 - 1) * (2 ^ 23 - 1)) <= D * A * Y * 2 ^ 46 ->
  X < (A + 1) * Y.
Proof.
  intros HA HB HD HY HX Hrel.
  destruct (Z.lt_ge_cases X ((A + 1) * Y)) as [H|H]; [exact H | exfalso].
  change (2 ^ 20) with 1048576 in HA.
  change (2 ^ 46) with 70368744177664 in Hrel.
  change ((2 ^ 23 - 1) * (2 ^ 23 - 1)) with 70368727400449 in Hrel.
  assert (H1 : (A + 1) * Y * B * 70368727400449 <= X * B * 70368727400449).
  { apply Z.mul_le_mono_nonneg_r; [lia|].
    apply Z.mul_le_mono_nonneg_r; [lia | exact H]. }
  assert (H2 : D * A * Y * 70368744177664 <= (B - 1) * A * Y * 70368744177664).
  { apply Z.mul_le_mono_nonneg_r; [lia|].
    apply Z.mul_le_mono_nonneg_r; [lia|].
    apply Z.mul_le_mono_nonneg_r; lia. }
  assert (H3 : (A + 1) * B * 70368727400449 * Y <= (B - 1) * A * 70368744177664 * Y)
    by lia.
  apply Z.mul_le_mono_pos_r in H3; [|exact HY].
  assert (H4 : 0 <= A * B) by nia.
  assert (H5 : A * B <= 1048575 * B) by nia.
  lia.
Qed.

Lemma scaled_index A B D :
  0 <= A < 2 ^ 20 -> 1 <= B < 2 ^ 24 -> 0 <= D < B ->
  exists i,
    u32_of_f32 (f32_mul (f32_of_u32 D) (f32_div (f32_of_u32 A) (f32_of_u32 B)))
      = Ok i /\
    0 <= i <= A.
Proof.
  intros HA HB HD.
  destruct (f32_of_u32_exact B HB) as (mb & eb & Hb & Hmb & Heb & Hvb).
  destruct (Z.eq_dec A 0) as [->|HA0].
  { exists 0. split; [|lia]. rewrite Hb.
    change (f32_div (f32_of_u32 0) (S754_finite false mb eb)) with F32_zero.
    destruct (Z.eq_dec D 0) as [->|HD0]; [reflexivity|].
    destruct (f32_of_u32_exact D ltac:(lia)) as (md & ed & -> & _). reflexivity. }
  destruct (f32_of_u32_exact A) as (ma & ea & Ha & Hma & Hea & Hva).
  { change (2 ^ 20) with 1048576 in HA. change (2 ^ 24) with 16777216. lia. }
  rewrite Ha, Hb.
  destruct (f32_div_rel ma ea mb eb Hma Hmb ltac:(lia))
    as (mr & er & -> & Hmr & Her & Hrel_r).
  destruct (Z.eq_dec D 0) as [->|HD0].
  { exists 0. split; [reflexivity | lia]. }
  destruct (f32_of_u32_exact D ltac:(lia)) as (md & ed & -> & Hmd & Hed & Hvd).
  destruct (f32_mul_rel md ed mr er Hmd Hmr ltac:(lia))
    as (mp & ep & -> & Hmp & Hep & Hrel_p).
  set (j := er - (ea - eb - 24)) in *.
  set (i' := ep - (ed + er)) in *.
  set (K := 2 ^ 23 - 1) in *.
  set (Ta := 2 ^ (- ea)) in *. set (Tb := 2 ^ (- eb)) in *.
  set (Td := 2 ^ (- ed)) in *.
  assert (HTa : 0 < Ta) by (apply Z.pow_pos_nonneg; lia).
  assert (HTb : 0 < Tb) by (apply Z.pow_pos_nonneg; lia).
  assert (HTd : 0 < Td) by (apply Z.pow_pos_nonneg; lia).
  set (J := 2 ^ j) in *. set (I := 2 ^ i') in *.
  assert (HJ : 0 < J) by (apply Z.pow_pos_nonneg; lia).
  assert (HI : 0 < I) by (apply Z.pow_pos_nonneg; lia).
  assert (HK : 0 < K) by (subst K; simpl; lia).
  (* the two relations, chained *)
  assert (Hchain : Z.pos mp * I * J * Z.pos mb * (K * K)
                   <= Z.pos md * Z.pos ma * 2 ^ 70).
  { transitivity (Z.pos md * 2 ^ 23 * (Z.pos mr * J * Z.pos mb * K)).
    - replace (Z.pos mp * I * J * Z.pos mb * (K * K))
        with (Z.pos mp * I * K * (J * Z.pos mb * K)) by ring.
      replace (Z.pos md * 2 ^ 23 * (Z.pos mr * J * Z.pos mb * K))
        with (Z.pos md * Z.pos mr * 2 ^ 23 * (J * Z.pos mb * K)) by ring.
      apply Z.mul_le_mono_nonneg_r; [|exact Hrel_p].
      apply Z.mul_nonneg_nonneg; [|lia]. apply Z.mul_nonneg_nonneg; lia.
    - change (2 ^ 70) with (2 ^ 23 * 2 ^ 47).
      replace (Z.pos md * Z.pos ma * (2 ^ 23 * 2 ^ 47))
        with (Z.pos md * 2 ^ 23 * (Z.pos ma * 2 ^ 47)) by ring.
      apply Z.mul_le_mono_nonneg_l; [|exact Hrel_r].
      apply Z.mul_nonneg_nonneg; [lia|]. apply Z.pow_nonneg. lia. }
  set (X := Z.pos mp * (I * J * Tb)).
  set (Y := 2 ^ 24 * Td * Ta).
  assert (HY : 0 < Y) by (subst Y; apply Z.mul_pos_pos; [apply Z.mul_pos_pos|]; lia).
  assert (HX : 0 <= X).
  { subst X. apply Z.mul_nonneg_nonneg; [lia|].
    apply Z.mul_nonneg_nonneg; [apply Z.mul_nonneg_nonneg|]; lia. }
  assert (HXY : X < (A + 1) * Y).
  { apply (two_roundings_below A B D X Y); lia. }
  (* back to the exponent of the product *)
  set (u := i' + j - eb). set (w := 24 - ed - ea).
  assert (Hu : I * J * Tb = 2 ^ u).
  { subst I J Tb u. rewrite <- !Z.pow_add_r by lia. f_equal; lia. }
  assert (Hw : Y = 2 ^ w).
  { subst Y Td Ta w. rewrite <- !Z.pow_add_r by lia. f_equal; lia. }
  assert (Hepuw : ep = u - w) by (subst u w i' j; lia).
  assert (Ht : 0 <= (if 0 <=? ep then Z.pos mp * 2 ^ ep
                     else Z.pos mp / 2 ^ (- ep)) <= A).
  { subst X. rewrite Hu, Hw in HXY.
    destruct (Z.leb_spec 0 ep) as [Hpos|Hneg].
    - split; [apply Z.mul_nonneg_nonneg; [lia | apply Z.pow_nonneg; lia]|].
      replace u with (ep + w) in HXY by lia.
      rewrite Z.pow_add_r in HXY by (subst w; lia).
      assert (0 < 2 ^ w) by (apply Z.pow_pos_nonneg; subst w; lia).
      assert (Z.pos mp * 2 ^ ep < A + 1); [|lia].
      apply (Z.mul_lt_mono_pos_r (2 ^ w)); [lia|]. lia.
    - assert (Hpe : 0 < 2 ^ (- ep)) by (apply Z.pow_pos_nonneg; lia).
      split; [apply Z.div_pos; lia|].
      replace w with (u + - ep) in HXY by lia.
      rewrite Z.pow_add_r in HXY by (subst u; lia).
      assert (0 < 2 ^ u) by (apply Z.pow_pos_nonneg; subst u; lia).
      assert (Z.pos mp < (A + 1) * 2 ^ (- ep)).
      { apply (Z.mul_lt_mono_pos_r (2 ^ u)); [lia|]. lia. }
      assert (Z.pos mp / 2 ^ (- ep) < A + 1); [|lia].
      apply Z.div_lt_upper_bound; lia. }
  unfold u32_of_f32, u32_of_f64.
  set (t := if 0 <=? ep then Z.pos mp * 2 ^ ep else Z.pos mp / 2 ^ (- ep)) in *.
  destruct (Z.eqb_spec t 0) as [|Hne]; [exists 0; split; [reflexivity | lia]|].
  destruct (Z.leb_spec t UINT32_MAX) as [|Hbig].
  - exists t. split; [reflexivity | lia].
  - exfalso. change (2 ^ 20) with 1048576 in HA. unfold UINT32_MAX in Hbig. lia.
Qed.


(** ** The stored value is a gray level *)

Lemma SFmul_mantissa_bounded prec emax x y :
  1 <= prec -> mantissa_bounded prec (SFmul prec emax x y).
Proof.
  intros Hprec.
  destruct x as [sx|sx| |sx mx ex], y as [sy|sy| |sy my ey]; simpl; try exact I.
  eapply rounded_mantissa_bounded, binary_round_aux_rounded; lia.
Qed.

Lemma SFadd_mantissa_bounded prec emax x y :
  1 <= prec -> mantissa_bounded prec x -> mantissa_bounded prec y ->
  mantissa_bounded prec (SFadd prec emax x y).
Proof.
  intros Hprec Hx Hy.
  destruct x as [[|]|[|]| |sx mx ex], y as [[|]|[|]| |sy my ey];
    simpl in *; try exact I; try assumption.
  apply binary_normalize_mantissa_bounded. exact Hprec.
Qed.

Lemma bilinear_mantissa_bounded v00 v01 v10 v11 fx fy :
  mantissa_bounded 24 (bilinear v00 v01 v10 v11 fx fy).
Proof.
  unfold bilinear, f32_add, f32_mul.
  repeat first [ apply SFadd_mantissa_bounded | apply SFmul_mantissa_bounded | lia ].
Qed.

(** The clamp makes the conversion to [uint8_t] defined for every rounded
    value, a NaN included: [std::max(0.0f, NaN)] is [0.0f]. *)
Lemma u8_of_clamped_any x :
  mantissa_bounded 24 x ->
  exists v, u8_of_f32 (f32_min F32_255 (f32_max F32_zero x)) = Ok v /\ 0 <= v <= 255.
Proof.
  intros Hx.
  destruct x as [s|[|]| |[|] m e];
    try (exists 0; split; [reflexivity | lia]).
  - by apply u8_of_clamped.
  - by apply u8_of_clamped.
Qed.

(** ** The loops *)

Section Resize.

Variables (src : list Z) (sw sh dw : Z).
Hypothesis Hsw : 1 <= sw <= 2 ^ 20.
Hypothesis Hsh : 1 <= sh <= 2 ^ 20.
Hypothesis Hsrc : Z.of_nat (length src) = sw * sh.
Hypothesis Hfit : sw * sh <= UINT32_MAX.
Hypothesis Hdw : 0 <= dw < 2 ^ 24.

Lemma src_load x y :
  0 <= x < sw -> 0 <= y < sh ->
  exists v, load_u8 src (wrap32 (wrap32 (y * sw) + x)) = Ok v.
Proof using Hsw Hsh Hsrc Hfit.
  intros Hx Hy.
  assert (Hidx : 0 <= y * sw /\ y * sw + x < sw * sh) by nia.
  rewrite (wrap32_small (y * sw)) by u32.
  rewrite wrap32_small by u32.
  destruct (lookup_lt_is_Some_2 src (Z.to_nat (y * sw + x)) ltac:(lia)) as [v Hv].
  exists v. apply load_u8_ok; [lia | exact Hv].
Qed.

Lemma resize_row_spec y0 y1 fy dy (k : nat) : forall (dx : nat) dst,
  0 <= y0 < sh -> 0 <= y1 < sh ->
  Z.of_nat (dx + k) = dw ->
  0 <= dy -> dy * dw + dw <= UINT32_MAX ->
  Z.of_nat (length dst) = dy * dw + Z.of_nat dx ->
  exists out,
    resize_row k src sw (f32_div (f32_of_u32 (sw - 1)) (f32_of_u32 dw))
      y0 y1 fy dw dy (Z.of_nat dx) dst = Ok (dst ++ out) /\
    length out = k /\ Forall is_byte out.
Proof using Hsw Hsh Hsrc Hfit Hdw.
  induction k as [|k IH]; intros dx dst Hy0 Hy1 Hk Hdy Hrow Hlen.
  - exists []. simpl. rewrite app_nil_r. by split_and!.
  - simpl resize_row.
    destruct (scaled_index (sw - 1) dw (Z.of_nat dx)) as (x0 & Hx0 & Hx0r); try lia.
    rewrite Hx0, bind_Ok.
    assert (Hdyw : 0 <= dy * dw) by nia.
    rewrite (wrap32_small (x0 + 1)), (wrap32_small (sw - 1)) by u32.
    set (x1 := Z.min (x0 + 1) (sw - 1)).
    destruct (src_load x0 y0 ltac:(lia) Hy0) as [v00 ->]. rewrite bind_Ok.
    destruct (src_load x1 y0 ltac:(lia) Hy0) as [v01 ->]. rewrite bind_Ok.
    destruct (src_load x0 y1 ltac:(lia) Hy1) as [v10 ->]. rewrite bind_Ok.
    destruct (src_load x1 y1 ltac:(lia) Hy1) as [v11 ->]. rewrite bind_Ok.
    set (fx := f32_sub _ (f32_of_u32 x0)).
    destruct (u8_of_clamped_any (bilinear v00 v01 v10 v11 fx fy)
                (bilinear_mantissa_bounded _ _ _ _ _ _)) as (v & -> & Hv).
    rewrite bind_Ok.
    rewrite (wrap32_small (dy * dw)), (wrap32_small (dy * dw + Z.of_nat dx)),
      (wrap32_small (Z.of_nat dx + 1)) by u32.
    assert (Hp : poke dst (dy * dw + Z.of_nat dx) v = dst ++ [v])
      by (rewrite <- Hlen; apply poke_end).
    rewrite Hp.
    replace (Z.of_nat dx + 1) with (Z.of_nat (S dx)) by lia.
    destruct (IH (S dx) (dst ++ [v])) as (out & Hrun & Hout & Hbytes);
      try assumption; try lia.
    { rewrite length_app. simpl. lia. }
    exists (v :: out). rewrite Hrun, <- app_assoc. simpl.
    split_and!; [reflexivity | lia |].
    constructor; [exact Hv | exact Hbytes].
Qed.

Lemma resize_rows_spec dh (k : nat) : forall (dy : nat) dst,
  0 <= dh < 2 ^ 24 -> dw * dh <= UINT32_MAX ->
  Z.of_nat (dy + k) = dh ->
  Z.of_nat (length dst) = Z.of_nat dy * dw ->
  exists out,
    resize_rows k src sw sh
      (f32_div (f32_of_u32 (sw - 1)) (f32_of_u32 dw))
      (f32_div (f32_of_u32 (sh - 1)) (f32_of_u32 dh))
      dw (Z.of_nat dy) dst = Ok (dst ++ out) /\
    Z.of_nat (length out) = Z.of_nat k * dw /\ Forall is_byte out.
Proof using Hsw Hsh Hsrc Hfit Hdw.
  induction k as [|k IH]; intros dy dst Hdh Hout Hk Hlen.
  - exists []. simpl. rewrite app_nil_r. by split_and!.
  - simpl resize_rows.
    destruct (scaled_index (sh - 1) dh (Z.of_nat dy)) as (y0 & Hy0 & Hy0r); try lia.
    rewrite Hy0, bind_Ok.
    rewrite (wrap32_small (y0 + 1)), (wrap32_small (sh - 1)) by u32.
    set (y1 := Z.min (y0 + 1) (sh - 1)).
    set (fy := f32_sub _ (f32_of_u32 y0)).
    assert (Hrowfit : Z.of_nat dy * dw + dw <= dw * dh) by nia.
    destruct (resize_row_spec y0 y1 fy (Z.of_nat dy) (Z.to_nat dw) 0 dst)
      as (row & Hrow & Hrowlen & Hrowbytes); try lia.
    change (Z.of_nat 0) with 0 in Hrow. rewrite Hrow, bind_Ok.
    rewrite (wrap32_small (Z.of_nat dy + 1))
      by (change (2 ^ 24) with 16777216 in Hdh; u32).
    replace (Z.of_nat dy + 1) with (Z.of_nat (S dy)) by lia.
    destruct (IH (S dy) (dst ++ row)) as (out & Hrun & Houtlen & Hbytes);
      try assumption; try lia.
    { rewrite length_app. lia. }
    exists (row ++ out). rewrite Hrun, <- app_assoc.
    split_and!; [reflexivity | rewrite length_app; lia |].
    apply Forall_app. split; assumption.
Qed.

End Resize.

(** An empty source makes [sw - 1] wrap; the first destination pixel reads
    outside the source. *)
Lemma image_resize_bilinear_empty_source :
  image_resize_bilinear [] 0 0 1 1 = Undefined OutOfBounds.
Proof. vm_compute. reflexivity. Qed.

(** X13. For every source image of at least one pixel whose sides are at
    most [2^20] (its buffer holding [sw * sh] pixels, a [uint32_t]) and
    every destination size with sides below [2^24] and a [uint32_t] number
    of pixels, [image_resize_bilinear] reads only inside the source: the two
    roundings in [dx * ((sw - 1) / dw)] never carry the source column past
    [sw - 1], and likewise for rows; it never converts a [float] outside
    the range of the integer type; and it writes exactly [dw * dh] gray
    levels. *)
Theorem image_resize_bilinear_safe (src : list Z) (sw sh dw dh : Z) :
  1 <= sw <= 2 ^ 20 -> 1 <= sh <= 2 ^ 20 ->
  sw * sh <= UINT32_MAX ->
  Z.of_nat (length src) = sw * sh ->
  Forall is_byte src ->
  0 <= dw < 2 ^ 24 -> 0 <= dh < 2 ^ 24 ->
  dw * dh <= UINT32_MAX ->
  exists dst,
    image_resize_bilinear src sw sh dw dh = Ok dst /\
    Z.of_nat (length dst) = dw * dh /\
    Forall is_byte dst.
Proof.
  intros Hsw Hsh Hfit Hsrc _ Hdw Hdh Hout. unfold image_resize_bilinear.
  rewrite (wrap32_small (sw - 1)), (wrap32_small (sh - 1))
    by (change (2 ^ 20) with 1048576 in *; u32).
  destruct (resize_rows_spec src sw sh dw Hsw Hsh Hsrc Hfit Hdw dh
              (Z.to_nat dh) 0 []) as (dst & Hrun & Hlen & Hbytes);
    try assumption; try (simpl; lia).
  change (Z.of_nat 0) with 0 in Hrun. rewrite Hrun. simpl app.
  exists dst. split_and!; [reflexivity | lia | exact Hbytes].
Qed.

Lemma image_resize_bilinear_safe_witness :
  exists dst,
    image_resize_bilinear [10; 20; 30; 40] 2 2 3 3 = Ok dst /\
    Z.of_nat (length dst) = 3 * 3 /\
    Forall is_byte dst.
Proof.
  apply (image_resize_bilinear_safe [10; 20; 30; 40] 2 2 3 3);
    try (simpl; unfold UINT32_MAX; lia).
  repeat constructor; unfold is_byte; lia.
Defined.

(* ===================================================================== *)
(** * Further properties of the classifier and of the extractor *)
(* ===================================================================== *)

(** ** The zero-crossing features read the signs only *)

Lemma zero_crossings_signs rest : forall rest' prev prev' crossings,
  sign_nonneg prev = sign_nonneg prev' ->
  map sign_nonneg rest = map sign_nonneg rest' ->
  zero_crossings prev rest crossings = zero_crossings prev' rest' crossings.
Proof.
  induction rest as [|x rest IH]; intros [|x' rest'] prev prev' crossings Hp Hr;
    try discriminate; [reflexivity|].
  simpl in Hr. injection Hr as Hx Hr.
  simpl zero_crossings.
  change (f_ge x F32_zero) with (sign_nonneg x).
  change (f_ge x' F32_zero) with (sign_nonneg x').
  change (f_ge prev F32_zero) with (sign_nonneg prev).
  change (f_ge prev' F32_zero) with (sign_nonneg prev').
  rewrite Hx, Hp. by apply IH.
Qed.

(** X14. The zero-crossing rate and the spectral estimate of a frame
    depend on the signs of its samples only ([x >= 0] or not): two frames
    with the same sign at every index, whatever their amplitudes, have the
    same [audio_zero_crossing_rate] and, at every sample rate, the same
    [audio_spectral_centroid]. *)
Theorem zero_crossing_features_sign_only (samples samples' : list float32) :
  map sign_nonneg samples = map sign_nonneg samples' ->
  audio_zero_crossing_rate samples = audio_zero_crossing_rate samples' /\
  forall sample_rate,
    audio_spectral_centroid samples sample_rate
    = audio_spectral_centroid samples' sample_rate.
Proof.
  intros Hs.
  assert (Hlen : length samples = length samples').
  { rewrite <- (length_map sign_nonneg samples), Hs. apply length_map. }
  unfold audio_zero_crossing_rate, audio_spectral_centroid. rewrite Hlen.
  destruct samples as [|x0 rest], samples' as [|x0' rest']; try discriminate.
  - split; [|intros sample_rate]; reflexivity.
  - simpl in Hs. injection Hs as H0 Hr.
    rewrite (zero_crossings_signs rest rest' x0 x0' 0 H0 Hr).
    split; [|intros sample_rate]; reflexivity.
Qed.

Lemma zero_crossing_features_sign_only_witness :
  audio_zero_crossing_rate [F32_one; F32_m100; F32_zero; F32_m35]
  = audio_zero_crossing_rate [F32_20; F32_m35; F32_one; F32_m100] /\
  forall sample_rate,
    audio_spectral_centroid [F32_one; F32_m100; F32_zero; F32_m35] sample_rate
    = audio_spectral_centroid [F32_20; F32_m35; F32_one; F32_m100] sample_rate.
Proof.
  apply (zero_crossing_features_sign_only
           [F32_one; F32_m100; F32_zero; F32_m35]
           [F32_20; F32_m35; F32_one; F32_m100]).
  reflexivity.
Defined.

(** ** A run that lasts to the end of the buffer *)

(** X15. The trailing segment.  When no 32-bit operation wraps and
    [min_dur_ms >= 1], and the frames are [a] unvoiced frames followed by
    [r >= 1] voiced frames up to the end of the buffer,
    [find_voiced_segments] reports the single segment that starts at the
    first voiced frame and ends at [n], the end of the buffer (the samples
    after the last whole frame included), if the run length is within
    [ceil(min_dur_ms / frame_ms), max_dur_ms / frame_ms] and
    [max_segments >= 1]; otherwise it reports nothing.  In particular a
    buffer that is voiced throughout is the one segment [0, n). *)
Theorem find_voiced_segments_trailing_run (log10f : float32 -> float32)
    (samples : list float32) (sample_rate frame_ms : Z) (energy_thresh : float32)
    (min_dur_ms max_dur_ms max_segments : Z) (fuel : nat) (a r : nat) :
  let n := Z.of_nat (length samples) in
  let frame_size := sample_rate * frame_ms / 1000 in
  let min_frames := ceil_div min_dur_ms frame_ms in
  let max_frames := max_dur_ms / frame_ms in
  is_uint32 sample_rate -> is_uint32 frame_ms ->
  is_uint32 max_dur_ms -> is_uint32 max_segments ->
  sample_rate * frame_ms <= UINT32_MAX ->
  1 <= min_dur_ms -> min_dur_ms + frame_ms - 1 <= UINT32_MAX ->
  n / frame_size * frame_size + frame_size <= UINT32_MAX ->
  (Z.to_nat (n / frame_size) < fuel)%nat ->
  frame_flags log10f samples frame_size energy_thresh
    = replicate a false ++ replicate (S r) true ->
  find_voiced_segments log10f fuel samples sample_rate frame_ms energy_thresh
    min_dur_ms max_dur_ms max_segments
  = if (min_frames <=? Z.of_nat (S r)) && (Z.of_nat (S r) <=? max_frames)
       && (0 <? max_segments)
    then Ok ([Z.of_nat a * frame_size], [n], 1)
    else Ok ([], [], 0).
Proof.
  intros n frame_size min_frames max_frames Hsr Hfm Hmaxd Hmaxs Hmul Hmind
    Hminsum Hfit Hfuel Hflags.
  rewrite (find_voiced_segments_refines log10f samples sample_rate frame_ms
             energy_thresh min_dur_ms max_dur_ms max_segments fuel) by assumption.
  unfold spec_find_voiced_segments.
  fold n frame_size min_frames max_frames. rewrite Hflags.
  unfold spec_segments.
  rewrite spec_scan_app, spec_scan_silence, length_replicate.
  change (replicate (S r) true) with (true :: replicate r true).
  cbn [spec_scan]. rewrite spec_scan_voiced.
  unfold spec_emit. cbn [length].
  replace (1 + Z.of_nat r) with (Z.of_nat (S r)) by lia.
  change (Z.of_nat 0) with 0.
  destruct ((min_frames <=? Z.of_nat (S r)) && (Z.of_nat (S r) <=? max_frames)
            && (0 <? max_segments)); [|reflexivity].
  cbn [app map fst snd length]. do 3 f_equal; lia.
Qed.

Lemma find_voiced_segments_trailing_run_witness :
  find_voiced_segments log10f_unit 5
    [F32_zero; F32_zero; F32_one; F32_one; F32_one; F32_one; F32_one]
    1000 2 F32_m35 3 10 4
  = Ok ([2], [7], 1).
Proof.
  apply (find_voiced_segments_trailing_run log10f_unit
    [F32_zero; F32_zero; F32_one; F32_one; F32_one; F32_one; F32_one]
    1000 2 F32_m35 3 10 4 5 1 1);
  try (unfold is_uint32, UINT32_MAX; lia);
  try (vm_compute; first [reflexivity | discriminate | lia]).
Defined.


(** ** The output capacity truncates, it does not select *)

Section SegmentLimit.

Variables (frameSize n minFrames maxFrames M M' : Z).
Hypothesis HM : 0 <= M <= M'.

Lemma spec_emit_limit run e segs segs' :
  segs = take (Z.to_nat M) segs' ->
  spec_emit minFrames maxFrames M run e segs
  = take (Z.to_nat M) (spec_emit minFrames maxFrames M' run e segs').
Proof using HM.
  intros ->. unfold spec_emit.
  destruct run as [[runStart runFrames]|]; [|reflexivity].
  destruct ((minFrames <=? runFrames) && (runFrames <=? maxFrames)); simpl;
    [|reflexivity].
  rewrite length_take.
  destruct (Z.ltb_spec (Z.of_nat (length segs')) M') as [Hlt'|Hge'].
  - destruct (Z.ltb_spec (Z.of_nat (Nat.min (Z.to_nat M) (length segs'))) M)
      as [Hlt|Hge].
    + rewrite take_ge by lia.
      rewrite take_ge; [reflexivity|]. rewrite length_app. simpl. lia.
    + rewrite take_app_le by lia. reflexivity.
  - destruct (Z.ltb_spec (Z.of_nat (Nat.min (Z.to_nat M) (length segs'))) M)
      as [Hlt|Hge]; [lia | reflexivity].
Qed.

Lemma spec_scan_limit flags : forall off run segs segs',
  segs = take (Z.to_nat M) segs' ->
  fst (spec_scan frameSize minFrames maxFrames M flags off run segs)
  = fst (spec_scan frameSize minFrames maxFrames M' flags off run segs') /\
  snd (spec_scan frameSize minFrames maxFrames M flags off run segs)
  = take (Z.to_nat M)
      (snd (spec_scan frameSize minFrames maxFrames M' flags off run segs')).
Proof using HM.
  induction flags as [|[|] flags IH]; intros off run segs segs' Hs.
  - simpl. by split.
  - simpl spec_scan. by apply IH.
  - simpl spec_scan. apply IH. by apply spec_emit_limit.
Qed.

Lemma spec_segments_limit flags :
  spec_segments frameSize n minFrames maxFrames M flags
  = take (Z.to_nat M) (spec_segments frameSize n minFrames maxFrames M' flags).
Proof using HM.
  unfold spec_segments.
  destruct (spec_scan_limit flags 0 None [] []) as [H1 H2]; [by rewrite take_nil|].
  destruct (spec_scan frameSize minFrames maxFrames M flags 0 None []) as [r1 s1].
  destruct (spec_scan frameSize minFrames maxFrames M' flags 0 None []) as [r2 s2].
  simpl in H1, H2. subst r1. by apply spec_emit_limit.
Qed.

End SegmentLimit.

(** X16. A smaller output capacity truncates the result, it does not change
    it.  When no 32-bit operation wraps and [min_dur_ms >= 1], the call
    with capacity [M] reports exactly the first [M] segments of what the
    call with any larger capacity [M'] reports on the same input: the
    earliest segments are kept and the later ones dropped. *)
Theorem find_voiced_segments_capacity_truncates (log10f : float32 -> float32)
    (samples : list float32) (sample_rate frame_ms : Z) (energy_thresh : float32)
    (min_dur_ms max_dur_ms M M' : Z) (fuel : nat) :
  let n := Z.of_nat (length samples) in
  let frame_size := sample_rate * frame_ms / 1000 in
  is_uint32 sample_rate -> is_uint32 frame_ms -> is_uint32 max_dur_ms ->
  0 <= M <= M' -> M' <= UINT32_MAX ->
  sample_rate * frame_ms <= UINT32_MAX ->
  1 <= min_dur_ms -> min_dur_ms + frame_ms - 1 <= UINT32_MAX ->
  n / frame_size * frame_size + frame_size <= UINT32_MAX ->
  (Z.to_nat (n / frame_size) < fuel)%nat ->
  exists starts ends c,
    find_voiced_segments log10f fuel samples sample_rate frame_ms energy_thresh
      min_dur_ms max_dur_ms M' = Ok (starts, ends, c) /\
    find_voiced_segments log10f fuel samples sample_rate frame_ms energy_thresh
      min_dur_ms max_dur_ms M
    = Ok (take (Z.to_nat M) starts, take (Z.to_nat M) ends, Z.min M c).
Proof.
  intros n frame_size Hsr Hfm Hmaxd HM HM' Hmul Hmind Hminsum Hfit Hfuel.
  rewrite !(find_voiced_segments_refines log10f samples sample_rate frame_ms
              energy_thresh min_dur_ms max_dur_ms _ fuel)
    by (try assumption; unfold is_uint32; lia).
  unfold spec_find_voiced_segments. fold n frame_size.
  set (flags := frame_flags log10f samples frame_size energy_thresh).
  rewrite (spec_segments_limit frame_size n (ceil_div min_dur_ms frame_ms)
             (max_dur_ms / frame_ms) M M' HM flags).
  set (segs := spec_segments frame_size n (ceil_div min_dur_ms frame_ms)
                 (max_dur_ms / frame_ms) M' flags).
  exists (map fst segs), (map snd segs), (Z.of_nat (length segs)).
  split; [reflexivity|].
  rewrite <- !fmap_take, length_take. do 2 f_equal. lia.
Qed.

Lemma find_voiced_segments_capacity_truncates_witness :
  exists starts ends c,
    find_voiced_segments log10f_unit 5
      [F32_one; F32_one; F32_zero; F32_zero; F32_one; F32_one; F32_zero; F32_zero]
      1000 2 F32_m35 1 10 4 = Ok (starts, ends, c) /\
    find_voiced_segments log10f_unit 5
      [F32_one; F32_one; F32_zero; F32_zero; F32_one; F32_one; F32_zero; F32_zero]
      1000 2 F32_m35 1 10 1
    = Ok (take (Z.to_nat 1) starts, take (Z.to_nat 1) ends, Z.min 1 c).
Proof.
  apply (find_voiced_segments_capacity_truncates log10f_unit
    [F32_one; F32_one; F32_zero; F32_zero; F32_one; F32_one; F32_zero; F32_zero]
    1000 2 F32_m35 1 10 1 4 5);
  try (unfold is_uint32, UINT32_MAX; lia);
  try (vm_compute; first [discriminate | lia]).
Defined.


(** ** The adaptive threshold and its integral image *)

Lemma outcome_bind_Ok {A B} (a : A) (f : A -> outcome B) :
  Plain (Ok a) ≫= f = f a.
Proof. reflexivity. Qed.

Lemma sum_below_ext n f g :
  (forall i, 0 <= i < Z.of_nat n -> f i = g i) ->
  sum_below n f = sum_below n g.
Proof.
  induction n as [|n IH]; intros H; [reflexivity|].
  simpl. rewrite IH by (intros; apply H; lia). rewrite H by lia. reflexivity.
Qed.

Lemma sum_below_app a b f :
  sum_below (a + b) f
  = sum_below a f + sum_below b (fun i => f (Z.of_nat a + i)).
Proof.
  induction b as [|b IH].
  - rewrite Nat.add_0_r. simpl. lia.
  - rewrite Nat.add_succ_r. simpl. rewrite IH.
    replace (Z.of_nat (a + b)) with (Z.of_nat a + Z.of_nat b) by lia. lia.
Qed.

Lemma sum_below_sub n f g :
  sum_below n f - sum_below n g = sum_below n (fun i => f i - g i).
Proof. induction n as [|n IH]; simpl; lia. Qed.

Lemma sum_below_bounds n f lo hi :
  (forall i, 0 <= i < Z.of_nat n -> lo <= f i <= hi) ->
  Z.of_nat n * lo <= sum_below n f <= Z.of_nat n * hi.
Proof.
  induction n as [|n IH]; intros H; [simpl; lia|].
  simpl sum_below. specialize (IH ltac:(intros; apply H; lia)).
  specialize (H (Z.of_nat n) ltac:(lia)). lia.
Qed.

(** The part of a prefix sum between two bounds. *)
Lemma sum_below_diff a b f :
  0 <= a <= b ->
  sum_below (Z.to_nat b) f - sum_below (Z.to_nat a) f
  = sum_between a (b - 1) f.
Proof.
  intros H. unfold sum_between.
  replace (Z.to_nat b) with (Z.to_nat a + Z.to_nat (b - 1 + 1 - a))%nat by lia.
  rewrite sum_below_app, Z2Nat.id by lia. lia.
Qed.


Lemma sum_below_zero n f :
  (forall i, 0 <= i < Z.of_nat n -> f i = 0) -> sum_below n f = 0.
Proof.
  intros H.
  pose proof (sum_below_bounds n f 0 0 ltac:(intros i Hi; rewrite H; lia)). lia.
Qed.

Lemma int_op_ok r : INT_MIN <= r <= INT_MAX -> int_op r = Plain (Ok r).
Proof.
  intros H. unfold int_op.
  destruct (Z.leb_spec INT_MIN r); [|lia].
  destruct (Z.leb_spec r INT_MAX); [reflexivity | lia].
Qed.

Lemma int64_op_ok r : INT64_MIN <= r <= INT64_MAX -> int64_op r = Plain (Ok r).
Proof.
  intros H. unfold int64_op.
  destruct (Z.leb_spec INT64_MIN r); [|lia].
  destruct (Z.leb_spec r INT64_MAX); [reflexivity | lia].
Qed.

Lemma vector_get_ok (v : list Z) (i a : Z) :
  0 <= i -> v !! Z.to_nat i = Some a -> vector_get v i = Ok a.
Proof.
  intros Hi Hv. unfold vector_get.
  destruct (Z.leb_spec 0 i); [|lia]. by rewrite Hv.
Qed.

Lemma vector_set_ok (v : list Z) (i a : Z) :
  0 <= i < Z.of_nat (length v) ->
  vector_set v i a = Ok (<[Z.to_nat i := a]> v).
Proof.
  intros Hi. unfold vector_set.
  destruct (Z.leb_spec 0 i); [|lia].
  destruct (Z.ltb_spec i (Z.of_nat (length v))); [reflexivity | lia].
Qed.

Lemma int_of_u32_small n : 0 <= n <= INT_MAX -> int_of_u32 n = n.
Proof.
  intros H. unfold int_of_u32. destruct (Z.leb_spec n INT_MAX); [reflexivity | lia].
Qed.

Section ThresholdImage.

Variables (gray : list Z) (w h : Z).
Hypothesis Hw : 0 <= w.
Hypothesis Hh : 0 <= h.
Hypothesis Hfit : (w + 1) * (h + 1) <= 2 ^ 31.
Hypothesis Hlen : Z.of_nat (length gray) = w * h.
Hypothesis Hbytes : Forall is_byte gray.

Lemma gray_level_byte x y : is_byte (gray_level gray w x y).
Proof using Hbytes.
  unfold gray_level, pixel.
  destruct (gray !! Z.to_nat (y * w + x)) as [v|] eqn:Hv; simpl.
  - by eapply Forall_lookup_1.
  - unfold is_byte. lia.
Qed.

Lemma gray_load x y :
  0 <= x < w -> 0 <= y < h ->
  load_u8 gray (wrap32 (wrap32 (y * w) + x)) = Ok (gray_level gray w x y).
Proof using Hw Hh Hfit Hlen.
  intros Hx Hy. change (2 ^ 31) with 2147483648 in Hfit.
  assert (0 <= y * w /\ y * w + x < w * h) as [? ?] by nia.
  assert (w * h < 2147483648) by nia.
  rewrite (wrap32_small (y * w)), (wrap32_small (y * w + x)) by u32.
  unfold load_u8, gray_level, pixel.
  destruct (Z.leb_spec 0 (y * w + x)); [|lia].
  destruct (lookup_lt_is_Some_2 gray (Z.to_nat (y * w + x)) ltac:(lia)) as [v ->].
  reflexivity.
Qed.

Lemma row_prefix_bounds y X :
  0 <= X -> 0 <= row_prefix gray w y X <= 255 * X.
Proof using Hbytes.
  intros HX. unfold row_prefix.
  pose proof (sum_below_bounds (Z.to_nat X)
                (fun x => gray_level gray w x y) 0 255
                ltac:(intros i _; apply gray_level_byte)). lia.
Qed.

Lemma prefix_sum_bounds Y X :
  0 <= Y -> 0 <= X -> 0 <= prefix_sum gray w Y X <= 255 * X * Y.
Proof using Hbytes.
  intros HY HX. unfold prefix_sum.
  pose proof (sum_below_bounds (Z.to_nat Y)
                (fun y => row_prefix gray w y X) 0 (255 * X)
                ltac:(intros i _; by apply row_prefix_bounds)). nia.
Qed.

Lemma prefix_sum_small Y X :
  0 <= Y <= h -> 0 <= X <= w ->
  0 <= prefix_sum gray w Y X <= 255 * 2 ^ 31.
Proof using Hw Hh Hbytes Hfit.
  intros HY HX. pose proof (prefix_sum_bounds Y X ltac:(lia) ltac:(lia)).
  assert (X * Y <= (w + 1) * (h + 1)) by nia. lia.
Qed.

Lemma row_prefix_succ y X :
  0 <= X ->
  row_prefix gray w y (X + 1) = row_prefix gray w y X + gray_level gray w X y.
Proof.
  intros HX. unfold row_prefix.
  replace (Z.to_nat (X + 1)) with (S (Z.to_nat X)) by lia.
  simpl. by rewrite Z2Nat.id.
Qed.

Lemma prefix_sum_succ Y X :
  0 <= Y ->
  prefix_sum gray w (Y + 1) X = prefix_sum gray w Y X + row_prefix gray w Y X.
Proof.
  intros HY. unfold prefix_sum.
  replace (Z.to_nat (Y + 1)) with (S (Z.to_nat Y)) by lia.
  simpl. by rewrite Z2Nat.id.
Qed.

Lemma prefix_sum_no_columns Y : prefix_sum gray w Y 0 = 0.
Proof. unfold prefix_sum. by apply sum_below_zero. Qed.

Lemma prefix_sum_no_rows X : prefix_sum gray w 0 X = 0.
Proof. reflexivity. Qed.

(** The cell of the integral image at row [Y], column [X]. *)
Lemma integral_index_small Y X :
  0 <= Y <= h -> 0 <= X <= w ->
  integral_index w Y X = Y * (w + 1) + X /\
  0 <= Y * (w + 1) + X < (w + 1) * (h + 1).
Proof using Hw Hh Hfit.
  clear Hlen Hbytes.
  intros HY HX. change (2 ^ 31) with 2147483648 in Hfit.
  assert (0 <= Y * (w + 1) /\ Y * (w + 1) + X < (w + 1) * (h + 1)) as [? ?] by nia.
  unfold integral_index.
  rewrite (wrap32_small Y), (wrap32_small (w + 1)), (wrap32_small X),
    (wrap32_small (Y * (w + 1))), (wrap32_small (Y * (w + 1) + X)) by u32.
  lia.
Qed.

Lemma IDX_small y x :
  0 <= y < h -> 0 <= x < w ->
  IDX w y x = (y + 1) * (w + 1) + (x + 1).
Proof using Hw Hh Hfit.
  clear Hlen Hbytes.
  intros Hy Hx.
  destruct (integral_index_small (y + 1) (x + 1)) as [<- _]; [lia | lia |].
  reflexivity.
Qed.

Lemma cell_inj Y X Y' X' :
  0 <= X <= w -> 0 <= X' <= w ->
  Y * (w + 1) + X = Y' * (w + 1) + X' -> Y = Y' /\ X = X'.
Proof.
  clear. intros HX HX' H.
  assert (Y = Y'); [|subst; lia].
  destruct (Z.lt_trichotomy Y Y') as [Hlt|[Heq|Hgt]]; [|assumption|].
  - assert ((Y + 1) * (w + 1) <= Y' * (w + 1)) by (apply Z.mul_le_mono_nonneg_r; lia).
    lia.
  - assert ((Y' + 1) * (w + 1) <= Y * (w + 1)) by (apply Z.mul_le_mono_nonneg_r; lia).
    lia.
Qed.

Lemma integral_at_row_end y Y X :
  0 <= X <= w ->
  integral_at gray w y w Y X = integral_at gray w (y + 1) 0 Y X.
Proof.
  intros HX. unfold integral_at.
  destruct (Z.leb_spec Y y), (Z.leb_spec Y (y + 1)),
    (Z.eqb_spec Y (y + 1)), (Z.eqb_spec Y (y + 1 + 1)),
    (Z.leb_spec X w), (Z.leb_spec X 0); simpl; try reflexivity; try lia.
  assert (X = 0) as -> by lia. by rewrite prefix_sum_no_columns.
Qed.

Lemma integral_row_spec y (k : nat) : forall (x : nat) integral,
  0 <= y < h -> Z.of_nat (x + k) = w ->
  integral_inv gray w h y (Z.of_nat x) integral ->
  exists integral',
    integral_row k gray w y (Z.of_nat x) (row_prefix gray w y (Z.of_nat x))
      integral = Plain (Ok integral') /\
    integral_inv gray w h y w integral'.
Proof using Hw Hh Hfit Hlen Hbytes.
  induction k as [|k IH]; intros x integral Hy Hk [HIlen HI].
  - exists integral. simpl. split; [reflexivity|].
    assert (Hxw : Z.of_nat x = w) by lia. rewrite Hxw in HI. by split.
  - cbn [integral_row].
    rewrite gray_load, outcome_bind_Ok by lia.
    rewrite <- row_prefix_succ by lia.
    pose proof (row_prefix_bounds y (Z.of_nat x + 1) ltac:(lia)) as Hrow.
    assert (Hwh : w + 1 <= 2 ^ 31 /\ h + 1 <= 2 ^ 31) by nia.
    change (2 ^ 31) with 2147483648 in *.
    rewrite int64_op_ok by (unfold INT64_MIN, INT64_MAX; lia).
    rewrite outcome_bind_Ok.
    assert (Habove :
      (if 0 <? y
       then Plain (vector_get integral (IDX w (wrap32 (y - 1)) (Z.of_nat x)))
       else Plain (Ok 0))
      = Plain (Ok (prefix_sum gray w y (Z.of_nat x + 1)))).
    { destruct (Z.ltb_spec 0 y) as [Hpos|Hzero].
      - rewrite (wrap32_small (y - 1)) by u32.
        rewrite IDX_small by lia.
        replace (y - 1 + 1) with y by lia.
        rewrite (vector_get_ok _ _ (prefix_sum gray w y (Z.of_nat x + 1)));
          [reflexivity | nia |].
        rewrite HI by lia. unfold integral_at.
        destruct (Z.leb_spec y y); [reflexivity | lia].
      - by replace y with 0 by lia. }
    rewrite Habove, outcome_bind_Ok.
    pose proof (prefix_sum_small y (Z.of_nat x + 1) ltac:(lia) ltac:(lia)) as Hp.
    change (2 ^ 31) with 2147483648 in Hp.
    rewrite int64_op_ok by (unfold INT64_MIN, INT64_MAX; lia).
    rewrite outcome_bind_Ok.
    rewrite IDX_small by lia.
    destruct (integral_index_small (y + 1) (Z.of_nat x + 1)) as [_ Hcell];
      [lia | lia |].
    rewrite vector_set_ok by lia. rewrite outcome_bind_Ok.
    rewrite (wrap32_small (Z.of_nat x + 1)) by u32.
    replace (Z.of_nat x + 1) with (Z.of_nat (S x)) by lia.
    apply IH; [assumption | lia |].
    split; [by rewrite length_insert|].
    intros Y X HY HX.
    destruct (decide (Y = y + 1 /\ X = Z.of_nat (S x))) as [[-> ->]|Hne].
    + rewrite list_lookup_insert_eq by lia.
      unfold integral_at.
      destruct (Z.leb_spec (y + 1) y); [lia|].
      rewrite Z.eqb_refl, Z.leb_refl. simpl.
      rewrite prefix_sum_succ by lia. f_equal. lia.
    + rewrite list_lookup_insert_ne.
      2:{ intros Heq. apply Hne.
          apply (cell_inj Y X (y + 1) (Z.of_nat (S x))); [lia | lia |].
          assert (0 <= Y * (w + 1)) by nia. lia. }
      rewrite HI by assumption. f_equal. unfold integral_at.
      destruct (Z.leb_spec Y y); [reflexivity|]. simpl.
      destruct (Z.eqb_spec Y (y + 1)); [|reflexivity]. simpl.
      destruct (Z.leb_spec X (Z.of_nat x)), (Z.leb_spec X (Z.of_nat (S x)));
        try reflexivity; lia.
Qed.

Lemma integral_rows_spec (k : nat) : forall (y : nat) integral,
  Z.of_nat (y + k) = h ->
  integral_inv gray w h (Z.of_nat y) 0 integral ->
  exists integral',
    integral_rows k gray w (Z.of_nat y) integral = Plain (Ok integral') /\
    integral_inv gray w h h 0 integral'.
Proof using Hw Hh Hfit Hlen Hbytes.
  induction k as [|k IH]; intros y integral Hk HI.
  - exists integral. simpl. split; [reflexivity|].
    assert (Hyh : Z.of_nat y = h) by lia. by rewrite Hyh in HI.
  - cbn [integral_rows].
    destruct (integral_row_spec (Z.of_nat y) (Z.to_nat w) 0 integral)
      as (integral' & Hrow & [HIlen' HI']); [lia | lia | exact HI |].
    change (Z.of_nat 0) with 0 in Hrow.
    change (row_prefix gray w (Z.of_nat y) 0) with 0 in Hrow.
    rewrite Hrow, outcome_bind_Ok.
    assert (h + 1 <= 2 ^ 31) by nia. change (2 ^ 31) with 2147483648 in *.
    rewrite (wrap32_small (Z.of_nat y + 1)) by u32.
    replace (Z.of_nat y + 1) with (Z.of_nat (S y)) by lia.
    apply IH; [lia|].
    split; [assumption|]. intros Y X HY HX.
    rewrite HI' by assumption. f_equal.
    replace (Z.of_nat (S y)) with (Z.of_nat y + 1) by lia.
    by apply integral_at_row_end.
Qed.

(** The integral image the first pass builds. *)
Lemma integral_image_built :
  exists integral,
    integral_rows (Z.to_nat h) gray w 0
      (replicate (Z.to_nat (wrap32 (wrap32 (w + 1) * wrap32 (h + 1)))) 0)
    = Plain (Ok integral) /\
    forall Y X, 0 <= Y <= h -> 0 <= X <= w ->
      integral !! Z.to_nat (Y * (w + 1) + X) = Some (prefix_sum gray w Y X).
Proof using Hw Hh Hfit Hlen Hbytes.
  assert (w + 1 <= 2 ^ 31 /\ h + 1 <= 2 ^ 31) as [? ?] by nia.
  change (2 ^ 31) with 2147483648 in *.
  rewrite (wrap32_small (w + 1)), (wrap32_small (h + 1)),
    (wrap32_small ((w + 1) * (h + 1))) by u32.
  destruct (integral_rows_spec (Z.to_nat h) 0
              (replicate (Z.to_nat ((w + 1) * (h + 1))) 0))
    as (integral & Hrun & [_ HI]); [lia | |].
  - split; [rewrite length_replicate; lia|].
    intros Y X HY HX.
    rewrite lookup_replicate_2 by nia. f_equal.
    unfold integral_at. change (Z.of_nat 0) with 0.
    destruct (Z.leb_spec Y 0); simpl.
    + by replace Y with 0 by lia.
    + destruct (Z.eqb_spec Y (0 + 1)); [|reflexivity]. simpl.
      destruct (Z.leb_spec X 0); [|reflexivity].
      replace X with 0 by lia. by rewrite prefix_sum_no_columns.
  - exists integral. split; [exact Hrun|].
    intros Y X HY HX. rewrite HI by assumption. f_equal.
    unfold integral_at. destruct (Z.leb_spec Y h); [reflexivity | lia].
Qed.


(** Four cells of the integral image give the sum of a window. *)
Lemma window_from_prefix X0 X1 Y0 Y1 :
  0 <= X0 <= X1 + 1 -> 0 <= Y0 <= Y1 + 1 ->
  prefix_sum gray w (Y1 + 1) (X1 + 1) - prefix_sum gray w Y0 (X1 + 1)
  - prefix_sum gray w (Y1 + 1) X0 + prefix_sum gray w Y0 X0
  = window_sum gray w X0 X1 Y0 Y1.
Proof.
  clear. intros HX HY.
  pose proof (sum_below_diff Y0 (Y1 + 1)
                (fun y => row_prefix gray w y (X1 + 1)) ltac:(lia)) as Ha.
  pose proof (sum_below_diff Y0 (Y1 + 1)
                (fun y => row_prefix gray w y X0) ltac:(lia)) as Hc.
  replace (Y1 + 1 - 1) with Y1 in Ha, Hc by lia.
  unfold prefix_sum.
  transitivity (sum_between Y0 Y1 (fun y => row_prefix gray w y (X1 + 1))
                - sum_between Y0 Y1 (fun y => row_prefix gray w y X0)); [lia|].
  unfold window_sum. unfold sum_between at 1 2 3.
  rewrite sum_below_sub. apply sum_below_ext. intros i Hi.
  unfold row_prefix. rewrite sum_below_diff by lia.
  by replace (X1 + 1 - 1) with X1 by lia.
Qed.

Lemma rect_sum_spec integral x0 y0 x1 y1 :
  1 <= w -> 1 <= h ->
  (forall Y X, 0 <= Y <= h -> 0 <= X <= w ->
     integral !! Z.to_nat (Y * (w + 1) + X) = Some (prefix_sum gray w Y X)) ->
  Z.max 0 x0 <= Z.min (w - 1) x1 + 1 ->
  Z.max 0 y0 <= Z.min (h - 1) y1 + 1 ->
  rect_sum integral w h y0 x0 y1 x1
  = Plain (Ok (window_sum gray w (Z.max 0 x0) (Z.min (w - 1) x1)
                 (Z.max 0 y0) (Z.min (h - 1) y1))).
Proof using Hw Hh Hfit Hlen Hbytes.
  intros Hw1 Hh1 HI Hx Hy.
  assert (Hwh : w + 1 <= 2 ^ 31 /\ h + 1 <= 2 ^ 31) by nia.
  change (2 ^ 31) with 2147483648 in Hwh.
  unfold rect_sum.
  rewrite !int_of_u32_small by (unfold INT_MAX; lia).
  rewrite (int_op_ok (w - 1)), outcome_bind_Ok by (unfold INT_MIN, INT_MAX; lia).
  rewrite (int_op_ok (h - 1)), outcome_bind_Ok by (unfold INT_MIN, INT_MAX; lia).
  set (X0 := Z.max 0 x0) in *. set (X1 := Z.min (w - 1) x1) in *.
  set (Y0 := Z.max 0 y0) in *. set (Y1 := Z.min (h - 1) y1) in *.
  assert (HX0 : 0 <= X0) by (unfold X0; lia).
  assert (HX1 : X1 <= w - 1) by (unfold X1; lia).
  assert (HY0 : 0 <= Y0) by (unfold Y0; lia).
  assert (HY1 : Y1 <= h - 1) by (unfold Y1; lia).
  rewrite (int_op_ok (Y1 + 1)), outcome_bind_Ok by (unfold INT_MIN, INT_MAX; lia).
  rewrite (int_op_ok (X1 + 1)), outcome_bind_Ok by (unfold INT_MIN, INT_MAX; lia).
  assert (Hcell : forall Y X, 0 <= Y <= h -> 0 <= X <= w ->
            vector_get integral (integral_index w Y X)
            = Ok (prefix_sum gray w Y X)).
  { intros Y X HY HX.
    destruct (integral_index_small Y X HY HX) as [-> ?].
    apply vector_get_ok; [lia | by apply HI]. }
  pose proof (prefix_sum_small (Y1 + 1) (X1 + 1) ltac:(lia) ltac:(lia)) as Ha.
  pose proof (prefix_sum_small Y0 (X1 + 1) ltac:(lia) ltac:(lia)) as Hb.
  pose proof (prefix_sum_small (Y1 + 1) X0 ltac:(lia) ltac:(lia)) as Hc.
  pose proof (prefix_sum_small Y0 X0 ltac:(lia) ltac:(lia)) as Hd.
  change (2 ^ 31) with 2147483648 in Ha, Hb, Hc, Hd.
  rewrite (Hcell (Y1 + 1) (X1 + 1)), outcome_bind_Ok by lia.
  rewrite (Hcell Y0 (X1 + 1)), outcome_bind_Ok by lia.
  rewrite int64_op_ok, outcome_bind_Ok by (unfold INT64_MIN, INT64_MAX; lia).
  rewrite (Hcell (Y1 + 1) X0), outcome_bind_Ok by lia.
  rewrite int64_op_ok, outcome_bind_Ok by (unfold INT64_MIN, INT64_MAX; lia).
  rewrite (Hcell Y0 X0), outcome_bind_Ok by lia.
  rewrite int64_op_ok by (unfold INT64_MIN, INT64_MAX; lia).
  by rewrite window_from_prefix by lia.
Qed.

Lemma int_op_overflow r : INT_MAX < r -> int_op r = SignedOverflow.
Proof.
  intros H. unfold int_op.
  destruct (Z.leb_spec r INT_MAX); [lia|]. by rewrite andb_false_r.
Qed.

Lemma int_op_cases r : int_op r = Plain (Ok r) \/ int_op r = SignedOverflow.
Proof. unfold int_op. destruct (_ && _); auto. Qed.

(** One pixel of the second pass, when its window stays in the [int]
    range. *)
Lemma threshold_row_step integral half c y (k x : nat) out :
  0 <= y < h -> Z.of_nat x < w ->
  0 <= half <= INT_MAX ->
  Z.of_nat x + half <= INT_MAX -> y + half <= INT_MAX ->
  (forall Y X, 0 <= Y <= h -> 0 <= X <= w ->
     integral !! Z.to_nat (Y * (w + 1) + X) = Some (prefix_sum gray w Y X)) ->
  Z.of_nat (length out) = y * w + Z.of_nat x ->
  threshold_row (S k) gray integral w h half c y (Z.of_nat x) out
  = threshold_row k gray integral w h half c y (Z.of_nat (S x))
      (out ++ [threshold_pixel gray w h half c (Z.of_nat x) y]).
Proof using Hw Hh Hfit Hlen Hbytes.
  intros Hy Hx Hhalf Hxhalf Hyhalf HI Hout.
  cbn [threshold_row].
  assert (Hwh : w + 1 <= 2 ^ 31 /\ h + 1 <= 2 ^ 31) by nia.
  assert (Harea : w * h < 2 ^ 31) by nia.
  change (2 ^ 31) with 2147483648 in *. unfold INT_MAX in Hhalf, Hxhalf, Hyhalf.
  rewrite !int_of_u32_small by (unfold INT_MAX; lia).
  rewrite (int_op_ok (Z.of_nat x - half)), outcome_bind_Ok
    by (unfold INT_MIN, INT_MAX; lia).
  rewrite (int_op_ok (y - half)), outcome_bind_Ok
    by (unfold INT_MIN, INT_MAX; lia).
  rewrite (int_op_ok (Z.of_nat x + half)), outcome_bind_Ok
    by (unfold INT_MIN, INT_MAX; lia).
  rewrite (int_op_ok (y + half)), outcome_bind_Ok
    by (unfold INT_MIN, INT_MAX; lia).
  rewrite (int_op_ok (w - 1)), outcome_bind_Ok by (unfold INT_MIN, INT_MAX; lia).
  rewrite (int_op_ok (h - 1)), outcome_bind_Ok by (unfold INT_MIN, INT_MAX; lia).
  unfold threshold_pixel.
  set (X0 := Z.max 0 (Z.of_nat x - half)).
  set (X1 := Z.min (w - 1) (Z.of_nat x + half)).
  set (Y0 := Z.max 0 (y - half)).
  set (Y1 := Z.min (h - 1) (y + half)).
  assert (HX : 0 <= X0 <= Z.of_nat x /\ Z.of_nat x <= X1 <= w - 1)
    by (unfold X0, X1; lia).
  assert (HY : 0 <= Y0 <= y /\ y <= Y1 <= h - 1) by (unfold Y0, Y1; lia).
  rewrite (int_op_ok (X1 - X0)), outcome_bind_Ok by (unfold INT_MIN, INT_MAX; lia).
  rewrite (int_op_ok (X1 - X0 + 1)), outcome_bind_Ok
    by (unfold INT_MIN, INT_MAX; lia).
  rewrite (int_op_ok (Y1 - Y0)), outcome_bind_Ok by (unfold INT_MIN, INT_MAX; lia).
  rewrite (int_op_ok (Y1 - Y0 + 1)), outcome_bind_Ok
    by (unfold INT_MIN, INT_MAX; lia).
  assert (Hcount : 1 <= (X1 - X0 + 1) * (Y1 - Y0 + 1) <= w * h)
    by (clear - HX HY Hy Hx; nia).
  rewrite (int_op_ok ((X1 - X0 + 1) * (Y1 - Y0 + 1))), outcome_bind_Ok
    by (unfold INT_MIN, INT_MAX; lia).
  rewrite rect_sum_spec, outcome_bind_Ok by (try assumption; fold X0 X1 Y0 Y1; lia).
  fold X0 X1 Y0 Y1.
  rewrite gray_load, outcome_bind_Ok by lia.
  assert (0 <= y * w /\ y * w + Z.of_nat x < w * h) as [? ?]
    by (clear - Hy Hx; nia).
  rewrite (wrap32_small (y * w)), (wrap32_small (y * w + Z.of_nat x)),
    (wrap32_small (Z.of_nat x + 1))
    by (clear - Hy Hx Hwh Harea H H0; u32).
  rewrite <- Hout, poke_end.
  by replace (Z.of_nat x + 1) with (Z.of_nat (S x)) by lia.
Qed.

Lemma threshold_row_spec integral half c y (k : nat) : forall (x : nat) out,
  0 <= y < h -> Z.of_nat (x + k) = w ->
  0 <= half <= INT_MAX -> w + half <= 2 ^ 31 -> y + half <= INT_MAX ->
  (forall Y X, 0 <= Y <= h -> 0 <= X <= w ->
     integral !! Z.to_nat (Y * (w + 1) + X) = Some (prefix_sum gray w Y X)) ->
  Z.of_nat (length out) = y * w + Z.of_nat x ->
  threshold_row k gray integral w h half c y (Z.of_nat x) out
  = Plain (Ok (out ++ map (fun i : nat =>
                             threshold_pixel gray w h half c (Z.of_nat i) y)
                          (seq x k))).
Proof using Hw Hh Hfit Hlen Hbytes.
  induction k as [|k IH]; intros x out Hy Hk Hhalf Hwhalf Hyhalf HI Hout.
  - simpl. by rewrite app_nil_r.
  - change (2 ^ 31) with 2147483648 in Hwhalf.
    rewrite threshold_row_step; try assumption; try (unfold INT_MAX; lia).
    rewrite IH; try assumption; try lia.
    + simpl. by rewrite <- app_assoc.
    + rewrite length_app. simpl. lia.
Qed.

(** Row [y] of the output, by pixel index. *)
Lemma threshold_row_by_index half c (y : nat) :
  1 <= w ->
  map (fun i : nat => threshold_pixel gray w h half c (Z.of_nat i) (Z.of_nat y))
      (seq 0 (Z.to_nat w))
  = map (fun i : nat =>
           threshold_pixel gray w h half c (Z.of_nat i mod w) (Z.of_nat i / w))
        (seq (Z.to_nat (Z.of_nat y * w)) (Z.to_nat w)).
Proof.
  clear. intros Hw1.
  apply list_eq. intros i. rewrite !list_lookup_fmap.
  destruct (decide (i < Z.to_nat w)%nat) as [Hlt|Hge].
  - rewrite !lookup_seq_lt by assumption. simpl. f_equal.
    replace (Z.of_nat (Z.to_nat (Z.of_nat y * w) + i))
      with (Z.of_nat i + Z.of_nat y * w) by nia.
    rewrite Z.mod_add, Z.div_add, Z.mod_small, Z.div_small by lia.
    by rewrite Z.add_0_l.
  - by rewrite !lookup_seq_ge by lia.
Qed.

Lemma threshold_rows_spec integral half c (k : nat) : forall (y : nat) out,
  let pix := fun i : nat =>
    threshold_pixel gray w h half c (Z.of_nat i mod w) (Z.of_nat i / w) in
  Z.of_nat (y + k) = h ->
  0 <= half <= INT_MAX -> w + half <= 2 ^ 31 -> h + half <= 2 ^ 31 ->
  (forall Y X, 0 <= Y <= h -> 0 <= X <= w ->
     integral !! Z.to_nat (Y * (w + 1) + X) = Some (prefix_sum gray w Y X)) ->
  Z.of_nat (length out) = Z.of_nat y * w ->
  threshold_rows k gray integral w h half c (Z.of_nat y) out
  = Plain (Ok (out ++ map pix (seq (Z.to_nat (Z.of_nat y * w))
                                   (Z.to_nat (Z.of_nat k * w))))).
Proof using Hw Hh Hfit Hlen Hbytes.
  induction k as [|k IH]; intros y out pix Hk Hhalf Hwhalf Hhhalf HI Hout.
  - simpl. by rewrite app_nil_r.
  - cbn [threshold_rows].
    assert (Hh1 : h + 1 <= 2 ^ 31) by nia.
    change (2 ^ 31) with 2147483648 in Hh1, Hhhalf.
    rewrite (threshold_row_spec integral half c (Z.of_nat y) (Z.to_nat w) 0);
      try assumption; try (unfold INT_MAX; lia).
    rewrite outcome_bind_Ok.
    rewrite (wrap32_small (Z.of_nat y + 1)) by u32.
    replace (Z.of_nat y + 1) with (Z.of_nat (S y)) by lia.
    destruct (Z.le_gt_cases w 0) as [Hw0|Hw1].
    + assert (w = 0) as Hz by lia.
      rewrite IH; try assumption; try lia.
      * rewrite Hz, !Z.mul_0_r. simpl. by rewrite !app_nil_r.
      * rewrite length_app, length_map, length_seq. nia.
    + rewrite threshold_row_by_index by lia. fold pix.
      rewrite IH; try assumption; try lia.
      * rewrite <- app_assoc, <- map_app. do 3 f_equal.
        replace (Z.to_nat (Z.of_nat (S y) * w))
          with (Z.to_nat (Z.of_nat y * w) + Z.to_nat w)%nat by nia.
        replace (Z.to_nat (Z.of_nat (S k) * w))
          with (Z.to_nat w + Z.to_nat (Z.of_nat k * w))%nat by nia.
        by rewrite seq_app.
      * rewrite length_app, length_map, length_seq. nia.
Qed.

(** A pixel whose window leaves the [int] range at the bottom. *)
Lemma threshold_row_overflow_y integral half c y (k : nat) x out :
  0 <= x <= INT_MAX -> 0 <= y <= INT_MAX -> 0 <= half <= INT_MAX ->
  INT_MAX < y + half ->
  threshold_row (S k) gray integral w h half c y x out = SignedOverflow.
Proof.
  clear. intros Hx Hy Hhalf Hover.
  cbn [threshold_row].
  rewrite (int_of_u32_small x), (int_of_u32_small y) by lia.
  unfold INT_MAX in Hx, Hy, Hhalf.
  rewrite (int_op_ok (x - half)), outcome_bind_Ok
    by (unfold INT_MIN, INT_MAX; lia).
  rewrite (int_op_ok (y - half)), outcome_bind_Ok
    by (unfold INT_MIN, INT_MAX; lia).
  rewrite (int_op_overflow (y + half)) by assumption.
  destruct (int_op_cases (x + half)) as [-> | ->]; reflexivity.
Qed.

(** A row whose last window leaves the [int] range on the right. *)
Lemma threshold_row_overflow_x integral half c y (k : nat) : forall (x : nat) out,
  0 <= y < h -> Z.of_nat (x + S k) = w ->
  0 <= half <= INT_MAX -> 2 ^ 31 < w + half -> y + half <= INT_MAX ->
  (forall Y X, 0 <= Y <= h -> 0 <= X <= w ->
     integral !! Z.to_nat (Y * (w + 1) + X) = Some (prefix_sum gray w Y X)) ->
  Z.of_nat (length out) = y * w + Z.of_nat x ->
  threshold_row (S k) gray integral w h half c y (Z.of_nat x) out
  = SignedOverflow.
Proof using Hw Hh Hfit Hlen Hbytes.
  induction k as [|k IH]; intros x out Hy Hk Hhalf Hover Hyhalf HI Hout;
    change (2 ^ 31) with 2147483648 in Hover;
    assert (Hwh : w + 1 <= 2 ^ 31) by nia;
    change (2 ^ 31) with 2147483648 in Hwh.
  - cbn [threshold_row]. rewrite !int_of_u32_small by (unfold INT_MAX; lia).
    unfold INT_MAX in Hhalf, Hyhalf.
    rewrite (int_op_ok (Z.of_nat x - half)), outcome_bind_Ok
      by (unfold INT_MIN, INT_MAX; lia).
    rewrite (int_op_ok (y - half)), outcome_bind_Ok
      by (unfold INT_MIN, INT_MAX; lia).
    by rewrite (int_op_overflow (Z.of_nat x + half)) by (unfold INT_MAX; lia).
  - destruct (Z.le_gt_cases (Z.of_nat x + half) INT_MAX) as [Hfits|Hover'].
    + rewrite threshold_row_step; try assumption; try lia.
      apply IH; try assumption; try lia.
      rewrite length_app. simpl. lia.
    + cbn [threshold_row].
      rewrite (int_of_u32_small (Z.of_nat x)), (int_of_u32_small y)
        by (unfold INT_MAX; lia).
      unfold INT_MAX in Hhalf, Hyhalf.
      rewrite (int_op_ok (Z.of_nat x - half)), outcome_bind_Ok
        by (unfold INT_MIN, INT_MAX; lia).
      rewrite (int_op_ok (y - half)), outcome_bind_Ok
        by (unfold INT_MIN, INT_MAX; lia).
      by rewrite (int_op_overflow (Z.of_nat x + half)) by lia.
Qed.

(** The second pass on an image whose block leaves the [int] range. *)
Lemma threshold_rows_overflow integral half c (k : nat) : forall (y : nat) out,
  1 <= w -> Z.of_nat (y + S k) = h ->
  0 <= half <= INT_MAX -> 2 ^ 31 < Z.max w h + half ->
  (forall Y X, 0 <= Y <= h -> 0 <= X <= w ->
     integral !! Z.to_nat (Y * (w + 1) + X) = Some (prefix_sum gray w Y X)) ->
  Z.of_nat (length out) = Z.of_nat y * w ->
  threshold_rows (S k) gray integral w h half c (Z.of_nat y) out
  = SignedOverflow.
Proof using Hw Hh Hfit Hlen Hbytes.
  induction k as [|k IH]; intros y out Hw1 Hk Hhalf Hover HI Hout;
    change (2 ^ 31) with 2147483648 in Hover;
    assert (Hwh : w + 1 <= 2 ^ 31 /\ h + 1 <= 2 ^ 31) by nia;
    change (2 ^ 31) with 2147483648 in Hwh;
    cbn [threshold_rows];
    destruct (Z.le_gt_cases (Z.of_nat y + half) INT_MAX) as [Hfits|Hover'];
    try (destruct (Z.to_nat w) as [|kw] eqn:Hkw; [lia|];
         by rewrite threshold_row_overflow_y by (unfold INT_MAX in *; lia)).
  - destruct (Z.to_nat w) as [|kw] eqn:Hkw; [lia|].
    rewrite (threshold_row_overflow_x integral half c (Z.of_nat y) kw 0);
      try assumption; try reflexivity; try lia.
    unfold INT_MAX in Hfits. change (2 ^ 31) with 2147483648. lia.
  - destruct (Z.le_gt_cases (w + half) 2147483648) as [Hwfits|Hwover].
    + rewrite (threshold_row_spec integral half c (Z.of_nat y) (Z.to_nat w) 0);
        try assumption; try lia.
      rewrite outcome_bind_Ok.
      rewrite (wrap32_small (Z.of_nat y + 1)) by u32.
      replace (Z.of_nat y + 1) with (Z.of_nat (S y)) by lia.
      apply IH; try assumption; try lia.
      rewrite length_app, length_map, length_seq. nia.
    + destruct (Z.to_nat w) as [|kw] eqn:Hkw; [lia|].
      rewrite (threshold_row_overflow_x integral half c (Z.of_nat y) kw 0);
        try assumption; try reflexivity; try lia.
Qed.

End ThresholdImage.

(** X17. The integral image of [image_adaptive_threshold] computes the
    window means it stands for.  For an image of [width * height] bytes
    with [(width + 1) * (height + 1) <= 2^31] and a block with
    [max width height + block_size / 2 <= 2^31], the call has no undefined
    behaviour (no read or write outside [gray], [out] or the integral
    image, no [int] or [int64_t] overflow) and writes, at every pixel,
    255 when the pixel exceeds the mean of the window of half-width
    [block_size / 2] around it, clipped to the image and summed directly,
    less [c], and 0 otherwise. *)
Theorem image_adaptive_threshold_integral_image (gray : list Z)
    (width height block_size c : Z) :
  0 <= width -> 0 <= height ->
  (width + 1) * (height + 1) <= 2 ^ 31 ->
  Z.of_nat (length gray) = width * height ->
  Forall is_byte gray ->
  is_uint32 block_size ->
  Z.max width height + block_size / 2 <= 2 ^ 31 ->
  image_adaptive_threshold gray width height block_size c
  = Plain (Ok (spec_adaptive_threshold gray width height block_size c)) /\
  Z.of_nat (length (spec_adaptive_threshold gray width height block_size c))
  = width * height /\
  Forall (fun v => v = 0 \/ v = 255)
    (spec_adaptive_threshold gray width height block_size c).
Proof.
  intros Hw Hh Hfit Hlen Hbytes Hbs Hblock.
  split_and!.
  - unfold image_adaptive_threshold.
    assert (Hhalf : 0 <= block_size / 2 <= INT_MAX).
    { unfold is_uint32, UINT32_MAX, INT_MAX in *. split.
      - apply Z.div_pos; lia.
      - assert (block_size / 2 < 2147483648)
          by (apply Z.div_lt_upper_bound; lia).
        lia. }
    rewrite int_of_u32_small by exact Hhalf.
    destruct (integral_image_built gray width height Hw Hh Hfit Hlen Hbytes)
      as (integral & -> & HI).
    rewrite outcome_bind_Ok.
    rewrite (threshold_rows_spec gray width height Hw Hh Hfit Hlen Hbytes integral
               (block_size / 2) c (Z.to_nat height) 0);
      try assumption; try reflexivity; try lia.
    unfold spec_adaptive_threshold. simpl. do 4 f_equal. lia.
  - unfold spec_adaptive_threshold. rewrite length_map, length_seq. nia.
  - unfold spec_adaptive_threshold. apply Forall_forall. intros v Hv.
    apply list_elem_of_fmap in Hv as (i & -> & _).
    unfold threshold_pixel.
    destruct (f_gt _ _); [by right | by left].
Qed.

Lemma image_adaptive_threshold_integral_image_witness :
  image_adaptive_threshold [10; 200; 10; 200; 10; 200] 3 2 3 0
  = Plain (Ok (spec_adaptive_threshold [10; 200; 10; 200; 10; 200] 3 2 3 0)) /\
  Z.of_nat (length (spec_adaptive_threshold [10; 200; 10; 200; 10; 200] 3 2 3 0))
  = 3 * 2 /\
  Forall (fun v => v = 0 \/ v = 255)
    (spec_adaptive_threshold [10; 200; 10; 200; 10; 200] 3 2 3 0).
Proof.
  apply (image_adaptive_threshold_integral_image
           [10; 200; 10; 200; 10; 200] 3 2 3 0);
    try (unfold is_uint32, UINT32_MAX; lia); try reflexivity.
  - repeat constructor; unfold is_byte; lia.
  - vm_compute. discriminate.
Defined.

(** X18. The bound on the block is exact.  For a non-empty image of
    [width * height] bytes with [(width + 1) * (height + 1) <= 2^31], a
    block with [max width height + block_size / 2 > 2^31] always ends in
    signed overflow: [x + half] or [y + half] leaves the [int] range
    before the last pixel is written.  A block size near [UINT32_MAX],
    meant as the whole image, is such a block. *)
Theorem image_adaptive_threshold_block_overflows (gray : list Z)
    (width height block_size c : Z) :
  1 <= width -> 1 <= height ->
  (width + 1) * (height + 1) <= 2 ^ 31 ->
  Z.of_nat (length gray) = width * height ->
  Forall is_byte gray ->
  is_uint32 block_size ->
  2 ^ 31 < Z.max width height + block_size / 2 ->
  image_adaptive_threshold gray width height block_size c = SignedOverflow.
Proof.
  intros Hw Hh Hfit Hlen Hbytes Hbs Hblock.
  unfold image_adaptive_threshold.
  assert (Hhalf : 0 <= block_size / 2 <= INT_MAX).
  { unfold is_uint32, UINT32_MAX, INT_MAX in *. split.
    - apply Z.div_pos; lia.
    - assert (block_size / 2 < 2147483648)
        by (apply Z.div_lt_upper_bound; lia).
      lia. }
  rewrite int_of_u32_small by exact Hhalf.
  destruct (integral_image_built gray width height ltac:(lia) ltac:(lia)
              Hfit Hlen Hbytes) as (integral & -> & HI).
  rewrite outcome_bind_Ok.
  destruct (Z.to_nat height) as [|k] eqn:Hk; [lia|].
  apply (threshold_rows_overflow gray width height ltac:(lia) ltac:(lia)
           Hfit Hlen Hbytes integral (block_size / 2) c k 0 []);
    try assumption; try reflexivity; lia.
Qed.

Lemma image_adaptive_threshold_block_overflows_witness :
  image_adaptive_threshold [10; 200] 2 1 4294967295 0 = SignedOverflow.
Proof.
  apply (image_adaptive_threshold_block_overflows [10; 200] 2 1 4294967295 0);
    try (unfold is_uint32, UINT32_MAX; lia); try reflexivity.
  repeat constructor; unfold is_byte; lia.
Defined.


(** ** The frame scanner with a positive hop *)

(** When [offset + hop_size] wraps, the guard passes at an offset outside
    the buffer: four samples, frames of 2, hop [2^32 - 2]. *)
Lemma vad_detect_frames_hop_wraps :
  frame_count 4 2 4294967294 = 1 /\
  vad_detect_frames log10f_unit 3 [F32_one; F32_one; F32_one; F32_one]
    2 4294967294 F32_m100 F32_zero F32_one = Undefined OutOfBounds.
Proof. split; reflexivity. Qed.

(** X19. For every samples buffer of [total] samples, every frame
    size and every hop of at least 1 such that the first offset past the
    last frame, plus the frame size, is still a [uint32_t], the scan
    terminates (any fuel above the number of frames suffices); it classifies
    the frames at offsets 0, hop, 2 hop, ... for as long as
    [offset + frame_size <= total], writes their flags in increasing offset
    order, and returns [(total - frame_size) / hop + 1] flags when
    [total >= frame_size] and none otherwise. *)
Theorem vad_detect_frames_count
    (log10f : float32 -> float32) (samples : list float32)
    (frame_size hop_size : Z) (energy_thresh zcr_low zcr_high : float32) :
  let total := Z.of_nat (length samples) in
  let count := frame_count total frame_size hop_size in
  is_uint32 frame_size ->
  1 <= hop_size <= UINT32_MAX ->
  count * hop_size + frame_size <= UINT32_MAX ->
  (forall i, 0 <= i < count -> i * hop_size + frame_size <= total) /\
  total < count * hop_size + frame_size /\
  forall fuel, (Z.to_nat count < fuel)%nat ->
    vad_detect_frames log10f fuel samples frame_size hop_size
      energy_thresh zcr_low zcr_high
    = Ok (map (fun k : nat =>
                 vad_detect log10f
                   (frame_of samples (Z.of_nat k * hop_size) frame_size)
                   energy_thresh zcr_low zcr_high)
              (seq 0 (Z.to_nat count)),
          count).
Proof.
  intros total count Hfs Hhop Hfit.
  destruct (frame_count_bounds total frame_size hop_size) as (Hc0 & Hin & Hout);
    [unfold is_uint32 in Hfs; lia | subst total; lia | lia |].
  fold count in Hc0, Hin, Hout.
  split_and!; [exact Hin | exact Hout |].
  clearbody count. subst total.
  intros fuel Hfuel. unfold vad_detect_frames.
  pose proof (vad_detect_frames_loop_spec log10f samples frame_size hop_size
                energy_thresh zcr_low zcr_high Hfs Hhop
                (Z.to_nat count) 0%nat [] fuel) as Hloop.
  simpl in Hloop. rewrite Z2Nat.id in Hloop by lia.
  apply Hloop; try done.
  - intros i Hi. apply Hin. lia.
  - unfold is_uint32, UINT32_MAX in *. nia.
Qed.

Lemma vad_detect_frames_count_witness :
  vad_detect_frames (fun x => x) 4 [F32_one; F32_zero; F32_one; F32_zero; F32_one]
    2 2 F32_m100 F32_zero F32_one
  = Ok ([vad_detect (fun x => x) [F32_one; F32_zero] F32_m100 F32_zero F32_one;
         vad_detect (fun x => x) [F32_one; F32_zero] F32_m100 F32_zero F32_one],
        2).
Proof.
  apply (vad_detect_frames_count (fun x => x)
           [F32_one; F32_zero; F32_one; F32_zero; F32_one] 2 2
           F32_m100 F32_zero F32_one).
  - unfold is_uint32, UINT32_MAX. lia.
  - unfold UINT32_MAX. lia.
  - vm_compute. discriminate.
  - vm_compute. lia.
Defined.


(* ===================================================================== *)
(** * The energy of a frame *)
(* ===================================================================== *)

(** ** The loop of [audio_rms] sums the squares in index order *)

Lemma sum_squares_snoc samples x :
  sum_squares (samples ++ [x]) = f64_add (sum_squares samples) (squared x).
Proof. unfold sum_squares. by rewrite fold_left_app. Qed.

Lemma sum_of_squares_below_app (k : nat) samples rest :
  (k <= length samples)%nat ->
  sum_of_squares_below k (samples ++ rest) = sum_of_squares_below k samples.
Proof.
  induction k as [|k IH]; intros Hk; [reflexivity|].
  simpl. rewrite IH by lia. by rewrite app_nth1 by lia.
Qed.

Lemma sum_squares_in_order samples :
  sum_squares samples = sum_of_squares_below (length samples) samples.
Proof.
  induction samples as [|x samples IH] using rev_ind; [reflexivity|].
  rewrite sum_squares_snoc, length_app, Nat.add_1_r. simpl.
  rewrite sum_of_squares_below_app by lia.
  rewrite app_nth2 by lia. rewrite Nat.sub_diag. simpl. by rewrite IH.
Qed.

Lemma audio_rms_spec_rms samples : audio_rms samples = spec_rms samples.
Proof.
  unfold audio_rms, spec_rms. destruct samples as [|x samples]; [reflexivity|].
  destruct (Z.eqb_spec (Z.of_nat (length (x :: samples))) 0) as [H|_].
  - simpl in H. lia.
  - by rewrite sum_squares_in_order.
Qed.

(** ** Frames of constant magnitude [2^i] *)

Lemma f32_pow2_bounded i :
  -126 <= i <= 127 -> bounded 24 128 8388608 (i - 23) = true.
Proof.
  intros Hi. unfold bounded, canonical_mantissa.
  change (Z.pos (digits2_pos 8388608)) with 24.
  rewrite fexp32. apply andb_true_iff. split.
  - apply Z.eqb_eq. lia.
  - apply Z.leb_le. lia.
Qed.

Lemma f64_f32_pow2 s i :
  -126 <= i <= 127 ->
  f64_of_f32 (S754_finite s 8388608 (i - 23))
  = S754_finite s 4503599627370496 (i - 52) /\
  f32_of_f64 (S754_finite s 4503599627370496 (i - 52))
  = S754_finite s 8388608 (i - 23).
Proof.
  intros Hi.
  destruct (f64_of_f32_exact s 8388608 (i - 23) (f32_pow2_bounded i Hi))
    as (k & Hto & Hm & _ & Hback).
  rewrite pos_iter_xO in Hm.
  assert (Hk : k = 29%positive).
  { change (Z.pos 8388608) with (2 ^ 23) in Hm.
    rewrite <- Z.pow_add_r in Hm by lia.
    assert (23 + Z.pos k < 53) by (apply (Z.pow_lt_mono_r_iff 2); lia).
    assert (52 < 23 + Z.pos k + 1).
    { apply (Z.pow_lt_mono_r_iff 2); [lia | lia |].
      rewrite Z.pow_add_r by lia. lia. }
    lia. }
  subst k.
  change (Pos.iter xO 8388608%positive 29) with 4503599627370496%positive in Hto, Hback.
  replace (i - 23 - 29) with (i - 52) in Hto, Hback by lia.
  by split.
Qed.

Lemma squared_pow2 s i :
  -126 <= i <= 127 ->
  squared (S754_finite s 8388608 (i - 23))
  = S754_finite false 4503599627370496 (2 * i - 52).
Proof.
  intros Hi. unfold squared.
  destruct (f64_f32_pow2 s i Hi) as [-> _].
  unfold f64_mul, SFmul. rewrite xorb_nilpotent.
  change (Z.pos (4503599627370496 * 4503599627370496))
    with (Z.pos 4503599627370496 * 2 ^ 52).
  rewrite (binary_round_aux64_exact false 4503599627370496 52) by lia.
  f_equal. lia.
Qed.


Lemma shl_align_fst m e e' :
  e' <= e -> Z.pos (fst (shl_align m e e')) = Z.pos m * 2 ^ (e - e').
Proof.
  intros He. unfold shl_align.
  destruct (e' - e) as [|d|d] eqn:Ed; try lia; simpl fst.
  - replace (e - e') with 0 by lia. lia.
  - rewrite pos_iter_xO. f_equal. f_equal. lia.
Qed.

(** Normalising a normal binary64 mantissa followed by [a] zero bits. *)
Lemma binary_normalize64_shifted (m : positive) (a e : Z) :
  2 ^ 52 <= Z.pos m < 2 ^ 53 -> 0 <= a -> -1074 <= e <= 971 - a ->
  binary_normalize 53 1024 (Z.pos m * 2 ^ a) e false
  = S754_finite false m (e + a).
Proof.
  intros Hm Ha He.
  destruct a as [|d|d]; try lia.
  - rewrite Z.mul_1_r, Z.add_0_r. unfold binary_normalize, binary_round.
    rewrite (digits2_pos_unique m 53) by (change (53 - 1) with 52; lia).
    rewrite fexp64. unfold shl_align.
    replace (Z.max (53 + e - 53) (-1074) - e) with 0 by lia.
    apply binary_round_aux64_normal; lia.
  - rewrite <- pos_iter_xO. unfold binary_normalize, binary_round.
    assert (Hp : 0 < 2 ^ Z.pos d) by (apply Z.pow_pos_nonneg; lia).
    rewrite (digits2_pos_unique (Pos.iter xO m d) (53 + Z.pos d)).
    2:{ rewrite pos_iter_xO.
        replace (53 + Z.pos d - 1) with (52 + Z.pos d) by lia.
        rewrite !Z.pow_add_r by lia. nia. }
    rewrite fexp64. unfold shl_align.
    replace (Z.max (53 + Z.pos d + e - 53) (-1074) - e) with (Z.pos d) by lia.
    rewrite pos_iter_xO.
    apply binary_round_aux64_exact; lia.
Qed.

(** Adding one unit to a count of units, all scaled by [2^j]. *)
Lemma f64_add_scaled k j :
  0 <= k < UINT32_MAX -> -900 <= j <= 900 ->
  f64_add (f64_scale j (f64_of_u32 k))
          (S754_finite false 4503599627370496 (j - 52))
  = f64_scale j (f64_of_u32 (k + 1)).
Proof.
  intros Hk Hj.
  destruct (f64_of_u32_exact (k + 1) ltac:(lia))
    as (m' & e' & -> & He' & Hm' & Hmb').
  simpl f64_scale.
  destruct (Z.eq_dec k 0) as [->|Hk0].
  - change (f64_of_u32 0) with (S754_zero false). simpl.
    assert (e' = -52 /\ m' = 4503599627370496%positive) as [-> ->].
    { change (0 + 1) with 1 in Hm'. rewrite Z.mul_1_l in Hm'.
      assert (- e' = 52).
      { assert (52 <= - e') by (apply (Z.pow_le_mono_r_iff 2); lia).
        assert (- e' < 53) by (apply (Z.pow_lt_mono_r_iff 2); lia). lia. }
      split; [lia|]. replace (- e') with 52 in Hm' by lia.
      change (2 ^ 52) with (Z.pos 4503599627370496) in Hm'. congruence. }
    f_equal. lia.
  - destruct (f64_of_u32_exact k ltac:(lia)) as (m & e & -> & He & Hm & Hmb).
    simpl f64_scale. unfold f64_add, SFadd.
    replace (Z.min (e + j) (j - 52)) with (j - 52) by lia.
    simpl cond_Zopp.
    rewrite !shl_align_fst by lia.
    replace (j - 52 - (j - 52)) with 0 by lia.
    replace (e + j - (j - 52)) with (e + 52) by lia.
    replace (Z.pos m * 2 ^ (e + 52) + 4503599627370496 * 2 ^ 0)
      with (Z.pos m' * 2 ^ (e' + 52)).
    2:{ rewrite Hm, Hm'.
        rewrite <- !Z.mul_assoc, <- !Z.pow_add_r by lia.
        replace (- e + (e + 52)) with 52 by lia.
        replace (- e' + (e' + 52)) with 52 by lia.
        change (2 ^ 52) with 4503599627370496. lia. }
    rewrite binary_normalize64_shifted by lia.
    f_equal. lia.
Qed.

(** A count of units scaled by [2^j], divided by the count. *)
Lemma f64_div_scaled n j :
  1 <= n <= UINT32_MAX -> -900 <= j <= 900 ->
  f64_div (f64_scale j (f64_of_u32 n)) (f64_of_u32 n)
  = S754_finite false 4503599627370496 (j - 52).
Proof.
  intros Hn Hj.
  destruct (f64_of_u32_exact n Hn) as (m & e & -> & He & _ & Hm).
  simpl f64_scale.
  unfold f64_div, SFdiv, SFdiv_core_binary, Zdigits2.
  rewrite (digits2_pos_unique m 53) by (change (53 - 1) with 52; lia).
  rewrite fexp64.
  replace (Z.min (Z.max (53 + (e + j) - (53 + e) - 53) (-1074)) (e + j - e))
    with (j - 53) by lia.
  replace (e + j - e - (j - 53)) with 53 by lia.
  cbv iota. rewrite Z.shiftl_mul_pow2 by lia.
  rewrite (Z.mul_comm (Z.pos m)).
  pose proof (Z.div_mul (2 ^ 53) (Z.pos m) ltac:(lia)) as Hq.
  pose proof (Z.mod_mul (2 ^ 53) (Z.pos m) ltac:(lia)) as Hr.
  unfold Z.div in Hq. unfold Z.modulo in Hr.
  destruct (Z.div_eucl (2 ^ 53 * Z.pos m) (Z.pos m)) as [q r].
  subst q r. simpl xorb.
  assert (Hloc : new_location (Z.pos m) 0 = loc_Exact).
  { unfold new_location, new_location_even, new_location_odd.
    destruct (Z.even (Z.pos m)); reflexivity. }
  rewrite Hloc.
  change (2 ^ 53) with (Z.pos 4503599627370496 * 2 ^ 1).
  rewrite (binary_round_aux64_exact false 4503599627370496 1 (j - 53)) by lia.
  f_equal. lia.
Qed.

(** The square root of an even power of two. *)
Lemma f64_sqrt_pow4 i :
  -500 <= i <= 500 ->
  f64_sqrt (S754_finite false 4503599627370496 (2 * i - 52))
  = S754_finite false 4503599627370496 (i - 52).
Proof.
  intros Hi. unfold f64_sqrt, SFsqrt, SFsqrt_core_binary, Zdigits2.
  change (Z.pos (digits2_pos 4503599627370496)) with 53.
  replace (53 + (2 * i - 52) + 1) with (2 * (i + 1)) by lia.
  replace (2 * i - 52) with (2 * (i - 26)) by lia.
  rewrite !Z.div2_div, !(Z.mul_comm 2), !Z.div_mul by lia.
  rewrite fexp64.
  replace (Z.min (Z.max (i + 1 - 53) (-1074)) (i - 26)) with (i - 52) by lia.
  replace ((i - 26) * 2 - (i - 52) * 2) with 52 by lia.
  cbv iota.
  change (IntDef.Z.sqrtrem (Z.shiftl (Z.pos 4503599627370496) 52))
    with (Z.pos 4503599627370496, 0).
  cbv iota beta. change (0 =? 0) with true. cbv iota.
  apply binary_round_aux64_normal; lia.
Qed.

(** The sum of the squares of [len] samples of magnitude [2^i], added to
    [k] of them. *)
Lemma sum_squares_pow2 i samples : forall k,
  -126 <= i <= 127 ->
  0 <= k -> k + Z.of_nat (length samples) <= UINT32_MAX ->
  forallb (magnitude_pow2 i) samples = true ->
  fold_left (fun sum x => let s := f64_of_f32 x in f64_add sum (f64_mul s s))
            samples (f64_scale (2 * i) (f64_of_u32 k))
  = f64_scale (2 * i) (f64_of_u32 (k + Z.of_nat (length samples))).
Proof.
  induction samples as [|x samples IH]; intros k Hi Hk Hlen Hall.
  - simpl. by rewrite Z.add_0_r.
  - simpl in Hall. apply andb_true_iff in Hall as [Hx Hall].
    simpl length in Hlen. simpl fold_left.
    destruct x as [| | |s m e]; try discriminate.
    unfold magnitude_pow2 in Hx.
    destruct (Pos.eq_dec m 8388608%positive) as [->|Hm].
    2:{ exfalso. revert Hx. clear - Hm.
        repeat (destruct m as [m|m|]; try discriminate; try congruence). }
    apply Z.eqb_eq in Hx. subst e.
    change (f64_mul (f64_of_f32 (S754_finite s 8388608 (i - 23)))
                    (f64_of_f32 (S754_finite s 8388608 (i - 23))))
      with (squared (S754_finite s 8388608 (i - 23))).
    rewrite squared_pow2 by lia.
    rewrite f64_add_scaled by lia.
    rewrite IH by (try assumption; lia).
    do 2 f_equal. simpl length. lia.
Qed.

Lemma audio_rms_pow2 i samples :
  -126 <= i <= 127 ->
  1 <= Z.of_nat (length samples) <= UINT32_MAX ->
  forallb (magnitude_pow2 i) samples = true ->
  audio_rms samples = f32_pow2 i.
Proof.
  intros Hi Hn Hall.
  pose proof (sum_squares_pow2 i samples 0 Hi ltac:(lia) ltac:(lia) Hall) as Hs.
  change (f64_scale (2 * i) (f64_of_u32 0)) with F64_zero in Hs.
  rewrite Z.add_0_l in Hs.
  change (fold_left _ samples F64_zero) with (sum_squares samples) in Hs.
  unfold audio_rms.
  destruct (Z.eqb_spec (Z.of_nat (length samples)) 0); [lia|].
  rewrite Hs, f64_div_scaled by lia.
  rewrite f64_sqrt_pow4 by lia.
  by destruct (f64_f32_pow2 false i Hi) as [_ ->].
Qed.

Lemma f32_pow2_below_threshold i :
  f_lt (f32_pow2 i) F32_1em10 = (i <? -33).
Proof.
  unfold f_lt, SFltb, SFcompare, f32_pow2, F32_1em10.
  destruct (Z.compare_spec (i - 23) (-57)) as [H|H|H].
  - assert (i = -34) as -> by lia. reflexivity.
  - symmetry. apply Z.ltb_lt. lia.
  - symmetry. apply Z.ltb_ge. lia.
Qed.


(** C5. For every frame (of a [uint32_t] number of samples) the rms the
    code computes is [sqrt(mean of squared samples)], the squares summed
    in index order in binary64 and the root narrowed to binary32;
    [energyDb] returns [20 * log10(rms)], as a binary32 product, when
    [rms >= 1e-10f], and exactly the sentinel -100 when [rms < 1e-10f].
    The rms of an empty frame and of an all-zero frame is 0, so the energy
    of such a frame is exactly -100.  On a frame whose samples all have
    magnitude [2^i] the rms is exactly [2^i], whatever the signs and the
    length: its energy is [20 * log10(2^i)] from [i = -33] on, and the
    sentinel below (a frame of magnitude [2^-34] is not silent, and has
    -100 dB). *)
Theorem audio_energy_db_spec (log10f : float32 -> float32) (samples : list float32) :
  let rms := audio_rms samples in
  let energy := audio_energy_db log10f samples in
  Z.of_nat (length samples) <= UINT32_MAX ->
  rms = spec_rms samples /\
  (f_ge rms F32_1em10 = true -> energy = f32_mul F32_20 (log10f rms)) /\
  (f_lt rms F32_1em10 = true -> energy = F32_m100) /\
  (forallb is_zero samples = true -> rms = F32_zero /\ energy = F32_m100) /\
  (forall i, -126 <= i <= 127 -> samples <> [] ->
     forallb (magnitude_pow2 i) samples = true ->
     rms = f32_pow2 i /\
     energy = if i <? -33 then F32_m100
              else f32_mul F32_20 (log10f (f32_pow2 i))).
Proof.
  intros rms energy Hn. subst rms energy. unfold audio_energy_db.
  split_and!.
  - apply audio_rms_spec_rms.
  - intros Hge. rewrite (f_ge_not_lt _ _ Hge). reflexivity.
  - intros Hlt. rewrite Hlt. reflexivity.
  - intros Hz. rewrite (audio_rms_zero samples Hn Hz). split; reflexivity.
  - intros i Hi Hne Hall.
    assert (Hlen : 1 <= Z.of_nat (length samples))
      by (destruct samples; [congruence | simpl; lia]).
    rewrite (audio_rms_pow2 i samples Hi ltac:(lia) Hall).
    split; [reflexivity|].
    by rewrite f32_pow2_below_threshold.
Qed.

Lemma audio_energy_db_spec_witness :
  (audio_rms [F32_zero; S754_zero true; F32_zero] = F32_zero /\
   audio_energy_db log10f_unit [F32_zero; S754_zero true; F32_zero] = F32_m100) /\
  (audio_rms [F32_one; S754_finite true 8388608 (-23); F32_one] = F32_one /\
   audio_energy_db log10f_unit [F32_one; S754_finite true 8388608 (-23); F32_one]
   = F32_zero) /\
  (audio_rms [S754_finite true 8388608 (-57); S754_finite false 8388608 (-57)]
   = S754_finite false 8388608 (-57) /\
   audio_energy_db log10f_unit
     [S754_finite true 8388608 (-57); S754_finite false 8388608 (-57)]
   = F32_m100).
Proof.
  split; [|split].
  - apply (audio_energy_db_spec log10f_unit [F32_zero; S754_zero true; F32_zero]).
    + unfold UINT32_MAX. simpl. lia.
    + reflexivity.
  - pose proof (audio_energy_db_spec log10f_unit
                  [F32_one; S754_finite true 8388608 (-23); F32_one]) as H.
    cbv zeta in H.
    destruct (H ltac:(unfold UINT32_MAX; simpl; lia)) as (_ & _ & _ & _ & Hp).
    exact (Hp 0 ltac:(lia) ltac:(discriminate) eq_refl).
  - pose proof (audio_energy_db_spec log10f_unit
                  [S754_finite true 8388608 (-57); S754_finite false 8388608 (-57)])
      as H.
    cbv zeta in H.
    destruct (H ltac:(unfold UINT32_MAX; simpl; lia)) as (_ & _ & _ & _ & Hp).
    exact (Hp (-34) ltac:(lia) ltac:(discriminate) eq_refl).
Defined.
